(** * eq-realtime-server: the room simulation of the realtime server

    A shallow embedding of the server's simulation core (room registry,
    message handlers, tick loop) and the properties of its specification.

    Conventions of the embedding.
    - JavaScript numbers that only ever hold integers (hit points, mana,
      damage, millisecond time stamps) are [Z]; arithmetic on them is exact
      in IEEE doubles far beyond the values that occur here.
    - Positions, velocities, angles and the tick delta are IEEE binary64
      numbers: Rocq's primitive [float], with the operators in the order
      in which the source evaluates them.
    - A JavaScript [Map] is an association list in insertion order
      ([JsMap]): [set] on a present key keeps the entry's place, a new key
      goes last, iteration runs front to back.
    - Objects held in a map are mutated in place by the source; here the
      entry is rewritten under its key, which keeps its place.
    - [Math.random()] is an oracle: a stream of numbers consumed front first.
      [Math.cos], [Math.sin] and [Math.atan2], which ECMAScript leaves to the
      implementation, are the methods of the class [Host].
    - A message handler is a function of the fields its parameter list
      destructures from the event's argument; [onInput] adds the
      destructuring itself, which throws when the argument is missing or
      [null].
    - [nowMs()] readings are inputs of the handler that reads them; the time
      tag [t] that [emitEvent] attaches to an outgoing event is a further
      clock reading and is not part of the modelled event. *)

From Stdlib Require Import ZArith List String Bool Lia Floats Uint63 DecimalString.
Import ListNotations.
Set Warnings "-inexact-float".

Local Open Scope string_scope.
Local Open Scope list_scope.
Local Open Scope Z_scope.

(** ** JavaScript values and numbers *)

(** What a message field can hold after deserialisation. *)
Inductive JsVal : Type :=
| JUndefined
| JNull
| JBool (b : bool)
| JNumber (f : float)
| JString (s : string).

(** [typeof v === "number"] *)
Definition typeof_number (v : JsVal) : bool :=
  match v with
  | JNumber _ => true
  | _ => false
  end.

(** Truthiness of a string-or-absent field, as [||], [!] and [?:] test it. *)
Definition truthyS (s : string) : bool := negb (s =? "")%string.

Definition truthy (o : option string) : bool :=
  match o with
  | Some s => truthyS s
  | None => false
  end.

(** [a || b] for a string-or-absent [a]. *)
Definition orElse (a : option string) (b : string) : string :=
  match a with
  | Some s => if truthyS s then s else b
  | None => b
  end.

(** [!x] for a number: true on [0], [-0] and [NaN]. *)
Definition falsyNum (f : float) : bool := PrimFloat.is_zero f || PrimFloat.is_nan f.

(** An integer as a double (exact below [2^53]). *)
Definition Z2float (n : Z) : float :=
  if n <? 0 then PrimFloat.opp (PrimFloat.of_uint63 (Uint63.of_Z (- n)))
  else PrimFloat.of_uint63 (Uint63.of_Z n).

(** [Math.floor] of a finite double, as an integer. *)
Definition Math_floor (f : float) : Z :=
  match Prim2SF f with
  | S754_finite s m e =>
      let n := if s then Z.neg m else Z.pos m in
      if 0 <=? e then Z.shiftl n e else Z.shiftr n (- e)
  | _ => 0
  end.

(** An integer in a template literal: its decimal digits. *)
Definition showZ (n : Z) : string := NilZero.string_of_int (Z.to_int n).

Definition Math_max (a b : float) : float :=
  if PrimFloat.is_nan a || PrimFloat.is_nan b then nan
  else if PrimFloat.ltb a b then b
  else if PrimFloat.ltb b a then a
  else if PrimFloat.get_sign a then b else a.

Definition Math_min (a b : float) : float :=
  if PrimFloat.is_nan a || PrimFloat.is_nan b then nan
  else if PrimFloat.ltb a b then a
  else if PrimFloat.ltb b a then b
  else if PrimFloat.get_sign a then a else b.

Definition Math_PI : float := 0x1.921fb54442d18p+1%float.

(** The [Math.random()] oracle. *)
Definition Rand : Type := nat -> float.

Definition rnext (r : Rand) : Rand := fun n => r (S n).

(** ** Insertion-ordered maps with string keys *)

Module JsMap.

Definition t (V : Type) : Type := list (string * V).

Section Ops.
Context {V : Type}.

Fixpoint get (k : string) (m : t V) : option V :=
  match m with
  | [] => None
  | (k', v) :: r => if (k' =? k)%string then Some v else get k r
  end.

Definition has (k : string) (m : t V) : bool :=
  match get k m with
  | Some _ => true
  | None => false
  end.

Fixpoint set (k : string) (v : V) (m : t V) : t V :=
  match m with
  | [] => [(k, v)]
  | (k', v') :: r => if (k' =? k)%string then (k, v) :: r else (k', v') :: set k v r
  end.

Fixpoint delete (k : string) (m : t V) : t V :=
  match m with
  | [] => []
  | (k', v') :: r => if (k' =? k)%string then r else (k', v') :: delete k r
  end.

Definition size (m : t V) : nat := List.length m.

Definition keys (m : t V) : list string := map fst m.

Definition values (m : t V) : list V := map snd m.

End Ops.

End JsMap.

(** ** Configuration *)

Module CONFIG.
Definition tickHz : Z := 15.
Definition dtClampSeconds : float := 0.25%float.
Definition playerSpeed : float := 4.0%float.
Definition enemySpeed : float := 2.2%float.
Definition enemyChaseRange : float := 12%float.
Definition enemyCount : nat := 6.
Definition projectileSpeed : float := 10.0%float.
Definition maxProjectilesPerRoom : nat := 200.
Module defaultFireball.
Definition castTimeMs : Z := 650.
Definition damage : Z := 12.
Definition lifetimeMs : Z := 2500.
End defaultFireball.
End CONFIG.

(** ** Entities *)

Module Cast.
Record t : Type := mk {
  spellId : string;
  targetEnemyId : option string;
  startAt : Z;
  finishAt : Z
}.
End Cast.

Module Player.
Record t : Type := mk {
  socketId : string;
  playerId : string;
  name : string;
  x : float;
  z : float;
  vx : float;
  vz : float;
  rotY : float;
  hp : Z;
  maxHp : Z;
  mana : Z;
  maxMana : Z;
  casts : list Cast.t
}.

Definition set_pos (p : t) (x' z' : float) : t :=
  mk (socketId p) (playerId p) (name p) x' z' (vx p) (vz p) (rotY p)
     (hp p) (maxHp p) (mana p) (maxMana p) (casts p).

Definition set_vx (p : t) (v : float) : t :=
  mk (socketId p) (playerId p) (name p) (x p) (z p) v (vz p) (rotY p)
     (hp p) (maxHp p) (mana p) (maxMana p) (casts p).

Definition set_vz (p : t) (v : float) : t :=
  mk (socketId p) (playerId p) (name p) (x p) (z p) (vx p) v (rotY p)
     (hp p) (maxHp p) (mana p) (maxMana p) (casts p).

Definition set_rotY (p : t) (v : float) : t :=
  mk (socketId p) (playerId p) (name p) (x p) (z p) (vx p) (vz p) v
     (hp p) (maxHp p) (mana p) (maxMana p) (casts p).

Definition set_casts (p : t) (cs : list Cast.t) : t :=
  mk (socketId p) (playerId p) (name p) (x p) (z p) (vx p) (vz p) (rotY p)
     (hp p) (maxHp p) (mana p) (maxMana p) cs.
End Player.

Inductive EnemyState : Type := idle | wander | chase.

Module Enemy.
Record t : Type := mk {
  enemyId : string;
  x : float;
  z : float;
  vx : float;
  vz : float;
  rotY : float;
  state : EnemyState;
  nextWanderAt : float;
  hp : Z;
  maxHp : Z
}.

Definition set_hp (e : t) (h : Z) : t :=
  mk (enemyId e) (x e) (z e) (vx e) (vz e) (rotY e) (state e) (nextWanderAt e)
     h (maxHp e).
End Enemy.

Module Projectile.
Record t : Type := mk {
  projId : string;
  type : string;
  x : float;
  z : float;
  vx : float;
  vz : float;
  rotY : float;
  ownerId : string;
  targetEnemyId : string;
  createdAt : Z;
  expiresAt : Z;
  damage : Z
}.

Definition set_pos (p : t) (x' z' : float) : t :=
  mk (projId p) (type p) x' z' (vx p) (vz p) (rotY p) (ownerId p)
     (targetEnemyId p) (createdAt p) (expiresAt p) (damage p).
End Projectile.

Module Env.
Record t : Type := mk {
  timeOfDay : float;
  weather : string
}.
End Env.

Module Room.
Record t : Type := mk {
  players : JsMap.t Player.t;
  enemies : JsMap.t Enemy.t;
  projectiles : JsMap.t Projectile.t;
  env : Env.t
}.

Definition set_players (r : t) (ps : JsMap.t Player.t) : t :=
  mk ps (enemies r) (projectiles r) (env r).

Definition set_enemies (r : t) (es : JsMap.t Enemy.t) : t :=
  mk (players r) es (projectiles r) (env r).

Definition set_projectiles (r : t) (ps : JsMap.t Projectile.t) : t :=
  mk (players r) (enemies r) ps (env r).
End Room.

(** The server's module-level state: the room registry and [lastTick]. *)
Record World : Type := mkWorld {
  rooms : JsMap.t Room.t;
  lastTick : Z
}.

(** ** Messages *)

(** Inbound payloads. A field a client may leave out is an [option];
    [vx], [vz] and [rotY] are tested with [typeof] and so carry any value. *)
Module JoinRoomMsg.
Record t : Type := mk {
  roomId : option string;
  playerId : option string;
  name : option string
}.
End JoinRoomMsg.

Module InputMsg.
Record t : Type := mk {
  roomId : option string;
  vx : JsVal;
  vz : JsVal;
  rotY : JsVal
}.
End InputMsg.

Module Payload.
Record t : Type := mk {
  spellId : option string;
  targetEnemyId : option string
}.
End Payload.

Module ActionMsg.
Record t : Type := mk {
  roomId : option string;
  actorId : option string;
  type : string;
  payload : option Payload.t
}.
End ActionMsg.

(** The [type] and [payload] of an outgoing event. *)
Inductive EventBody : Type :=
| player_joined (playerId name : string)
| player_left (playerId name : string)
| cast_start (actorId spellId : string) (targetEnemyId : option string) (castTimeMs : Z)
| cast_finish (actorId spellId : string) (targetEnemyId : option string)
| spell_effect (actorId spellId note : string)
| projectile_spawn (projId type ownerId targetEnemyId : string)
| projectile_despawn (projId : string)
| hit (projId ownerId targetType targetId : string)
| damage (sourceId targetType targetId : string) (amount hp maxHp : Z)
| enemy_death (enemyId : string).

Module PlayerView.
Record t : Type := mk {
  playerId : string; name : string; x : float; z : float; rotY : float;
  hp : Z; maxHp : Z; mana : Z; maxMana : Z
}.
End PlayerView.

Module EnemyView.
Record t : Type := mk {
  enemyId : string; x : float; z : float; rotY : float; state : EnemyState;
  hp : Z; maxHp : Z
}.
End EnemyView.

Module ProjectileView.
Record t : Type := mk {
  projId : string; type : string; x : float; z : float; rotY : float;
  ownerId : string
}.
End ProjectileView.

Module SnapshotMsg.
Record t : Type := mk {
  t_ : Z;
  players : list PlayerView.t;
  enemies : list EnemyView.t;
  projectiles : list ProjectileView.t;
  env : Env.t
}.
End SnapshotMsg.

(** What the server sends: [socket.emit("joined", ...)] to one connection,
    events and snapshots to a room. *)
Inductive Output : Type :=
| Joined (socket roomId : string)
| Event (roomId : string) (body : EventBody)
| Snapshot (roomId : string) (s : SnapshotMsg.t).

Definition emitEvent (roomId : string) (body : EventBody) : Output :=
  Event roomId body.

(** ** Vector utilities *)

Definition clamp (v min max : float) : float := Math_max min (Math_min max v).

Definition len (x z : float) : float := PrimFloat.sqrt (x * x + z * z)%float.

Definition norm2 (x z : float) : float * float :=
  let m := len x z in
  if (m <? 1e-6)%float then (0%float, 0%float) else ((x / m)%float, (z / m)%float).

(** ** Room registry and lookups *)

(** The seeding loop of [getRoom]: [k] iterations left, loop counter [i]. *)
Fixpoint seedEnemies (k : nat) (i : Z) (rnd : Rand) (enemies : JsMap.t Enemy.t)
  : JsMap.t Enemy.t * Rand :=
  match k with
  | O => (enemies, rnd)
  | S k' =>
      let enemyId := ("e" ++ showZ (i + 1))%string in
      let e := Enemy.mk enemyId (rnd 0%nat * 20 - 10)%float (rnd 1%nat * 20 - 10)%float
                        0%float 0%float 0%float wander 0%float 50 50 in
      seedEnemies k' (i + 1) (rnext (rnext rnd)) (JsMap.set enemyId e enemies)
  end.

Definition getRoom (rooms : JsMap.t Room.t) (roomId : string) (rnd : Rand)
  : JsMap.t Room.t * Room.t * Rand :=
  match JsMap.get roomId rooms with
  | Some room => (rooms, room, rnd)
  | None =>
      let '(enemies, rnd') := seedEnemies CONFIG.enemyCount 0 rnd [] in
      let room := Room.mk [] enemies [] (Env.mk 12.0%float "clear") in
      (JsMap.set roomId room rooms, room, rnd')
  end.

(** [rooms.get(roomId)] for a room id taken from a message. *)
Definition lookupRoom (rooms : JsMap.t Room.t) (roomId : option string) : option (string * Room.t) :=
  match roomId with
  | Some rid =>
      match JsMap.get rid rooms with
      | Some room => Some (rid, room)
      | None => None
      end
  | None => None
  end.

(** The player is returned with the key it is stored under, so that the
    caller's mutation of the object can be written back in place. *)
Definition findPlayerByPlayerId (room : Room.t) (playerId : option string)
  : option (string * Player.t) :=
  match playerId with
  | Some a => find (fun kp => (Player.playerId (snd kp) =? a)%string) (Room.players room)
  | None => None
  end.

Definition findEnemy (room : Room.t) (enemyId : string) : option Enemy.t :=
  JsMap.get enemyId (Room.enemies room).

Fixpoint pickNearestLoop (ps : list Player.t) (x z : float)
                         (best : option Player.t) (bestD2 : float) : option Player.t :=
  match ps with
  | [] => best
  | p :: r =>
      let dx := (Player.x p - x)%float in
      let dz := (Player.z p - z)%float in
      let d2 := (dx * dx + dz * dz)%float in
      if (d2 <? bestD2)%float then pickNearestLoop r x z (Some p) d2
      else pickNearestLoop r x z best bestD2
  end.

Definition pickNearestPlayer (room : Room.t) (x z : float) : option Player.t :=
  pickNearestLoop (JsMap.values (Room.players room)) x z None infinity.

Definition spawnProjectile (room : Room.t) (proj : Projectile.t) : Room.t :=
  let projectiles := Room.projectiles room in
  let projectiles1 :=
    if (CONFIG.maxProjectilesPerRoom <? JsMap.size projectiles)%nat then
      match JsMap.keys projectiles with
      | firstKey :: _ =>
          if truthyS firstKey then JsMap.delete firstKey projectiles else projectiles
      | [] => projectiles
      end
    else projectiles in
  Room.set_projectiles room (JsMap.set (Projectile.projId proj) proj projectiles1).

(** ** Message handlers *)

Definition joinRoom (socket : string) (msg : JoinRoomMsg.t) (w : World) (rnd : Rand)
  : World * Rand * list Output :=
  match JoinRoomMsg.roomId msg with
  | Some roomId =>
      if truthyS roomId then
        let '(rooms1, room, rnd1) := getRoom (rooms w) roomId rnd in
        let playerId := orElse (JoinRoomMsg.playerId msg) socket in
        let name := orElse (JoinRoomMsg.name msg) "Player" in
        let p := Player.mk socket playerId name 0%float 0%float 0%float 0%float 0%float
                           100 100 50 50 [] in
        let room1 := Room.set_players room (JsMap.set socket p (Room.players room)) in
        (mkWorld (JsMap.set roomId room1 rooms1) (lastTick w), rnd1,
         [Joined socket roomId; emitEvent roomId (player_joined playerId name)])
      else (w, rnd, [])
  | None => (w, rnd, [])
  end.

(** [if (typeof v === "number") field = v] *)
Definition assignIfNumber (v : JsVal) (p : Player.t) (set : Player.t -> float -> Player.t)
  : Player.t :=
  match v with
  | JNumber f => set p f
  | _ => p
  end.

Definition input (socket : string) (msg : InputMsg.t) (w : World) : World :=
  match lookupRoom (rooms w) (InputMsg.roomId msg) with
  | None => w
  | Some (roomId, room) =>
      match JsMap.get socket (Room.players room) with
      | None => w
      | Some p =>
          let p1 := assignIfNumber (InputMsg.vx msg) p Player.set_vx in
          let p2 := assignIfNumber (InputMsg.vz msg) p1 Player.set_vz in
          let p3 := assignIfNumber (InputMsg.rotY msg) p2 Player.set_rotY in
          let room1 := Room.set_players room (JsMap.set socket p3 (Room.players room)) in
          mkWorld (JsMap.set roomId room1 (rooms w)) (lastTick w)
      end
  end.

(** The first argument of an [input] event, as [socket.on] passes it to the
    handler: nothing ([undefined]), [null], or a value with fields. The
    handler's parameter list [({ roomId, vx, vz, rotY })] destructures it
    before the body runs. Destructuring [undefined] or [null] throws a
    [TypeError]; any other value destructures, a field it does not have
    reading as [undefined]. *)
Inductive EventArg (M : Type) : Type :=
| ArgUndefined
| ArgNull
| ArgObject (msg : M).

Arguments ArgUndefined {M}.
Arguments ArgNull {M}.
Arguments ArgObject {M} msg.

(** How a call of a handler ends. *)
Inductive Completion (A : Type) : Type :=
| Returned (a : A)
| ThrewTypeError.

Arguments Returned {A} a.
Arguments ThrewTypeError {A}.

(** The [input] handler as the socket calls it: the parameter list, then
    the body [input]. *)
Definition onInput (socket : string) (arg : EventArg InputMsg.t) (w : World)
  : Completion World :=
  match arg with
  | ArgObject msg => Returned (input socket msg w)
  | ArgUndefined | ArgNull => ThrewTypeError
  end.

(** [findPlayerByPlayerId(room, actorId) || room.players.get(socket.id)] *)
Definition resolveActor (room : Room.t) (actorId : option string) (socket : string)
  : option (string * Player.t) :=
  match findPlayerByPlayerId room actorId with
  | Some kp => Some kp
  | None =>
      match JsMap.get socket (Room.players room) with
      | Some p => Some (socket, p)
      | None => None
      end
  end.

(** [payload?.spellId] and [payload?.targetEnemyId] *)
Definition payload_spellId (payload : option Payload.t) : option string :=
  match payload with
  | Some pl => Payload.spellId pl
  | None => None
  end.

Definition payload_targetEnemyId (payload : option Payload.t) : option string :=
  match payload with
  | Some pl => Payload.targetEnemyId pl
  | None => None
  end.

(** The entry the [cast] branch pushes; [startRead] and [finishRead] are
    its two [nowMs()] readings. *)
Definition castEntry (payload : option Payload.t) (startRead finishRead : Z) : Cast.t :=
  let spellId := orElse (payload_spellId payload) "fireball" in
  let targetEnemyId :=
    if truthy (payload_targetEnemyId payload) then payload_targetEnemyId payload else None in
  let castTimeMs := CONFIG.defaultFireball.castTimeMs in
  Cast.mk spellId targetEnemyId startRead (finishRead + castTimeMs).

(** The [cast] branch. *)
Definition actionCast (roomId : string) (room : Room.t) (key : string) (actor : Player.t)
                      (payload : option Payload.t) (startRead finishRead : Z)
  : Room.t * list Output :=
  let c := castEntry payload startRead finishRead in
  let actor1 := Player.set_casts actor (Player.casts actor ++ [c]) in
  (Room.set_players room (JsMap.set key actor1 (Room.players room)),
   [emitEvent roomId (cast_start (Player.playerId actor) (Cast.spellId c) (Cast.targetEnemyId c)
                                 CONFIG.defaultFireball.castTimeMs)]).

(** [targetEnemyId ? findEnemy(room, targetEnemyId) : null], the enemy with
    the key it is stored under. *)
Definition attackTarget (room : Room.t) (payload : option Payload.t)
  : option (string * Enemy.t) :=
  match payload_targetEnemyId payload with
  | Some id =>
      if truthyS id then
        match findEnemy room id with
        | Some e => Some (id, e)
        | None => None
        end
      else None
  | None => None
  end.

(** The [attack] branch. *)
Definition actionAttack (roomId : string) (room : Room.t) (actor : Player.t)
                        (payload : option Payload.t)
  : Room.t * list Output :=
  match attackTarget room payload with
  | Some (id, e) =>
      let dmg := 6 in
      let e1 := Enemy.set_hp e (Z.max 0 (Enemy.hp e - dmg)) in
      (Room.set_enemies room (JsMap.set id e1 (Room.enemies room)),
       emitEvent roomId (damage (Player.playerId actor) "enemy" (Enemy.enemyId e1) dmg
                                (Enemy.hp e1) (Enemy.maxHp e1))
       :: (if Enemy.hp e1 <=? 0 then [emitEvent roomId (enemy_death (Enemy.enemyId e1))] else []))
  | None => (room, [])
  end.

Definition action (socket : string) (msg : ActionMsg.t) (startRead finishRead : Z) (w : World)
  : World * list Output :=
  match lookupRoom (rooms w) (ActionMsg.roomId msg) with
  | None => (w, [])
  | Some (roomId, room) =>
      match resolveActor room (ActionMsg.actorId msg) socket with
      | None => (w, [])
      | Some (key, actor) =>
          if (ActionMsg.type msg =? "cast")%string then
            let '(room1, out) :=
              actionCast roomId room key actor (ActionMsg.payload msg) startRead finishRead in
            (mkWorld (JsMap.set roomId room1 (rooms w)) (lastTick w), out)
          else if (ActionMsg.type msg =? "attack")%string then
            let '(room1, out) := actionAttack roomId room actor (ActionMsg.payload msg) in
            (mkWorld (JsMap.set roomId room1 (rooms w)) (lastTick w), out)
          else (w, [])
      end
  end.

(** The loop of the disconnect handler stops at the first room that holds
    the connection. *)
Definition disconnect (socket : string) (w : World) : World * list Output :=
  match find (fun kr => JsMap.has socket (Room.players (snd kr))) (rooms w) with
  | None => (w, [])
  | Some (roomId, room) =>
      match JsMap.get socket (Room.players room) with
      | None => (w, [])
      | Some p =>
          let room1 := Room.set_players room (JsMap.delete socket (Room.players room)) in
          let rooms1 := JsMap.set roomId room1 (rooms w) in
          (mkWorld (if (JsMap.size (Room.players room1) =? 0)%nat
                    then JsMap.delete roomId rooms1 else rooms1)
                   (lastTick w),
           [emitEvent roomId (player_left (Player.playerId p) (Player.name p))])
      end
  end.

(** ** The tick loop *)

(** The host's [Math.cos], [Math.sin] and [Math.atan2]. *)
Class Host : Type := {
  Math_cos : float -> float;
  Math_sin : float -> float;
  Math_atan2 : float -> float -> float
}.

Section Tick.

Context {host : Host}.

(** Step 1, one player: authoritative movement. *)
Definition movePlayer (dt : float) (p : Player.t) : Player.t :=
  let vx := Player.vx p in
  let vz := Player.vz p in
  let m := len vx vz in
  let '(vx1, vz1) := if (1 <? m)%float then ((vx / m)%float, (vz / m)%float) else (vx, vz) in
  Player.set_pos p (Player.x p + vx1 * CONFIG.playerSpeed * dt)%float
                   (Player.z p + vz1 * CONFIG.playerSpeed * dt)%float.

Definition movePlayers (dt : float) (players : JsMap.t Player.t) : JsMap.t Player.t :=
  map (fun kp => (fst kp, movePlayer dt (snd kp))) players.

(** Step 2, one enemy: pick a state and a velocity, then move. *)
Definition stepEnemy (now : Z) (dt : float) (room : Room.t) (rnd : Rand) (e : Enemy.t)
  : Enemy.t * Rand :=
  let '(e1, rnd1) :=
    match pickNearestPlayer room (Enemy.x e) (Enemy.z e) with
    | None =>
        (Enemy.mk (Enemy.enemyId e) (Enemy.x e) (Enemy.z e) 0%float 0%float (Enemy.rotY e)
                  idle (Enemy.nextWanderAt e) (Enemy.hp e) (Enemy.maxHp e), rnd)
    | Some target =>
        let dx := (Player.x target - Enemy.x e)%float in
        let dz := (Player.z target - Enemy.z e)%float in
        let dist := PrimFloat.sqrt (dx * dx + dz * dz)%float in
        let '(st, vx, vz, nextWanderAt, rnd') :=
          if (dist <? CONFIG.enemyChaseRange)%float then
            let n := norm2 dx dz in
            (chase, fst n, snd n, Enemy.nextWanderAt e, rnd)
          else if falsyNum (Enemy.nextWanderAt e)
                  || (Enemy.nextWanderAt e <=? Z2float now)%float then
            let ang := (rnd 0%nat * Math_PI * 2)%float in
            (wander, Math_cos ang, Math_sin ang,
             (Z2float now + (800 + rnd 1%nat * 1200))%float, rnext (rnext rnd))
          else (wander, Enemy.vx e, Enemy.vz e, Enemy.nextWanderAt e, rnd) in
        (Enemy.mk (Enemy.enemyId e) (Enemy.x e) (Enemy.z e) vx vz (Math_atan2 vx vz)
                  st nextWanderAt (Enemy.hp e) (Enemy.maxHp e), rnd')
    end in
  (Enemy.mk (Enemy.enemyId e1)
            (Enemy.x e1 + Enemy.vx e1 * CONFIG.enemySpeed * dt)%float
            (Enemy.z e1 + Enemy.vz e1 * CONFIG.enemySpeed * dt)%float
            (Enemy.vx e1) (Enemy.vz e1) (Enemy.rotY e1) (Enemy.state e1)
            (Enemy.nextWanderAt e1) (Enemy.hp e1) (Enemy.maxHp e1), rnd1).

Fixpoint stepEnemies (now : Z) (dt : float) (room : Room.t) (rnd : Rand)
                     (es : JsMap.t Enemy.t) : JsMap.t Enemy.t * Rand :=
  match es with
  | [] => ([], rnd)
  | (k, e) :: r =>
      let '(e1, rnd1) := stepEnemy now dt room rnd e in
      let '(r1, rnd2) := stepEnemies now dt room rnd1 r in
      ((k, e1) :: r1, rnd2)
  end.

(** Step 3: the projectile a finished fireball fires at [target]. *)
Definition fireball (now : Z) (p : Player.t) (target : Enemy.t) (rnd : Rand) : Projectile.t :=
  let dx := (Enemy.x target - Player.x p)%float in
  let dz := (Enemy.z target - Player.z p)%float in
  let n := norm2 dx dz in
  let projId := ("p_" ++ Player.playerId p ++ "_" ++ showZ now ++ "_"
                      ++ showZ (Math_floor (rnd 0%nat * 9999)%float))%string in
  Projectile.mk projId "fireball" (Player.x p) (Player.z p)
                (fst n * CONFIG.projectileSpeed)%float (snd n * CONFIG.projectileSpeed)%float
                (Math_atan2 (fst n) (snd n)) (Player.playerId p) (Enemy.enemyId target)
                now (now + CONFIG.defaultFireball.lifetimeMs) CONFIG.defaultFireball.damage.

(** [c.targetEnemyId ? findEnemy(room, c.targetEnemyId) : null] *)
Definition castTarget (room : Room.t) (c : Cast.t) : option Enemy.t :=
  match Cast.targetEnemyId c with
  | Some id => if truthyS id then findEnemy room id else None
  | None => None
  end.

(** Step 3, one due cast of player [p]. *)
Definition finishCast (roomId : string) (now : Z) (p : Player.t) (c : Cast.t)
                      (room : Room.t) (rnd : Rand) : Room.t * Rand * list Output :=
  let finished :=
    emitEvent roomId (cast_finish (Player.playerId p) (Cast.spellId c) (Cast.targetEnemyId c)) in
  if (Cast.spellId c =? "fireball")%string then
    match castTarget room c with
    | Some target =>
        let proj := fireball now p target rnd in
        (spawnProjectile room proj, rnext rnd,
         [finished;
          emitEvent roomId (projectile_spawn (Projectile.projId proj) "fireball"
                                             (Player.playerId p) (Enemy.enemyId target))])
    | None =>
        (room, rnd,
         [finished; emitEvent roomId (spell_effect (Player.playerId p) "fireball" "no_target")])
    end
  else (room, rnd, [finished]).

(** Step 3, the cast list of one player: the entries kept in [remaining],
    the room after the due ones fired. *)
Fixpoint resolveCasts (roomId : string) (now : Z) (p : Player.t) (cs : list Cast.t)
                      (room : Room.t) (rnd : Rand)
  : list Cast.t * Room.t * Rand * list Output :=
  match cs with
  | [] => ([], room, rnd, [])
  | c :: r =>
      if now <? Cast.finishAt c then
        let '(remaining, room1, rnd1, out) := resolveCasts roomId now p r room rnd in
        (c :: remaining, room1, rnd1, out)
      else
        let '(room1, rnd1, out1) := finishCast roomId now p c room rnd in
        let '(remaining, room2, rnd2, out2) := resolveCasts roomId now p r room1 rnd1 in
        (remaining, room2, rnd2, out1 ++ out2)
  end.

(** Step 3 over the players; [room] carries the enemies read and the
    projectiles written while the player entries are rewritten. *)
Fixpoint stepCasts (roomId : string) (now : Z) (ps : JsMap.t Player.t)
                   (room : Room.t) (rnd : Rand)
  : JsMap.t Player.t * Room.t * Rand * list Output :=
  match ps with
  | [] => ([], room, rnd, [])
  | (k, p) :: r =>
      match Player.casts p with
      | [] =>
          let '(r1, room1, rnd1, out) := stepCasts roomId now r room rnd in
          ((k, p) :: r1, room1, rnd1, out)
      | _ :: _ =>
          let '(remaining, room1, rnd1, out1) :=
            resolveCasts roomId now p (Player.casts p) room rnd in
          let '(r1, room2, rnd2, out2) := stepCasts roomId now r room1 rnd1 in
          ((k, Player.set_casts p remaining) :: r1, room2, rnd2, out1 ++ out2)
      end
  end.

(** Step 4: the hit test, on the squared distance. *)
Definition withinHitRadius (e : Enemy.t) (proj : Projectile.t) : bool :=
  let dx := (Enemy.x e - Projectile.x proj)%float in
  let dz := (Enemy.z e - Projectile.z proj)%float in
  (dx * dx + dz * dz <? 0.6 * 0.6)%float.

Definition moveProjectile (dt : float) (proj : Projectile.t) : Projectile.t :=
  Projectile.set_pos proj (Projectile.x proj + Projectile.vx proj * dt)%float
                          (Projectile.z proj + Projectile.vz proj * dt)%float.

(** Step 4, one projectile: the enemies after it, the projectile if it stays
    in the map, the events raised. *)
Definition stepProjectile (roomId : string) (now : Z) (dt : float) (enemies : JsMap.t Enemy.t)
                          (projId : string) (proj : Projectile.t)
  : JsMap.t Enemy.t * option Projectile.t * list Output :=
  let proj1 := moveProjectile dt proj in
  if Projectile.expiresAt proj1 <=? now then
    (enemies, None, [emitEvent roomId (projectile_despawn projId)])
  else if truthyS (Projectile.targetEnemyId proj1) then
    match JsMap.get (Projectile.targetEnemyId proj1) enemies with
    | Some e =>
        if withinHitRadius e proj1 then
          let e1 := Enemy.set_hp e (Z.max 0 (Enemy.hp e - Projectile.damage proj1)) in
          (JsMap.set (Projectile.targetEnemyId proj1) e1 enemies, None,
           [emitEvent roomId (hit projId (Projectile.ownerId proj1) "enemy" (Enemy.enemyId e1));
            emitEvent roomId (damage (Projectile.ownerId proj1) "enemy" (Enemy.enemyId e1)
                                     (Projectile.damage proj1) (Enemy.hp e1) (Enemy.maxHp e1));
            emitEvent roomId (projectile_despawn projId)]
           ++ (if Enemy.hp e1 <=? 0 then [emitEvent roomId (enemy_death (Enemy.enemyId e1))]
               else []))
        else (enemies, Some proj1, [])
    | None => (enemies, Some proj1, [])
    end
  else (enemies, Some proj1, []).

Fixpoint stepProjectiles (roomId : string) (now : Z) (dt : float) (enemies : JsMap.t Enemy.t)
                         (ps : JsMap.t Projectile.t)
  : JsMap.t Enemy.t * JsMap.t Projectile.t * list Output :=
  match ps with
  | [] => (enemies, [], [])
  | (projId, proj) :: r =>
      let '(enemies1, kept, out1) := stepProjectile roomId now dt enemies projId proj in
      let '(enemies2, r1, out2) := stepProjectiles roomId now dt enemies1 r in
      (enemies2,
       match kept with
       | Some proj1 => (projId, proj1) :: r1
       | None => r1
       end,
       out1 ++ out2)
  end.

(** Step 5: the snapshot. *)
Definition snapshot (now : Z) (room : Room.t) : SnapshotMsg.t :=
  SnapshotMsg.mk now
    (map (fun p => PlayerView.mk (Player.playerId p) (Player.name p) (Player.x p) (Player.z p)
                                 (Player.rotY p) (Player.hp p) (Player.maxHp p)
                                 (Player.mana p) (Player.maxMana p))
         (JsMap.values (Room.players room)))
    (map (fun e => EnemyView.mk (Enemy.enemyId e) (Enemy.x e) (Enemy.z e) (Enemy.rotY e)
                                (Enemy.state e) (Enemy.hp e) (Enemy.maxHp e))
         (JsMap.values (Room.enemies room)))
    (map (fun pr => ProjectileView.mk (Projectile.projId pr) (Projectile.type pr)
                                      (Projectile.x pr) (Projectile.z pr) (Projectile.rotY pr)
                                      (Projectile.ownerId pr))
         (JsMap.values (Room.projectiles room)))
    (Room.env room).

(** The body of the tick loop for one room. *)
Definition tickRoom (roomId : string) (now : Z) (dt : float) (room : Room.t) (rnd : Rand)
  : Room.t * Rand * list Output :=
  let room1 := Room.set_players room (movePlayers dt (Room.players room)) in
  let '(enemies2, rnd2) := stepEnemies now dt room1 rnd (Room.enemies room1) in
  let room2 := Room.set_enemies room1 enemies2 in
  let '(players3, room3, rnd3, out3) := stepCasts roomId now (Room.players room2) room2 rnd2 in
  let '(enemies4, projectiles4, out4) :=
    stepProjectiles roomId now dt (Room.enemies room3) (Room.projectiles room3) in
  let room4 := Room.mk players3 enemies4 projectiles4 (Room.env room3) in
  (room4, rnd3, out3 ++ out4 ++ [Snapshot roomId (snapshot now room4)]).

Fixpoint tickRooms (now : Z) (dt : float) (rs : JsMap.t Room.t) (rnd : Rand)
  : JsMap.t Room.t * Rand * list Output :=
  match rs with
  | [] => ([], rnd, [])
  | (roomId, room) :: r =>
      let '(room1, rnd1, out1) := tickRoom roomId now dt room rnd in
      let '(r1, rnd2, out2) := tickRooms now dt r rnd1 in
      ((roomId, room1) :: r1, rnd2, out1 ++ out2)
  end.

(** The tick delta, from the clock reading [now] and [lastTick]. *)
Definition tickDelta (now lastTick : Z) : float :=
  clamp (Z2float (now - lastTick) / 1000)%float 0%float CONFIG.dtClampSeconds.

Definition tick (now : Z) (w : World) (rnd : Rand) : World * Rand * list Output :=
  let dt := tickDelta now (lastTick w) in
  let '(rooms1, rnd1, out) := tickRooms now dt (rooms w) rnd in
  (mkWorld rooms1 now, rnd1, out).

(** ** The server as a transition system *)

(** What the event loop runs next: a handler on a message of a connection,
    or the timer. Clock readings come with the input. *)
Inductive Input : Type :=
| InJoinRoom (socket : string) (msg : JoinRoomMsg.t)
| InInput (socket : string) (msg : InputMsg.t)
| InAction (socket : string) (msg : ActionMsg.t) (startRead finishRead : Z)
| InDisconnect (socket : string)
| InTick (now : Z).

Definition step (w : World) (rnd : Rand) (i : Input) : World * Rand * list Output :=
  match i with
  | InJoinRoom socket msg => joinRoom socket msg w rnd
  | InInput socket msg => (input socket msg w, rnd, [])
  | InAction socket msg startRead finishRead =>
      let '(w1, out) := action socket msg startRead finishRead w in (w1, rnd, out)
  | InDisconnect socket =>
      let '(w1, out) := disconnect socket w in (w1, rnd, out)
  | InTick now => tick now w rnd
  end.

Fixpoint run (w : World) (rnd : Rand) (ins : list Input) : World * Rand * list Output :=
  match ins with
  | [] => (w, rnd, [])
  | i :: r =>
      let '(w1, rnd1, out1) := step w rnd i in
      let '(w2, rnd2, out2) := run w1 rnd1 r in
      (w2, rnd2, out1 ++ out2)
  end.

(** The state at start-up: no room, [lastTick] the first clock reading. *)
Definition initial (startRead : Z) : World := mkWorld [] startRead.

End Tick.

(** * Vocabulary of the properties *)

(** ** Frames of the tick steps *)

(** [e1] is [e] up to what step 2 writes: same identity and hit points. *)
Definition sameVitals (e e1 : Enemy.t) : Prop :=
  Enemy.enemyId e1 = Enemy.enemyId e /\ Enemy.hp e1 = Enemy.hp e
  /\ Enemy.maxHp e1 = Enemy.maxHp e.

(** An entry whose deadline is still ahead: step 3 keeps it. *)
Definition pending (now : Z) (c : Cast.t) : bool := now <? Cast.finishAt c.

(** A player after step 3: the due entries are gone from its cast list. *)
Definition dropDue (now : Z) (p : Player.t) : Player.t :=
  Player.set_casts p (filter (pending now) (Player.casts p)).

(** [e1] is [e] up to what step 4 writes: same identity, place and
    [maxHp]. *)
Definition samePlace (e e1 : Enemy.t) : Prop :=
  Enemy.enemyId e1 = Enemy.enemyId e /\ Enemy.x e1 = Enemy.x e /\ Enemy.z e1 = Enemy.z e
  /\ Enemy.maxHp e1 = Enemy.maxHp e.

(** [es1] holds the enemies of [es] under the same keys, each at its place. *)
Definition sameEnemies (es es1 : JsMap.t Enemy.t) : Prop :=
  JsMap.keys es1 = JsMap.keys es
  /\ forall id, match JsMap.get id es, JsMap.get id es1 with
                | Some e, Some e1 => samePlace e e1
                | None, None => True
                | _, _ => False
                end.

(** ** Invariants *)

(** Every room of a registry has property [P]. *)
Definition allRooms (P : Room.t -> Prop) (rs : JsMap.t Room.t) : Prop :=
  Forall (fun kr => P (snd kr)) rs.

(** The vitals [joinRoom] gives a player. *)
Definition playerVitals (p : Player.t) : Prop :=
  Player.hp p = 100 /\ Player.maxHp p = 100 /\ Player.mana p = 50 /\ Player.maxMana p = 50.

Definition playersVital (room : Room.t) : Prop :=
  Forall (fun kp => playerVitals (snd kp)) (Room.players room).

(** The ids [getRoom] seeds. *)
Definition enemyIds : list string := ["e1"; "e2"; "e3"; "e4"; "e5"; "e6"].

Definition enemyVitals (e : Enemy.t) : Prop :=
  0 <= Enemy.hp e <= Enemy.maxHp e /\ Enemy.maxHp e = 50.

(** The enemy map holds the six seeded ids, every enemy has its hit points
    within bounds, and no projectile carries a negative damage. *)
Definition enemiesSound (room : Room.t) : Prop :=
  JsMap.keys (Room.enemies room) = enemyIds
  /\ Forall (fun ke => enemyVitals (snd ke)) (Room.enemies room)
  /\ Forall (fun kp => 0 <= Projectile.damage (snd kp)) (Room.projectiles room).

(** At most one projectile above the bound, and no empty projectile id
    (the guard [if (firstKey)] of [spawnProjectile] never skips an
    eviction). *)
Definition projectilesBounded (room : Room.t) : Prop :=
  (JsMap.size (Room.projectiles room) <= S CONFIG.maxProjectilesPerRoom)%nat
  /\ Forall (fun kp => truthyS (fst kp) = true) (Room.projectiles room).

(** Distinct keys, as the maps of the source have them. *)
Definition playersDistinct (room : Room.t) : Prop := NoDup (JsMap.keys (Room.players room)).

Definition wellFormed (w : World) : Prop :=
  NoDup (JsMap.keys (rooms w)) /\ allRooms playersDistinct (rooms w).

(** ** Handlers and movement *)

(** The field after [if (typeof v === "number") field = v]. *)
Definition fieldWritten (v : JsVal) (old new : float) : Prop :=
  (typeof_number v = true -> v = JNumber new)
  /\ (typeof_number v = false -> new = old).

(** ** Directions and deltas *)

(** The length of the vector [(x, z)], in double arithmetic. *)
Definition euclid (x z : float) : float := PrimFloat.sqrt (x * x + z * z)%float.

(** The unit vector along [(x, z)]: the vector divided by its length, and
    the zero vector when that length is below [1e-6]. *)
Definition unitVector (x z : float) : float * float :=
  let d := euclid x z in
  if (d <? 1e-6)%float then (0%float, 0%float) else ((x / d)%float, (z / d)%float).

(** [v] does not point away from [x]: it is a number, not negative when [x]
    is positive and not positive when [x] is negative. *)
Definition alongside (x v : float) : Prop :=
  PrimFloat.is_nan v = false
  /\ ((0 <? x)%float = true -> (0 <=? v)%float = true)
  /\ ((x <? 0)%float = true -> (v <=? 0)%float = true).

(** The velocity step 1 integrates: the intent, divided by its length when
    that exceeds 1. *)
Definition cappedIntent (vx vz : float) : float * float :=
  let m := euclid vx vz in
  if (1 <? m)%float then ((vx / m)%float, (vz / m)%float) else (vx, vz).

(** The time in seconds from the previous tick to this one, clamped to
    [0, 0.25]: zero when the clock has not advanced, a quarter of a second
    when more than that has passed. *)
Definition clampedDelta (now lastTick : Z) : float :=
  if now <=? lastTick then 0%float
  else
    let elapsed := (Z2float (now - lastTick) / 1000)%float in
    if (0.25 <? elapsed)%float then 0.25%float else elapsed.

(** The velocity of a fireball fired from [(px, pz)] at [(tx, tz)]: the
    unit vector along the offset, times [projectileSpeed] = 10. *)
Definition aimedAt (px pz tx tz : float) : float * float :=
  let u := unitVector (tx - px)%float (tz - pz)%float in
  ((fst u * 10.0)%float, (snd u * 10.0)%float).


(** The vectors with integer components of size up to 100: a sample of
    intents and offsets on which lengths are checked by computation. *)
Definition intVectors : list (Z * Z) :=
  flat_map (fun a => map (fun b => (Z.of_nat a - 100, Z.of_nat b - 100)) (seq 0 201))
           (seq 0 201).

(** [v] has length [l] to within [tol], in double arithmetic. *)
Definition hasLength (v : float * float) (l tol : float) : bool :=
  (PrimFloat.abs (euclid (fst v) (snd v) - l) <=? tol)%float.

(** The scenario of the specification: join room [r1], send
    [input {vx: 1, vz: 0}], then one tick 67 ms ([TICK_MS] at 15 Hz) after
    the previous one. *)
Definition scenarioMove (startRead : Z) : list Input :=
  [InJoinRoom "c1" (JoinRoomMsg.mk (Some "r1") (Some "p1") None);
   InInput "c1" (InputMsg.mk (Some "r1") (JNumber 1%float) (JNumber 0%float) JUndefined);
   InTick (startRead + 67)].

(** Join room [r1], send [input {vx: 3, vz: 4}], then one tick a full
    second after the previous one. *)
Definition scenarioStall (startRead : Z) : list Input :=
  [InJoinRoom "c1" (JoinRoomMsg.mk (Some "r1") (Some "p1") None);
   InInput "c1" (InputMsg.mk (Some "r1") (JNumber 3%float) (JNumber 4%float) JUndefined);
   InTick (startRead + 1000)].

(** ** One player entry through a run *)

(** Room [rid] exists and holds under connection [key] a player with
    property [Phi]. *)
Definition holdsPlayer (rid key : string) (Phi : Player.t -> Prop) (w : World) : Prop :=
  exists room p,
    JsMap.get rid (rooms w) = Some room
    /\ JsMap.get key (Room.players room) = Some p /\ Phi p.

(** What an input must satisfy for [holdsPlayer] to survive it: it is not
    the disconnect of [key], and [Phi] survives what it does to the player
    (a re-join of [key] into [rid] replaces it, a tick moves it and filters
    its casts). *)
Definition keeps (rid key : string) (Phi : Player.t -> Prop) (i : Input) : Prop :=
  match i with
  | InDisconnect s => s <> key
  | InJoinRoom s msg =>
      s = key -> JoinRoomMsg.roomId msg = Some rid ->
      forall playerId name,
        Phi (Player.mk key playerId name 0%float 0%float 0%float 0%float 0%float
                       100 100 50 50 [])
  | InTick now => forall dt p, Phi p -> Phi (dropDue now (movePlayer dt p))
  | InInput _ _ => True
  | InAction _ _ _ _ => True
  end.

(** ** Cast timing *)

Definition due (now : Z) (c : Cast.t) : bool := negb (pending now c).

(** The [cast_finish] event of entry [c] of player [p]. *)
Definition finishedEvent (roomId : string) (p : Player.t) (c : Cast.t) : Output :=
  Event roomId (cast_finish (Player.playerId p) (Cast.spellId c) (Cast.targetEnemyId c)).

Definition isCastFinish (o : Output) : bool :=
  match o with
  | Event _ (cast_finish _ _ _) => true
  | _ => false
  end.

(** What leaves the caster's entry in place: no disconnect of its
    connection, no re-join of its connection into the room, and only ticks
    before the deadline. *)
Definition quiet (key roomId : string) (deadline : Z) (i : Input) : Prop :=
  match i with
  | InDisconnect s => s <> key
  | InJoinRoom s msg => s = key -> JoinRoomMsg.roomId msg <> Some roomId
  | InTick now => now < deadline
  | InInput _ _ => True
  | InAction _ _ _ _ => True
  end.

(** ** Projectile lifecycle *)

(** The projectile after a flight of [dt] seconds. *)
Definition flown (dt : float) (proj : Projectile.t) : Projectile.t :=
  Projectile.set_pos proj (Projectile.x proj + Projectile.vx proj * dt)%float
                          (Projectile.z proj + Projectile.vz proj * dt)%float.

(** The projectile names a target, the target is among the enemies, and the
    squared distance between the two is below [0.6 * 0.6]. *)
Definition inRange (enemies : JsMap.t Enemy.t) (proj : Projectile.t) : bool :=
  negb (Projectile.targetEnemyId proj =? "")%string
  && match JsMap.get (Projectile.targetEnemyId proj) enemies with
     | Some e =>
         let dx := (Enemy.x e - Projectile.x proj)%float in
         let dz := (Enemy.z e - Projectile.z proj)%float in
         (dx * dx + dz * dz <? 0.6 * 0.6)%float
     | None => false
     end.

Inductive Fate : Type := Flying | Expired | HitTarget.

(** What becomes of a projectile at a tick: it expires when the clock has
    reached [expiresAt], whether or not it is in range; before that it
    hits when its flight of [dt] seconds brings it in range; otherwise it
    flies on. *)
Definition fateAt (now : Z) (dt : float) (enemies : JsMap.t Enemy.t) (proj : Projectile.t)
  : Fate :=
  if Projectile.expiresAt proj <=? now then Expired
  else if inRange enemies (flown dt proj) then HitTarget
  else Flying.

(** The [projectile_despawn], [hit] and [projectile_spawn] events of
    projectile [k] of room [roomId], and how many of them an output
    holds. *)
Definition isDespawnOf (roomId k : string) (o : Output) : bool :=
  match o with
  | Event rid (projectile_despawn id) => (rid =? roomId)%string && (id =? k)%string
  | _ => false
  end.

Definition isHitOf (roomId k : string) (o : Output) : bool :=
  match o with
  | Event rid (hit id _ _ _) => (rid =? roomId)%string && (id =? k)%string
  | _ => false
  end.

Definition isSpawnOf (roomId k : string) (o : Output) : bool :=
  match o with
  | Event rid (projectile_spawn id _ _ _) => (rid =? roomId)%string && (id =? k)%string
  | _ => false
  end.

Definition count (f : Output -> bool) (out : list Output) : nat := List.length (filter f out).

Definition hitsOf (f : Fate) : nat :=
  match f with
  | HitTarget => 1
  | _ => 0
  end.

Definition despawnsOf (f : Fate) : nat :=
  match f with
  | Flying => 0
  | _ => 1
  end.

(** No entry of the map [ps] other than the one under [k] is aimed at the
    target of [proj]. *)
Definition aimedApart (k : string) (proj : Projectile.t) (ps : JsMap.t Projectile.t) : Prop :=
  Forall (fun kp => fst kp = k
                    \/ Projectile.targetEnemyId (snd kp) <> Projectile.targetEnemyId proj) ps.

Section Step4.

Context {host : Host}.

(** Steps 1 to 3 of the loop body for one room: the players, the room, the
    random stream and the events with which step 4 starts. *)
Definition stepsBefore4 (roomId : string) (now : Z) (dt : float) (room : Room.t) (rnd : Rand)
  : JsMap.t Player.t * Room.t * Rand * list Output :=
  let room1 := Room.set_players room (movePlayers dt (Room.players room)) in
  let '(enemies2, rnd2) := stepEnemies now dt room1 rnd (Room.enemies room1) in
  let room2 := Room.set_enemies room1 enemies2 in
  stepCasts roomId now (Room.players room2) room2 rnd2.

(** The random stream with which the loop over the rooms reaches room
    [roomId]: as the rooms before it in the registry have left it. *)
Fixpoint streamFor (now : Z) (dt : float) (rs : JsMap.t Room.t) (rnd : Rand) (roomId : string)
  : Rand :=
  match rs with
  | [] => rnd
  | (k, room) :: r =>
      if (k =? roomId)%string then rnd
      else streamFor now dt r (snd (fst (tickRoom k now dt room rnd))) roomId
  end.

(** What step 4 of the tick at [now] starts from in room [roomId]: the
    enemies and the projectile map as steps 1 to 3 of that tick leave
    them. *)
Definition step4View (roomId : string) (now : Z) (w : World) (rnd : Rand)
  : option (JsMap.t Enemy.t * JsMap.t Projectile.t) :=
  match JsMap.get roomId (rooms w) with
  | Some room =>
      let dt := tickDelta now (lastTick w) in
      let '(_, room3, _, _) :=
        stepsBefore4 roomId now dt room (streamFor now dt (rooms w) rnd roomId) in
      Some (Room.enemies room3, Room.projectiles room3)
  | None => None
  end.

(** The entry under [k] in the projectile map of room [roomId] is followed
    through the inputs [ins], from the state [w]. At every tick, up to and
    including the one at which it leaves the map, the room is in the
    registry and step 4 finds under [k] the projectile as the tick before
    left it: the entry was neither evicted nor replaced, and the room was
    not deleted. After it has left the map, the room spawns no projectile
    under [k] again. *)
Fixpoint followed (roomId k : string) (proj : Projectile.t) (w : World) (rnd : Rand)
                  (ins : list Input) : Prop :=
  match ins with
  | [] => True
  | i :: r =>
      let w1 := fst (fst (step w rnd i)) in
      let rnd1 := snd (fst (step w rnd i)) in
      match i with
      | InTick now =>
          match step4View roomId now w rnd with
          | Some (enemies, ps) =>
              JsMap.get k ps = Some proj
              /\ match fateAt now (tickDelta now (lastTick w)) enemies proj with
                 | Flying =>
                     followed roomId k (flown (tickDelta now (lastTick w)) proj) w1 rnd1 r
                 | _ => count (isSpawnOf roomId k) (snd (run w1 rnd1 r)) = 0%nat
                 end
          | None => False
          end
      | _ => followed roomId k proj w1 rnd1 r
      end
  end.

(** What becomes of the followed projectile over the inputs: the fate the
    first tick that does not leave it flying decides, [Flying] if there is
    no such tick. *)
Fixpoint outcome (roomId k : string) (proj : Projectile.t) (w : World) (rnd : Rand)
                 (ins : list Input) : Fate :=
  match ins with
  | [] => Flying
  | i :: r =>
      let w1 := fst (fst (step w rnd i)) in
      let rnd1 := snd (fst (step w rnd i)) in
      match i with
      | InTick now =>
          match step4View roomId now w rnd with
          | Some (enemies, _) =>
              match fateAt now (tickDelta now (lastTick w)) enemies proj with
              | Flying => outcome roomId k (flown (tickDelta now (lastTick w)) proj) w1 rnd1 r
              | f => f
              end
          | None => Flying
          end
      | _ => outcome roomId k proj w1 rnd1 r
      end
  end.

(** The state [w], with the random stream [rnd], is one the server reaches
    from its start. *)
Definition reached (w : World) (rnd : Rand) : Prop :=
  exists startRead rnd0 ins0,
    w = fst (fst (run (initial startRead) rnd0 ins0))
    /\ rnd = snd (fst (run (initial startRead) rnd0 ins0)).

End Step4.

(** Distinct projectile ids, as the map of the source has them. *)
Definition projectilesDistinct (room : Room.t) : Prop :=
  NoDup (JsMap.keys (Room.projectiles room)).

(** * Vocabulary of the further properties

    What the properties beyond the specification's claims are stated with. *)

(** ** Numbers *)

(** A number that is not [NaN], with sign bit [s]. *)
Definition SFsigned (s : bool) (x : spec_float) : Prop :=
  match x with
  | S754_zero s' | S754_infinity s' | S754_finite s' _ _ => s' = s
  | S754_nan => False
  end.

(** The clock reading of the last tick of a list of inputs, [t] if it holds
    none. *)
Fixpoint lastTickOf (t : Z) (ins : list Input) : Z :=
  match ins with
  | [] => t
  | InTick now :: r => lastTickOf now r
  | _ :: r => lastTickOf t r
  end.

(** The enemy [getRoom] seeds at loop counter [i], from the random stream
    of the call. *)
Definition seededEnemy (rnd : Rand) (i : nat) : string * Enemy.t :=
  let enemyId := ("e" ++ showZ (Z.of_nat i + 1))%string in
  (enemyId,
   Enemy.mk enemyId (rnd (2 * i)%nat * 20 - 10)%float (rnd (2 * i + 1)%nat * 20 - 10)%float
            0%float 0%float 0%float wander 0%float 50 50).

(** The squared distance [pickNearestPlayer] compares. *)
Definition dist2 (x z : float) (p : Player.t) : float :=
  let dx := (Player.x p - x)%float in
  let dz := (Player.z p - z)%float in
  (dx * dx + dz * dz)%float.

(** What [pickNearestPlayer] answers on the players [ps], for the squared
    distance [d2]: nothing when no distance is below [Infinity]; else a
    player [p] with a distance below [Infinity], that is strictly nearer
    than every player before it whose distance is a number, and that no
    player after it is strictly nearer than. *)
Definition nearestOf (d2 : Player.t -> float) (ps : list Player.t) (r : option Player.t) : Prop :=
  match r with
  | Some p =>
      (d2 p <? infinity)%float = true
      /\ exists before after,
           ps = before ++ p :: after
           /\ Forall (fun q => (d2 p <? d2 q)%float = true \/ PrimFloat.is_nan (d2 q) = true)
                     before
           /\ Forall (fun q => (d2 q <? d2 p)%float = false) after
  | None => Forall (fun q => (d2 q <? infinity)%float = false) ps
  end.

(** The player [joinRoom] stores for a connection. *)
Definition freshPlayer (socket : string) (msg : JoinRoomMsg.t) : Player.t :=
  Player.mk socket (orElse (JoinRoomMsg.playerId msg) socket)
            (orElse (JoinRoomMsg.name msg) "Player")
            0%float 0%float 0%float 0%float 0%float 100 100 50 50 [].

(** No player of the room carries the player id [actorId]. *)
Definition unnamed (room : Room.t) (actorId : option string) : Prop :=
  Forall (fun kq => actorId <> Some (Player.playerId (snd kq))) (Room.players room).

(** The cases in which the [action] handler returns before doing anything:
    the room or the acting player does not resolve, the action type is
    neither [cast] nor [attack], or an attack names no enemy of the room. *)
Definition ignoredAction (socket : string) (msg : ActionMsg.t) (w : World) : Prop :=
  match lookupRoom (rooms w) (ActionMsg.roomId msg) with
  | None => True
  | Some (_, room) =>
      resolveActor room (ActionMsg.actorId msg) socket = None
      \/ (ActionMsg.type msg <> "cast" /\ ActionMsg.type msg <> "attack")
      \/ (ActionMsg.type msg = "attack" /\ attackTarget room (ActionMsg.payload msg) = None)
  end.

(** A room with at least one player. *)
Definition occupied (room : Room.t) : Prop := Room.players room <> [].

(** A cast entry as the [cast] branch writes it: a spell id that is not
    empty, and a target that is absent or not empty. *)
Definition castSane (c : Cast.t) : Prop :=
  Cast.spellId c <> "" /\ Cast.targetEnemyId c <> Some "".

(** A player entry as [joinRoom] and the handlers keep it: stored under its
    own connection id, with a name that is not empty. *)
Definition playerSane (kp : string * Player.t) : Prop :=
  Player.socketId (snd kp) = fst kp /\ Player.name (snd kp) <> ""
  /\ Forall castSane (Player.casts (snd kp)).

Definition playersSane (room : Room.t) : Prop := Forall playerSane (Room.players room).

(** The enemy map as [getRoom] seeds it: the six ids, each enemy stored
    under its own. *)
Definition enemiesKeyed (es : JsMap.t Enemy.t) : Prop :=
  JsMap.keys es = enemyIds /\ Forall (fun ke => Enemy.enemyId (snd ke) = fst ke) es.

(** A projectile entry as step 3 spawns it: a default fireball stored
    under its own id and aimed at a seeded enemy. *)
Definition fireballSane (kp : string * Projectile.t) : Prop :=
  Projectile.projId (snd kp) = fst kp
  /\ Projectile.type (snd kp) = "fireball"
  /\ Projectile.damage (snd kp) = CONFIG.defaultFireball.damage
  /\ Projectile.expiresAt (snd kp)
     = Projectile.createdAt (snd kp) + CONFIG.defaultFireball.lifetimeMs
  /\ In (Projectile.targetEnemyId (snd kp)) enemyIds.

Definition projectilesSane (room : Room.t) : Prop :=
  enemiesKeyed (Room.enemies room) /\ Forall fireballSane (Room.projectiles room).

Definition isSnapshot (o : Output) : bool :=
  match o with
  | Snapshot _ _ => true
  | _ => false
  end.

(** An event sent to room [roomId]. *)
Definition eventOf (roomId : string) (o : Output) : Prop :=
  exists body, o = Event roomId body.

(** The environment [getRoom] gives a room. *)
Definition envDefault (room : Room.t) : Prop := Room.env room = Env.mk 12.0%float "clear".

(** What a client can rely on in a [hit], [damage] or [enemy_death] event:
    it names one of the six enemies; a [damage] event carries the amount
    of an attack (6) or of a fireball (12) and hit points within bounds. *)
Definition combatSound (o : Output) : Prop :=
  match o with
  | Event _ (hit _ _ targetType targetId) => targetType = "enemy" /\ In targetId enemyIds
  | Event _ (damage _ targetType targetId amount hp maxHp) =>
      targetType = "enemy" /\ In targetId enemyIds /\ (amount = 6 \/ amount = 12)
      /\ 0 <= hp <= maxHp /\ maxHp = 50
  | Event _ (enemy_death enemyId) => In enemyId enemyIds
  | _ => True
  end.

(** What a client can rely on in a snapshot. *)
Definition snapshotSound (s : SnapshotMsg.t) : Prop :=
  SnapshotMsg.players s <> []
  /\ Forall (fun v => PlayerView.hp v = 100 /\ PlayerView.maxHp v = 100
                      /\ PlayerView.mana v = 50 /\ PlayerView.maxMana v = 50
                      /\ PlayerView.name v <> "")
            (SnapshotMsg.players s)
  /\ map EnemyView.enemyId (SnapshotMsg.enemies s) = enemyIds
  /\ Forall (fun v => 0 <= EnemyView.hp v <= EnemyView.maxHp v /\ EnemyView.maxHp v = 50)
            (SnapshotMsg.enemies s)
  /\ (List.length (SnapshotMsg.projectiles s) <= S CONFIG.maxProjectilesPerRoom)%nat
  /\ Forall (fun v => ProjectileView.type v = "fireball") (SnapshotMsg.projectiles s)
  /\ SnapshotMsg.env s = Env.mk 12.0%float "clear".

(** Every enemy of [es] is still in [es1], under the same key, with hit
    points that have not risen and are still not negative. *)
Definition notHealed (es es1 : JsMap.t Enemy.t) : Prop :=
  forall id e,
    JsMap.get id es = Some e ->
    exists e1,
      JsMap.get id es1 = Some e1
      /\ Enemy.hp e1 <= Enemy.hp e /\ (0 <= Enemy.hp e -> 0 <= Enemy.hp e1)
      /\ Enemy.maxHp e1 = Enemy.maxHp e.

Definition isDeath (o : Output) : bool :=
  match o with
  | Event _ (enemy_death _) => true
  | _ => false
  end.

(** Every [enemy_death] of [out] comes right after the [damage] event that
    reports [hp = 0] for the same enemy in the same room, with at most the
    [projectile_despawn] of the fireball that hit between the two. *)
Definition deathsAnnounced (out : list Output) : Prop :=
  forall before roomId enemyId after,
    out = before ++ Event roomId (enemy_death enemyId) :: after ->
    exists pre mid sourceId amount maxHp,
      before = pre ++ Event roomId (damage sourceId "enemy" enemyId amount 0 maxHp) :: mid
      /\ (mid = [] \/ exists projId, mid = [Event roomId (projectile_despawn projId)]).

(** The room a handler may write to: the one its message names, or, for a
    disconnect, the first that holds the connection. A tick writes to all. *)
Definition roomTouched (w : World) (i : Input) : option string :=
  match i with
  | InJoinRoom _ msg => JoinRoomMsg.roomId msg
  | InInput _ msg => InputMsg.roomId msg
  | InAction _ msg _ _ => ActionMsg.roomId msg
  | InDisconnect socket =>
      option_map fst (find (fun kr => JsMap.has socket (Room.players (snd kr))) (rooms w))
  | InTick _ => None
  end.

(** The [cast_start] event that announced entry [c] of player [p]. *)
Definition startedEvent (roomId : string) (p : Player.t) (c : Cast.t) : Output :=
  Event roomId (cast_start (Player.playerId p) (Cast.spellId c) (Cast.targetEnemyId c)
                           CONFIG.defaultFireball.castTimeMs).

(** Every cast queued in the registry [rs] was announced in [hist]. *)
Definition castsStarted (hist : list Output) (rs : JsMap.t Room.t) : Prop :=
  forall roomId room key p c,
    In (roomId, room) rs -> In (key, p) (Room.players room) -> In c (Player.casts p) ->
    In (startedEvent roomId p c) hist.

(** The room and the projectile of a [hit] or [projectile_despawn] event. *)
Definition projectileOf (o : Output) : option (string * string) :=
  match o with
  | Event roomId (hit projId _ _ _) => Some (roomId, projId)
  | Event roomId (projectile_despawn projId) => Some (roomId, projId)
  | _ => None
  end.

(** [hist] holds a [projectile_spawn] event of projectile [projId] for room
    [roomId]. *)
Definition spawnedIn (hist : list Output) (roomId projId : string) : Prop :=
  exists ownerId targetEnemyId,
    In (Event roomId (projectile_spawn projId "fireball" ownerId targetEnemyId)) hist.

(** Every projectile in the registry [rs] was announced in [hist]. *)
Definition projectilesSpawned (hist : list Output) (rs : JsMap.t Room.t) : Prop :=
  forall roomId room projId proj,
    In (roomId, room) rs -> In (projId, proj) (Room.projectiles room) ->
    spawnedIn hist roomId projId.

(** After the history [hist], every [hit] and [projectile_despawn] of [out]
    names a projectile announced before it. *)
Definition spawnedBefore (hist out : list Output) : Prop :=
  forall pre o post roomId projId,
    out = pre ++ o :: post -> projectileOf o = Some (roomId, projId) ->
    spawnedIn (hist ++ pre) roomId projId.

(** The number a message field holds, if it holds one. *)
Definition numberOf (v : JsVal) : option float :=
  match v with
  | JNumber f => Some f
  | _ => None
  end.

(** Two [input] messages for the same room, as one: each field is the
    later message's when that is a number, the earlier one's otherwise. *)
Definition laterInput (m1 m2 : InputMsg.t) : InputMsg.t :=
  let pick a b := if typeof_number b then b else a in
  InputMsg.mk (InputMsg.roomId m2)
              (pick (InputMsg.vx m1) (InputMsg.vx m2))
              (pick (InputMsg.vz m1) (InputMsg.vz m2))
              (pick (InputMsg.rotY m1) (InputMsg.rotY m2)).

(** The connection is a player of no room. *)
Definition absent (socket : string) (w : World) : Prop :=
  Forall (fun kr => JsMap.has socket (Room.players (snd kr)) = false) (rooms w).

(** No cast of the room is due at [now]. *)
Definition noCastDue (now : Z) (room : Room.t) : Prop :=
  Forall (fun kp => Forall (fun c => now < Cast.finishAt c) (Player.casts (snd kp)))
         (Room.players room).

(** * Concrete runs

    The properties are proved for any host implementation of the
    trigonometric functions and any stream of random numbers. The concrete
    runs fix one: constant trigonometric functions (no run here reaches a
    wander re-roll, the only place where [Math.cos] and [Math.sin] are
    called; [Math.atan2] only sets facing angles) and the random stream
    [0, 0.1, ..., 0.9, 0, ...]. *)

Definition hostMath : Host :=
  {| Math_cos := fun _ => 1%float;
     Math_sin := fun _ => 0%float;
     Math_atan2 := fun _ _ => 0%float |}.

Definition hostRandom : Rand := fun n => (Z2float (Z.of_nat (n mod 10)) / 10)%float.

Definition runHost : World -> Rand -> list Input -> World * Rand * list Output :=
  run (host := hostMath).

(** A player joins room [r1] over connection [s1]. *)
Definition joinR1 : Input :=
  InJoinRoom "s1" (JoinRoomMsg.mk (Some "r1") (Some "p1") (Some "Ann")).

(** The events of an output, snapshots and [joined] replies left out. *)
Definition isEvent (o : Output) : bool :=
  match o with
  | Event _ _ => true
  | _ => false
  end.

(** The state after the join: room [r1] with player [p1] and six enemies. *)
Definition wJoined : World := fst (fst (runHost (initial 0) hostRandom [joinR1])).

Definition emptyRoom : Room.t := Room.mk [] [] [] (Env.mk 0%float "").

Definition roomJoined : Room.t :=
  Eval vm_compute in snd (hd ("", emptyRoom) (rooms wJoined)).

Definition playerAnn : Player.t :=
  Player.mk "s1" "p1" "Ann" 0%float 0%float 0%float 0%float 0%float 100 100 50 50 [].

Definition enemyE1 : Enemy.t :=
  Enemy.mk "e1" (-10)%float (-8)%float 0%float 0%float 0%float wander 0%float 50 50.

(** The world after [s1]'s player sent an input with [vx = 1]. *)
Definition wMoving : World :=
  input "s1" (InputMsg.mk (Some "r1") (JNumber 1%float) JUndefined JUndefined) wJoined.

Definition roomMoving : Room.t :=
  Eval vm_compute in snd (hd ("", emptyRoom) (rooms wMoving)).

Definition playerMoving : Player.t :=
  Player.mk "s1" "p1" "Ann" 0%float 0%float 1%float 0%float 0%float 100 100 50 50 [].

(** An attack on [e1] by the player of connection [s1]. *)
Definition attackE1 : ActionMsg.t :=
  ActionMsg.mk (Some "r1") None "attack" (Some (Payload.mk None (Some "e1"))).

(** The same attack from a connection that has not joined the room, naming
    an actor the room does not hold. *)
Definition attackE1Stranger : ActionMsg.t :=
  ActionMsg.mk (Some "r1") (Some "nobody") "attack" (Some (Payload.mk None (Some "e1"))).

(** A fireball cast at [e1] by the player of connection [s1]. *)
Definition castE1 : ActionMsg.t :=
  ActionMsg.mk (Some "r1") None "cast" (Some (Payload.mk (Some "fireball") (Some "e1"))).

(** The same cast from a connection that has not joined the room, naming
    an actor the room does not hold. *)
Definition castE1Stranger : ActionMsg.t :=
  ActionMsg.mk (Some "r1") (Some "nobody") "cast"
               (Some (Payload.mk (Some "fireball") (Some "e1"))).

Definition joinR1Bob : Input :=
  InJoinRoom "s2" (JoinRoomMsg.mk (Some "r1") (Some "p2") (Some "Bob")).

(** Connection [s1] joins [r1] and then [r2]. *)
Definition wTwoRooms : World :=
  fst (fst (runHost (initial 0) hostRandom
              [joinR1; InJoinRoom "s1" (JoinRoomMsg.mk (Some "r2") (Some "p1") (Some "Ann"))])).

Definition roomTwoFirst : Room.t :=
  Eval vm_compute in snd (hd ("", emptyRoom) (rooms wTwoRooms)).

Definition roomTwoSecond : Room.t :=
  Eval vm_compute in snd (hd ("", emptyRoom) (tl (rooms wTwoRooms))).

(** A random stream that seeds [e1] at (6.1, 0) and every other enemy at
    the origin. *)
Definition rndStall : Rand :=
  fun n => match n with
           | O => 0.805%float
           | _ => 0.5%float
           end.

(** The player joins, casts a fireball at [e1] at time 0, the cast resolves
    at the tick at 650, and the event loop then stalls: the next tick runs
    at 3150 = 650 + 2500, with the delta clamped to 0.25 s. *)
Definition stallSpawn : list Input :=
  [joinR1; InAction "s1" castE1 0 0; InTick 650].

Definition stallRun : list Input := stallSpawn ++ [InTick 3150].

(** A random stream without repetition among its first thousand numbers:
    the fireballs of one tick get distinct ids. *)
Definition rndSpread : Rand := fun n => (Z2float (Z.of_nat n) / 1024)%float.

(** The player joins and casts 202 fireballs at [e1], all at time 0; they
    all resolve at the tick at 650. *)
Definition volley : list Input :=
  joinR1 :: repeat (InAction "s1" castE1 0 0) 202 ++ [InTick 650].

Definition roomVolley : Room.t :=
  Eval vm_compute in
    snd (hd ("", emptyRoom) (rooms (fst (fst (runHost (initial 0) rndSpread volley))))).

(** The state and the random stream after the player has joined and cast a
    fireball at [e1], which stands at (6.1, 0), and five ticks at the pace
    of the server; the fireball as step 3 of the first of them spawns
    it. *)
Definition wCast : World :=
  fst (fst (runHost (initial 0) rndStall [joinR1; InAction "s1" castE1 0 0])).

Definition rndCast : Rand :=
  snd (fst (runHost (initial 0) rndStall [joinR1; InAction "s1" castE1 0 0])).

Definition flight : list Input :=
  [InTick 650; InTick 717; InTick 784; InTick 851; InTick 918].

Definition fireballSpawned : Projectile.t :=
  Projectile.mk "p_p1_650_4999" "fireball" 0%float 0%float 10%float 0%float 0%float
                "p1" "e1" 650 3150 12.

(** ** Further concrete runs *)

(** What the server sends for a join followed by one tick, and the
    snapshot of that tick. *)
Definition outJoinTick : list Output :=
  Eval vm_compute in snd (runHost (initial 0) hostRandom [joinR1; InTick 67]).

Definition snapshotJoinTick : SnapshotMsg.t :=
  Eval vm_compute in
    match last outJoinTick (Joined "" "") with
    | Snapshot _ s => s
    | _ => SnapshotMsg.mk 0 [] [] [] (Env.mk 0%float "")
    end.

(** Room [r1] after the player of [s1] attacked [e1] once. *)
Definition roomAttacked : Room.t :=
  Eval vm_compute in snd (hd ("", emptyRoom) (rooms (fst (action "s1" attackE1 0 0 wJoined)))).

(** The player joins and attacks [e1] nine times: 50 hit points, 6 a blow. *)
Definition killE1 : list Input := joinR1 :: repeat (InAction "s1" attackE1 0 0) 9.

Definition outKillE1 : list Output :=
  Eval vm_compute in snd (runHost (initial 0) hostRandom killE1).

(** A cast of a spell the server does not know, due at 650. *)
Definition castHeal : Cast.t := Cast.mk "heal" None 0 650.

(** What the server sends in the run in which a fireball expires. *)
Definition outStall : list Output :=
  Eval vm_compute in snd (runHost (initial 0) rndStall stallRun).

(** Two inputs of [s1]: one sets [vx], the next sets [vz]. *)
Definition inputVx : InputMsg.t := InputMsg.mk (Some "r1") (JNumber 1%float) JUndefined JUndefined.

Definition inputVz : InputMsg.t := InputMsg.mk (Some "r1") JNull (JNumber 1%float) JUndefined.

(** * Properties *)

Section Properties.

Context {host : Host}.

(** ** Facts about insertion-ordered maps *)

Section JsMapFacts.
Context {V : Type}.
Implicit Types (m : JsMap.t V) (k : string) (v : V).

Lemma JsMap_get_set_same k v m : JsMap.get k (JsMap.set k v m) = Some v.
Proof.
  induction m as [|[k' v'] r IH]; simpl.
  - now rewrite String.eqb_refl.
  - destruct (String.eqb k' k) eqn:E; simpl.
    + now rewrite String.eqb_refl.
    + now rewrite E.
Qed.

Lemma JsMap_get_set_other k k' v m :
  k <> k' -> JsMap.get k (JsMap.set k' v m) = JsMap.get k m.
Proof.
  intros N. induction m as [|[k1 v1] r IH]; simpl.
  - destruct (String.eqb k' k) eqn:E; [|reflexivity].
    apply String.eqb_eq in E. congruence.
  - destruct (String.eqb k1 k') eqn:E; simpl.
    + apply String.eqb_eq in E. subst k1.
      destruct (String.eqb k' k) eqn:E'; [|reflexivity].
      apply String.eqb_eq in E'. congruence.
    + now rewrite IH.
Qed.

Lemma JsMap_get_delete_other k k' m :
  k <> k' -> JsMap.get k (JsMap.delete k' m) = JsMap.get k m.
Proof.
  intros N. induction m as [|[k1 v1] r IH]; simpl; [reflexivity|].
  destruct (String.eqb k1 k') eqn:E; simpl.
  - apply String.eqb_eq in E. subst k1.
    destruct (String.eqb k' k) eqn:E'; [|reflexivity].
    apply String.eqb_eq in E'. congruence.
  - now rewrite IH.
Qed.

Lemma JsMap_set_get_id k v m : JsMap.get k m = Some v -> JsMap.set k v m = m.
Proof.
  induction m as [|[k1 v1] r IH]; simpl; [discriminate|].
  destruct (String.eqb k1 k) eqn:E.
  - apply String.eqb_eq in E. subst k1. intros [= ->]. reflexivity.
  - intros H. now rewrite IH.
Qed.

Lemma JsMap_get_In k v m : JsMap.get k m = Some v -> In (k, v) m.
Proof.
  induction m as [|[k1 v1] r IH]; simpl; [discriminate|].
  destruct (String.eqb k1 k) eqn:E.
  - apply String.eqb_eq in E. subst k1. intros [= ->]. now left.
  - intros H. right. now apply IH.
Qed.

Lemma JsMap_In_get k v m : NoDup (JsMap.keys m) -> In (k, v) m -> JsMap.get k m = Some v.
Proof.
  induction m as [|[k1 v1] r IH]; simpl; [contradiction|].
  intros ND [H|H].
  - injection H as -> ->. now rewrite String.eqb_refl.
  - inversion ND as [|? ? Hn ND']; subst.
    destruct (String.eqb k1 k) eqn:E.
    + apply String.eqb_eq in E. subst k1. exfalso. apply Hn.
      change (In (fst (k, v)) (map fst r)). now apply in_map.
    + now apply IH.
Qed.

Lemma JsMap_keys_set_present k v m :
  JsMap.has k m = true -> JsMap.keys (JsMap.set k v m) = JsMap.keys m.
Proof.
  unfold JsMap.has. induction m as [|[k1 v1] r IH]; simpl; [discriminate|].
  destruct (String.eqb k1 k) eqn:E; simpl.
  - apply String.eqb_eq in E. now subst.
  - intros H. f_equal. now apply IH.
Qed.

Lemma JsMap_keys_set_absent k v m :
  JsMap.has k m = false -> JsMap.keys (JsMap.set k v m) = JsMap.keys m ++ [k].
Proof.
  unfold JsMap.has. induction m as [|[k1 v1] r IH]; simpl; [reflexivity|].
  destruct (String.eqb k1 k) eqn:E; simpl; [discriminate|].
  intros H. f_equal. now apply IH.
Qed.

Lemma JsMap_has_In_keys k m : JsMap.has k m = true <-> In k (JsMap.keys m).
Proof.
  unfold JsMap.has. induction m as [|[k1 v1] r IH]; simpl.
  - split; [discriminate|contradiction].
  - destruct (String.eqb k1 k) eqn:E.
    + apply String.eqb_eq in E. subst. split; auto.
    + apply String.eqb_neq in E. rewrite IH. split; [auto|]. intros [?|?]; [congruence|auto].
Qed.

Lemma JsMap_size_set k v m : (JsMap.size (JsMap.set k v m) <= S (JsMap.size m))%nat.
Proof.
  unfold JsMap.size. induction m as [|[k1 v1] r IH]; simpl; [lia|].
  destruct (String.eqb k1 k); simpl; lia.
Qed.

Lemma JsMap_Forall_set (P : string * V -> Prop) k v m :
  Forall P m -> P (k, v) -> Forall P (JsMap.set k v m).
Proof.
  intros H Hv. induction H as [|[k1 v1] r H1 H2 IH]; simpl.
  - now constructor.
  - destruct (String.eqb k1 k); constructor; auto.
Qed.

Lemma JsMap_Forall_delete (P : string * V -> Prop) k m :
  Forall P m -> Forall P (JsMap.delete k m).
Proof.
  intros H. induction H as [|[k1 v1] r H1 H2 IH]; simpl; [constructor|].
  destruct (String.eqb k1 k); [assumption|now constructor].
Qed.

Lemma JsMap_NoDup_set k v m : NoDup (JsMap.keys m) -> NoDup (JsMap.keys (JsMap.set k v m)).
Proof.
  intros ND. destruct (JsMap.has k m) eqn:E.
  - now rewrite JsMap_keys_set_present.
  - rewrite JsMap_keys_set_absent by assumption.
    apply NoDup_app; [assumption | repeat constructor; simpl; tauto |].
    intros x Hx [<-|[]]. apply JsMap_has_In_keys in Hx. congruence.
Qed.

Lemma JsMap_keys_delete_incl k m x :
  In x (JsMap.keys (JsMap.delete k m)) -> In x (JsMap.keys m).
Proof.
  induction m as [|[k1 v1] r IH]; simpl; [tauto|].
  destruct (String.eqb k1 k); simpl; tauto.
Qed.

Lemma JsMap_NoDup_delete k m : NoDup (JsMap.keys m) -> NoDup (JsMap.keys (JsMap.delete k m)).
Proof.
  induction m as [|[k1 v1] r IH]; simpl; [trivial|].
  intros ND. inversion ND as [|? ? Hn ND']; subst.
  destruct (String.eqb k1 k); simpl; [assumption|].
  constructor; [|auto]. intros Hx. apply Hn. eapply JsMap_keys_delete_incl, Hx.
Qed.

End JsMapFacts.

(** ** IEEE comparisons

    The order of binary64 numbers, from the specification of the primitive
    comparisons ([SFcompare]); [NaN] compares with nothing. *)

Ltac compare_cases :=
  change (PosDef.Pos.compare_cont Eq) with Pos.compare;
  repeat match goal with
         | |- context [Z.compare ?a ?b] => destruct (Z.compare_spec a b)
         | |- context [Pos.compare ?a ?b] => destruct (Pos.compare_spec a b)
         end;
  cbn [CompOpp]; intros; subst; try discriminate; try reflexivity; try lia.

Lemma SFcompare_antisym a b : SFcompare b a = option_map CompOpp (SFcompare a b).
Proof.
  destruct a as [sa|sa| |sa ma ea], b as [sb|sb| |sb mb eb]; cbn [SFcompare option_map];
    try reflexivity;
    try (destruct sa; reflexivity); try (destruct sb; reflexivity);
    try (destruct sa, sb; reflexivity).
  change (PosDef.Pos.compare_cont Eq) with Pos.compare.
  rewrite (Z.compare_antisym eb ea), (Pos.compare_antisym mb ma).
  destruct sa, sb; cbn [CompOpp]; try reflexivity; f_equal;
    destruct (eb ?= ea); cbn [CompOpp]; try reflexivity;
    destruct (mb ?= ma)%positive; reflexivity.
Qed.

Lemma SFcompare_refl a : a <> S754_nan -> SFcompare a a = Some Eq.
Proof.
  destruct a as [sa|sa| |sa ma ea]; cbn [SFcompare]; intros H; try reflexivity.
  - destruct sa; reflexivity.
  - now elim H.
  - rewrite Z.compare_refl. change (PosDef.Pos.compare_cont Eq) with Pos.compare.
    rewrite Pos.compare_refl. destruct sa; reflexivity.
Qed.

Lemma SFcompare_some a b : a <> S754_nan -> b <> S754_nan -> SFcompare a b <> None.
Proof. destruct a, b; cbn [SFcompare]; congruence. Qed.

Lemma SFltb_trans a b c : SFltb a b = true -> SFltb b c = true -> SFltb a c = true.
Proof.
  unfold SFltb.
  destruct a as [sa|sa| |sa ma ea], b as [sb|sb| |sb mb eb], c as [sc|sc| |sc mc ec];
    cbn [SFcompare]; try discriminate;
    try (destruct sa; try discriminate); try (destruct sb; try discriminate);
    try (destruct sc; try discriminate); try reflexivity.
  all: compare_cases.
Qed.

Lemma SFltb_leb_trans a b c : SFltb a b = true -> SFleb b c = true -> SFltb a c = true.
Proof.
  unfold SFltb, SFleb.
  destruct a as [sa|sa| |sa ma ea], b as [sb|sb| |sb mb eb], c as [sc|sc| |sc mc ec];
    cbn [SFcompare]; try discriminate;
    try (destruct sa; try discriminate); try (destruct sb; try discriminate);
    try (destruct sc; try discriminate); try reflexivity.
  all: compare_cases.
Qed.

Lemma is_nan_Prim2SF x : PrimFloat.is_nan x = true <-> Prim2SF x = S754_nan.
Proof.
  unfold PrimFloat.is_nan. rewrite FloatAxioms.eqb_spec. unfold SFeqb.
  destruct (Prim2SF x) as [s|s| |s m e] eqn:E.
  - cbn. split; discriminate.
  - rewrite SFcompare_refl by discriminate. cbn. split; discriminate.
  - cbn. split; reflexivity.
  - rewrite SFcompare_refl by discriminate. cbn. split; discriminate.
Qed.

Lemma not_nan_Prim2SF x : PrimFloat.is_nan x = false <-> Prim2SF x <> S754_nan.
Proof.
  rewrite <- is_nan_Prim2SF. destruct (PrimFloat.is_nan x); split; congruence.
Qed.

Lemma float_ltb_trans a b c :
  (a <? b)%float = true -> (b <? c)%float = true -> (a <? c)%float = true.
Proof. rewrite !FloatAxioms.ltb_spec. apply SFltb_trans. Qed.

Lemma float_ltb_leb_trans a b c :
  (a <? b)%float = true -> (b <=? c)%float = true -> (a <? c)%float = true.
Proof. rewrite !FloatAxioms.ltb_spec, FloatAxioms.leb_spec. apply SFltb_leb_trans. Qed.

Lemma float_ltb_not_nan a b :
  (a <? b)%float = true -> PrimFloat.is_nan a = false /\ PrimFloat.is_nan b = false.
Proof.
  rewrite FloatAxioms.ltb_spec, !not_nan_Prim2SF. unfold SFltb.
  destruct (Prim2SF a), (Prim2SF b); cbn [SFcompare]; try discriminate; split; discriminate.
Qed.

Lemma float_ltb_asym a b : (a <? b)%float = true -> (b <? a)%float = false.
Proof.
  rewrite !FloatAxioms.ltb_spec. unfold SFltb.
  rewrite (SFcompare_antisym (Prim2SF a) (Prim2SF b)).
  destruct (SFcompare (Prim2SF a) (Prim2SF b)) as [[ | | ]|]; cbn; congruence.
Qed.

Lemma float_ltb_irrefl a : (a <? a)%float = false.
Proof.
  destruct (a <? a)%float eqn:E; [|reflexivity]. now rewrite (float_ltb_asym _ _ E) in E.
Qed.

Lemma float_ltb_leb a b : (a <? b)%float = true -> (a <=? b)%float = true.
Proof.
  rewrite FloatAxioms.ltb_spec, FloatAxioms.leb_spec. unfold SFltb, SFleb.
  destruct (SFcompare (Prim2SF a) (Prim2SF b)) as [[ | | ]|]; congruence.
Qed.

Lemma float_not_ltb_leb a b :
  PrimFloat.is_nan a = false -> PrimFloat.is_nan b = false ->
  (a <? b)%float = false -> (b <=? a)%float = true.
Proof.
  rewrite !not_nan_Prim2SF, FloatAxioms.ltb_spec, FloatAxioms.leb_spec. unfold SFltb, SFleb.
  intros Ha Hb. rewrite (SFcompare_antisym (Prim2SF a) (Prim2SF b)).
  pose proof (SFcompare_some _ _ Ha Hb) as Hs.
  destruct (SFcompare (Prim2SF a) (Prim2SF b)) as [[ | | ]|]; cbn; congruence.
Qed.

Lemma float_leb_refl a : PrimFloat.is_nan a = false -> (a <=? a)%float = true.
Proof.
  rewrite not_nan_Prim2SF, FloatAxioms.leb_spec. unfold SFleb. intros H.
  now rewrite SFcompare_refl.
Qed.

(** ** Rounding never yields [NaN]

    Converting an integer and dividing by a finite number round a
    non-negative significand ([binary_round_aux]); the result carries the
    sign it was given. *)

Lemma shr_1_nonneg mrs : 0 <= shr_m mrs -> 0 <= shr_m (shr_1 mrs).
Proof.
  destruct mrs as [m r s]. cbn [shr_m]. intros H.
  destruct m as [|p|p]; [cbn; lia| |lia].
  destruct p; cbn; lia.
Qed.

Lemma iter_pos_shr_1_nonneg p : forall mrs,
  0 <= shr_m mrs -> 0 <= shr_m (iter_pos shr_1 p mrs).
Proof.
  induction p as [p IH|p IH|]; intros mrs H; cbn [iter_pos].
  - apply IH, IH, shr_1_nonneg, H.
  - apply IH, IH, H.
  - apply shr_1_nonneg, H.
Qed.

Lemma shr_fexp_nonneg m e l :
  0 <= m -> 0 <= shr_m (fst (shr_fexp prec emax m e l)).
Proof.
  intros H. unfold shr_fexp, shr.
  assert (H0 : 0 <= shr_m (shr_record_of_loc m l)).
  { destruct l as [|[ | | ]]; exact H. }
  destruct (fexp prec emax (Zdigits2 m + e) - e); cbn [fst]; try exact H0.
  now apply iter_pos_shr_1_nonneg.
Qed.

Lemma round_nearest_even_nonneg m l : 0 <= m -> 0 <= round_nearest_even m l.
Proof.
  intros H. unfold round_nearest_even.
  destruct l as [|[ | | ]]; try lia. destruct (IntDef.Z.even m); lia.
Qed.

Lemma binary_round_aux_signed s m e l :
  0 <= m -> SFsigned s (binary_round_aux prec emax s m e l).
Proof.
  intros H. unfold binary_round_aux.
  pose proof (shr_fexp_nonneg m e l H) as H1.
  destruct (shr_fexp prec emax m e l) as [mrs1 e1]. cbn [fst] in H1.
  pose proof (shr_fexp_nonneg _ e1 loc_Exact
                (round_nearest_even_nonneg _ (loc_of_shr_record mrs1) H1)) as H2.
  destruct (shr_fexp prec emax _ e1 loc_Exact) as [mrs2 e2]. cbn [fst] in H2.
  destruct (shr_m mrs2); [reflexivity| |lia].
  destruct (e2 <=? emax - prec); reflexivity.
Qed.

Lemma of_uint63_signed n : SFsigned false (Prim2SF (of_uint63 n)).
Proof.
  rewrite of_uint63_spec. unfold binary_normalize.
  pose proof (Uint63.to_Z_bounded n) as B.
  destruct (Uint63.to_Z n) as [|p|p]; [reflexivity| |lia].
  unfold binary_round. destruct (shl_align _ _ _) as [mz ez].
  apply binary_round_aux_signed. lia.
Qed.

Lemma opp_signed s x : SFsigned s (Prim2SF x) -> SFsigned (negb s) (Prim2SF (- x)%float).
Proof.
  rewrite FloatAxioms.opp_spec. destruct (Prim2SF x); cbn; congruence.
Qed.

Lemma div_finite_signed x y s sx m e :
  Prim2SF y = S754_finite s m e ->
  SFsigned sx (Prim2SF x) -> SFsigned (xorb sx s) (Prim2SF (x / y)%float).
Proof.
  intros Hy. rewrite FloatAxioms.div_spec, Hy. unfold SF64div, SFdiv.
  destruct (Prim2SF x) as [s0|s0| |s0 mx ex]; cbn [SFsigned]; try congruence; intros ->.
  unfold SFdiv_core_binary.
  set (m' := match _ with 0 => Z.pos mx | Z.pos _ => _ | Z.neg _ => 0 end).
  assert (H : 0 <= m').
  { subst m'. destruct (ex - e - _); try lia.
    change IntDef.Z.shiftl with Z.shiftl. apply Z.shiftl_nonneg. lia. }
  change IntDef.Z.div_eucl with Z.div_eucl.
  pose proof (Z.div_eucl_eq m' (Z.pos m) ltac:(lia)) as E.
  pose proof (Z.mod_pos_bound m' (Z.pos m) ltac:(lia)) as B.
  unfold Z.modulo in B.
  destruct (Z.div_eucl m' (Z.pos m)) as [q r].
  apply binary_round_aux_signed. nia.
Qed.

Lemma signed_not_nan s x : SFsigned s (Prim2SF x) -> PrimFloat.is_nan x = false.
Proof. intros H. apply not_nan_Prim2SF. intros E. rewrite E in H. exact H. Qed.

Lemma Math_min_spec a b :
  PrimFloat.is_nan a = false -> PrimFloat.is_nan b = false ->
  (Math_min a b = a \/ Math_min a b = b)
  /\ (Math_min a b <=? a)%float = true /\ (Math_min a b <=? b)%float = true.
Proof.
  intros Ha Hb. unfold Math_min. rewrite Ha, Hb. cbn [orb].
  destruct (a <? b)%float eqn:L1.
  - split; [now left|]. split; [now apply float_leb_refl|now apply float_ltb_leb].
  - destruct (b <? a)%float eqn:L2.
    + split; [now right|]. split; [now apply float_ltb_leb|now apply float_leb_refl].
    + pose proof (float_not_ltb_leb _ _ Ha Hb L1). pose proof (float_not_ltb_leb _ _ Hb Ha L2).
      destruct (get_sign a).
      * split; [now left|]. split; [now apply float_leb_refl|assumption].
      * split; [now right|]. split; [assumption|now apply float_leb_refl].
Qed.

Lemma Math_max_spec a b :
  PrimFloat.is_nan a = false -> PrimFloat.is_nan b = false ->
  (Math_max a b = a \/ Math_max a b = b)
  /\ (a <=? Math_max a b)%float = true /\ (b <=? Math_max a b)%float = true.
Proof.
  intros Ha Hb. unfold Math_max. rewrite Ha, Hb. cbn [orb].
  destruct (a <? b)%float eqn:L1.
  - split; [now right|]. split; [now apply float_ltb_leb|now apply float_leb_refl].
  - destruct (b <? a)%float eqn:L2.
    + split; [now left|]. split; [now apply float_leb_refl|now apply float_ltb_leb].
    + pose proof (float_not_ltb_leb _ _ Ha Hb L1). pose proof (float_not_ltb_leb _ _ Hb Ha L2).
      destruct (get_sign a).
      * split; [now right|]. split; [assumption|now apply float_leb_refl].
      * split; [now left|]. split; [now apply float_leb_refl|assumption].
Qed.

Lemma clamp_bounds v lo hi :
  (lo <? hi)%float = true -> PrimFloat.is_nan v = false ->
  (lo <=? clamp v lo hi)%float = true /\ (clamp v lo hi <=? hi)%float = true.
Proof.
  intros Hlh Nv. destruct (float_ltb_not_nan _ _ Hlh) as [Nlo Nhi]. unfold clamp.
  destruct (Math_min_spec hi v Nhi Nv) as (Hm & Hmh & Hmv).
  assert (Nm : PrimFloat.is_nan (Math_min hi v) = false)
    by (destruct Hm as [-> | ->]; assumption).
  destruct (Math_max_spec lo (Math_min hi v) Nlo Nm) as (Hx & Hxl & Hxm).
  split; [exact Hxl|].
  destruct Hx as [-> | ->]; [now apply float_ltb_leb|exact Hmh].
Qed.

(** The elapsed time in seconds that the tick computes is a number with
    the sign of the difference of the two clock readings. *)
Lemma elapsed_signed d :
  SFsigned (d <? 0) (Prim2SF (Z2float d / 1000)%float).
Proof.
  replace (d <? 0) with (xorb (d <? 0) false) by apply xorb_false_r.
  eapply div_finite_signed.
  - vm_compute. reflexivity.
  - unfold Z2float. destruct (d <? 0).
    + apply (opp_signed false). apply of_uint63_signed.
    + apply of_uint63_signed.
Qed.

Lemma clamp_negative v :
  SFsigned true (Prim2SF v) -> clamp v 0%float CONFIG.dtClampSeconds = 0%float.
Proof.
  intros S. pose proof (signed_not_nan _ _ S) as Nv.
  unfold clamp, CONFIG.dtClampSeconds.
  assert (E : Math_min 0.25%float v = v).
  { unfold Math_min. rewrite Nv. replace (PrimFloat.is_nan 0.25) with false by reflexivity.
    cbn [orb]. rewrite !FloatAxioms.ltb_spec.
    replace (Prim2SF 0.25) with (S754_finite false 4503599627370496 (-54)) by (vm_compute; reflexivity).
    destruct (Prim2SF v) as [s|s| |s m e]; cbn in S; try contradiction; subst s; reflexivity. }
  rewrite E. unfold Math_max. rewrite Nv.
  replace (PrimFloat.is_nan 0) with false by reflexivity. cbn [orb].
  replace (get_sign 0) with false by reflexivity.
  rewrite !FloatAxioms.ltb_spec.
  replace (Prim2SF 0) with (S754_zero false) by reflexivity.
  destruct (Prim2SF v) as [s|s| |s m e]; cbn in S; try contradiction; subst s; reflexivity.
Qed.

Lemma tickDelta_unclamped_check :
  forallb (fun n => let v := (Z2float (Z.of_nat n) / 1000)%float in
                    Leibniz.eqb (clamp v 0%float CONFIG.dtClampSeconds) v)
          (seq 0 251) = true.
Proof. vm_compute. reflexivity. Qed.

(** ** Signs

    Squares, sums of squares and square roots carry no sign; dividing by a
    positive number and multiplying by a positive constant keep the sign. *)

Lemma SFsigned_not_nan s x : SFsigned s x -> x <> S754_nan.
Proof. destruct x; cbn; congruence. Qed.

Lemma SFsigned_nonneg x : SFsigned false (Prim2SF x) -> (0 <=? x)%float = true.
Proof.
  rewrite FloatAxioms.leb_spec. replace (Prim2SF 0) with (S754_zero false) by reflexivity.
  destruct (Prim2SF x) as [s|s| |s m e]; cbn; intros H; subst; try reflexivity; contradiction.
Qed.

Lemma SFsigned_nonpos x : SFsigned true (Prim2SF x) -> (x <=? 0)%float = true.
Proof.
  rewrite FloatAxioms.leb_spec. replace (Prim2SF 0) with (S754_zero false) by reflexivity.
  destruct (Prim2SF x) as [s|s| |s m e]; cbn; intros H; subst; try reflexivity; contradiction.
Qed.

Lemma positive_signed x : (0 <? x)%float = true -> SFsigned false (Prim2SF x).
Proof.
  rewrite FloatAxioms.ltb_spec. replace (Prim2SF 0) with (S754_zero false) by reflexivity.
  destruct (Prim2SF x) as [s|s| |s m e]; cbn; try discriminate; destruct s; try discriminate;
    reflexivity.
Qed.

Lemma negative_signed x : (x <? 0)%float = true -> SFsigned true (Prim2SF x).
Proof.
  rewrite FloatAxioms.ltb_spec. replace (Prim2SF 0) with (S754_zero false) by reflexivity.
  destruct (Prim2SF x) as [s|s| |s m e]; cbn; try discriminate; destruct s; try discriminate;
    reflexivity.
Qed.

(** A square is a number without sign, unless it is the square of [NaN]. *)
Lemma square_signed x :
  PrimFloat.is_nan x = false -> SFsigned false (Prim2SF (x * x)%float).
Proof.
  rewrite not_nan_Prim2SF, FloatAxioms.mul_spec. unfold SF64mul, SFmul.
  destruct (Prim2SF x) as [s|s| |s m e]; intros H.
  - destruct s; reflexivity.
  - destruct s; reflexivity.
  - now elim H.
  - replace (xorb s s) with false by (now destruct s). apply binary_round_aux_signed. lia.
Qed.

Lemma add_signed x y :
  SFsigned false (Prim2SF x) -> SFsigned false (Prim2SF y) ->
  SFsigned false (Prim2SF (x + y)%float).
Proof.
  rewrite FloatAxioms.add_spec. unfold SF64add, SFadd.
  destruct (Prim2SF x) as [sx|sx| |sx mx ex], (Prim2SF y) as [sy|sy| |sy my ey]; cbn [SFsigned];
    intros Hx Hy; subst; try reflexivity; try contradiction.
  cbn [cond_Zopp]. unfold binary_normalize.
  match goal with |- context [Z.pos ?a + Z.pos ?b] =>
    change (Z.pos a + Z.pos b) with (Z.pos (a + b)) end.
  cbv iota. unfold binary_round. destruct (shl_align _ _ _) as [mz ez].
  apply binary_round_aux_signed. lia.
Qed.

Lemma sqrt_signed x :
  SFsigned false (Prim2SF x) -> SFsigned false (Prim2SF (PrimFloat.sqrt x)).
Proof.
  rewrite FloatAxioms.sqrt_spec. unfold SF64sqrt, SFsqrt.
  destruct (Prim2SF x) as [s|s| |s m e]; cbn [SFsigned]; intros H; subst;
    try reflexivity; try contradiction.
  unfold SFsqrt_core_binary.
  set (m' := match _ with 0 => Z.pos m | Z.pos _ => _ | Z.neg _ => 0 end).
  change IntDef.Z.sqrtrem with Z.sqrtrem.
  pose proof (Z.sqrtrem_spec m') as S.
  assert (H : 0 <= m').
  { subst m'. destruct (e - _); try lia.
    change IntDef.Z.shiftl with Z.shiftl. apply Z.shiftl_nonneg. lia. }
  specialize (S H). destruct (Z.sqrtrem m') as [q r].
  apply binary_round_aux_signed. lia.
Qed.

Lemma euclid_signed x z :
  PrimFloat.is_nan x = false -> PrimFloat.is_nan z = false ->
  SFsigned false (Prim2SF (euclid x z)).
Proof.
  intros Hx Hz. unfold euclid. apply sqrt_signed, add_signed; now apply square_signed.
Qed.

Lemma is_finite_Prim2SF x :
  PrimFloat.is_finite x = true ->
  exists s, Prim2SF x = S754_zero s \/ exists m e, Prim2SF x = S754_finite s m e.
Proof.
  unfold PrimFloat.is_finite, PrimFloat.is_infinity. rewrite negb_true_iff, orb_false_iff.
  intros [Hn Hi]. apply not_nan_Prim2SF in Hn.
  rewrite FloatAxioms.eqb_spec, FloatAxioms.abs_spec in Hi.
  replace (Prim2SF infinity) with (S754_infinity false) in Hi by reflexivity.
  destruct (Prim2SF x) as [s|s| |s m e]; cbn in Hi; try discriminate.
  - exists s. now left.
  - now elim Hn.
  - exists s. right. now exists m, e.
Qed.

(** Dividing a finite number by a positive one keeps its sign. *)
Lemma div_positive_signed x d s :
  PrimFloat.is_finite x = true -> SFsigned s (Prim2SF x) ->
  (0 <? d)%float = true -> SFsigned s (Prim2SF (x / d)%float).
Proof.
  intros Hf Hs Hd. rewrite FloatAxioms.ltb_spec in Hd.
  replace (Prim2SF 0) with (S754_zero false) in Hd by reflexivity.
  destruct (Prim2SF d) as [sd|sd| |sd md ed] eqn:Ed; cbn in Hd; try discriminate;
    destruct sd; try discriminate.
  - rewrite FloatAxioms.div_spec, Ed. unfold SF64div, SFdiv.
    destruct (is_finite_Prim2SF x Hf) as (s0 & [E|(m & e & E)]); rewrite E in *;
      cbn [SFsigned] in *; subst; now rewrite xorb_false_r.
  - replace s with (xorb s false) by apply xorb_false_r.
    eapply div_finite_signed; [exact Ed|exact Hs].
Qed.


Lemma signed_alongside x v :
  (forall s, SFsigned s (Prim2SF x) -> SFsigned s (Prim2SF v)) ->
  PrimFloat.is_nan x = false -> alongside x v.
Proof.
  intros H Hx. split; [|split].
  - apply not_nan_Prim2SF in Hx.
    destruct (Prim2SF x) as [s|s| |s m e] eqn:E; try (now elim Hx);
      apply (signed_not_nan s); apply H; reflexivity.
  - intros Hp. apply SFsigned_nonneg, H. now apply positive_signed.
  - intros Hn. apply SFsigned_nonpos, H. now apply negative_signed.
Qed.

Lemma is_finite_not_nan x : PrimFloat.is_finite x = true -> PrimFloat.is_nan x = false.
Proof.
  unfold PrimFloat.is_finite. rewrite negb_true_iff, orb_false_iff. tauto.
Qed.

(** The unit vector along a finite offset points, along each axis, the way
    the offset does. *)
Lemma unitVector_alongside x z :
  PrimFloat.is_finite x = true -> PrimFloat.is_finite z = true ->
  alongside x (fst (unitVector x z)) /\ alongside z (snd (unitVector x z)).
Proof.
  intros Fx Fz.
  pose proof (is_finite_not_nan x Fx) as Nx. pose proof (is_finite_not_nan z Fz) as Nz.
  pose proof (euclid_signed x z Nx Nz) as Sd.
  pose proof (signed_not_nan _ _ Sd) as Nd.
  unfold unitVector. destruct (euclid x z <? 1e-6)%float eqn:L; cbn [fst snd].
  - split; (split; [reflexivity|split; intros _; reflexivity]).
  - assert (Hd : (0 <? euclid x z)%float = true).
    { apply (float_ltb_leb_trans _ 1e-6%float); [reflexivity|].
      apply float_not_ltb_leb; [exact Nd|reflexivity|exact L]. }
    split; apply signed_alongside; try assumption; intros s Hs;
      now apply div_positive_signed.
Qed.



(** ** Lengths on a sample *)

Lemma intVectors_In a b :
  -100 <= a <= 100 -> -100 <= b <= 100 -> In (a, b) intVectors.
Proof.
  intros Ha Hb. unfold intVectors. apply in_flat_map.
  exists (Z.to_nat (a + 100)). split; [apply in_seq; lia|].
  apply in_map_iff. exists (Z.to_nat (b + 100)). split; [|apply in_seq; lia].
  f_equal; lia.
Qed.

Lemma cappedIntent_unit_check :
  forallb (fun ab =>
             let x := Z2float (fst ab) in
             let z := Z2float (snd ab) in
             implb (1 <? euclid x z)%float (hasLength (cappedIntent x z) 1 0x1p-52))
          intVectors = true.
Proof. vm_compute. reflexivity. Qed.

Lemma unitVector_unit_check :
  forallb (fun ab =>
             let x := Z2float (fst ab) in
             let z := Z2float (snd ab) in
             implb (negb ((fst ab =? 0) && (snd ab =? 0)))
                   (hasLength (unitVector x z) 1 0x1p-52
                    && hasLength (aimedAt 0 0 x z) 10 0x1p-49))
          intVectors = true.
Proof. vm_compute. reflexivity. Qed.

(** On the sample, a capped intent longer than 1 has unit length to within
    one unit in the last place. *)
Lemma cappedIntent_unit a b :
  -100 <= a <= 100 -> -100 <= b <= 100 ->
  (1 <? euclid (Z2float a) (Z2float b))%float = true ->
  hasLength (cappedIntent (Z2float a) (Z2float b)) 1 0x1p-52 = true.
Proof.
  intros Ha Hb L. pose proof cappedIntent_unit_check as C.
  rewrite forallb_forall in C. specialize (C (a, b) (intVectors_In a b Ha Hb)).
  cbn [fst snd] in C. cbv zeta in C. now rewrite L in C.
Qed.

(** On the sample, the unit vector along an offset other than zero has
    unit length, and a fireball aimed along it has speed 10, to within a
    unit in the last place. *)
Lemma unitVector_unit a b :
  -100 <= a <= 100 -> -100 <= b <= 100 -> (a, b) <> (0, 0) ->
  hasLength (unitVector (Z2float a) (Z2float b)) 1 0x1p-52 = true
  /\ hasLength (aimedAt 0 0 (Z2float a) (Z2float b)) 10 0x1p-49 = true.
Proof.
  intros Ha Hb N. pose proof unitVector_unit_check as C.
  rewrite forallb_forall in C. specialize (C (a, b) (intVectors_In a b Ha Hb)).
  cbn [fst snd] in C. cbv zeta in C.
  assert (E : (a =? 0) && (b =? 0) = false).
  { destruct (a =? 0) eqn:E1; [|reflexivity]. destruct (b =? 0) eqn:E2; [|reflexivity].
    apply Z.eqb_eq in E1, E2. subst. now elim N. }
  rewrite E in C. cbn [negb implb] in C. now apply andb_prop in C.
Qed.

(** ** What each tick step leaves alone *)

Lemma stepEnemy_vitals now dt room rnd e : sameVitals e (fst (stepEnemy now dt room rnd e)).
Proof.
  unfold stepEnemy, sameVitals.
  destruct (pickNearestPlayer _ _ _); simpl.
  - destruct (PrimFloat.ltb _ _); simpl; [tauto|].
    destruct (_ || _); simpl; tauto.
  - tauto.
Qed.

Lemma stepEnemies_keys now dt room es : forall rnd,
  JsMap.keys (fst (stepEnemies now dt room rnd es)) = JsMap.keys es.
Proof.
  induction es as [|[k e] r IH]; intros rnd; simpl; [reflexivity|].
  destruct (stepEnemy now dt room rnd e) as [e1 rnd1].
  specialize (IH rnd1). destruct (stepEnemies now dt room rnd1 r) as [r1 rnd2].
  simpl in *. now rewrite IH.
Qed.

Lemma stepEnemies_Forall (Q : Enemy.t -> Prop) now dt room es :
  (forall e e1, sameVitals e e1 -> Q e -> Q e1) ->
  forall rnd, Forall Q (JsMap.values es) ->
  Forall Q (JsMap.values (fst (stepEnemies now dt room rnd es))).
Proof.
  intros HQ. induction es as [|[k e] r IH]; intros rnd H; simpl; [constructor|].
  pose proof (stepEnemy_vitals now dt room rnd e) as Hv.
  destruct (stepEnemy now dt room rnd e) as [e1 rnd1].
  specialize (IH rnd1). destruct (stepEnemies now dt room rnd1 r) as [r1 rnd2].
  simpl in *. inversion H; subst. constructor; eauto.
Qed.

Lemma finishCast_frame roomId now p c room rnd :
  let room1 := fst (fst (finishCast roomId now p c room rnd)) in
  Room.players room1 = Room.players room /\ Room.enemies room1 = Room.enemies room
  /\ Room.env room1 = Room.env room.
Proof.
  unfold finishCast. destruct (String.eqb _ _); [|simpl; tauto].
  destruct (castTarget room c); simpl; tauto.
Qed.

Lemma finishCast_inv (R : Room.t -> Prop) roomId now p c room rnd :
  (forall room0 target rnd0, Room.enemies room0 = Room.enemies room ->
     R room0 -> R (spawnProjectile room0 (fireball now p target rnd0))) ->
  R room -> R (fst (fst (finishCast roomId now p c room rnd))).
Proof.
  intros HR H. unfold finishCast. destruct (String.eqb _ _); [|exact H].
  destruct (castTarget room c); simpl; auto.
Qed.

Lemma resolveCasts_remaining roomId now p cs : forall room rnd,
  fst (fst (fst (resolveCasts roomId now p cs room rnd))) = filter (pending now) cs.
Proof.
  induction cs as [|c r IH]; intros room rnd; simpl; [reflexivity|].
  unfold pending at 1. destruct (now <? Cast.finishAt c).
  - specialize (IH room rnd).
    destruct (resolveCasts roomId now p r room rnd) as [[[rem room1] rnd1] out].
    simpl in *. now rewrite IH.
  - destruct (finishCast roomId now p c room rnd) as [[room1 rnd1] out1].
    specialize (IH room1 rnd1).
    destruct (resolveCasts roomId now p r room1 rnd1) as [[[rem room2] rnd2] out2].
    exact IH.
Qed.

Lemma resolveCasts_frame roomId now p cs : forall room rnd,
  let room1 := snd (fst (fst (resolveCasts roomId now p cs room rnd))) in
  Room.players room1 = Room.players room /\ Room.enemies room1 = Room.enemies room
  /\ Room.env room1 = Room.env room.
Proof.
  induction cs as [|c r IH]; intros room rnd; simpl; [tauto|].
  destruct (now <? Cast.finishAt c).
  - specialize (IH room rnd).
    destruct (resolveCasts roomId now p r room rnd) as [[[rem room1] rnd1] out].
    exact IH.
  - pose proof (finishCast_frame roomId now p c room rnd) as Hf.
    destruct (finishCast roomId now p c room rnd) as [[room1 rnd1] out1].
    specialize (IH room1 rnd1).
    destruct (resolveCasts roomId now p r room1 rnd1) as [[[rem room2] rnd2] out2].
    simpl in *. destruct Hf as (Hp & He & Hv), IH as (IHp & IHe & IHv).
    repeat split; congruence.
Qed.

Lemma resolveCasts_inv (R : Room.t -> Prop) roomId now p cs : forall room rnd,
  (forall room0 target rnd0, Room.enemies room0 = Room.enemies room ->
     R room0 -> R (spawnProjectile room0 (fireball now p target rnd0))) ->
  R room -> R (snd (fst (fst (resolveCasts roomId now p cs room rnd)))).
Proof.
  induction cs as [|c r IH]; intros room rnd HR H; simpl; [exact H|].
  destruct (now <? Cast.finishAt c).
  - specialize (IH room rnd HR H).
    destruct (resolveCasts roomId now p r room rnd) as [[[rem room1] rnd1] out].
    exact IH.
  - pose proof (finishCast_inv R roomId now p c room rnd HR H) as H1.
    pose proof (finishCast_frame roomId now p c room rnd) as Hf.
    destruct (finishCast roomId now p c room rnd) as [[room1 rnd1] out1].
    simpl in H1, Hf. destruct Hf as (_ & He & _).
    assert (HR1 : forall room0 target rnd0, Room.enemies room0 = Room.enemies room1 ->
              R room0 -> R (spawnProjectile room0 (fireball now p target rnd0))).
    { intros room0 target rnd0 E. apply HR. congruence. }
    specialize (IH room1 rnd1 HR1 H1).
    destruct (resolveCasts roomId now p r room1 rnd1) as [[[rem room2] rnd2] out2].
    exact IH.
Qed.

Lemma stepCasts_players roomId now ps : forall room rnd,
  fst (fst (fst (stepCasts roomId now ps room rnd)))
  = map (fun kp => (fst kp, dropDue now (snd kp))) ps.
Proof.
  induction ps as [|[k p] r IH]; intros room rnd; simpl; [reflexivity|].
  destruct (Player.casts p) as [|c cs] eqn:Ec.
  - specialize (IH room rnd).
    destruct (stepCasts roomId now r room rnd) as [[[r1 room1] rnd1] out].
    simpl in *. rewrite IH. f_equal. f_equal.
    unfold dropDue. rewrite Ec. destruct p; simpl in *; now subst.
  - pose proof (resolveCasts_remaining roomId now p (c :: cs) room rnd) as Hr.
    destruct (resolveCasts roomId now p (c :: cs) room rnd) as [[[rem room1] rnd1] out1].
    specialize (IH room1 rnd1).
    destruct (stepCasts roomId now r room1 rnd1) as [[[r1 room2] rnd2] out2].
    simpl in *. rewrite IH, Hr. unfold dropDue. now rewrite Ec.
Qed.

Lemma stepCasts_frame roomId now ps : forall room rnd,
  let room1 := snd (fst (fst (stepCasts roomId now ps room rnd))) in
  Room.players room1 = Room.players room /\ Room.enemies room1 = Room.enemies room
  /\ Room.env room1 = Room.env room.
Proof.
  induction ps as [|[k p] r IH]; intros room rnd; simpl; [tauto|].
  destruct (Player.casts p) as [|c cs] eqn:Ec.
  - specialize (IH room rnd).
    destruct (stepCasts roomId now r room rnd) as [[[r1 room1] rnd1] out]. exact IH.
  - pose proof (resolveCasts_frame roomId now p (c :: cs) room rnd) as Hf.
    destruct (resolveCasts roomId now p (c :: cs) room rnd) as [[[rem room1] rnd1] out1].
    specialize (IH room1 rnd1).
    destruct (stepCasts roomId now r room1 rnd1) as [[[r1 room2] rnd2] out2].
    simpl in *. destruct Hf as (Hp & He & Hv), IH as (IHp & IHe & IHv).
    repeat split; congruence.
Qed.

Lemma stepCasts_inv (R : Room.t -> Prop) roomId now ps : forall room rnd,
  (forall room0 p target rnd0, Room.enemies room0 = Room.enemies room ->
     R room0 -> R (spawnProjectile room0 (fireball now p target rnd0))) ->
  R room -> R (snd (fst (fst (stepCasts roomId now ps room rnd)))).
Proof.
  induction ps as [|[k p] r IH]; intros room rnd HR H; simpl; [exact H|].
  destruct (Player.casts p) as [|c cs] eqn:Ec.
  - specialize (IH room rnd HR H).
    destruct (stepCasts roomId now r room rnd) as [[[r1 room1] rnd1] out]. exact IH.
  - pose proof (resolveCasts_inv R roomId now p (c :: cs) room rnd (fun r0 => HR r0 p) H) as H1.
    pose proof (resolveCasts_frame roomId now p (c :: cs) room rnd) as Hf.
    destruct (resolveCasts roomId now p (c :: cs) room rnd) as [[[rem room1] rnd1] out1].
    simpl in H1, Hf. destruct Hf as (_ & He & _).
    assert (HR1 : forall room0 p0 target rnd0, Room.enemies room0 = Room.enemies room1 ->
              R room0 -> R (spawnProjectile room0 (fireball now p0 target rnd0))).
    { intros room0 p0 target rnd0 E. apply HR. congruence. }
    specialize (IH room1 rnd1 HR1 H1).
    destruct (stepCasts roomId now r room1 rnd1) as [[[r1 room2] rnd2] out2].
    exact IH.
Qed.

Lemma sameEnemies_refl es : sameEnemies es es.
Proof.
  split; [reflexivity|]. intros id. destruct (JsMap.get id es); [|exact I].
  unfold samePlace. tauto.
Qed.

Lemma sameEnemies_trans es es1 es2 :
  sameEnemies es es1 -> sameEnemies es1 es2 -> sameEnemies es es2.
Proof.
  intros [K1 H1] [K2 H2]. split; [congruence|]. intros id.
  specialize (H1 id). specialize (H2 id).
  destruct (JsMap.get id es), (JsMap.get id es1), (JsMap.get id es2);
    try tauto. unfold samePlace in *. intuition congruence.
Qed.

Lemma sameEnemies_set_hp id e h es :
  JsMap.get id es = Some e -> sameEnemies es (JsMap.set id (Enemy.set_hp e h) es).
Proof.
  intros G. split.
  - apply JsMap_keys_set_present. unfold JsMap.has. now rewrite G.
  - intros id'. destruct (string_dec id' id) as [->|N].
    + rewrite G, JsMap_get_set_same. unfold samePlace. simpl. tauto.
    + rewrite JsMap_get_set_other by assumption.
      destruct (JsMap.get id' es); [|exact I]. unfold samePlace. tauto.
Qed.

Lemma stepProjectile_enemies roomId now dt es k proj :
  sameEnemies es (fst (fst (stepProjectile roomId now dt es k proj))).
Proof.
  unfold stepProjectile. destruct (_ <=? now); [apply sameEnemies_refl|].
  destruct (truthyS _); [|apply sameEnemies_refl].
  destruct (JsMap.get _ es) as [e|] eqn:G; [|apply sameEnemies_refl].
  destruct (withinHitRadius e _); [|apply sameEnemies_refl].
  simpl. now apply sameEnemies_set_hp.
Qed.

Lemma stepProjectiles_enemies roomId now dt ps : forall es,
  sameEnemies es (fst (fst (stepProjectiles roomId now dt es ps))).
Proof.
  induction ps as [|[k proj] r IH]; intros es; simpl; [apply sameEnemies_refl|].
  pose proof (stepProjectile_enemies roomId now dt es k proj) as H1.
  destruct (stepProjectile roomId now dt es k proj) as [[es1 kept] out1].
  specialize (IH es1).
  destruct (stepProjectiles roomId now dt es1 r) as [[es2 r1] out2].
  simpl in *. eapply sameEnemies_trans; eassumption.
Qed.

(** A projectile that step 4 keeps is the moved projectile. *)
Lemma stepProjectile_kept roomId now dt es k proj proj1 :
  snd (fst (stepProjectile roomId now dt es k proj)) = Some proj1 ->
  proj1 = moveProjectile dt proj.
Proof.
  unfold stepProjectile. destruct (_ <=? now); [discriminate|].
  destruct (truthyS _); [|simpl; congruence].
  destruct (JsMap.get _ es) as [e|]; [|simpl; congruence].
  destruct (withinHitRadius e _); simpl; congruence.
Qed.

(** The entries step 4 leaves: a sub-list of the entries, each moved. *)
Lemma stepProjectiles_kept roomId now dt ps : forall es k proj1,
  In (k, proj1) (snd (fst (stepProjectiles roomId now dt es ps))) ->
  exists proj, In (k, proj) ps /\ proj1 = moveProjectile dt proj.
Proof.
  induction ps as [|[k0 proj0] r IH]; intros es k proj1; simpl; [contradiction|].
  pose proof (stepProjectile_kept roomId now dt es k0 proj0) as Hk.
  destruct (stepProjectile roomId now dt es k0 proj0) as [[es1 kept] out1].
  specialize (IH es1 k proj1).
  destruct (stepProjectiles roomId now dt es1 r) as [[es2 r1] out2].
  simpl in *. destruct kept as [p1|].
  - intros [H|H].
    + injection H as <- <-. exists proj0. split; [now left|]. now apply Hk.
    + destruct (IH H) as (proj & Hin & ->). exists proj. auto.
  - intros H. destruct (IH H) as (proj & Hin & ->). exists proj. auto.
Qed.

Lemma stepProjectiles_size roomId now dt ps : forall es,
  (JsMap.size (snd (fst (stepProjectiles roomId now dt es ps))) <= JsMap.size ps)%nat.
Proof.
  unfold JsMap.size.
  induction ps as [|[k0 proj0] r IH]; intros es; simpl; [lia|].
  destruct (stepProjectile roomId now dt es k0 proj0) as [[es1 kept] out1].
  specialize (IH es1).
  destruct (stepProjectiles roomId now dt es1 r) as [[es2 r1] out2].
  simpl in *. destruct kept; simpl; lia.
Qed.

Lemma stepProjectiles_NoDup roomId now dt ps : forall es,
  NoDup (JsMap.keys ps) ->
  NoDup (JsMap.keys (snd (fst (stepProjectiles roomId now dt es ps)))).
Proof.
  induction ps as [|[k0 proj0] r IH]; intros es ND; simpl; [constructor|].
  pose proof (stepProjectiles_kept roomId now dt r) as Hin.
  destruct (stepProjectile roomId now dt es k0 proj0) as [[es1 kept] out1].
  specialize (IH es1). specialize (Hin es1).
  destruct (stepProjectiles roomId now dt es1 r) as [[es2 r1] out2].
  simpl in *. inversion ND as [|? ? Hn ND']; subst.
  destruct kept as [p1|]; [|auto]. simpl. constructor; [|auto].
  intros Hx. apply Hn. unfold JsMap.keys in Hx. apply in_map_iff in Hx.
  destruct Hx as ([k1 q1] & E & Hx). simpl in E. subst k1.
  destruct (Hin _ _ Hx) as (proj & Hp & _).
  change (In (fst (k0, proj)) (map fst r)). now apply in_map.
Qed.

(** ** Room invariants

    A property of rooms that the fresh room has and every handler and the
    tick preserve holds of every room of every reachable state. *)

Lemma lookupRoom_get rs o rid room :
  lookupRoom rs o = Some (rid, room) -> o = Some rid /\ JsMap.get rid rs = Some room.
Proof.
  unfold lookupRoom. destruct o as [r|]; [|discriminate].
  destruct (JsMap.get r rs) eqn:G; [|discriminate]. intros [= <- <-]. auto.
Qed.

Lemma attackTarget_get room payload id e :
  attackTarget room payload = Some (id, e) ->
  payload_targetEnemyId payload = Some id /\ JsMap.get id (Room.enemies room) = Some e.
Proof.
  unfold attackTarget, findEnemy. destruct (payload_targetEnemyId payload) as [i|]; [|discriminate].
  destruct (truthyS i); [|discriminate].
  destruct (JsMap.get i (Room.enemies room)) eqn:G; [|discriminate].
  intros [= <- <-]. auto.
Qed.

Lemma resolveActor_In room actorId socket key actor :
  resolveActor room actorId socket = Some (key, actor) -> In (key, actor) (Room.players room).
Proof.
  unfold resolveActor, findPlayerByPlayerId. destruct actorId as [a|].
  - destruct (find _ (Room.players room)) as [kp|] eqn:F.
    + intros [= ->]. now apply find_some in F.
    + destruct (JsMap.get socket (Room.players room)) eqn:G; [|discriminate].
      intros [= <- <-]. now apply JsMap_get_In.
  - destruct (JsMap.get socket (Room.players room)) eqn:G; [|discriminate].
    intros [= <- <-]. now apply JsMap_get_In.
Qed.

Section RoomInvariant.

Variable P : Room.t -> Prop.

Hypothesis P_fresh : forall rnd,
  P (Room.mk [] (fst (seedEnemies CONFIG.enemyCount 0 rnd [])) [] (Env.mk 12.0%float "clear")).

Hypothesis P_join : forall room socket playerId name,
  P room ->
  P (Room.set_players room
       (JsMap.set socket
          (Player.mk socket playerId name 0%float 0%float 0%float 0%float 0%float
                     100 100 50 50 [])
          (Room.players room))).

Hypothesis P_input : forall room socket p msg,
  P room -> JsMap.get socket (Room.players room) = Some p ->
  P (Room.set_players room
       (JsMap.set socket
          (assignIfNumber (InputMsg.rotY msg)
             (assignIfNumber (InputMsg.vz msg)
                (assignIfNumber (InputMsg.vx msg) p Player.set_vx) Player.set_vz)
             Player.set_rotY)
          (Room.players room))).

Hypothesis P_cast : forall roomId room key actor payload startRead finishRead,
  P room -> In (key, actor) (Room.players room) ->
  P (fst (actionCast roomId room key actor payload startRead finishRead)).

Hypothesis P_attack : forall roomId room actor payload,
  P room -> P (fst (actionAttack roomId room actor payload)).

Hypothesis P_leave : forall room socket,
  P room -> P (Room.set_players room (JsMap.delete socket (Room.players room))).

Hypothesis P_tick : forall roomId now dt room rnd,
  P room -> P (fst (fst (tickRoom roomId now dt room rnd))).

Lemma allRooms_get rs rid room : allRooms P rs -> JsMap.get rid rs = Some room -> P room.
Proof.
  intros H G. apply JsMap_get_In in G. unfold allRooms in H.
  rewrite Forall_forall in H. exact (H _ G).
Qed.

Lemma allRooms_set rs rid room : allRooms P rs -> P room -> allRooms P (JsMap.set rid room rs).
Proof. intros H Hr. now apply JsMap_Forall_set. Qed.

Lemma joinRoom_allRooms socket msg w rnd :
  allRooms P (rooms w) -> allRooms P (rooms (fst (fst (joinRoom socket msg w rnd)))).
Proof.
  intros H. unfold joinRoom. destruct (JoinRoomMsg.roomId msg) as [rid|]; [|exact H].
  destruct (truthyS rid); [|exact H]. unfold getRoom.
  destruct (JsMap.get rid (rooms w)) as [room|] eqn:G.
  - simpl. apply allRooms_set; [exact H|]. apply P_join. eapply allRooms_get; eassumption.
  - pose proof (P_fresh rnd) as Hf.
    destruct (seedEnemies CONFIG.enemyCount 0 rnd []) as [es rnd1]. simpl in Hf. simpl.
    apply allRooms_set; [now apply allRooms_set|]. exact (P_join _ socket _ _ Hf).
Qed.

Lemma input_allRooms socket msg w :
  allRooms P (rooms w) -> allRooms P (rooms (input socket msg w)).
Proof.
  intros H. unfold input.
  destruct (lookupRoom (rooms w) (InputMsg.roomId msg)) as [[rid room]|] eqn:L; [|exact H].
  apply lookupRoom_get in L. destruct L as [_ G].
  destruct (JsMap.get socket (Room.players room)) as [p|] eqn:Gp; [|exact H].
  simpl. apply allRooms_set; [exact H|]. apply P_input; [|exact Gp].
  eapply allRooms_get; eassumption.
Qed.

Lemma action_allRooms socket msg startRead finishRead w :
  allRooms P (rooms w) -> allRooms P (rooms (fst (action socket msg startRead finishRead w))).
Proof.
  intros H. unfold action.
  destruct (lookupRoom (rooms w) (ActionMsg.roomId msg)) as [[rid room]|] eqn:L; [|exact H].
  apply lookupRoom_get in L. destruct L as [_ G].
  pose proof (allRooms_get _ _ _ H G) as Hr.
  destruct (resolveActor room (ActionMsg.actorId msg) socket) as [[key actor]|] eqn:A;
    [|exact H].
  apply resolveActor_In in A.
  destruct (String.eqb (ActionMsg.type msg) "cast").
  - pose proof (P_cast rid room key actor (ActionMsg.payload msg) startRead finishRead Hr A) as Hc.
    destruct (actionCast rid room key actor (ActionMsg.payload msg) startRead finishRead)
      as [room1 out]. simpl in *. now apply allRooms_set.
  - destruct (String.eqb (ActionMsg.type msg) "attack"); [|exact H].
    pose proof (P_attack rid room actor (ActionMsg.payload msg) Hr) as Hc.
    destruct (actionAttack rid room actor (ActionMsg.payload msg)) as [room1 out].
    simpl in *. now apply allRooms_set.
Qed.

Lemma disconnect_allRooms socket w :
  allRooms P (rooms w) -> allRooms P (rooms (fst (disconnect socket w))).
Proof.
  intros H. unfold disconnect.
  destruct (find _ (rooms w)) as [[rid room]|] eqn:F; [|exact H].
  apply find_some in F. destruct F as [Hin _].
  destruct (JsMap.get socket (Room.players room)) as [p|]; [|exact H].
  assert (Hr : P room).
  { unfold allRooms in H. rewrite Forall_forall in H. exact (H _ Hin). }
  simpl. destruct (Nat.eqb _ 0).
  - apply JsMap_Forall_delete. apply allRooms_set; [exact H|]. now apply P_leave.
  - apply allRooms_set; [exact H|]. now apply P_leave.
Qed.

Lemma tickRooms_allRooms now dt rs : forall rnd,
  allRooms P rs -> allRooms P (fst (fst (tickRooms now dt rs rnd))).
Proof.
  induction rs as [|[rid room] r IH]; intros rnd H; simpl; [constructor|].
  inversion H as [|? ? Hr Hrest]; subst.
  pose proof (P_tick rid now dt room rnd Hr) as Ht.
  destruct (tickRoom rid now dt room rnd) as [[room1 rnd1] out1].
  specialize (IH rnd1 Hrest).
  destruct (tickRooms now dt r rnd1) as [[r1 rnd2] out2].
  simpl in *. constructor; assumption.
Qed.

Lemma step_allRooms w rnd i :
  allRooms P (rooms w) -> allRooms P (rooms (fst (fst (step w rnd i)))).
Proof.
  intros H. destruct i as [socket msg|socket msg|socket msg t0 t1|socket|now]; simpl.
  - now apply joinRoom_allRooms.
  - now apply input_allRooms.
  - pose proof (action_allRooms socket msg t0 t1 w H) as Ha.
    destruct (action socket msg t0 t1 w) as [w1 out]. exact Ha.
  - pose proof (disconnect_allRooms socket w H) as Hd.
    destruct (disconnect socket w) as [w1 out]. exact Hd.
  - unfold tick. pose proof (tickRooms_allRooms now (tickDelta now (lastTick w)) (rooms w) rnd H) as Ht.
    destruct (tickRooms now (tickDelta now (lastTick w)) (rooms w) rnd) as [[rs1 rnd1] out].
    exact Ht.
Qed.

Lemma run_allRooms ins : forall w rnd,
  allRooms P (rooms w) -> allRooms P (rooms (fst (fst (run w rnd ins)))).
Proof.
  induction ins as [|i r IH]; intros w rnd H; simpl; [exact H|].
  pose proof (step_allRooms w rnd i H) as Hs.
  destruct (step w rnd i) as [[w1 rnd1] out1].
  specialize (IH w1 rnd1 Hs).
  destruct (run w1 rnd1 r) as [[w2 rnd2] out2]. exact IH.
Qed.

Lemma reachable_allRooms startRead rnd ins :
  allRooms P (rooms (fst (fst (run (initial startRead) rnd ins)))).
Proof. apply run_allRooms. constructor. Qed.

End RoomInvariant.

(** ** The players across a tick *)

(** A tick moves every player (step 1) and drops its due casts (step 3);
    the player map keeps its keys and their order. *)
Lemma tickRoom_players roomId now dt room rnd :
  Room.players (fst (fst (tickRoom roomId now dt room rnd)))
  = map (fun kp => (fst kp, dropDue now (movePlayer dt (snd kp)))) (Room.players room).
Proof.
  unfold tickRoom.
  destruct (stepEnemies now dt _ rnd _) as [es2 rnd2].
  match goal with |- context [stepCasts roomId now ?ps ?r ?g] =>
    pose proof (stepCasts_players roomId now ps r g) as Hp;
    destruct (stepCasts roomId now ps r g) as [[[ps3 room3] rnd3] out3] end.
  destruct (stepProjectiles roomId now dt _ _) as [[es4 ps4] out4].
  simpl in *. rewrite Hp. unfold movePlayers. rewrite map_map. reflexivity.
Qed.

Lemma tickRoom_players_get roomId now dt room rnd k :
  JsMap.get k (Room.players (fst (fst (tickRoom roomId now dt room rnd))))
  = option_map (fun p => dropDue now (movePlayer dt p)) (JsMap.get k (Room.players room)).
Proof.
  rewrite tickRoom_players.
  induction (Room.players room) as [|[k1 p1] r IH]; simpl; [reflexivity|].
  destruct (String.eqb k1 k); [reflexivity|exact IH].
Qed.

(** ** Player vitals *)

Lemma assignIfNumber_vitals v p set :
  (forall q f, playerVitals q -> playerVitals (set q f)) ->
  playerVitals p -> playerVitals (assignIfNumber v p set).
Proof. intros Hs H. destruct v; simpl; auto. Qed.

Lemma actionAttack_players roomId room actor payload :
  Room.players (fst (actionAttack roomId room actor payload)) = Room.players room.
Proof.
  unfold actionAttack. destruct (attackTarget room payload) as [[id e]|]; reflexivity.
Qed.

Lemma playersVital_reachable startRead rnd ins :
  allRooms playersVital (rooms (fst (fst (run (initial startRead) rnd ins)))).
Proof.
  apply reachable_allRooms; unfold playersVital.
  - intros rnd0. constructor.
  - intros room socket playerId name H. simpl.
    apply JsMap_Forall_set; [exact H|]. simpl. unfold playerVitals. simpl. tauto.
  - intros room socket p msg H G. simpl.
    apply JsMap_Forall_set; [exact H|]. simpl.
    rewrite Forall_forall in H. specialize (H _ (JsMap_get_In _ _ _ G)). simpl in H.
    repeat apply assignIfNumber_vitals; auto; intros q f Hq; exact Hq.
  - intros roomId room key actor payload t0 t1 H Hin. simpl.
    apply JsMap_Forall_set; [exact H|]. simpl.
    rewrite Forall_forall in H. exact (H _ Hin).
  - intros roomId room actor payload H. now rewrite actionAttack_players.
  - intros room socket H. simpl. now apply JsMap_Forall_delete.
  - intros roomId now dt room rnd0 H. rewrite tickRoom_players.
    rewrite Forall_map. eapply Forall_impl; [|exact H].
    intros [k p] Hp. simpl in *. unfold playerVitals, dropDue, movePlayer in *.
    destruct (PrimFloat.ltb _ _); simpl; exact Hp.
Qed.

(** C9. The fields [hp], [maxHp], [mana] and [maxMana] of a player are set
    by [joinRoom] to 100, 100, 50 and 50, and no handler and no tick step
    writes them: in every state the server can reach, every player of every
    room still holds these four values. *)
Theorem player_vitals_constant : forall startRead rnd ins,
  Forall (fun kr =>
            Forall (fun kp =>
                      Player.hp (snd kp) = 100 /\ Player.maxHp (snd kp) = 100
                      /\ Player.mana (snd kp) = 50 /\ Player.maxMana (snd kp) = 50)
                   (Room.players (snd kr)))
         (rooms (fst (fst (run (initial startRead) rnd ins)))).
Proof. intros. exact (playersVital_reachable startRead rnd ins). Qed.

(** ** Enemies *)

Lemma seedEnemies_keys rnd :
  JsMap.keys (fst (seedEnemies CONFIG.enemyCount 0 rnd [])) = enemyIds.
Proof. reflexivity. Qed.

Lemma seedEnemies_vitals rnd :
  Forall (fun ke => Enemy.hp (snd ke) = 50 /\ Enemy.maxHp (snd ke) = 50)
         (fst (seedEnemies CONFIG.enemyCount 0 rnd [])).
Proof. cbv - [PrimFloat.mul PrimFloat.sub]. repeat constructor. Qed.

Lemma spawnProjectile_Forall (Q : string * Projectile.t -> Prop) room proj :
  Forall Q (Room.projectiles room) -> Q (Projectile.projId proj, proj) ->
  Forall Q (Room.projectiles (spawnProjectile room proj)).
Proof.
  intros H Hq. unfold spawnProjectile. simpl. apply JsMap_Forall_set; [|exact Hq].
  destruct (Nat.ltb _ _); [|exact H].
  destruct (JsMap.keys (Room.projectiles room)) as [|k ks]; [exact H|].
  destruct (truthyS k); [|exact H]. now apply JsMap_Forall_delete.
Qed.

Lemma stepProjectile_vitals roomId now dt es k proj :
  0 <= Projectile.damage proj ->
  Forall (fun ke => enemyVitals (snd ke)) es ->
  Forall (fun ke => enemyVitals (snd ke)) (fst (fst (stepProjectile roomId now dt es k proj))).
Proof.
  intros Hd H. unfold stepProjectile. destruct (_ <=? now); [exact H|].
  destruct (truthyS _); [|exact H].
  destruct (JsMap.get _ es) as [e|] eqn:G; [|exact H].
  destruct (withinHitRadius e _); [|exact H].
  simpl. apply JsMap_Forall_set; [exact H|]. simpl.
  rewrite Forall_forall in H. specialize (H _ (JsMap_get_In _ _ _ G)).
  unfold enemyVitals in *. simpl in *. lia.
Qed.

Lemma stepProjectiles_vitals roomId now dt ps : forall es,
  Forall (fun kp => 0 <= Projectile.damage (snd kp)) ps ->
  Forall (fun ke => enemyVitals (snd ke)) es ->
  Forall (fun ke => enemyVitals (snd ke)) (fst (fst (stepProjectiles roomId now dt es ps))).
Proof.
  induction ps as [|[k proj] r IH]; intros es Hd H; simpl; [exact H|].
  inversion Hd as [|? ? Hd1 Hd2]; subst.
  pose proof (stepProjectile_vitals roomId now dt es k proj Hd1 H) as H1.
  destruct (stepProjectile roomId now dt es k proj) as [[es1 kept] out1].
  specialize (IH es1 Hd2 H1).
  destruct (stepProjectiles roomId now dt es1 r) as [[es2 r1] out2]. exact IH.
Qed.

Lemma stepProjectiles_damage roomId now dt ps es :
  Forall (fun kp => 0 <= Projectile.damage (snd kp)) ps ->
  Forall (fun kp => 0 <= Projectile.damage (snd kp))
         (snd (fst (stepProjectiles roomId now dt es ps))).
Proof.
  intros H. rewrite Forall_forall in *. intros [k proj1] Hin.
  destruct (stepProjectiles_kept roomId now dt ps es k proj1 Hin) as (proj & Hp & ->).
  exact (H _ Hp).
Qed.

Lemma tickRoom_enemiesSound roomId now dt room rnd :
  enemiesSound room -> enemiesSound (fst (fst (tickRoom roomId now dt room rnd))).
Proof.
  intros (K & Hv & Hd). unfold tickRoom.
  set (room1 := Room.set_players room _).
  pose proof (stepEnemies_keys now dt room1 (Room.enemies room1) rnd) as K2.
  pose proof (stepEnemies_Forall enemyVitals now dt room1 (Room.enemies room1)) as V2.
  destruct (stepEnemies now dt room1 rnd (Room.enemies room1)) as [es2 rnd2] eqn:E2.
  set (room2 := Room.set_enemies room1 es2).
  pose proof (stepCasts_frame roomId now (Room.players room2) room2 rnd2) as F3.
  pose proof (stepCasts_inv
                (fun r => Forall (fun kp => 0 <= Projectile.damage (snd kp)) (Room.projectiles r))
                roomId now (Room.players room2) room2 rnd2) as D3.
  destruct (stepCasts roomId now (Room.players room2) room2 rnd2)
    as [[[ps3 room3] rnd3] out3].
  pose proof (stepProjectiles_enemies roomId now dt (Room.projectiles room3) (Room.enemies room3))
    as S4.
  pose proof (stepProjectiles_vitals roomId now dt (Room.projectiles room3) (Room.enemies room3))
    as V4.
  pose proof (stepProjectiles_damage roomId now dt (Room.projectiles room3) (Room.enemies room3))
    as D4.
  destruct (stepProjectiles roomId now dt (Room.enemies room3) (Room.projectiles room3))
    as [[es4 ps4] out4].
  cbn [fst snd] in *. destruct F3 as (_ & F3 & _).
  change (Room.enemies room2) with es2 in *.
  change (Room.projectiles room2) with (Room.projectiles room) in *.
  change (Room.enemies room1) with (Room.enemies room) in *.
  rewrite F3 in *.
  assert (Hd3 : Forall (fun kp => 0 <= Projectile.damage (snd kp)) (Room.projectiles room3)).
  { apply D3; [|exact Hd]. intros room0 p target rnd0 _ H0.
    apply spawnProjectile_Forall; [exact H0|]. simpl. unfold CONFIG.defaultFireball.damage. lia. }
  assert (Hv2 : Forall (fun ke => enemyVitals (snd ke)) es2).
  { specialize (V2 (fun e e1 (S : sameVitals e e1) (H : enemyVitals e) =>
                      ltac:(unfold sameVitals, enemyVitals in *; intuition congruence)) rnd).
    rewrite E2 in V2. cbn [fst] in V2. unfold JsMap.values in V2.
    rewrite !Forall_map in V2. apply V2. exact Hv. }
  unfold enemiesSound. cbn [fst snd Room.enemies Room.projectiles].
  split; [|split].
  - destruct S4 as [S4 _]. rewrite S4. rewrite <- K. rewrite <- K2. reflexivity.
  - apply V4; assumption.
  - apply D4; assumption.
Qed.

Lemma enemiesSound_reachable startRead rnd ins :
  allRooms enemiesSound (rooms (fst (fst (run (initial startRead) rnd ins)))).
Proof.
  apply reachable_allRooms; unfold enemiesSound.
  - intros rnd0. cbn [Room.enemies Room.projectiles]. split; [|split].
    + apply seedEnemies_keys.
    + eapply Forall_impl; [|apply seedEnemies_vitals].
      intros [k e] [H1 H2]. unfold enemyVitals. simpl in *. lia.
    + constructor.
  - intros room socket playerId name H. exact H.
  - intros room socket p msg H _. exact H.
  - intros roomId room key actor payload t0 t1 H _. exact H.
  - intros roomId room actor payload (K & Hv & Hd). unfold actionAttack.
    destruct (attackTarget room payload) as [[id e]|] eqn:A; [|simpl; auto].
    apply attackTarget_get in A. destruct A as [_ G].
    simpl. split; [|split].
    + rewrite JsMap_keys_set_present; [exact K|]. unfold JsMap.has. now rewrite G.
    + apply JsMap_Forall_set; [exact Hv|]. simpl.
      rewrite Forall_forall in Hv. specialize (Hv _ (JsMap_get_In _ _ _ G)).
      unfold enemyVitals in *. simpl in *. lia.
    + exact Hd.
  - intros room socket H. exact H.
  - intros roomId now dt room rnd0 H. now apply tickRoom_enemiesSound.
Qed.

(** C4. In every state the server can reach, every room holds exactly the
    [enemyCount] = 6 enemies seeded at its creation, under the ids [e1] to
    [e6] (no handler and no tick step adds or removes one), and every enemy
    satisfies [0 <= hp <= maxHp] with [maxHp = 50]. *)
Theorem enemy_invariant : forall startRead rnd ins,
  Forall (fun kr =>
            JsMap.size (Room.enemies (snd kr)) = CONFIG.enemyCount
            /\ JsMap.keys (Room.enemies (snd kr)) = enemyIds
            /\ Forall (fun ke => 0 <= Enemy.hp (snd ke) <= Enemy.maxHp (snd ke)
                                 /\ Enemy.maxHp (snd ke) = 50)
                      (Room.enemies (snd kr)))
         (rooms (fst (fst (run (initial startRead) rnd ins)))).
Proof.
  intros. eapply Forall_impl; [|exact (enemiesSound_reachable startRead rnd ins)].
  intros [rid room] (K & Hv & _). simpl in *. repeat split; try assumption.
  unfold JsMap.size. unfold JsMap.keys in K.
  rewrite <- (length_map fst), K. reflexivity.
Qed.

(** ** Projectile capacity *)

(** What [spawnProjectile] does to a map without an empty key: above the
    bound the first entry goes, then the new one is set. *)
Lemma spawnProjectile_evicts room proj :
  Forall (fun kp => truthyS (fst kp) = true) (Room.projectiles room) ->
  Room.projectiles (spawnProjectile room proj)
  = JsMap.set (Projectile.projId proj) proj
      (if (CONFIG.maxProjectilesPerRoom <? JsMap.size (Room.projectiles room))%nat
       then tl (Room.projectiles room) else Room.projectiles room).
Proof.
  intros H. unfold spawnProjectile. cbn [Room.projectiles Room.set_projectiles].
  destruct (Nat.ltb _ _); [|reflexivity].
  destruct (Room.projectiles room) as [|[k v] r]; [reflexivity|].
  inversion H as [|? ? Hk _]; subst. cbn [JsMap.keys map fst] in *. rewrite Hk.
  cbn [JsMap.delete tl]. now rewrite String.eqb_refl.
Qed.

Lemma spawnProjectile_bounded room proj :
  truthyS (Projectile.projId proj) = true ->
  projectilesBounded room -> projectilesBounded (spawnProjectile room proj).
Proof.
  intros Hid [Hs Hk]. split.
  - rewrite spawnProjectile_evicts by assumption.
    eapply Nat.le_trans; [apply JsMap_size_set|].
    destruct (Nat.ltb _ _) eqn:E.
    + unfold JsMap.size in *. destruct (Room.projectiles room); simpl in *; lia.
    + apply Nat.ltb_ge in E. lia.
  - apply spawnProjectile_Forall; assumption.
Qed.

Lemma tickRoom_projectilesBounded roomId now dt room rnd :
  projectilesBounded room -> projectilesBounded (fst (fst (tickRoom roomId now dt room rnd))).
Proof.
  intros H. unfold tickRoom.
  set (room1 := Room.set_players room _).
  destruct (stepEnemies now dt room1 rnd (Room.enemies room1)) as [es2 rnd2].
  set (room2 := Room.set_enemies room1 es2).
  pose proof (stepCasts_inv projectilesBounded roomId now (Room.players room2) room2 rnd2) as B3.
  destruct (stepCasts roomId now (Room.players room2) room2 rnd2)
    as [[[ps3 room3] rnd3] out3].
  pose proof (stepProjectiles_size roomId now dt (Room.projectiles room3) (Room.enemies room3))
    as S4.
  pose proof (stepProjectiles_kept roomId now dt (Room.projectiles room3) (Room.enemies room3))
    as K4.
  destruct (stepProjectiles roomId now dt (Room.enemies room3) (Room.projectiles room3))
    as [[es4 ps4] out4].
  cbn [fst snd] in *.
  assert (H3 : projectilesBounded room3).
  { apply B3; [|exact H]. intros room0 p target rnd0 _ H0.
    apply spawnProjectile_bounded; [reflexivity|exact H0]. }
  destruct H3 as [Hs Hk]. split; cbn [Room.projectiles].
  - lia.
  - rewrite Forall_forall in *. intros [k proj1] Hin.
    destruct (K4 _ _ Hin) as (proj & Hp & _). exact (Hk _ Hp).
Qed.

Lemma projectilesBounded_reachable startRead rnd ins :
  allRooms projectilesBounded (rooms (fst (fst (run (initial startRead) rnd ins)))).
Proof.
  apply reachable_allRooms.
  - intros rnd0. split; cbn [Room.projectiles]; [unfold JsMap.size; simpl; lia|constructor].
  - intros room socket playerId name H. exact H.
  - intros room socket p msg H _. exact H.
  - intros roomId room key actor payload t0 t1 H _. exact H.
  - intros roomId room actor payload H. unfold actionAttack.
    destruct (attackTarget room payload) as [[id e]|]; exact H.
  - intros room socket H. exact H.
  - intros roomId now dt room rnd0 H. now apply tickRoom_projectilesBounded.
Qed.

(** C5. In every room of every state the server can reach, the projectile
    map holds at most [maxProjectilesPerRoom + 1] = 201 entries, and so it
    does after any further spawn; a spawn into a map whose size exceeds the
    bound first removes the map's first entry (the oldest inserted one, and
    only that one) and then sets the new projectile. *)
Theorem projectile_capacity : forall startRead rnd ins roomId room,
  JsMap.get roomId (rooms (fst (fst (run (initial startRead) rnd ins)))) = Some room ->
  (JsMap.size (Room.projectiles room) <= CONFIG.maxProjectilesPerRoom + 1)%nat
  /\ forall proj,
       (JsMap.size (Room.projectiles (spawnProjectile room proj))
        <= CONFIG.maxProjectilesPerRoom + 1)%nat
       /\ Room.projectiles (spawnProjectile room proj)
          = JsMap.set (Projectile.projId proj) proj
              (if (CONFIG.maxProjectilesPerRoom <? JsMap.size (Room.projectiles room))%nat
               then tl (Room.projectiles room) else Room.projectiles room).
Proof.
  intros startRead rnd ins roomId room G.
  pose proof (allRooms_get _ _ _ _ (projectilesBounded_reachable startRead rnd ins) G)
    as [Hs Hk].
  split; [lia|]. intros proj.
  pose proof (spawnProjectile_evicts room proj Hk) as E. split; [|exact E].
  rewrite E. eapply Nat.le_trans; [apply JsMap_size_set|].
  destruct (Nat.ltb _ _) eqn:L.
  - unfold JsMap.size in *. destruct (Room.projectiles room); cbn [tl List.length] in *; lia.
  - apply Nat.ltb_ge in L. lia.
Qed.

(** ** The input handler *)

Lemma assignIfNumber_written v p set get :
  (forall q f, get (set q f) = f) ->
  fieldWritten v (get p) (get (assignIfNumber v p set)).
Proof.
  intros Hgs. unfold fieldWritten. destruct v; simpl; split;
    try discriminate; try reflexivity.
  intros _. now rewrite Hgs.
Qed.

(** C7, as amended. The [input] handler, called with a payload that
    destructures (an object, with whatever fields), returns; nothing in its
    body can raise. When the room and the sender both resolve, it rewrites
    the sender's player entry, in place, to the same player with [vx], [vz]
    and [rotY] each overwritten exactly when the message field is of type
    number and left as it was otherwise; nothing else in the room or the
    registry changes. When the room or the sender's player does not
    resolve, the state is unchanged. The handler returns only for such a
    payload: called with no payload or with [null] it throws. *)
Theorem input_overwrites_numeric_fields : forall socket msg w,
  (exists w1,
     onInput socket (ArgObject msg) w = Returned w1
     /\ match lookupRoom (rooms w) (InputMsg.roomId msg) with
        | Some (roomId, room) =>
            match JsMap.get socket (Room.players room) with
            | Some p =>
                exists vx1 vz1 rotY1,
                  w1
                  = mkWorld
                      (JsMap.set roomId
                         (Room.set_players room
                            (JsMap.set socket
                               (Player.mk (Player.socketId p) (Player.playerId p) (Player.name p)
                                          (Player.x p) (Player.z p) vx1 vz1 rotY1
                                          (Player.hp p) (Player.maxHp p) (Player.mana p)
                                          (Player.maxMana p) (Player.casts p))
                               (Room.players room)))
                         (rooms w))
                      (lastTick w)
                  /\ fieldWritten (InputMsg.vx msg) (Player.vx p) vx1
                  /\ fieldWritten (InputMsg.vz msg) (Player.vz p) vz1
                  /\ fieldWritten (InputMsg.rotY msg) (Player.rotY p) rotY1
            | None => w1 = w
            end
        | None => w1 = w
        end)
  /\ forall arg,
       (exists w1, onInput socket arg w = Returned w1) <-> (exists m, arg = ArgObject m).
Proof.
  intros socket msg w. split.
  2:{ intros arg. split.
      - intros [w1 H]. destruct arg as [| |m]; try discriminate H. now exists m.
      - intros [m ->]. eexists. reflexivity. }
  exists (input socket msg w). split; [reflexivity|]. unfold input.
  destruct (lookupRoom (rooms w) (InputMsg.roomId msg)) as [[roomId room]|]; [|reflexivity].
  destruct (JsMap.get socket (Room.players room)) as [p|]; [|reflexivity].
  set (p1 := assignIfNumber (InputMsg.vx msg) p Player.set_vx).
  set (p2 := assignIfNumber (InputMsg.vz msg) p1 Player.set_vz).
  set (p3 := assignIfNumber (InputMsg.rotY msg) p2 Player.set_rotY).
  exists (Player.vx p3), (Player.vz p3), (Player.rotY p3).
  split; [|split; [|split]].
  - do 3 f_equal. subst p3 p2 p1.
    destruct (InputMsg.vx msg), (InputMsg.vz msg), (InputMsg.rotY msg), p; reflexivity.
  - assert (E : Player.vx p3 = Player.vx p1).
    { subst p3 p2. destruct (InputMsg.vz msg), (InputMsg.rotY msg); reflexivity. }
    rewrite E. apply (assignIfNumber_written _ p Player.set_vx Player.vx). reflexivity.
  - assert (E : Player.vz p3 = Player.vz p2).
    { subst p3. destruct (InputMsg.rotY msg); reflexivity. }
    assert (E1 : Player.vz p = Player.vz p1).
    { subst p1. destruct (InputMsg.vx msg); reflexivity. }
    rewrite E, E1. apply (assignIfNumber_written _ p1 Player.set_vz Player.vz). reflexivity.
  - assert (E1 : Player.rotY p = Player.rotY p2).
    { subst p2 p1. destruct (InputMsg.vx msg), (InputMsg.vz msg); reflexivity. }
    rewrite E1. apply (assignIfNumber_written _ p2 Player.set_rotY Player.rotY). reflexivity.
Qed.

(** ** The attack action *)

(** C3, as amended. An [attack] action whose room resolves and whose acting
    player resolves (by [actorId] among the room's players, else by the
    sender's connection): if the payload's target enemy id does not resolve
    to an enemy of the room, the state is unchanged and nothing is emitted;
    otherwise the enemy's [hp] becomes [max 0 (hp - 6)], a [damage] event
    carrying the new [hp] is emitted, followed by [enemy_death] exactly when
    the new [hp] is at most 0 - so an enemy with [hp <= 6], dead or not,
    yields [damage] with [hp = 0] and then [enemy_death]. *)
Theorem attack_applies_fixed_damage : forall socket msg startRead finishRead w roomId room key actor,
  ActionMsg.type msg = "attack" ->
  lookupRoom (rooms w) (ActionMsg.roomId msg) = Some (roomId, room) ->
  resolveActor room (ActionMsg.actorId msg) socket = Some (key, actor) ->
  match attackTarget room (ActionMsg.payload msg) with
  | None => action socket msg startRead finishRead w = (w, [])
  | Some (id, e) =>
      let hp1 := Z.max 0 (Enemy.hp e - 6) in
      let hurt := Event roomId (damage (Player.playerId actor) "enemy" (Enemy.enemyId e)
                                       6 hp1 (Enemy.maxHp e)) in
      let death := Event roomId (enemy_death (Enemy.enemyId e)) in
      action socket msg startRead finishRead w
      = (mkWorld
           (JsMap.set roomId
              (Room.set_enemies room (JsMap.set id (Enemy.set_hp e hp1) (Room.enemies room)))
              (rooms w))
           (lastTick w),
         hurt :: (if hp1 <=? 0 then [death] else []))
      /\ (Enemy.hp e <= 6 ->
          snd (action socket msg startRead finishRead w)
          = [Event roomId (damage (Player.playerId actor) "enemy" (Enemy.enemyId e)
                                  6 0 (Enemy.maxHp e));
             death])
  end.
Proof.
  intros socket msg t0 t1 w roomId room key actor Ht L A.
  unfold action. rewrite L, A, Ht. cbn [String.eqb Ascii.eqb Bool.eqb andb].
  unfold actionAttack. destruct (attackTarget room (ActionMsg.payload msg)) as [[id e]|].
  - cbv zeta. split; [reflexivity|]. intros Hle. cbn [snd].
    unfold emitEvent. cbn [Enemy.set_hp Enemy.hp Enemy.enemyId Enemy.maxHp].
    replace (Z.max 0 (Enemy.hp e - 6)) with 0 by lia. reflexivity.
  - apply lookupRoom_get in L. destruct L as [_ G].
    rewrite (JsMap_set_get_id _ _ _ G). destruct w; reflexivity.
Qed.

(** ** The registry across a tick *)

Lemma tickRooms_keys now dt rs : forall rnd,
  JsMap.keys (fst (fst (tickRooms now dt rs rnd))) = JsMap.keys rs.
Proof.
  induction rs as [|[rid room] r IH]; intros rnd; simpl; [reflexivity|].
  destruct (tickRoom rid now dt room rnd) as [[room1 rnd1] out1].
  specialize (IH rnd1). destruct (tickRooms now dt r rnd1) as [[r1 rnd2] out2].
  simpl in *. now rewrite IH.
Qed.

(** Every room is ticked once, with the random stream as the rooms before
    it have left it. *)
Lemma tickRooms_get now dt rid room rs : forall rnd,
  JsMap.get rid rs = Some room ->
  exists rnd0 before after,
    JsMap.get rid (fst (fst (tickRooms now dt rs rnd)))
    = Some (fst (fst (tickRoom rid now dt room rnd0)))
    /\ snd (tickRooms now dt rs rnd) = before ++ snd (tickRoom rid now dt room rnd0) ++ after.
Proof.
  induction rs as [|[k1 room1] r IH]; intros rnd; simpl; [discriminate|].
  destruct (String.eqb k1 rid) eqn:E.
  - apply String.eqb_eq in E. subst k1. intros [= ->].
    exists rnd, [].
    destruct (tickRoom rid now dt room rnd) as [[room2 rnd1] out1].
    destruct (tickRooms now dt r rnd1) as [[r1 rnd2] out2].
    exists out2. simpl. now rewrite String.eqb_refl.
  - intros G. destruct (tickRoom k1 now dt room1 rnd) as [[room2 rnd1] out1].
    destruct (IH rnd1 G) as (rnd0 & before & after & H1 & H2).
    destruct (tickRooms now dt r rnd1) as [[r1 rnd2] out2].
    exists rnd0, (out1 ++ before), after. simpl in *. rewrite E, H2.
    split; [exact H1|]. now rewrite app_assoc.
Qed.

(** ** Player movement *)

Lemma SFsigned_zero x : SFsigned false (Prim2SF x) ->
  (0 <? x)%float = false -> x = 0%float.
Proof.
  intros S L. apply Prim2SF_inj. rewrite FloatAxioms.ltb_spec in L.
  replace (Prim2SF 0) with (S754_zero false) in * by reflexivity.
  destruct (Prim2SF x) as [s|s| |s m e]; cbn in S, L; subst; try reflexivity;
    try discriminate; contradiction.
Qed.

(** [clamp] on a number that is not negative. *)
Lemma clamp_nonneg v :
  SFsigned false (Prim2SF v) ->
  clamp v 0%float CONFIG.dtClampSeconds
  = if (0.25 <? v)%float then 0.25%float else v.
Proof.
  intros S. pose proof (signed_not_nan _ _ S) as Nv.
  unfold clamp, CONFIG.dtClampSeconds.
  destruct (0.25 <? v)%float eqn:L.
  - assert (E : Math_min 0.25%float v = 0.25%float).
    { unfold Math_min. rewrite Nv, L. reflexivity. }
    rewrite E. reflexivity.
  - assert (E : Math_min 0.25%float v = v).
    { unfold Math_min. rewrite Nv, L.
      replace (PrimFloat.is_nan 0.25) with false by reflexivity.
      replace (get_sign 0.25) with false by reflexivity.
      cbn [orb]. now destruct (v <? 0.25)%float. }
    rewrite E. unfold Math_max. rewrite Nv.
    replace (PrimFloat.is_nan 0) with false by reflexivity.
    replace (get_sign 0) with false by reflexivity. cbn [orb].
    destruct (0 <? v)%float eqn:L0; [reflexivity|].
    rewrite (SFsigned_zero v S L0). reflexivity.
Qed.

Lemma tickDelta_clamped now lastTick : tickDelta now lastTick = clampedDelta now lastTick.
Proof.
  unfold tickDelta, clampedDelta. set (d := now - lastTick).
  pose proof (elapsed_signed d) as S.
  destruct (now <=? lastTick) eqn:L.
  - apply Z.leb_le in L. destruct (Z.eq_dec d 0) as [E|N].
    + rewrite E. vm_compute. reflexivity.
    + apply clamp_negative. replace (d <? 0) with true in S; [exact S|].
      symmetry. apply Z.ltb_lt. lia.
  - apply Z.leb_gt in L. replace (d <? 0) with false in S by (symmetry; apply Z.ltb_ge; lia).
    now apply clamp_nonneg.
Qed.

Lemma clampedDelta_bounds now lastTick :
  (0 <=? clampedDelta now lastTick)%float = true
  /\ (clampedDelta now lastTick <=? 0.25)%float = true.
Proof.
  rewrite <- tickDelta_clamped. unfold tickDelta. apply clamp_bounds; [reflexivity|].
  exact (signed_not_nan _ _ (elapsed_signed _)).
Qed.

Lemma movePlayer_position dt p :
  Player.x (movePlayer dt p)
  = (Player.x p + fst (cappedIntent (Player.vx p) (Player.vz p)) * CONFIG.playerSpeed * dt)%float
  /\ Player.z (movePlayer dt p)
     = (Player.z p + snd (cappedIntent (Player.vx p) (Player.vz p)) * CONFIG.playerSpeed * dt)%float.
Proof.
  unfold movePlayer, cappedIntent, len, euclid. destruct (PrimFloat.ltb _ _); split; reflexivity.
Qed.

Lemma positive_not_nan d : (0 <? d)%float = true -> PrimFloat.is_nan d = false.
Proof. intros H. now destruct (float_ltb_not_nan _ _ H). Qed.

(** The capped intent of a finite intent points the way the intent does;
    it is the intent itself unless the computed length exceeds 1, and it is
    zero when that length has overflowed. *)
Lemma cappedIntent_facts vx vz :
  PrimFloat.is_finite vx = true -> PrimFloat.is_finite vz = true ->
  (alongside vx (fst (cappedIntent vx vz)) /\ alongside vz (snd (cappedIntent vx vz)))
  /\ ((euclid vx vz <=? 1)%float = true -> cappedIntent vx vz = (vx, vz))
  /\ (euclid vx vz = infinity ->
      PrimFloat.is_zero (fst (cappedIntent vx vz)) = true
      /\ PrimFloat.is_zero (snd (cappedIntent vx vz)) = true).
Proof.
  intros Fx Fz.
  pose proof (is_finite_not_nan vx Fx) as Nx. pose proof (is_finite_not_nan vz Fz) as Nz.
  split; [|split].
  - unfold cappedIntent. destruct (1 <? euclid vx vz)%float eqn:L; cbn [fst snd].
    + assert (Hd : (0 <? euclid vx vz)%float = true).
      { apply (float_ltb_trans _ 1%float); [reflexivity|exact L]. }
      split; apply signed_alongside; try assumption; intros s Hs;
        now apply div_positive_signed.
    + split; apply signed_alongside; auto.
  - intros Hle. unfold cappedIntent.
    destruct (1 <? euclid vx vz)%float eqn:L; [|reflexivity].
    exfalso. pose proof (float_ltb_leb_trans _ _ _ L Hle) as C.
    now rewrite float_ltb_irrefl in C.
  - intros E. unfold cappedIntent. rewrite E.
    replace (1 <? infinity)%float with true by reflexivity. cbn [fst snd].
    unfold PrimFloat.is_zero. rewrite !FloatAxioms.eqb_spec, !FloatAxioms.div_spec.
    replace (Prim2SF infinity) with (S754_infinity false) by reflexivity.
    replace (Prim2SF zero) with (S754_zero false) by reflexivity.
    destruct (is_finite_Prim2SF vx Fx) as (sx & [Ex|(mx & ex & Ex)]);
      destruct (is_finite_Prim2SF vz Fz) as (sz & [Ez|(mz & ez & Ez)]);
      rewrite Ex, Ez; split; reflexivity.
Qed.

(** C8, as amended. A tick at clock reading [now] advances every player of
    every room by [v * playerSpeed * dt] and leaves the intent as it is.
    [dt] is the time since the previous tick in seconds, clamped: 0 when
    the clock has not advanced, 0.25 when more than a quarter of a second
    has passed, always within [0, 0.25]. [v] is the velocity intent,
    divided by its length [sqrt (vx * vx + vz * vz)] only when that length,
    as double arithmetic computes it, exceeds 1. For a finite intent [v]
    never points against the intent; when the squares overflow the
    computed length is infinite and [v] is zero: the player stays where it
    is. For the intents with integer components of size up to 100 and a
    length above 1, [v] has unit length to within [2^-52], as computation
    shows. In the scenario of the specification (join at the origin, input
    [vx = 1, vz = 0], one tick of 67 ms, [dt = 0.067]) the player ends at
    [x = 0.268], within 0.001 of 0.267, and [z = 0]; with input
    [vx = 3, vz = 4] and a tick a full second late, [dt = 0.25] and the
    player ends at (0.6, 0.8), one unit from the origin. *)
Theorem player_movement :
  (forall now w rnd roomId room socket p,
     JsMap.get roomId (rooms w) = Some room ->
     JsMap.get socket (Room.players room) = Some p ->
     let dt := clampedDelta now (lastTick w) in
     let v := cappedIntent (Player.vx p) (Player.vz p) in
     ((0 <=? dt)%float = true /\ (dt <=? 0.25)%float = true)
     /\ exists room1 p1,
          JsMap.get roomId (rooms (fst (fst (tick now w rnd)))) = Some room1
          /\ JsMap.get socket (Room.players room1) = Some p1
          /\ Player.x p1 = (Player.x p + fst v * 4.0 * dt)%float
          /\ Player.z p1 = (Player.z p + snd v * 4.0 * dt)%float
          /\ Player.vx p1 = Player.vx p /\ Player.vz p1 = Player.vz p)
  /\ (forall vx vz,
        PrimFloat.is_finite vx = true -> PrimFloat.is_finite vz = true ->
        (alongside vx (fst (cappedIntent vx vz)) /\ alongside vz (snd (cappedIntent vx vz)))
        /\ ((euclid vx vz <=? 1)%float = true -> cappedIntent vx vz = (vx, vz))
        /\ (euclid vx vz = infinity ->
            PrimFloat.is_zero (fst (cappedIntent vx vz)) = true
            /\ PrimFloat.is_zero (snd (cappedIntent vx vz)) = true))
  /\ (forall a b,
        -100 <= a <= 100 -> -100 <= b <= 100 ->
        (1 <? euclid (Z2float a) (Z2float b))%float = true ->
        hasLength (cappedIntent (Z2float a) (Z2float b)) 1 0x1p-52 = true)
  /\ (forall startRead rnd,
        exists room1 p1,
          JsMap.get "r1" (rooms (fst (fst (run (initial startRead) rnd (scenarioMove startRead)))))
          = Some room1
          /\ JsMap.get "c1" (Room.players room1) = Some p1
          /\ Player.x p1 = 0.268%float
          /\ (PrimFloat.abs (Player.x p1 - 0.267) <? 0.0011)%float = true
          /\ Player.z p1 = 0%float)
  /\ (forall startRead rnd,
        exists room1 p1,
          JsMap.get "r1" (rooms (fst (fst (run (initial startRead) rnd (scenarioStall startRead)))))
          = Some room1
          /\ JsMap.get "c1" (Room.players room1) = Some p1
          /\ Player.x p1 = 0.6%float /\ Player.z p1 = 0.8%float).
Proof.
  assert (General : forall now w rnd roomId room socket p,
     JsMap.get roomId (rooms w) = Some room ->
     JsMap.get socket (Room.players room) = Some p ->
     let dt := clampedDelta now (lastTick w) in
     let v := cappedIntent (Player.vx p) (Player.vz p) in
     exists room1 p1,
       JsMap.get roomId (rooms (fst (fst (tick now w rnd)))) = Some room1
       /\ JsMap.get socket (Room.players room1) = Some p1
       /\ Player.x p1 = (Player.x p + fst v * 4.0 * dt)%float
       /\ Player.z p1 = (Player.z p + snd v * 4.0 * dt)%float
       /\ Player.vx p1 = Player.vx p /\ Player.vz p1 = Player.vz p).
  { intros now w rnd roomId room socket p G Gp dt v. unfold tick.
    subst dt. rewrite <- tickDelta_clamped. set (dt := tickDelta now (lastTick w)).
    destruct (tickRooms_get now dt roomId room (rooms w) rnd G) as (rnd0 & _ & _ & H & _).
    destruct (tickRooms now dt (rooms w) rnd) as [[rs1 rnd1] out]. cbn [fst snd rooms] in *.
    eexists. eexists. split; [exact H|]. split.
    - rewrite tickRoom_players_get, Gp. reflexivity.
    - destruct (movePlayer_position dt p) as [Hx Hz]. unfold dropDue. cbn [Player.x Player.z
        Player.vx Player.vz Player.set_casts]. rewrite Hx, Hz.
      unfold movePlayer. destruct (PrimFloat.ltb _ _); repeat split; reflexivity. }
  assert (Scenario : forall startRead rnd late vx vz x1 z1,
            0 < late ->
            (0 + fst (cappedIntent vx vz) * 4.0 * clampedDelta late 0)%float = x1 ->
            (0 + snd (cappedIntent vx vz) * 4.0 * clampedDelta late 0)%float = z1 ->
            exists room1 p1,
              JsMap.get "r1"
                (rooms (fst (fst (run (initial startRead) rnd
                   [InJoinRoom "c1" (JoinRoomMsg.mk (Some "r1") (Some "p1") None);
                    InInput "c1" (InputMsg.mk (Some "r1") (JNumber vx) (JNumber vz) JUndefined);
                    InTick (startRead + late)]))))
              = Some room1
              /\ JsMap.get "c1" (Room.players room1) = Some p1
              /\ Player.x p1 = x1 /\ Player.z p1 = z1).
  { intros startRead rnd late vx vz x1 z1 Hl Ex Ez. cbn [run step].
    destruct (joinRoom "c1" _ (initial startRead) rnd) as [[w1 rnd1] out1] eqn:J.
    unfold joinRoom in J. cbn [JoinRoomMsg.roomId truthyS String.eqb negb initial rooms getRoom
      JsMap.get] in J.
    destruct (seedEnemies CONFIG.enemyCount 0 rnd []) as [es rnd'].
    injection J as <- <- <-.
    cbn [input lookupRoom InputMsg.roomId rooms JsMap.set JsMap.get String.eqb Ascii.eqb
         Bool.eqb andb Room.players Room.set_players orElse JoinRoomMsg.playerId
         JoinRoomMsg.name truthyS negb assignIfNumber InputMsg.vx InputMsg.vz InputMsg.rotY
         lastTick].
    match goal with |- context [tick ?n ?w0 ?r0] =>
      destruct (General n w0 r0 "r1" (Room.set_players (Room.mk [] es [] (Env.mk 12.0%float "clear"))
                                        [("c1", Player.mk "c1" "p1" "Player" 0%float 0%float
                                                   vx vz 0%float 100 100 50 50 [])])
                        "c1" (Player.mk "c1" "p1" "Player" 0%float 0%float
                                                   vx vz 0%float 100 100 50 50 [])
                        eq_refl eq_refl)
        as (room1 & p1 & G1 & G2 & Hx & Hz & _);
      destruct (tick n w0 r0) as [[w2 rnd2] out2] end.
    cbn [fst snd app] in *. exists room1, p1. split; [exact G1|]. split; [exact G2|].
    cbn [lastTick Player.x Player.z Player.vx Player.vz] in Hx, Hz.
    assert (Ed : clampedDelta (startRead + late) startRead = clampedDelta late 0).
    { unfold clampedDelta.
      replace (startRead + late <=? startRead) with false by (symmetry; apply Z.leb_gt; lia).
      replace (late <=? 0) with false by (symmetry; apply Z.leb_gt; lia).
      replace (startRead + late - startRead) with (late - 0) by lia. reflexivity. }
    rewrite Ed in Hx, Hz. rewrite Hx, Hz. split; [exact Ex|exact Ez]. }
  split; [|split; [|split; [|split]]].
  - intros now w rnd roomId room socket p G Gp dt v.
    split; [apply clampedDelta_bounds|]. exact (General now w rnd roomId room socket p G Gp).
  - intros vx vz Fx Fz. now apply cappedIntent_facts.
  - exact cappedIntent_unit.
  - intros startRead rnd.
    destruct (Scenario startRead rnd 67 1%float 0%float 0.268%float 0%float)
      as (room1 & p1 & G1 & G2 & Hx & Hz); [lia|vm_compute; reflexivity|vm_compute; reflexivity|].
    exists room1, p1. split; [exact G1|]. split; [exact G2|]. rewrite Hx, Hz.
    repeat split; vm_compute; reflexivity.
  - intros startRead rnd.
    destruct (Scenario startRead rnd 1000 3%float 4%float 0.6%float 0.8%float)
      as (room1 & p1 & G1 & G2 & Hx & Hz); [lia|vm_compute; reflexivity|vm_compute; reflexivity|].
    exists room1, p1. auto.
Qed.

(** ** Cast resolution *)





(** ** Well-formed registries

    The keys of a JavaScript [Map] are distinct. The association lists of
    the embedding keep their keys distinct under every handler and the
    tick, so every reachable state is well formed. *)

Lemma step_playersDistinct w rnd i :
  allRooms playersDistinct (rooms w) ->
  allRooms playersDistinct (rooms (fst (fst (step w rnd i)))).
Proof.
  apply step_allRooms; unfold playersDistinct.
  - intros rnd0. constructor.
  - intros room socket playerId name H. now apply JsMap_NoDup_set.
  - intros room socket p msg H _. now apply JsMap_NoDup_set.
  - intros roomId room key actor payload t0 t1 H _. now apply JsMap_NoDup_set.
  - intros roomId room actor payload H. now rewrite actionAttack_players.
  - intros room socket H. now apply JsMap_NoDup_delete.
  - intros roomId now dt room rnd0 H. rewrite tickRoom_players.
    unfold JsMap.keys in *. rewrite map_map. exact H.
Qed.

Lemma step_roomsDistinct w rnd i :
  NoDup (JsMap.keys (rooms w)) -> NoDup (JsMap.keys (rooms (fst (fst (step w rnd i))))).
Proof.
  intros H. destruct i as [socket msg|socket msg|socket msg t0 t1|socket|now]; cbn [step].
  - unfold joinRoom. destruct (JoinRoomMsg.roomId msg) as [rid|]; [|exact H].
    destruct (truthyS rid); [|exact H]. unfold getRoom.
    destruct (JsMap.get rid (rooms w)).
    + cbn [fst rooms]. now apply JsMap_NoDup_set.
    + destruct (seedEnemies CONFIG.enemyCount 0 rnd []) as [es rnd1].
      cbn [fst rooms]. now apply JsMap_NoDup_set, JsMap_NoDup_set.
  - cbn [fst]. unfold input.
    destruct (lookupRoom (rooms w) (InputMsg.roomId msg)) as [[rid room]|]; [|exact H].
    destruct (JsMap.get socket (Room.players room)); [|exact H].
    cbn [rooms]. now apply JsMap_NoDup_set.
  - unfold action.
    destruct (lookupRoom (rooms w) (ActionMsg.roomId msg)) as [[rid room]|]; [|exact H].
    destruct (resolveActor room (ActionMsg.actorId msg) socket) as [[key actor]|]; [|exact H].
    destruct (String.eqb (ActionMsg.type msg) "cast").
    + destruct (actionCast _ _ _ _ _ _ _) as [room1 out]. cbn [fst rooms].
      now apply JsMap_NoDup_set.
    + destruct (String.eqb (ActionMsg.type msg) "attack"); [|exact H].
      destruct (actionAttack _ _ _ _) as [room1 out]. cbn [fst rooms].
      now apply JsMap_NoDup_set.
  - unfold disconnect. destruct (find _ (rooms w)) as [[rid room]|]; [|exact H].
    destruct (JsMap.get socket (Room.players room)); [|exact H].
    cbn [fst rooms]. destruct (Nat.eqb _ 0).
    + now apply JsMap_NoDup_delete, JsMap_NoDup_set.
    + now apply JsMap_NoDup_set.
  - unfold tick.
    pose proof (tickRooms_keys now (tickDelta now (lastTick w)) (rooms w) rnd) as K.
    destruct (tickRooms now (tickDelta now (lastTick w)) (rooms w) rnd) as [[rs1 rnd1] out].
    cbn [fst rooms] in *. now rewrite K.
Qed.

Lemma step_wellFormed w rnd i : wellFormed w -> wellFormed (fst (fst (step w rnd i))).
Proof.
  intros [H1 H2]. split; [now apply step_roomsDistinct|now apply step_playersDistinct].
Qed.

Lemma run_wellFormed ins : forall w rnd,
  wellFormed w -> wellFormed (fst (fst (run w rnd ins))).
Proof.
  induction ins as [|i r IH]; intros w rnd H; cbn [run]; [exact H|].
  pose proof (step_wellFormed w rnd i H) as Hs.
  destruct (step w rnd i) as [[w1 rnd1] out1].
  specialize (IH w1 rnd1 Hs).
  destruct (run w1 rnd1 r) as [[w2 rnd2] out2]. exact IH.
Qed.

Lemma initial_wellFormed startRead : wellFormed (initial startRead).
Proof. split; constructor. Qed.

Lemma reachable_wellFormed startRead rnd ins :
  wellFormed (fst (fst (run (initial startRead) rnd ins))).
Proof. apply run_wellFormed, initial_wellFormed. Qed.

(** ** Following one player entry through a run *)

Section KeepPlayer.

Variables (rid key : string) (Phi : Player.t -> Prop).

Hypothesis Phi_vx : forall p f, Phi p -> Phi (Player.set_vx p f).
Hypothesis Phi_vz : forall p f, Phi p -> Phi (Player.set_vz p f).
Hypothesis Phi_rotY : forall p f, Phi p -> Phi (Player.set_rotY p f).
Hypothesis Phi_push : forall p c, Phi p -> Phi (Player.set_casts p (Player.casts p ++ [c])).

Lemma joinRoom_holdsPlayer s msg w rnd :
  keeps rid key Phi (InJoinRoom s msg) -> holdsPlayer rid key Phi w -> holdsPlayer rid key Phi (fst (fst (joinRoom s msg w rnd))).
Proof.
  intros K (room & p & G & Gp & Hp). unfold holdsPlayer, joinRoom.
  destruct (JoinRoomMsg.roomId msg) as [r0|] eqn:Er; [|exists room, p; auto].
  destruct (truthyS r0); [|exists room, p; auto]. unfold getRoom.
  destruct (JsMap.get r0 (rooms w)) as [room0|] eqn:G0.
  - cbn [fst rooms]. destruct (string_dec r0 rid) as [->|N].
    + rewrite G in G0. injection G0 as <-.
      destruct (string_dec s key) as [->|Ns].
      * eexists. eexists. split; [apply JsMap_get_set_same|].
        cbn [Room.players Room.set_players]. split; [apply JsMap_get_set_same|].
        now apply K.
      * eexists. exists p. split; [apply JsMap_get_set_same|].
        cbn [Room.players Room.set_players]. split; [|exact Hp].
        rewrite JsMap_get_set_other by congruence. exact Gp.
    + exists room, p. split; [|auto]. rewrite JsMap_get_set_other by congruence. exact G.
  - destruct (seedEnemies CONFIG.enemyCount 0 rnd []) as [es rnd1]. cbn [fst rooms].
    assert (N : rid <> r0) by (intros ->; congruence).
    exists room, p. split; [|auto]. now rewrite !JsMap_get_set_other by assumption.
Qed.

Lemma input_holdsPlayer s msg w :
  holdsPlayer rid key Phi w -> holdsPlayer rid key Phi (input s msg w).
Proof.
  intros (room & p & G & Gp & Hp). unfold holdsPlayer, input.
  destruct (lookupRoom (rooms w) (InputMsg.roomId msg)) as [[r0 room0]|] eqn:L;
    [|exists room, p; auto].
  apply lookupRoom_get in L. destruct L as [_ G0].
  destruct (JsMap.get s (Room.players room0)) as [p0|] eqn:G1; [|exists room, p; auto].
  cbn [rooms]. destruct (string_dec r0 rid) as [->|N].
  - rewrite G in G0. injection G0 as <-.
    destruct (string_dec s key) as [->|Ns].
    + rewrite Gp in G1. injection G1 as <-.
      eexists. eexists. split; [apply JsMap_get_set_same|].
      cbn [Room.players Room.set_players]. split; [apply JsMap_get_set_same|].
      destruct (InputMsg.vx msg), (InputMsg.vz msg), (InputMsg.rotY msg);
        cbn [assignIfNumber]; auto.
    + eexists. exists p. split; [apply JsMap_get_set_same|].
      cbn [Room.players Room.set_players]. split; [|exact Hp].
      rewrite JsMap_get_set_other by congruence. exact Gp.
  - exists room, p. split; [|auto]. rewrite JsMap_get_set_other by congruence. exact G.
Qed.

Lemma action_holdsPlayer s msg t0 t1 w :
  wellFormed w -> holdsPlayer rid key Phi w -> holdsPlayer rid key Phi (fst (action s msg t0 t1 w)).
Proof.
  intros [_ WF] (room & p & G & Gp & Hp). unfold holdsPlayer, action.
  destruct (lookupRoom (rooms w) (ActionMsg.roomId msg)) as [[r0 room0]|] eqn:L;
    [|exists room, p; auto].
  apply lookupRoom_get in L. destruct L as [_ G0].
  destruct (resolveActor room0 (ActionMsg.actorId msg) s) as [[k0 actor]|] eqn:A;
    [|exists room, p; auto].
  apply resolveActor_In in A.
  destruct (String.eqb (ActionMsg.type msg) "cast").
  - unfold actionCast. cbn [fst rooms]. destruct (string_dec r0 rid) as [->|N].
    + rewrite G in G0. injection G0 as <-.
      destruct (string_dec k0 key) as [->|Ns].
      * pose proof (allRooms_get _ _ _ _ WF G) as ND.
        rewrite (JsMap_In_get _ _ _ ND A) in Gp. injection Gp as <-.
        eexists. eexists. split; [apply JsMap_get_set_same|].
        cbn [Room.players Room.set_players]. split; [apply JsMap_get_set_same|].
        now apply Phi_push.
      * eexists. exists p. split; [apply JsMap_get_set_same|].
        cbn [Room.players Room.set_players]. split; [|exact Hp].
        rewrite JsMap_get_set_other by congruence. exact Gp.
    + exists room, p. split; [|auto]. rewrite JsMap_get_set_other by congruence. exact G.
  - destruct (String.eqb (ActionMsg.type msg) "attack"); [|exists room, p; auto].
    pose proof (actionAttack_players r0 room0 actor (ActionMsg.payload msg)) as Ep.
    destruct (actionAttack r0 room0 actor (ActionMsg.payload msg)) as [room1 out].
    cbn [fst rooms] in *. destruct (string_dec r0 rid) as [->|N].
    + rewrite G in G0. injection G0 as <-.
      exists room1, p. split; [apply JsMap_get_set_same|]. rewrite Ep. auto.
    + exists room, p. split; [|auto]. rewrite JsMap_get_set_other by congruence. exact G.
Qed.

Lemma disconnect_holdsPlayer s w :
  wellFormed w -> s <> key -> holdsPlayer rid key Phi w -> holdsPlayer rid key Phi (fst (disconnect s w)).
Proof.
  intros [ND _] Ns (room & p & G & Gp & Hp). unfold holdsPlayer, disconnect.
  destruct (find _ (rooms w)) as [[r0 room0]|] eqn:F; [|exists room, p; auto].
  apply find_some in F. destruct F as [Hin _].
  pose proof (JsMap_In_get _ _ _ ND Hin) as G0.
  destruct (JsMap.get s (Room.players room0)) as [p0|] eqn:G1; [|exists room, p; auto].
  cbn [fst rooms Room.players Room.set_players].
  destruct (string_dec r0 rid) as [->|N].
  - rewrite G in G0. injection G0 as <-.
    assert (Gk : JsMap.get key (JsMap.delete s (Room.players room)) = Some p).
    { rewrite JsMap_get_delete_other by congruence. exact Gp. }
    assert (E : (JsMap.size (JsMap.delete s (Room.players room)) =? 0)%nat = false).
    { destruct (JsMap.delete s (Room.players room)); [discriminate|reflexivity]. }
    rewrite E. eexists. exists p. split; [apply JsMap_get_set_same|].
    cbn [Room.players Room.set_players]. auto.
  - exists room, p. split; [|auto]. destruct (Nat.eqb _ 0).
    + rewrite JsMap_get_delete_other, JsMap_get_set_other by congruence. exact G.
    + rewrite JsMap_get_set_other by congruence. exact G.
Qed.

Lemma tick_holdsPlayer now w rnd :
  keeps rid key Phi (InTick now) -> holdsPlayer rid key Phi w -> holdsPlayer rid key Phi (fst (fst (tick now w rnd))).
Proof.
  intros K (room & p & G & Gp & Hp). unfold holdsPlayer, tick.
  destruct (tickRooms_get now (tickDelta now (lastTick w)) rid room (rooms w) rnd G)
    as (rnd0 & _ & _ & H & _).
  destruct (tickRooms now (tickDelta now (lastTick w)) (rooms w) rnd) as [[rs1 rnd1] out].
  cbn [fst snd rooms] in *. eexists. eexists. split; [exact H|]. split.
  - rewrite tickRoom_players_get, Gp. reflexivity.
  - now apply K.
Qed.

Lemma step_holdsPlayer w rnd i :
  wellFormed w -> keeps rid key Phi i -> holdsPlayer rid key Phi w -> holdsPlayer rid key Phi (fst (fst (step w rnd i))).
Proof.
  intros WF K H. destruct i as [s msg|s msg|s msg t0 t1|s|now]; cbn [step].
  - now apply joinRoom_holdsPlayer.
  - now apply input_holdsPlayer.
  - pose proof (action_holdsPlayer s msg t0 t1 w WF H) as Ha.
    destruct (action s msg t0 t1 w) as [w1 out]. exact Ha.
  - pose proof (disconnect_holdsPlayer s w WF K H) as Hd.
    destruct (disconnect s w) as [w1 out]. exact Hd.
  - now apply tick_holdsPlayer.
Qed.

Lemma run_holdsPlayer ins : forall w rnd,
  wellFormed w -> Forall (keeps rid key Phi) ins -> holdsPlayer rid key Phi w ->
  holdsPlayer rid key Phi (fst (fst (run w rnd ins))).
Proof.
  induction ins as [|i r IH]; intros w rnd WF K H; cbn [run]; [exact H|].
  inversion K as [|? ? K1 K2]; subst.
  pose proof (step_holdsPlayer w rnd i WF K1 H) as Hs.
  pose proof (step_wellFormed w rnd i WF) as WF1.
  destruct (step w rnd i) as [[w1 rnd1] out1].
  specialize (IH w1 rnd1 WF1 K2 Hs).
  destruct (run w1 rnd1 r) as [[w2 rnd2] out2]. exact IH.
Qed.

End KeepPlayer.

(** ** Disconnect *)

Lemma JsMap_get_delete_same {V : Type} k (m : JsMap.t V) :
  NoDup (JsMap.keys m) -> JsMap.get k (JsMap.delete k m) = None.
Proof.
  induction m as [|[k1 v1] r IH]; cbn [JsMap.delete JsMap.get JsMap.keys map fst];
    [reflexivity|].
  intros ND. inversion ND as [|? ? Hn ND']; subst.
  destruct (String.eqb k1 k) eqn:E.
  - apply String.eqb_eq in E. subst k1.
    destruct (JsMap.get k r) eqn:G; [|reflexivity].
    exfalso. apply Hn. apply JsMap_has_In_keys. unfold JsMap.has. now rewrite G.
  - cbn [JsMap.get]. rewrite E. now apply IH.
Qed.

(** C10. When a connection is a player of more than one room, its
    disconnect is handled in the first room of the registry's iteration
    order that holds it, and only there: its entry is removed from that
    room, one [player_left] is emitted for that room, and that room is
    deleted if it is now empty. Every other room is left as it was; a later
    room that holds the connection keeps the entry, and keeps it through
    any further inputs that are not a disconnect of that connection (so the
    room is never emptied and never deleted). [w] is any state whose maps
    have distinct keys, as every reachable state has. *)
Theorem disconnect_stops_at_first_room : forall socket w first room1 later room2,
  wellFormed w ->
  find (fun kr => JsMap.has socket (Room.players (snd kr))) (rooms w) = Some (first, room1) ->
  JsMap.get later (rooms w) = Some room2 ->
  later <> first ->
  JsMap.has socket (Room.players room2) = true ->
  exists p,
    JsMap.get socket (Room.players room1) = Some p
    /\ snd (disconnect socket w)
       = [Event first (player_left (Player.playerId p) (Player.name p))]
    /\ JsMap.has socket (JsMap.delete socket (Room.players room1)) = false
    /\ JsMap.get first (rooms (fst (disconnect socket w)))
       = (if (JsMap.size (JsMap.delete socket (Room.players room1)) =? 0)%nat then None
          else Some (Room.set_players room1 (JsMap.delete socket (Room.players room1))))
    /\ (forall rid, rid <> first ->
          JsMap.get rid (rooms (fst (disconnect socket w))) = JsMap.get rid (rooms w))
    /\ (forall rnd ins,
          Forall (fun i => i <> InDisconnect socket) ins ->
          exists room3,
            JsMap.get later (rooms (fst (fst (run (fst (disconnect socket w)) rnd ins))))
            = Some room3
            /\ JsMap.has socket (Room.players room3) = true).
Proof.
  intros socket w first room1 later room2 WF F G N Hs.
  pose proof (step_wellFormed w (fun _ => 0%float) (InDisconnect socket) WF) as WF1.
  cbn [step] in WF1.
  assert (Hother : forall rid, rid <> first ->
            JsMap.get rid (rooms (fst (disconnect socket w))) = JsMap.get rid (rooms w)).
  { intros rid Nr. unfold disconnect. rewrite F.
    destruct (JsMap.get socket (Room.players room1)); [|reflexivity].
    cbn [fst rooms]. destruct (Nat.eqb _ 0).
    - now rewrite JsMap_get_delete_other, JsMap_get_set_other by assumption.
    - now rewrite JsMap_get_set_other by assumption. }
  unfold disconnect in *. rewrite F in *.
  pose proof (find_some _ _ F) as [Hin Hhas]. cbn [snd] in Hhas.
  unfold JsMap.has in Hhas.
  destruct (JsMap.get socket (Room.players room1)) as [p|] eqn:Gp; [|discriminate].
  cbn [fst snd rooms Room.players Room.set_players] in *.
  destruct WF as [ND WFp].
  pose proof (JsMap_In_get _ _ _ ND Hin) as G1.
  pose proof (allRooms_get _ _ _ _ WFp G1) as NDp.
  exists p. split; [reflexivity|]. split; [reflexivity|]. split.
  { unfold JsMap.has. now rewrite JsMap_get_delete_same. }
  split.
  { destruct (Nat.eqb _ 0).
    - apply JsMap_get_delete_same. now apply JsMap_NoDup_set.
    - apply JsMap_get_set_same. }
  split; [exact Hother|].
  intros rnd ins Hins.
  match goal with |- context [run ?w0 rnd ins] => set (w1 := w0) in * end.
  assert (H1 : holdsPlayer later socket (fun _ => True) w1).
  { unfold JsMap.has in Hs. destruct (JsMap.get socket (Room.players room2)) as [p2|] eqn:G2;
      [|discriminate].
    exists room2, p2. split; [|auto]. rewrite Hother by assumption. exact G. }
  destruct (run_holdsPlayer later socket (fun _ => True)
              ltac:(auto) ltac:(auto) ltac:(auto) ltac:(auto) ins w1 rnd) as (room3 & p3 & G3 & Gp3 & _).
  - exact WF1.
  - eapply Forall_impl; [|exact Hins]. intros i Hi. destruct i; cbn [keeps]; auto.
    intros ->. now apply Hi.
  - exact H1.
  - exists room3. split; [exact G3|]. unfold JsMap.has. now rewrite Gp3.
Qed.

(** ** Cast timing *)

Lemma finishCast_finished roomId now p c room rnd :
  filter isCastFinish (snd (finishCast roomId now p c room rnd)) = [finishedEvent roomId p c].
Proof.
  unfold finishCast. destruct (String.eqb _ _); [|reflexivity].
  destruct (castTarget room c); reflexivity.
Qed.

Lemma resolveCasts_finished roomId now p cs : forall room rnd,
  filter isCastFinish (snd (resolveCasts roomId now p cs room rnd))
  = map (finishedEvent roomId p) (filter (due now) cs).
Proof.
  induction cs as [|c r IH]; intros room rnd; cbn [resolveCasts filter]; [reflexivity|].
  unfold due at 1, pending. destruct (now <? Cast.finishAt c); cbn [negb].
  - specialize (IH room rnd).
    destruct (resolveCasts roomId now p r room rnd) as [[[rem room1] rnd1] out]. exact IH.
  - pose proof (finishCast_finished roomId now p c room rnd) as Hf.
    destruct (finishCast roomId now p c room rnd) as [[room1 rnd1] out1].
    specialize (IH room1 rnd1).
    destruct (resolveCasts roomId now p r room1 rnd1) as [[[rem room2] rnd2] out2].
    cbn [snd map] in *. now rewrite filter_app, Hf, IH.
Qed.

Lemma stepCasts_finished roomId now ps : forall room rnd,
  filter isCastFinish (snd (stepCasts roomId now ps room rnd))
  = flat_map (fun kp => map (finishedEvent roomId (snd kp))
                            (filter (due now) (Player.casts (snd kp)))) ps.
Proof.
  induction ps as [|[k p] r IH]; intros room rnd; cbn [stepCasts flat_map snd]; [reflexivity|].
  destruct (Player.casts p) as [|c cs] eqn:Ec.
  - specialize (IH room rnd).
    destruct (stepCasts roomId now r room rnd) as [[[r1 room1] rnd1] out]. exact IH.
  - pose proof (resolveCasts_finished roomId now p (c :: cs) room rnd) as Hr.
    destruct (resolveCasts roomId now p (c :: cs) room rnd) as [[[rem room1] rnd1] out1].
    specialize (IH room1 rnd1).
    destruct (stepCasts roomId now r room1 rnd1) as [[[r1 room2] rnd2] out2].
    cbn [snd] in *. now rewrite filter_app, Hr, IH.
Qed.

Lemma stepProjectiles_no_finished roomId now dt ps : forall es,
  filter isCastFinish (snd (stepProjectiles roomId now dt es ps)) = [].
Proof.
  induction ps as [|[k proj] r IH]; intros es; cbn [stepProjectiles snd]; [reflexivity|].
  assert (H1 : filter isCastFinish (snd (stepProjectile roomId now dt es k proj)) = []).
  { unfold stepProjectile. destruct (_ <=? now); [reflexivity|].
    destruct (truthyS _); [|reflexivity].
    destruct (JsMap.get _ es) as [e|]; [|reflexivity].
    destruct (withinHitRadius e _); [|reflexivity].
    cbn [snd]. destruct (_ <=? 0); reflexivity. }
  destruct (stepProjectile roomId now dt es k proj) as [[es1 kept] out1].
  specialize (IH es1).
  destruct (stepProjectiles roomId now dt es1 r) as [[es2 r1] out2].
  cbn [snd] in *. now rewrite filter_app, H1, IH.
Qed.

(** The [cast_finish] events of a tick of a room: one for each due entry of
    each player, in order, and no other. *)
Lemma tickRoom_finished roomId now dt room rnd :
  filter isCastFinish (snd (tickRoom roomId now dt room rnd))
  = flat_map (fun kp => map (finishedEvent roomId (snd kp))
                            (filter (due now) (Player.casts (snd kp))))
             (Room.players room).
Proof.
  unfold tickRoom.
  destruct (stepEnemies now dt _ rnd _) as [es2 rnd2].
  match goal with |- context [stepCasts roomId now ?ps ?r ?g] =>
    pose proof (stepCasts_finished roomId now ps r g) as Hc;
    destruct (stepCasts roomId now ps r g) as [[[ps3 room3] rnd3] out3] end.
  pose proof (stepProjectiles_no_finished roomId now dt (Room.projectiles room3)
                                          (Room.enemies room3)) as Hp.
  destruct (stepProjectiles roomId now dt _ _) as [[es4 ps4] out4].
  cbn [snd Room.players Room.set_players Room.set_enemies] in *.
  rewrite !filter_app, Hc, Hp. cbn [filter isCastFinish app]. rewrite app_nil_r.
  unfold movePlayers. rewrite flat_map_concat_map, map_map, <- flat_map_concat_map.
  apply flat_map_ext. intros [k p]. cbn [fst snd].
  unfold finishedEvent, movePlayer. destruct (PrimFloat.ltb _ _); reflexivity.
Qed.

(** C2, as amended. A [cast] action received at clock reading [T] whose
    room and acting player resolve pushes one entry with
    [finishAt = T + castTimeMs = T + 650] onto the actor's cast list. As
    long as the actor's player entry stays in the room (its connection
    neither disconnects nor joins the room anew), the entry stays queued
    through every tick with [now < T + 650], whatever other messages arrive;
    the first tick with [now >= T + 650] emits its [cast_finish] and drops
    it from the list. The [cast_finish] events of any tick of a room are
    those of the due entries of its players, one each, and no other: an
    entry that is not yet due raises none. [w] is any state whose maps have
    distinct keys, as every reachable state has. *)
Theorem cast_resolves_at_deadline : forall socket msg startRead T w roomId room key actor,
  wellFormed w ->
  ActionMsg.type msg = "cast" ->
  lookupRoom (rooms w) (ActionMsg.roomId msg) = Some (roomId, room) ->
  resolveActor room (ActionMsg.actorId msg) socket = Some (key, actor) ->
  let c := castEntry (ActionMsg.payload msg) startRead T in
  let deadline := T + 650 in
  let w1 := fst (action socket msg startRead T w) in
  Cast.finishAt c = T + CONFIG.defaultFireball.castTimeMs
  /\ Cast.finishAt c = deadline
  /\ (exists room1,
        JsMap.get roomId (rooms w1) = Some room1
        /\ JsMap.get key (Room.players room1)
           = Some (Player.set_casts actor (Player.casts actor ++ [c])))
  /\ (forall rnd ins,
        Forall (quiet key roomId deadline) ins ->
        let w2 := fst (fst (run w1 rnd ins)) in
        let rnd2 := snd (fst (run w1 rnd ins)) in
        (exists room2 p2,
           JsMap.get roomId (rooms w2) = Some room2
           /\ JsMap.get key (Room.players room2) = Some p2
           /\ In c (Player.casts p2))
        /\ forall now,
             deadline <= now ->
             In (finishedEvent roomId actor c) (snd (tick now w2 rnd2))
             /\ exists room3 p3,
                  JsMap.get roomId (rooms (fst (fst (tick now w2 rnd2)))) = Some room3
                  /\ JsMap.get key (Room.players room3) = Some p3
                  /\ ~ In c (Player.casts p3))
  /\ (forall roomId0 now dt room0 rnd,
        filter isCastFinish (snd (tickRoom roomId0 now dt room0 rnd))
        = flat_map (fun kp => map (finishedEvent roomId0 (snd kp))
                                  (filter (due now) (Player.casts (snd kp))))
                   (Room.players room0)).
Proof.
  intros socket msg startRead T w roomId room key actor WF Ht L A c deadline w1.
  split; [reflexivity|]. split; [reflexivity|].
  pose proof (step_wellFormed w (fun _ => 0%float) (InAction socket msg startRead T) WF) as WF1.
  cbn [step] in WF1. fold w1 in WF1.
  assert (WF1' : wellFormed w1).
  { subst w1. destruct (action socket msg startRead T w). exact WF1. }
  clear WF1.
  assert (HA : exists room1,
             JsMap.get roomId (rooms w1) = Some room1
             /\ JsMap.get key (Room.players room1)
                = Some (Player.set_casts actor (Player.casts actor ++ [c]))).
  { subst w1. unfold action. rewrite L, A, Ht. cbn [String.eqb Ascii.eqb Bool.eqb andb].
    unfold actionCast. cbn [fst rooms]. eexists. split; [apply JsMap_get_set_same|].
    cbn [Room.players Room.set_players]. apply JsMap_get_set_same. }
  split; [exact HA|]. split; [|intros; apply tickRoom_finished].
  intros rnd ins Q w2 rnd2.
  set (Phi := fun p => Player.playerId p = Player.playerId actor /\ In c (Player.casts p)).
  assert (H2 : holdsPlayer roomId key Phi w2).
  { subst w2. apply run_holdsPlayer; try assumption.
    - intros p f [H1 H2]. split; assumption.
    - intros p f [H1 H2]. split; assumption.
    - intros p f [H1 H2]. split; assumption.
    - intros p c0 [H1 H2]. split; [exact H1|]. cbn [Player.casts Player.set_casts].
      apply in_or_app. now left.
    - eapply Forall_impl; [|exact Q]. intros i Hi. destruct i; cbn [keeps quiet] in *; auto.
      + intros E1 E2. exfalso. exact (Hi E1 E2).
      + intros dt p [H1 H2]. split.
        * unfold dropDue, movePlayer. destruct (PrimFloat.ltb _ _); exact H1.
        * unfold dropDue. cbn [Player.casts Player.set_casts]. apply filter_In. split.
          -- unfold movePlayer. destruct (PrimFloat.ltb _ _); exact H2.
          -- unfold pending. apply Z.ltb_lt. exact Hi.
    - destruct HA as (room1 & G1 & Gp1). exists room1. eexists.
      split; [exact G1|]. split; [exact Gp1|]. split; [reflexivity|].
      cbn [Player.casts Player.set_casts]. apply in_or_app. right. now left. }
  destruct H2 as (room2 & p2 & G2 & Gp2 & Hid & Hin).
  split; [exists room2, p2; auto|].
  intros now Hnow. unfold tick.
  destruct (tickRooms_get now (tickDelta now (lastTick w2)) roomId room2 (rooms w2) rnd2 G2)
    as (rnd0 & before & after & H3 & Hout).
  destruct (tickRooms now (tickDelta now (lastTick w2)) (rooms w2) rnd2) as [[rs3 rnd3] out3].
  cbn [fst snd rooms] in *. split.
  - rewrite Hout. apply in_or_app. right. apply in_or_app. left.
    assert (Hf : In (finishedEvent roomId actor c)
                    (filter isCastFinish
                       (snd (tickRoom roomId now (tickDelta now (lastTick w2)) room2 rnd0)))).
    { rewrite tickRoom_finished. apply in_flat_map. exists (key, p2).
      split; [now apply JsMap_get_In|]. cbn [snd].
      replace (finishedEvent roomId actor c) with (finishedEvent roomId p2 c)
        by (unfold finishedEvent; now rewrite Hid).
      apply in_map, filter_In. split; [exact Hin|].
      unfold due, pending. apply negb_true_iff, Z.ltb_ge. exact Hnow. }
    apply filter_In in Hf. tauto.
  - eexists. eexists. split; [exact H3|]. split.
    + rewrite tickRoom_players_get, Gp2. reflexivity.
    + unfold dropDue. cbn [Player.casts Player.set_casts]. intros Hc.
      apply filter_In in Hc. destruct Hc as [_ Hc]. unfold pending in Hc.
      apply Z.ltb_lt in Hc. cbn [c castEntry Cast.finishAt] in Hc.
      unfold CONFIG.defaultFireball.castTimeMs in Hc. subst deadline. lia.
Qed.

(** * Further properties

    Properties of the handlers, the helpers and the tick that the code shows
    beyond the claims of the specification. *)

(** X1. [clamp(v, min, max)] for bounds [min < max]: a value below [min]
    gives [min], a value above [max] gives [max], a value strictly between
    is returned as it is, and [NaN] stays [NaN]; every other value gives a
    result within the bounds. *)
Theorem clamp_within_bounds : forall v lo hi,
  (lo <? hi)%float = true ->
  (PrimFloat.is_nan v = true -> PrimFloat.is_nan (clamp v lo hi) = true)
  /\ ((v <? lo)%float = true -> clamp v lo hi = lo)
  /\ ((hi <? v)%float = true -> clamp v lo hi = hi)
  /\ ((lo <? v)%float = true -> (v <? hi)%float = true -> clamp v lo hi = v)
  /\ (PrimFloat.is_nan v = false ->
      (lo <=? clamp v lo hi)%float = true /\ (clamp v lo hi <=? hi)%float = true).
Proof.
  intros v lo hi Hlh. destruct (float_ltb_not_nan _ _ Hlh) as [Nlo Nhi].
  split; [|split; [|split; [|split]]].
  - intros Hv. unfold clamp. unfold Math_min at 1. rewrite Hv, orb_true_r.
    unfold Math_max. replace (PrimFloat.is_nan nan) with true by reflexivity.
    rewrite orb_true_r. reflexivity.
  - intros L. destruct (float_ltb_not_nan _ _ L) as [Nv _].
    pose proof (float_ltb_trans _ _ _ L Hlh) as Lvh. unfold clamp.
    assert (E : Math_min hi v = v).
    { unfold Math_min. rewrite Nhi, Nv, (float_ltb_asym _ _ Lvh), Lvh. reflexivity. }
    rewrite E. unfold Math_max. rewrite Nlo, Nv, (float_ltb_asym _ _ L), L. reflexivity.
  - intros L. destruct (float_ltb_not_nan _ _ L) as [_ Nv]. unfold clamp.
    assert (E : Math_min hi v = hi).
    { unfold Math_min. rewrite Nhi, Nv, L. reflexivity. }
    rewrite E. unfold Math_max. rewrite Nlo, Nhi, Hlh. reflexivity.
  - intros L1 L2. destruct (float_ltb_not_nan _ _ L1) as [_ Nv]. unfold clamp.
    assert (E : Math_min hi v = v).
    { unfold Math_min. rewrite Nhi, Nv, (float_ltb_asym _ _ L2), L2. reflexivity. }
    rewrite E. unfold Math_max. rewrite Nlo, Nv, L1. reflexivity.
  - now apply clamp_bounds.
Qed.

(** X2. The tick delta lies within [0, dtClampSeconds] whatever the two
    clock readings are. A clock that has not advanced, or has stepped back,
    gives 0; up to 250 ms the delta is the elapsed time itself. *)
Theorem tick_delta_bounded : forall now lastTick,
  ((0 <=? tickDelta now lastTick)%float = true
   /\ (tickDelta now lastTick <=? CONFIG.dtClampSeconds)%float = true)
  /\ (now <= lastTick -> tickDelta now lastTick = 0%float)
  /\ (0 <= now - lastTick <= 250 ->
      tickDelta now lastTick = (Z2float (now - lastTick) / 1000)%float).
Proof.
  intros now lastTick. unfold tickDelta. set (d := now - lastTick).
  pose proof (elapsed_signed d) as S. split; [|split].
  - apply clamp_bounds; [reflexivity|]. exact (signed_not_nan _ _ S).
  - intros Hle. destruct (Z.eq_dec d 0) as [E|N].
    + rewrite E. vm_compute. reflexivity.
    + apply clamp_negative. replace (d <? 0) with true in S; [exact S|].
      symmetry. apply Z.ltb_lt. lia.
  - intros Hd. pose proof tickDelta_unclamped_check as C.
    rewrite forallb_forall in C. specialize (C (Z.to_nat d)).
    rewrite Z2Nat.id in C by lia. apply Leibniz.eqb_spec. apply C.
    apply in_seq. lia.
Qed.

Lemma step_lastTick w rnd i :
  lastTick (fst (fst (step w rnd i)))
  = match i with InTick now => now | _ => lastTick w end.
Proof.
  destruct i as [socket msg|socket msg|socket msg t0 t1|socket|now]; cbn [step].
  - unfold joinRoom. destruct (JoinRoomMsg.roomId msg) as [rid|]; [|reflexivity].
    destruct (truthyS rid); [|reflexivity].
    destruct (getRoom (rooms w) rid rnd) as [[rooms1 room] rnd1]. reflexivity.
  - unfold input. destruct (lookupRoom _ _) as [[rid room]|]; [|reflexivity].
    destruct (JsMap.get socket _); reflexivity.
  - unfold action. destruct (lookupRoom _ _) as [[rid room]|]; [|reflexivity].
    destruct (resolveActor _ _ _) as [[key actor]|]; [|reflexivity].
    destruct (String.eqb _ "cast"); [reflexivity|].
    destruct (String.eqb _ "attack"); [|reflexivity].
    destruct (actionAttack _ _ _ _). reflexivity.
  - unfold disconnect. destruct (find _ _) as [[rid room]|]; [|reflexivity].
    destruct (JsMap.get socket _); reflexivity.
  - unfold tick. destruct (tickRooms _ _ _ _) as [[rs rnd1] out]. reflexivity.
Qed.

(** X3. [lastTick] is written by the tick alone, which sets it to its own
    clock reading, whether or not there is a room to simulate: after any
    sequence of inputs it is the reading of the last tick, or the start-up
    reading if there was none. *)
Theorem last_tick_follows_clock : forall ins w rnd,
  lastTick (fst (fst (run w rnd ins))) = lastTickOf (lastTick w) ins.
Proof.
  induction ins as [|i r IH]; intros w rnd; [reflexivity|].
  cbn [run]. pose proof (step_lastTick w rnd i) as Hs.
  destruct (step w rnd i) as [[w1 rnd1] out1]. specialize (IH w1 rnd1).
  destruct (run w1 rnd1 r) as [[w2 rnd2] out2]. cbn [fst] in *.
  rewrite IH, Hs. destruct i; reflexivity.
Qed.

Lemma getRoom_get rs roomId rnd :
  JsMap.get roomId (fst (fst (getRoom rs roomId rnd))) = Some (snd (fst (getRoom rs roomId rnd)))
  /\ forall other, other <> roomId ->
       JsMap.get other (fst (fst (getRoom rs roomId rnd))) = JsMap.get other rs.
Proof.
  unfold getRoom. destruct (JsMap.get roomId rs) as [room0|] eqn:G.
  - cbn [fst snd]. auto.
  - destruct (seedEnemies CONFIG.enemyCount 0 rnd []) as [enemies rnd'].
    cbn [fst snd]. split; [apply JsMap_get_set_same|].
    intros other N. now apply JsMap_get_set_other.
Qed.

(** X4. [getRoom] creates a room once. For an id the registry holds it
    returns the stored room and touches neither the registry nor the random
    stream. For a new id it appends a room with no player and no
    projectile, the environment [12.0, "clear"], and the six enemies [e1]
    to [e6], each drawn from two random numbers ([x] first), at rest, in
    state [wander], with [hp = maxHp = 50]; every other room stays as it
    was. Either way the id then resolves to the returned room, and a second
    call returns it again and changes nothing. *)
Theorem getRoom_creates_once : forall rs roomId rnd,
  let rooms1 := fst (fst (getRoom rs roomId rnd)) in
  let room := snd (fst (getRoom rs roomId rnd)) in
  let rnd1 := snd (getRoom rs roomId rnd) in
  JsMap.get roomId rooms1 = Some room
  /\ (forall other, other <> roomId -> JsMap.get other rooms1 = JsMap.get other rs)
  /\ getRoom rooms1 roomId rnd1 = (rooms1, room, rnd1)
  /\ match JsMap.get roomId rs with
     | Some room0 => rooms1 = rs /\ room = room0 /\ rnd1 = rnd
     | None =>
         JsMap.keys rooms1 = JsMap.keys rs ++ [roomId]
         /\ room = Room.mk [] (map (seededEnemy rnd) (seq 0 CONFIG.enemyCount)) []
                           (Env.mk 12.0%float "clear")
         /\ rnd1 = (fun n => rnd (2 * CONFIG.enemyCount + n)%nat)
     end.
Proof.
  intros rs roomId rnd. unfold getRoom.
  destruct (JsMap.get roomId rs) as [room0|] eqn:G; cbn [fst snd].
  - rewrite G. split; [reflexivity|]. split; [reflexivity|]. split; [reflexivity|]. auto.
  - destruct (seedEnemies CONFIG.enemyCount 0 rnd []) as [enemies rnd'] eqn:S.
    cbn [fst snd]. rewrite JsMap_get_set_same. split; [reflexivity|]. split; [|split].
    + intros other N. now apply JsMap_get_set_other.
    + reflexivity.
    + split; [|split].
      * apply JsMap_keys_set_absent. unfold JsMap.has. now rewrite G.
      * f_equal. apply (f_equal fst) in S. cbn [fst] in S. rewrite <- S. reflexivity.
      * apply (f_equal snd) in S. cbn [snd] in S. rewrite <- S. reflexivity.
Qed.

(** X5. [findPlayerByPlayerId] returns the first player, in the insertion
    order of the room's player map, whose [playerId] is the one asked for,
    and nothing when no player carries it or no id is given. *)
Theorem findPlayerByPlayerId_first_match : forall room id,
  match findPlayerByPlayerId room (Some id) with
  | Some (k, p) =>
      Player.playerId p = id
      /\ exists before after,
           Room.players room = before ++ (k, p) :: after
           /\ Forall (fun kq => Player.playerId (snd kq) <> id) before
  | None => Forall (fun kq => Player.playerId (snd kq) <> id) (Room.players room)
  end
  /\ findPlayerByPlayerId room None = None.
Proof.
  intros room id. split; [|reflexivity]. unfold findPlayerByPlayerId.
  induction (Room.players room) as [|[k q] r IH]; cbn [find snd]; [constructor|].
  destruct (String.eqb (Player.playerId q) id) eqn:E.
  - apply String.eqb_eq in E. split; [exact E|]. exists [], r. split; [reflexivity|constructor].
  - apply String.eqb_neq in E.
    destruct (find _ r) as [[k1 p1]|].
    + destruct IH as (Hid & before & after & Hr & Hb). split; [exact Hid|].
      exists ((k, q) :: before), after. split; [now rewrite Hr|].
      constructor; assumption.
    + constructor; assumption.
Qed.

Lemma pickNearestLoop_nearest x z ps : forall seen best bestD2,
  Forall (fun s => (dist2 x z s <? bestD2)%float = false) seen ->
  match best with
  | None => bestD2 = infinity
  | Some p =>
      bestD2 = dist2 x z p /\ (dist2 x z p <? infinity)%float = true
      /\ exists before after,
           seen = before ++ p :: after
           /\ Forall (fun q => (dist2 x z p <? dist2 x z q)%float = true
                               \/ PrimFloat.is_nan (dist2 x z q) = true) before
  end ->
  nearestOf (dist2 x z) (seen ++ ps) (pickNearestLoop ps x z best bestD2).
Proof.
  induction ps as [|q r IH]; intros seen best bestD2 Hseen Hbest.
  - cbn [pickNearestLoop]. rewrite app_nil_r. destruct best as [p|]; cbn [nearestOf].
    + destruct Hbest as (-> & Hinf & before & after & -> & Hb).
      split; [exact Hinf|]. exists before, after. split; [reflexivity|]. split; [exact Hb|].
      apply Forall_app in Hseen. destruct Hseen as [_ Hs]. now inversion Hs.
    + subst bestD2. exact Hseen.
  - cbn [pickNearestLoop]. fold (dist2 x z q).
    replace (seen ++ q :: r) with ((seen ++ [q]) ++ r) by (now rewrite <- app_assoc).
    destruct (dist2 x z q <? bestD2)%float eqn:L.
    + apply IH.
      * apply Forall_app. split.
        -- eapply Forall_impl; [|exact Hseen]. cbn beta. intros s Hs.
           destruct (dist2 x z s <? dist2 x z q)%float eqn:E; [|reflexivity].
           now rewrite (float_ltb_trans _ _ _ E L) in Hs.
        -- constructor; [apply float_ltb_irrefl|constructor].
      * split; [reflexivity|]. split.
        -- destruct best as [p|].
           ++ destruct Hbest as (-> & Hinf & _). exact (float_ltb_trans _ _ _ L Hinf).
           ++ now subst bestD2.
        -- exists seen, []. split; [reflexivity|].
           eapply Forall_impl; [|exact Hseen]. cbn beta. intros s Hs.
           destruct (PrimFloat.is_nan (dist2 x z s)) eqn:Ns; [now right|left].
           destruct (float_ltb_not_nan _ _ L) as [_ Nb].
           exact (float_ltb_leb_trans _ _ _ L (float_not_ltb_leb _ _ Ns Nb Hs)).
    + apply IH.
      * apply Forall_app. split; [exact Hseen|]. constructor; [exact L|constructor].
      * destruct best as [p|]; [|exact Hbest].
        destruct Hbest as (-> & Hinf & before & after & -> & Hb).
        split; [reflexivity|]. split; [exact Hinf|].
        exists before, (after ++ [q]). split; [|exact Hb].
        now rewrite <- app_assoc.
Qed.

(** X6. [pickNearestPlayer] returns a player of the room whose squared
    distance to the point is below [Infinity] and minimal: it is strictly
    nearer than every player inserted before it (so of equally near
    players the first inserted wins) and no player inserted after it is
    strictly nearer. Players whose distance is [NaN] or infinite are never
    picked, and when every player is such, or the room has none, the
    answer is nothing. *)
Theorem pickNearestPlayer_nearest : forall room x z,
  match pickNearestPlayer room x z with
  | Some p =>
      (dist2 x z p <? infinity)%float = true
      /\ exists before after,
           JsMap.values (Room.players room) = before ++ p :: after
           /\ Forall (fun q => (dist2 x z p <? dist2 x z q)%float = true
                               \/ PrimFloat.is_nan (dist2 x z q) = true) before
           /\ Forall (fun q => (dist2 x z q <? dist2 x z p)%float = false) after
  | None =>
      Forall (fun q => (dist2 x z q <? infinity)%float = false)
             (JsMap.values (Room.players room))
  end.
Proof.
  intros room x z. unfold pickNearestPlayer.
  exact (pickNearestLoop_nearest x z _ [] None infinity (Forall_nil _) eq_refl).
Qed.

(** X7. [joinRoom] with a room id that is missing or empty does nothing.
    Otherwise the room is created if need be ([getRoom]) and the
    connection's entry in it is set to a fresh player at the origin with
    full vitals and no cast, whose [playerId] defaults to the connection id
    and whose [name] defaults to ["Player"]: a new connection is appended
    to the room's players, a connection that is already a player of the
    room has its entry replaced in place. The room's other players, its
    enemies, projectiles and environment, every other room and [lastTick]
    stay as they were, and the output is [joined] to the connection
    followed by [player_joined] to the room. *)
Theorem joinRoom_contract : forall socket msg w rnd,
  match JoinRoomMsg.roomId msg with
  | Some roomId =>
      if truthyS roomId then
        let room0 := snd (fst (getRoom (rooms w) roomId rnd)) in
        let p := freshPlayer socket msg in
        let w1 := fst (fst (joinRoom socket msg w rnd)) in
        snd (joinRoom socket msg w rnd)
        = [Joined socket roomId;
           Event roomId (player_joined (Player.playerId p) (Player.name p))]
        /\ snd (fst (joinRoom socket msg w rnd)) = snd (getRoom (rooms w) roomId rnd)
        /\ lastTick w1 = lastTick w
        /\ (forall other, other <> roomId ->
              JsMap.get other (rooms w1) = JsMap.get other (rooms w))
        /\ exists room1,
             JsMap.get roomId (rooms w1) = Some room1
             /\ JsMap.get socket (Room.players room1) = Some p
             /\ (forall other, other <> socket ->
                   JsMap.get other (Room.players room1) = JsMap.get other (Room.players room0))
             /\ JsMap.keys (Room.players room1)
                = (if JsMap.has socket (Room.players room0)
                   then JsMap.keys (Room.players room0)
                   else JsMap.keys (Room.players room0) ++ [socket])
             /\ Room.enemies room1 = Room.enemies room0
             /\ Room.projectiles room1 = Room.projectiles room0
             /\ Room.env room1 = Room.env room0
      else joinRoom socket msg w rnd = (w, rnd, [])
  | None => joinRoom socket msg w rnd = (w, rnd, [])
  end.
Proof.
  intros socket msg w rnd. unfold joinRoom.
  destruct (JoinRoomMsg.roomId msg) as [roomId|]; [|reflexivity].
  destruct (truthyS roomId); [|reflexivity].
  pose proof (getRoom_get (rooms w) roomId rnd) as G.
  destruct (getRoom (rooms w) roomId rnd) as [[rooms1 room0] rnd1].
  cbn [fst snd] in *. destruct G as (_ & Gother).
  split; [reflexivity|]. split; [reflexivity|]. split; [reflexivity|]. split.
  - intros other N. cbn [rooms]. rewrite JsMap_get_set_other by assumption. now apply Gother.
  - eexists. split; [cbn [rooms]; apply JsMap_get_set_same|].
    cbn [Room.players Room.enemies Room.projectiles Room.env Room.set_players].
    split; [apply JsMap_get_set_same|]. split.
    + intros other N. now apply JsMap_get_set_other.
    + split; [|auto]. destruct (JsMap.has socket (Room.players room0)) eqn:H.
      * now apply JsMap_keys_set_present.
      * now apply JsMap_keys_set_absent.
Qed.

Lemma find_none_Forall {A : Type} (f : A -> bool) l :
  find f l = None <-> Forall (fun a => f a = false) l.
Proof.
  induction l as [|a r IH]; cbn [find]; [split; [constructor|reflexivity]|].
  destruct (f a) eqn:E.
  - split; [discriminate|]. intros H. inversion H; congruence.
  - rewrite IH. split; [now constructor|]. intros H. now inversion H.
Qed.

Lemma findPlayerByPlayerId_none room actorId :
  findPlayerByPlayerId room actorId = None <-> unnamed room actorId.
Proof.
  unfold findPlayerByPlayerId, unnamed. destruct actorId as [a|].
  - rewrite find_none_Forall. split; intros H; (eapply Forall_impl; [|exact H]);
      intros [k q]; cbn [snd].
    + intros E [= ->]. now rewrite String.eqb_refl in E.
    + intros N. apply String.eqb_neq. congruence.
  - split; [|reflexivity]. intros _. apply Forall_forall. discriminate.
Qed.

(** X8. The acting player of an action is the first player of the room
    whose [playerId] is the message's [actorId], whichever connection sent
    the message; only when no player carries that id is it the sender's own
    player; and when the sender has none either, there is no actor. *)
Theorem actor_named_before_sender : forall room actorId socket,
  match resolveActor room actorId socket with
  | Some (k, p) =>
      In (k, p) (Room.players room)
      /\ ((actorId = Some (Player.playerId p)
           /\ findPlayerByPlayerId room actorId = Some (k, p))
          \/ (unnamed room actorId /\ k = socket
               /\ JsMap.get socket (Room.players room) = Some p))
  | None => unnamed room actorId /\ JsMap.has socket (Room.players room) = false
  end.
Proof.
  intros room actorId socket. unfold resolveActor.
  destruct (findPlayerByPlayerId room actorId) as [[k p]|] eqn:F.
  - split.
    + unfold findPlayerByPlayerId in F. destruct actorId as [a|]; [|discriminate].
      now apply find_some in F.
    + left. split; [|reflexivity].
      unfold findPlayerByPlayerId in F. destruct actorId as [a|]; [|discriminate].
      apply find_some in F. destruct F as [_ F]. cbn [snd] in F.
      apply String.eqb_eq in F. now rewrite F.
  - apply findPlayerByPlayerId_none in F. unfold JsMap.has.
    destruct (JsMap.get socket (Room.players room)) as [p|] eqn:G.
    + split; [now apply JsMap_get_In|]. right. auto.
    + auto.
Qed.

Lemma action_ignored socket msg t0 t1 w :
  ignoredAction socket msg w -> action socket msg t0 t1 w = (w, []).
Proof.
  unfold ignoredAction, action.
  destruct (lookupRoom (rooms w) (ActionMsg.roomId msg)) as [[rid room]|] eqn:L; [|reflexivity].
  intros [H|[[H1 H2]|[H1 H2]]].
  - now rewrite H.
  - destruct (resolveActor _ _ _) as [[key actor]|]; [|reflexivity].
    apply String.eqb_neq in H1, H2. now rewrite H1, H2.
  - destruct (resolveActor _ _ _) as [[key actor]|]; [|reflexivity].
    rewrite H1. cbn [String.eqb Ascii.eqb Bool.eqb andb].
    unfold actionAttack. rewrite H2.
    apply lookupRoom_get in L. destruct L as [_ G].
    rewrite (JsMap_set_get_id _ _ _ G). destruct w; reflexivity.
Qed.

(** X9. An action is either ignored or announced. When its room or its
    acting player does not resolve, when its type is neither [cast] nor
    [attack] (unknown action types are ignored), or when it is an attack
    that names no enemy of the room, the handler leaves the state as it is
    and emits nothing. In every other case it emits at least one event,
    and every event it emits goes to the room of the message. *)
Theorem action_ignored_or_announced : forall socket msg startRead finishRead w,
  (ignoredAction socket msg w -> action socket msg startRead finishRead w = (w, []))
  /\ (snd (action socket msg startRead finishRead w) = [] -> ignoredAction socket msg w)
  /\ Forall (fun o => exists roomId body,
                         ActionMsg.roomId msg = Some roomId /\ o = Event roomId body)
            (snd (action socket msg startRead finishRead w)).
Proof.
  intros socket msg t0 t1 w. split; [apply action_ignored|].
  unfold ignoredAction, action.
  destruct (lookupRoom (rooms w) (ActionMsg.roomId msg)) as [[rid room]|] eqn:L;
    [|split; [auto|constructor]].
  apply lookupRoom_get in L. destruct L as [L G].
  destruct (resolveActor _ _ _) as [[key actor]|]; [|split; [auto|constructor]].
  destruct (String.eqb (ActionMsg.type msg) "cast") eqn:E1.
  - cbn [snd actionCast]. split; [discriminate|].
    constructor; [|constructor]. now exists rid; eexists.
  - apply String.eqb_neq in E1.
    destruct (String.eqb (ActionMsg.type msg) "attack") eqn:E2.
    + apply String.eqb_eq in E2. unfold actionAttack.
      destruct (attackTarget room (ActionMsg.payload msg)) as [[id e]|]; cbn [snd].
      * split; [discriminate|].
        constructor; [now exists rid; eexists|].
        destruct (_ <=? 0); [|constructor]. constructor; [now exists rid; eexists|constructor].
      * split; [auto|constructor].
    + apply String.eqb_neq in E2. split; [auto|constructor].
Qed.

(** X10. A [cast] action whose room and acting player resolve is accepted
    as it is: nothing is checked, neither the spell, nor the target, nor
    the actor's mana or the casts it has under way. One entry is appended
    to the actor's cast list, with the spell id defaulting to [fireball]
    and an empty or missing target recorded as none, and one [cast_start]
    event is emitted, with the cast time 650 ms of the default fireball
    whatever the spell. The enemies, the projectiles and every other player
    of the room stay as they were. *)
Theorem cast_is_queued_unchecked :
  forall socket msg startRead finishRead w roomId room key actor,
  ActionMsg.type msg = "cast" ->
  lookupRoom (rooms w) (ActionMsg.roomId msg) = Some (roomId, room) ->
  resolveActor room (ActionMsg.actorId msg) socket = Some (key, actor) ->
  let spellId :=
    match payload_spellId (ActionMsg.payload msg) with
    | Some s => if (s =? "")%string then "fireball" else s
    | None => "fireball"
    end in
  let target :=
    match payload_targetEnemyId (ActionMsg.payload msg) with
    | Some id => if (id =? "")%string then None else Some id
    | None => None
    end in
  let c := Cast.mk spellId target startRead (finishRead + 650) in
  let w1 := fst (action socket msg startRead finishRead w) in
  snd (action socket msg startRead finishRead w)
  = [Event roomId (cast_start (Player.playerId actor) spellId target 650)]
  /\ exists room1,
       JsMap.get roomId (rooms w1) = Some room1
       /\ JsMap.get key (Room.players room1)
          = Some (Player.set_casts actor (Player.casts actor ++ [c]))
       /\ (forall other, other <> key ->
             JsMap.get other (Room.players room1) = JsMap.get other (Room.players room))
       /\ JsMap.keys (Room.players room1) = JsMap.keys (Room.players room)
       /\ Room.enemies room1 = Room.enemies room
       /\ Room.projectiles room1 = Room.projectiles room.
Proof.
  intros socket msg t0 t1 w roomId room key actor Ht L A spellId target c w1.
  assert (Ec : castEntry (ActionMsg.payload msg) t0 t1 = c).
  { unfold castEntry, c, spellId, target, orElse, truthy, truthyS,
      CONFIG.defaultFireball.castTimeMs.
    destruct (payload_spellId _) as [s|], (payload_targetEnemyId _) as [id|];
      try destruct (String.eqb s ""); try destruct (String.eqb id ""); reflexivity. }
  subst w1. unfold action. rewrite L, A, Ht. cbn [String.eqb Ascii.eqb Bool.eqb andb].
  unfold actionCast. rewrite Ec. cbn [fst snd rooms].
  split; [reflexivity|]. eexists. split; [apply JsMap_get_set_same|].
  cbn [Room.players Room.enemies Room.projectiles Room.set_players].
  split; [apply JsMap_get_set_same|]. split.
  - intros other N. now apply JsMap_get_set_other.
  - split; [|auto]. apply JsMap_keys_set_present.
    apply JsMap_has_In_keys. apply resolveActor_In in A.
    change key with (fst (key, actor)). now apply in_map.
Qed.

(** X11. A disconnect emits nothing exactly when no room holds the
    connection, and then leaves the state as it is; otherwise it emits the
    one [player_left] event of the room it is handled in. The registry
    loses at most that room, and only when the connection was its last
    player. *)
Theorem disconnect_silent_iff_absent : forall socket w,
  (snd (disconnect socket w) = []
   <-> Forall (fun kr => JsMap.has socket (Room.players (snd kr)) = false) (rooms w))
  /\ (snd (disconnect socket w) = [] -> fst (disconnect socket w) = w)
  /\ match find (fun kr => JsMap.has socket (Room.players (snd kr))) (rooms w) with
     | Some (roomId, room) =>
         exists p,
           JsMap.get socket (Room.players room) = Some p
           /\ snd (disconnect socket w)
              = [Event roomId (player_left (Player.playerId p) (Player.name p))]
           /\ lastTick (fst (disconnect socket w)) = lastTick w
           /\ rooms (fst (disconnect socket w))
              = (if (JsMap.size (Room.players room) =? 1)%nat
                 then JsMap.delete roomId (rooms w)
                 else JsMap.set roomId
                        (Room.set_players room (JsMap.delete socket (Room.players room)))
                        (rooms w))
     | None => disconnect socket w = (w, [])
     end.
Proof.
  intros socket w. unfold disconnect.
  destruct (find _ (rooms w)) as [[roomId room]|] eqn:F.
  - pose proof (find_some _ _ F) as [Hin Hhas]. cbn [snd] in Hhas.
    unfold JsMap.has in Hhas.
    destruct (JsMap.get socket (Room.players room)) as [p|] eqn:G; [|discriminate].
    cbn [fst snd]. split; [|split].
    + split; [discriminate|]. intros H. apply find_none_Forall in H. congruence.
    + discriminate.
    + exists p. split; [reflexivity|]. split; [reflexivity|]. split; [reflexivity|].
      cbn [rooms Room.players Room.set_players].
      assert (Es : JsMap.size (Room.players room)
                   = S (JsMap.size (JsMap.delete socket (Room.players room)))).
      { clear -G. unfold JsMap.size. induction (Room.players room) as [|[k q] r IH];
          cbn [JsMap.get JsMap.delete] in *; [discriminate|].
        destruct (String.eqb k socket); [reflexivity|]. cbn [List.length]. now rewrite IH. }
      rewrite Es. destruct (JsMap.size (JsMap.delete socket (Room.players room))) as [|n].
      * cbn [Nat.eqb]. clear. induction (rooms w) as [|[k r0] r IH];
          cbn [JsMap.set JsMap.delete]; [now rewrite String.eqb_refl|].
        destruct (String.eqb k roomId) eqn:E; cbn [JsMap.delete].
        -- apply String.eqb_eq in E. subst k. now rewrite String.eqb_refl.
        -- rewrite E. now rewrite IH.
      * reflexivity.
  - split; [|split; reflexivity]. split; [|reflexivity].
    intros _. now apply find_none_Forall.
Qed.

(** ** Invariants, handler by handler *)

Section HandlerInvariant.

Variable P : Room.t -> Prop.

Hypothesis P_joinRoom : forall socket msg w rnd,
  allRooms P (rooms w) -> allRooms P (rooms (fst (fst (joinRoom socket msg w rnd)))).

Hypothesis P_input : forall socket msg w,
  allRooms P (rooms w) -> allRooms P (rooms (input socket msg w)).

Hypothesis P_action : forall socket msg startRead finishRead w,
  allRooms P (rooms w) -> allRooms P (rooms (fst (action socket msg startRead finishRead w))).

Hypothesis P_disconnect : forall socket w,
  allRooms P (rooms w) -> allRooms P (rooms (fst (disconnect socket w))).

Hypothesis P_tickRoom : forall roomId now dt room rnd,
  P room -> P (fst (fst (tickRoom roomId now dt room rnd))).

Lemma step_keeps w rnd i :
  allRooms P (rooms w) -> allRooms P (rooms (fst (fst (step w rnd i)))).
Proof.
  intros H. destruct i as [socket msg|socket msg|socket msg t0 t1|socket|now]; cbn [step].
  - now apply P_joinRoom.
  - now apply P_input.
  - pose proof (P_action socket msg t0 t1 w H) as Ha.
    destruct (action socket msg t0 t1 w) as [w1 out]. exact Ha.
  - pose proof (P_disconnect socket w H) as Hd.
    destruct (disconnect socket w) as [w1 out]. exact Hd.
  - unfold tick.
    pose proof (tickRooms_allRooms P P_tickRoom now (tickDelta now (lastTick w)) (rooms w) rnd H)
      as Ht.
    destruct (tickRooms now (tickDelta now (lastTick w)) (rooms w) rnd) as [[rs1 rnd1] out].
    exact Ht.
Qed.

Lemma run_keeps ins : forall w rnd,
  allRooms P (rooms w) -> allRooms P (rooms (fst (fst (run w rnd ins)))).
Proof.
  induction ins as [|i r IH]; intros w rnd H; cbn [run]; [exact H|].
  pose proof (step_keeps w rnd i H) as Hs.
  destruct (step w rnd i) as [[w1 rnd1] out1].
  specialize (IH w1 rnd1 Hs).
  destruct (run w1 rnd1 r) as [[w2 rnd2] out2]. exact IH.
Qed.

Lemma reachable_keeps startRead rnd ins :
  allRooms P (rooms (fst (fst (run (initial startRead) rnd ins)))).
Proof. apply run_keeps. constructor. Qed.

End HandlerInvariant.

(** ** Rooms are never empty *)

Lemma JsMap_set_not_nil {V : Type} k (v : V) m : JsMap.set k v m <> [].
Proof. destruct m as [|[k1 v1] r]; cbn [JsMap.set]; [|destruct (String.eqb k1 k)]; discriminate. Qed.

Lemma JsMap_Forall_delete_set {V : Type} (Q : string * V -> Prop) k v m :
  Forall Q m -> Forall Q (JsMap.delete k (JsMap.set k v m)).
Proof.
  induction m as [|[k1 v1] r IH]; intros H; cbn [JsMap.set JsMap.delete].
  - rewrite String.eqb_refl. constructor.
  - inversion H; subst. destruct (String.eqb k1 k) eqn:E; cbn [JsMap.delete].
    + rewrite String.eqb_refl. assumption.
    + rewrite E. constructor; auto.
Qed.

Lemma JsMap_set_set {V : Type} k (v v' : V) m :
  JsMap.set k v' (JsMap.set k v m) = JsMap.set k v' m.
Proof.
  induction m as [|[k1 v1] r IH]; cbn [JsMap.set].
  - now rewrite String.eqb_refl.
  - destruct (String.eqb k1 k) eqn:E; cbn [JsMap.set].
    + now rewrite String.eqb_refl.
    + now rewrite E, IH.
Qed.

Lemma occupied_reachable startRead rnd ins :
  allRooms occupied (rooms (fst (fst (run (initial startRead) rnd ins)))).
Proof.
  apply reachable_keeps; unfold occupied.
  - intros socket msg w rnd0 H. unfold joinRoom.
    destruct (JoinRoomMsg.roomId msg) as [rid|]; [|exact H].
    destruct (truthyS rid); [|exact H]. unfold getRoom.
    destruct (JsMap.get rid (rooms w)) as [room|].
    + cbn [fst rooms]. apply JsMap_Forall_set; [exact H|]. apply JsMap_set_not_nil.
    + destruct (seedEnemies _ _ _ _) as [es rnd1]. cbn [fst rooms].
      rewrite JsMap_set_set. apply JsMap_Forall_set; [exact H|]. apply JsMap_set_not_nil.
  - apply input_allRooms. intros room socket p msg _ _. apply JsMap_set_not_nil.
  - apply action_allRooms.
    + intros roomId room key actor payload t0 t1 _ _. apply JsMap_set_not_nil.
    + intros roomId room actor payload H. now rewrite actionAttack_players.
  - intros socket w H. unfold disconnect.
    destruct (find _ (rooms w)) as [[rid room]|]; [|exact H].
    destruct (JsMap.get socket (Room.players room)) as [p|]; [|exact H].
    cbn [fst rooms Room.players Room.set_players].
    destruct (Nat.eqb _ 0) eqn:E.
    + now apply JsMap_Forall_delete_set.
    + apply JsMap_Forall_set; [exact H|]. cbn [snd Room.players Room.set_players].
      intros E0. rewrite E0 in E. discriminate.
  - intros roomId now dt room rnd0 H. rewrite tickRoom_players.
    destruct (Room.players room); [contradiction|discriminate].
Qed.

(** X12. A room is in the registry only while it has a player: [joinRoom]
    creates a room together with its first player, the disconnect of the
    last player deletes it, and nothing else adds or removes a room or a
    player. In every state the server can reach, no room is empty. *)
Theorem rooms_never_empty : forall startRead rnd ins,
  Forall (fun kr => Room.players (snd kr) <> [] /\ (0 < JsMap.size (Room.players (snd kr)))%nat)
         (rooms (fst (fst (run (initial startRead) rnd ins)))).
Proof.
  intros. eapply Forall_impl; [|exact (occupied_reachable startRead rnd ins)].
  intros [rid room] H. unfold occupied in H. cbn [snd] in *. split; [exact H|].
  unfold JsMap.size. destruct (Room.players room); [contradiction|cbn; lia].
Qed.

(** ** Player entries *)

Lemma orElse_not_empty a b : b <> "" -> orElse a b <> "".
Proof.
  intros Hb. unfold orElse. destruct a as [s|]; [|exact Hb].
  unfold truthyS. destruct (String.eqb s "") eqn:E; [exact Hb|].
  now apply String.eqb_neq.
Qed.

Lemma castEntry_sane payload t0 t1 : castSane (castEntry payload t0 t1).
Proof.
  unfold castSane, castEntry. cbn [Cast.spellId Cast.targetEnemyId]. split.
  - apply orElse_not_empty. discriminate.
  - unfold truthy, truthyS. destruct (payload_targetEnemyId payload) as [id|]; [|discriminate].
    destruct (String.eqb id "") eqn:E; cbn [negb]; [discriminate|].
    apply String.eqb_neq in E. congruence.
Qed.

Lemma assignIfNumber_sane v p set k :
  (forall q f, playerSane (k, q) -> playerSane (k, set q f)) ->
  playerSane (k, p) -> playerSane (k, assignIfNumber v p set).
Proof. intros Hs H. destruct v; cbn [assignIfNumber]; auto. Qed.

Lemma playersSane_reachable startRead rnd ins :
  allRooms playersSane (rooms (fst (fst (run (initial startRead) rnd ins)))).
Proof.
  apply reachable_keeps; unfold playersSane.
  - intros socket msg w rnd0 H. unfold joinRoom.
    destruct (JoinRoomMsg.roomId msg) as [rid|]; [|exact H].
    destruct (truthyS rid); [|exact H].
    assert (Hp : forall room, Forall playerSane (Room.players room) ->
              Forall playerSane
                (JsMap.set socket
                   (Player.mk socket (orElse (JoinRoomMsg.playerId msg) socket)
                              (orElse (JoinRoomMsg.name msg) "Player")
                              0%float 0%float 0%float 0%float 0%float 100 100 50 50 [])
                   (Room.players room))).
    { intros room Hr. apply JsMap_Forall_set; [exact Hr|].
      unfold playerSane. cbn [fst snd Player.socketId Player.name Player.casts].
      split; [reflexivity|]. split; [apply orElse_not_empty; discriminate|constructor]. }
    unfold getRoom. destruct (JsMap.get rid (rooms w)) as [room|] eqn:G.
    + cbn [fst rooms]. apply JsMap_Forall_set; [exact H|]. cbn [snd Room.players Room.set_players].
      apply Hp. exact (allRooms_get _ _ _ _ H G).
    + destruct (seedEnemies _ _ _ _) as [es rnd1]. cbn [fst rooms].
      rewrite JsMap_set_set. apply JsMap_Forall_set; [exact H|].
      cbn [snd Room.players Room.set_players]. apply (Hp (Room.mk [] es [] (Env.mk 12.0%float "clear"))). constructor.
  - apply input_allRooms. intros room socket p msg H G.
    cbn [Room.players Room.set_players]. apply JsMap_Forall_set; [exact H|].
    rewrite Forall_forall in H. specialize (H _ (JsMap_get_In _ _ _ G)).
    repeat apply assignIfNumber_sane; try exact H; intros q f Hq; exact Hq.
  - apply action_allRooms.
    + intros roomId room key actor payload t0 t1 H Hin.
      cbn [fst actionCast Room.players Room.set_players]. apply JsMap_Forall_set; [exact H|].
      rewrite Forall_forall in H. specialize (H _ Hin). destruct H as (H1 & H2 & H3).
      unfold playerSane. cbn [fst snd Player.socketId Player.name Player.casts Player.set_casts] in *.
      split; [exact H1|]. split; [exact H2|]. apply Forall_app. split; [exact H3|].
      constructor; [apply castEntry_sane|constructor].
    + intros roomId room actor payload H. now rewrite actionAttack_players.
  - apply disconnect_allRooms. intros room socket H.
    cbn [Room.players Room.set_players]. now apply JsMap_Forall_delete.
  - intros roomId now dt room rnd0 H. rewrite tickRoom_players.
    rewrite Forall_map. eapply Forall_impl; [|exact H].
    intros [k p] (H1 & H2 & H3). unfold playerSane, dropDue, movePlayer.
    destruct (PrimFloat.ltb _ _);
      cbn [fst snd Player.socketId Player.name Player.casts Player.set_casts Player.set_pos] in *;
      (split; [exact H1|]; split; [exact H2|]);
      apply Forall_forall; intros c Hc; apply filter_In in Hc;
      rewrite Forall_forall in H3; apply H3; tauto.
Qed.

(** X13. In every state the server can reach, every player is stored under
    the id of its own connection, its name is not empty (a join without a
    name is named ["Player"]), and every cast it has queued names a spell
    (["fireball"] when the action named none) and has a target that is
    either absent or not empty. *)
Theorem player_entries_well_formed : forall startRead rnd ins,
  Forall (fun kr =>
            Forall (fun kp =>
                      Player.socketId (snd kp) = fst kp
                      /\ Player.name (snd kp) <> ""
                      /\ Forall (fun c => Cast.spellId c <> "" /\ Cast.targetEnemyId c <> Some "")
                                (Player.casts (snd kp)))
                   (Room.players (snd kr)))
         (rooms (fst (fst (run (initial startRead) rnd ins)))).
Proof. intros. exact (playersSane_reachable startRead rnd ins). Qed.

(** ** Projectiles *)

Lemma seedEnemies_keyed rnd : enemiesKeyed (fst (seedEnemies CONFIG.enemyCount 0 rnd [])).
Proof.
  split; [reflexivity|]. cbv - [PrimFloat.mul PrimFloat.sub]. repeat constructor.
Qed.

Lemma stepEnemies_keyed now dt room es : forall rnd,
  Forall (fun ke => Enemy.enemyId (snd ke) = fst ke) es ->
  Forall (fun ke => Enemy.enemyId (snd ke) = fst ke) (fst (stepEnemies now dt room rnd es)).
Proof.
  induction es as [|[k e] r IH]; intros rnd H; cbn [stepEnemies]; [constructor|].
  pose proof (stepEnemy_vitals now dt room rnd e) as (Hid & _).
  destruct (stepEnemy now dt room rnd e) as [e1 rnd1].
  specialize (IH rnd1). destruct (stepEnemies now dt room rnd1 r) as [r1 rnd2].
  cbn [fst snd] in *. inversion H; subst. constructor; [cbn [fst snd] in *; congruence|auto].
Qed.

Lemma enemyIds_NoDup : NoDup enemyIds.
Proof.
  unfold enemyIds. repeat constructor; cbn [In]; intros H;
    repeat (destruct H as [H|H]; [discriminate H|]); exact H.
Qed.

Lemma sameEnemies_keyed es es1 : enemiesKeyed es -> sameEnemies es es1 -> enemiesKeyed es1.
Proof.
  intros [K H] [K1 S]. split; [congruence|].
  apply Forall_forall. intros [k e1] Hin. cbn [fst snd].
  assert (G1 : JsMap.get k es1 = Some e1).
  { apply JsMap_In_get; [|exact Hin]. rewrite K1, K. apply enemyIds_NoDup. }
  specialize (S k). rewrite G1 in S.
  destruct (JsMap.get k es) as [e|] eqn:G; [|contradiction].
  destruct S as (Hid & _). rewrite Hid.
  rewrite Forall_forall in H. exact (H _ (JsMap_get_In _ _ _ G)).
Qed.

Lemma enemiesKeyed_get es id e :
  enemiesKeyed es -> JsMap.get id es = Some e -> In id enemyIds /\ Enemy.enemyId e = id.
Proof.
  intros [K H] G. split.
  - rewrite <- K. apply JsMap_has_In_keys. unfold JsMap.has. now rewrite G.
  - rewrite Forall_forall in H. exact (H _ (JsMap_get_In _ _ _ G)).
Qed.

Lemma enemiesKeyed_resolves es id :
  enemiesKeyed es -> In id enemyIds ->
  exists e, JsMap.get id es = Some e /\ Enemy.enemyId e = id.
Proof.
  intros K Hin. pose proof K as [Kk _]. rewrite <- Kk in Hin.
  apply JsMap_has_In_keys in Hin. unfold JsMap.has in Hin.
  destruct (JsMap.get id es) as [e|] eqn:G; [|discriminate].
  exists e. split; [reflexivity|]. exact (proj2 (enemiesKeyed_get _ _ _ K G)).
Qed.

(** What step 3 keeps when every projectile it spawns is fired at an enemy
    of the room. *)
Lemma finishCast_inv_target (R : Room.t -> Prop) roomId now p c room rnd :
  (forall target rnd0, In target (JsMap.values (Room.enemies room)) ->
     R (spawnProjectile room (fireball now p target rnd0))) ->
  R room -> R (fst (fst (finishCast roomId now p c room rnd))).
Proof.
  intros HR H. unfold finishCast. destruct (String.eqb _ _); [|exact H].
  destruct (castTarget room c) as [target|] eqn:T; cbn [fst]; [|exact H].
  apply HR. unfold castTarget, findEnemy in T.
  destruct (Cast.targetEnemyId c) as [id|]; [|discriminate].
  destruct (truthyS id); [|discriminate].
  apply JsMap_get_In in T. unfold JsMap.values.
  change target with (snd (id, target)). now apply in_map.
Qed.

Lemma resolveCasts_inv_target (R : Room.t -> Prop) roomId now p cs : forall room rnd,
  (forall room0 target rnd0, Room.enemies room0 = Room.enemies room ->
     In target (JsMap.values (Room.enemies room0)) ->
     R room0 -> R (spawnProjectile room0 (fireball now p target rnd0))) ->
  R room -> R (snd (fst (fst (resolveCasts roomId now p cs room rnd)))).
Proof.
  induction cs as [|c r IH]; intros room rnd HR H; cbn [resolveCasts]; [exact H|].
  destruct (now <? Cast.finishAt c).
  - specialize (IH room rnd HR H).
    destruct (resolveCasts roomId now p r room rnd) as [[[rem room1] rnd1] out].
    exact IH.
  - pose proof (finishCast_inv_target R roomId now p c room rnd
                  (fun target rnd0 Hin => HR room target rnd0 eq_refl Hin H) H) as H1.
    pose proof (finishCast_frame roomId now p c room rnd) as Hf.
    destruct (finishCast roomId now p c room rnd) as [[room1 rnd1] out1].
    cbn [fst snd] in H1, Hf. destruct Hf as (_ & He & _).
    assert (HR1 : forall room0 target rnd0, Room.enemies room0 = Room.enemies room1 ->
              In target (JsMap.values (Room.enemies room0)) ->
              R room0 -> R (spawnProjectile room0 (fireball now p target rnd0))).
    { intros room0 target rnd0 E. apply HR. congruence. }
    specialize (IH room1 rnd1 HR1 H1).
    destruct (resolveCasts roomId now p r room1 rnd1) as [[[rem room2] rnd2] out2].
    exact IH.
Qed.

Lemma stepCasts_inv_target (R : Room.t -> Prop) roomId now ps : forall room rnd,
  (forall room0 p target rnd0, Room.enemies room0 = Room.enemies room ->
     In target (JsMap.values (Room.enemies room0)) ->
     R room0 -> R (spawnProjectile room0 (fireball now p target rnd0))) ->
  R room -> R (snd (fst (fst (stepCasts roomId now ps room rnd)))).
Proof.
  induction ps as [|[k p] r IH]; intros room rnd HR H; cbn [stepCasts]; [exact H|].
  destruct (Player.casts p) as [|c cs] eqn:Ec.
  - specialize (IH room rnd HR H).
    destruct (stepCasts roomId now r room rnd) as [[[r1 room1] rnd1] out]. exact IH.
  - pose proof (resolveCasts_inv_target R roomId now p (c :: cs) room rnd
                  (fun r0 => HR r0 p) H) as H1.
    pose proof (resolveCasts_frame roomId now p (c :: cs) room rnd) as Hf.
    destruct (resolveCasts roomId now p (c :: cs) room rnd) as [[[rem room1] rnd1] out1].
    cbn [fst snd] in H1, Hf. destruct Hf as (_ & He & _).
    assert (HR1 : forall room0 p0 target rnd0, Room.enemies room0 = Room.enemies room1 ->
              In target (JsMap.values (Room.enemies room0)) ->
              R room0 -> R (spawnProjectile room0 (fireball now p0 target rnd0))).
    { intros room0 p0 target rnd0 E. apply HR. congruence. }
    specialize (IH room1 rnd1 HR1 H1).
    destruct (stepCasts roomId now r room1 rnd1) as [[[r1 room2] rnd2] out2].
    exact IH.
Qed.

Lemma fireball_sane now p target rnd es :
  enemiesKeyed es -> In target (JsMap.values es) ->
  let proj := fireball now p target rnd in fireballSane (Projectile.projId proj, proj).
Proof.
  intros [K H] Hin. unfold fireballSane, fireball.
  cbn [fst snd Projectile.projId Projectile.type Projectile.damage Projectile.expiresAt
       Projectile.createdAt Projectile.targetEnemyId].
  repeat (split; [reflexivity|]).
  unfold JsMap.values in Hin. apply in_map_iff in Hin. destruct Hin as ([k e] & E & Hin).
  cbn [snd] in E. subst e. rewrite Forall_forall in H.
  pose proof (H _ Hin) as Hk. cbn [fst snd] in Hk. rewrite Hk.
  rewrite <- K. unfold JsMap.keys. change k with (fst (k, target)). now apply in_map.
Qed.

(** The stages of the tick of one room: step 1 moves the players, step 2
    runs on the moved players, step 3 on the enemies of step 2, step 4 on
    the enemies and projectiles step 3 leaves, and the snapshot shows the
    outcome. *)
Lemma tickRoom_stages roomId now dt room rnd :
  let room1 := Room.set_players room (movePlayers dt (Room.players room)) in
  exists es2 rnd2 ps3 room3 rnd3 out3,
    stepEnemies now dt room1 rnd (Room.enemies room) = (es2, rnd2)
    /\ stepCasts roomId now (Room.players room1) (Room.set_enemies room1 es2) rnd2
       = (ps3, room3, rnd3, out3)
    /\ Room.enemies room3 = es2
    /\ let s4 := stepProjectiles roomId now dt es2 (Room.projectiles room3) in
       let room4 := Room.mk ps3 (fst (fst s4)) (snd (fst s4)) (Room.env room3) in
       tickRoom roomId now dt room rnd
       = (room4, rnd3, out3 ++ snd s4 ++ [Snapshot roomId (snapshot now room4)]).
Proof.
  intros room1. unfold tickRoom. fold room1.
  change (Room.enemies room1) with (Room.enemies room).
  destruct (stepEnemies now dt room1 rnd (Room.enemies room)) as [es2 rnd2] eqn:E2.
  change (Room.players (Room.set_enemies room1 es2)) with (Room.players room1).
  pose proof (stepCasts_frame roomId now (Room.players room1) (Room.set_enemies room1 es2) rnd2)
    as F3.
  destruct (stepCasts roomId now (Room.players room1) (Room.set_enemies room1 es2) rnd2)
    as [[[ps3 room3] rnd3] out3] eqn:E3.
  cbn [fst snd Room.enemies Room.set_enemies] in F3. destruct F3 as (_ & F3 & _).
  exists es2, rnd2, ps3, room3, rnd3, out3.
  split; [reflexivity|]. split; [exact E3|]. split; [exact F3|].
  rewrite F3. cbv zeta.
  destruct (stepProjectiles roomId now dt es2 (Room.projectiles room3)) as [[es4 ps4] out4].
  reflexivity.
Qed.

(** Steps 2 and 3 keep the enemies under their ids and spawn only default
    fireballs aimed at them. *)
Lemma stages_sane roomId now dt room rnd es2 rnd2 ps3 room3 rnd3 out3 :
  let room1 := Room.set_players room (movePlayers dt (Room.players room)) in
  projectilesSane room ->
  stepEnemies now dt room1 rnd (Room.enemies room) = (es2, rnd2) ->
  stepCasts roomId now (Room.players room1) (Room.set_enemies room1 es2) rnd2
  = (ps3, room3, rnd3, out3) ->
  enemiesKeyed es2 /\ Forall fireballSane (Room.projectiles room3).
Proof.
  intros room1 [K H] E2 E3.
  assert (K2 : enemiesKeyed es2).
  { apply (f_equal fst) in E2. cbn [fst] in E2. subst es2. destruct K as [Kk Kf]. split.
    - now rewrite stepEnemies_keys.
    - now apply stepEnemies_keyed. }
  split; [exact K2|].
  pose proof (stepCasts_inv_target
                (fun r => Forall fireballSane (Room.projectiles r))
                roomId now (Room.players room1) (Room.set_enemies room1 es2) rnd2) as I3.
  rewrite E3 in I3. cbn [fst snd] in I3. apply I3; [|exact H].
  intros room0 p target rnd0 Ee Hin H0. apply spawnProjectile_Forall; [exact H0|].
  apply (fireball_sane now p target rnd0 (Room.enemies room0)); [|exact Hin].
  rewrite Ee. exact K2.
Qed.

Lemma tickRoom_projectilesSane roomId now dt room rnd :
  projectilesSane room -> projectilesSane (fst (fst (tickRoom roomId now dt room rnd))).
Proof.
  intros S.
  destruct (tickRoom_stages roomId now dt room rnd) as (es2 & rnd2 & ps3 & room3 & rnd3 & out3
                                                        & E2 & E3 & F3 & E).
  cbv zeta in E. rewrite E. cbn [fst snd]. clear E.
  destruct (stages_sane roomId now dt room rnd _ _ _ _ _ _ S E2 E3) as [K2 H3].
  split; cbn [Room.enemies Room.projectiles].
  - eapply sameEnemies_keyed; [exact K2|]. apply stepProjectiles_enemies.
  - apply Forall_forall. intros [k proj1] Hin.
    destruct (stepProjectiles_kept roomId now dt _ _ k proj1 Hin) as (proj & Hp & ->).
    rewrite Forall_forall in H3. exact (H3 _ Hp).
Qed.

Lemma projectilesSane_reachable startRead rnd ins :
  allRooms projectilesSane (rooms (fst (fst (run (initial startRead) rnd ins)))).
Proof.
  apply reachable_allRooms; unfold projectilesSane.
  - intros rnd0. cbn [Room.enemies Room.projectiles]. split; [apply seedEnemies_keyed|constructor].
  - intros room socket playerId name H. exact H.
  - intros room socket p msg H _. exact H.
  - intros roomId room key actor payload t0 t1 H _. exact H.
  - intros roomId room actor payload [K H]. unfold actionAttack.
    destruct (attackTarget room payload) as [[id e]|] eqn:A; [|cbn [fst]; auto].
    apply attackTarget_get in A. destruct A as [_ G].
    cbn [fst Room.enemies Room.projectiles Room.set_enemies]. split; [|exact H].
    eapply sameEnemies_keyed; [exact K|]. now apply sameEnemies_set_hp.
  - intros room socket H. exact H.
  - intros roomId now dt room rnd0 H. now apply tickRoom_projectilesSane.
Qed.

(** X14. In every state the server can reach, every projectile is a default
    fireball: it is stored under its own id, has type ["fireball"], damage
    12 and a lifetime of 2500 ms from its creation, and its target is one
    of the six seeded enemies, which the room still holds under that id -
    so the hit test of step 4 never skips a projectile for lack of a
    target. *)
Theorem projectiles_are_default_fireballs : forall startRead rnd ins,
  Forall (fun kr =>
            Forall (fun kp =>
                      Projectile.projId (snd kp) = fst kp
                      /\ Projectile.type (snd kp) = "fireball"
                      /\ Projectile.damage (snd kp) = 12
                      /\ Projectile.expiresAt (snd kp) = Projectile.createdAt (snd kp) + 2500
                      /\ In (Projectile.targetEnemyId (snd kp)) enemyIds
                      /\ exists e,
                           findEnemy (snd kr) (Projectile.targetEnemyId (snd kp)) = Some e
                           /\ Enemy.enemyId e = Projectile.targetEnemyId (snd kp))
                   (Room.projectiles (snd kr)))
         (rooms (fst (fst (run (initial startRead) rnd ins)))).
Proof.
  intros. eapply Forall_impl; [|exact (projectilesSane_reachable startRead rnd ins)].
  intros [rid room] [K H]. cbn [snd]. eapply Forall_impl; [|exact H].
  intros [k proj] (H1 & H2 & H3 & H4 & H5). cbn [fst snd] in *.
  repeat (split; [assumption|]). unfold findEnemy. now apply enemiesKeyed_resolves.
Qed.

(** ** What a tick sends *)

Lemma finishCast_events roomId now p c room rnd :
  Forall (eventOf roomId) (snd (finishCast roomId now p c room rnd)).
Proof.
  unfold finishCast, emitEvent, eventOf. destruct (String.eqb _ _).
  - destruct (castTarget room c); cbn [snd]; repeat constructor; eexists; reflexivity.
  - cbn [snd]. repeat constructor. eexists; reflexivity.
Qed.

Lemma resolveCasts_events roomId now p cs : forall room rnd,
  Forall (eventOf roomId) (snd (resolveCasts roomId now p cs room rnd)).
Proof.
  induction cs as [|c r IH]; intros room rnd; cbn [resolveCasts]; [constructor|].
  destruct (now <? Cast.finishAt c).
  - specialize (IH room rnd).
    destruct (resolveCasts roomId now p r room rnd) as [[[rem room1] rnd1] out]. exact IH.
  - pose proof (finishCast_events roomId now p c room rnd) as H1.
    destruct (finishCast roomId now p c room rnd) as [[room1 rnd1] out1].
    specialize (IH room1 rnd1).
    destruct (resolveCasts roomId now p r room1 rnd1) as [[[rem room2] rnd2] out2].
    cbn [snd] in *. apply Forall_app. auto.
Qed.

Lemma stepCasts_events roomId now ps : forall room rnd,
  Forall (eventOf roomId) (snd (stepCasts roomId now ps room rnd)).
Proof.
  induction ps as [|[k p] r IH]; intros room rnd; cbn [stepCasts]; [constructor|].
  destruct (Player.casts p) as [|c cs] eqn:Ec.
  - specialize (IH room rnd).
    destruct (stepCasts roomId now r room rnd) as [[[r1 room1] rnd1] out]. exact IH.
  - pose proof (resolveCasts_events roomId now p (c :: cs) room rnd) as H1.
    destruct (resolveCasts roomId now p (c :: cs) room rnd) as [[[rem room1] rnd1] out1].
    specialize (IH room1 rnd1).
    destruct (stepCasts roomId now r room1 rnd1) as [[[r1 room2] rnd2] out2].
    cbn [snd] in *. apply Forall_app. auto.
Qed.

Lemma stepProjectile_events roomId now dt es k proj :
  Forall (eventOf roomId) (snd (stepProjectile roomId now dt es k proj)).
Proof.
  unfold stepProjectile, emitEvent, eventOf.
  destruct (_ <=? now); [cbn [snd]; repeat constructor; eexists; reflexivity|].
  destruct (truthyS _); [|constructor].
  destruct (JsMap.get _ es) as [e|]; [|constructor].
  destruct (withinHitRadius e _); [|constructor].
  cbn [snd]. apply Forall_app. split.
  - repeat constructor; eexists; reflexivity.
  - destruct (_ <=? 0); repeat constructor. eexists; reflexivity.
Qed.

Lemma stepProjectiles_events roomId now dt ps : forall es,
  Forall (eventOf roomId) (snd (stepProjectiles roomId now dt es ps)).
Proof.
  induction ps as [|[k proj] r IH]; intros es; cbn [stepProjectiles]; [constructor|].
  pose proof (stepProjectile_events roomId now dt es k proj) as H1.
  destruct (stepProjectile roomId now dt es k proj) as [[es1 kept] out1].
  specialize (IH es1).
  destruct (stepProjectiles roomId now dt es1 r) as [[es2 r1] out2].
  cbn [snd] in *. apply Forall_app. auto.
Qed.

(** One room's share of a tick: its events, then its snapshot. *)
Lemma tickRoom_sends roomId now dt room rnd :
  exists events,
    snd (tickRoom roomId now dt room rnd)
    = events ++ [Snapshot roomId (snapshot now (fst (fst (tickRoom roomId now dt room rnd))))]
    /\ Forall (eventOf roomId) events.
Proof.
  destruct (tickRoom_stages roomId now dt room rnd) as (es2 & rnd2 & ps3 & room3 & rnd3 & out3
                                                        & E2 & E3 & F3 & E).
  cbv zeta in E. rewrite E. cbn [fst snd].
  exists (out3 ++ snd (stepProjectiles roomId now dt es2 (Room.projectiles room3))).
  split; [now rewrite <- app_assoc|]. apply Forall_app. split.
  - pose proof (stepCasts_events roomId now
                  (Room.players (Room.set_players room (movePlayers dt (Room.players room))))
                  (Room.set_enemies (Room.set_players room (movePlayers dt (Room.players room))) es2)
                  rnd2) as H3.
    now rewrite E3 in H3.
  - apply stepProjectiles_events.
Qed.

Lemma eventOf_not_snapshot roomId events :
  Forall (eventOf roomId) events -> filter isSnapshot events = [].
Proof.
  induction 1 as [|o r [body ->] _ IH]; [reflexivity|]. cbn [filter isSnapshot]. exact IH.
Qed.

Lemma tickRooms_snapshots now dt rs : forall rnd,
  filter isSnapshot (snd (tickRooms now dt rs rnd))
  = map (fun kr => Snapshot (fst kr) (snapshot now (snd kr))) (fst (fst (tickRooms now dt rs rnd))).
Proof.
  induction rs as [|[rid room] r IH]; intros rnd; cbn [tickRooms]; [reflexivity|].
  destruct (tickRoom_sends rid now dt room rnd) as (events & E & Hev).
  destruct (tickRoom rid now dt room rnd) as [[room1 rnd1] out1].
  specialize (IH rnd1). destruct (tickRooms now dt r rnd1) as [[r1 rnd2] out2].
  cbn [fst snd] in *. rewrite E, !filter_app, (eventOf_not_snapshot _ _ Hev), IH.
  reflexivity.
Qed.

Lemma tickRooms_addressed now dt rs : forall rnd,
  Forall (fun o => match o with
                   | Joined _ _ => False
                   | Event rid _ | Snapshot rid _ => In rid (JsMap.keys rs)
                   end)
         (snd (tickRooms now dt rs rnd)).
Proof.
  induction rs as [|[rid room] r IH]; intros rnd; cbn [tickRooms]; [constructor|].
  destruct (tickRoom_sends rid now dt room rnd) as (events & E & Hev).
  destruct (tickRoom rid now dt room rnd) as [[room1 rnd1] out1].
  specialize (IH rnd1). destruct (tickRooms now dt r rnd1) as [[r1 rnd2] out2].
  cbn [fst snd JsMap.keys map] in *. rewrite E. apply Forall_app. split.
  - apply Forall_app. split.
    + eapply Forall_impl; [|exact Hev]. intros o [body ->]. now left.
    + constructor; [now left|constructor].
  - eapply Forall_impl; [|exact IH]. intros [s rid0|rid0 b|rid0 s]; cbn; auto.
Qed.

(** X15. Every tick sends each room of the registry exactly one snapshot,
    after the events the tick raises for that room and before anything of
    the next room; the snapshot is stamped with the tick's clock reading and
    shows the room as the tick leaves it. A tick sends nothing else but
    events, all of them to rooms of the registry, and it keeps the
    registry's room ids and their order. *)
Theorem tick_sends_one_snapshot_per_room : forall now w rnd,
  let w1 := fst (fst (tick now w rnd)) in
  filter isSnapshot (snd (tick now w rnd))
  = map (fun kr => Snapshot (fst kr) (snapshot now (snd kr))) (rooms w1)
  /\ JsMap.keys (rooms w1) = JsMap.keys (rooms w)
  /\ Forall (fun o => match o with
                      | Joined _ _ => False
                      | Event rid _ | Snapshot rid _ => In rid (JsMap.keys (rooms w))
                      end)
            (snd (tick now w rnd))
  /\ (forall roomId dt room rnd0,
        exists events,
          snd (tickRoom roomId now dt room rnd0)
          = events ++ [Snapshot roomId
                         (snapshot now (fst (fst (tickRoom roomId now dt room rnd0))))]
          /\ Forall (fun o => exists body, o = Event roomId body) events
          /\ SnapshotMsg.t_ (snapshot now (fst (fst (tickRoom roomId now dt room rnd0)))) = now).
Proof.
  intros now w rnd w1. subst w1. unfold tick.
  pose proof (tickRooms_snapshots now (tickDelta now (lastTick w)) (rooms w) rnd) as H1.
  pose proof (tickRooms_keys now (tickDelta now (lastTick w)) (rooms w) rnd) as H2.
  pose proof (tickRooms_addressed now (tickDelta now (lastTick w)) (rooms w) rnd) as H3.
  destruct (tickRooms now (tickDelta now (lastTick w)) (rooms w) rnd) as [[rs1 rnd1] out].
  cbn [fst snd rooms] in *. split; [exact H1|]. split; [exact H2|]. split; [exact H3|].
  intros roomId dt room rnd0.
  destruct (tickRoom_sends roomId now dt room rnd0) as (events & E & Hev).
  exists events. split; [exact E|]. split; [exact Hev|reflexivity].
Qed.

(** ** Spells other than the fireball *)

(** X16. A due cast of any spell other than ["fireball"] only finishes: step
    3 emits its [cast_finish] and drops it, and does nothing else - no
    projectile, no [spell_effect], no random number drawn. When none of a
    player's due casts is a fireball, step 3 leaves the room as it is. *)
Theorem other_spells_only_finish : forall roomId now p cs room rnd,
  Forall (fun c => Cast.finishAt c <= now -> Cast.spellId c <> "fireball") cs ->
  resolveCasts roomId now p cs room rnd
  = (filter (fun c => now <? Cast.finishAt c) cs, room, rnd,
     map (fun c => Event roomId (cast_finish (Player.playerId p) (Cast.spellId c)
                                             (Cast.targetEnemyId c)))
         (filter (fun c => Cast.finishAt c <=? now) cs)).
Proof.
  intros roomId now p cs room rnd H.
  induction H as [|c r Hc _ IH]; cbn [resolveCasts filter map]; [reflexivity|].
  rewrite (Z.leb_antisym now (Cast.finishAt c)).
  destruct (now <? Cast.finishAt c) eqn:L; cbn [negb].
  - now rewrite IH.
  - apply Z.ltb_ge in L. specialize (Hc L). apply String.eqb_neq in Hc.
    unfold finishCast. rewrite Hc, IH. reflexivity.
Qed.

(** ** The enemy AI *)

(** X17. Step 2 for one enemy. Its target is the nearest player: the one
    with the least squared distance, the first inserted among equals,
    players at a distance that is [NaN] or infinite left out. Without a
    target the enemy is idle and at rest. With a target less than
    [enemyChaseRange] = 12 away it chases: its velocity is the unit vector
    towards the target - zero when the two are less than [1e-6] apart - so
    that it moves away from the target along neither axis (the vector
    has unit length to within [2^-52] for the offsets with integer
    components of size up to 100, as computation shows). Otherwise it
    wanders. Only a wandering enemy draws random numbers, the enemy then
    moves by its velocity times [enemySpeed] = 2.2 times [dt], and hit
    points play no part: an enemy with [hp = 0] is stepped exactly as a
    live one. *)
Theorem enemy_ai_decision : forall now dt room rnd e,
  let e1 := fst (stepEnemy now dt room rnd e) in
  let rnd1 := snd (stepEnemy now dt room rnd e) in
  (exists nearest,
     nearestOf (dist2 (Enemy.x e) (Enemy.z e)) (JsMap.values (Room.players room)) nearest
     /\ match nearest with
        | None =>
            Enemy.state e1 = idle /\ Enemy.vx e1 = 0%float /\ Enemy.vz e1 = 0%float
            /\ Enemy.rotY e1 = Enemy.rotY e /\ rnd1 = rnd
        | Some target =>
            let dx := (Player.x target - Enemy.x e)%float in
            let dz := (Player.z target - Enemy.z e)%float in
            Enemy.rotY e1 = Math_atan2 (Enemy.vx e1) (Enemy.vz e1)
            /\ if (PrimFloat.sqrt (dx * dx + dz * dz) <? 12)%float
               then Enemy.state e1 = chase
                    /\ (Enemy.vx e1, Enemy.vz e1) = unitVector dx dz
                    /\ (PrimFloat.is_finite dx = true -> PrimFloat.is_finite dz = true ->
                        alongside dx (Enemy.vx e1) /\ alongside dz (Enemy.vz e1))
                    /\ rnd1 = rnd
               else Enemy.state e1 = wander
        end)
  /\ Enemy.x e1 = (Enemy.x e + Enemy.vx e1 * 2.2 * dt)%float
  /\ Enemy.z e1 = (Enemy.z e + Enemy.vz e1 * 2.2 * dt)%float
  /\ (forall h,
        stepEnemy now dt room rnd (Enemy.set_hp e h) = (Enemy.set_hp e1 h, rnd1))
  /\ forall a b,
       -100 <= a <= 100 -> -100 <= b <= 100 -> (a, b) <> (0, 0) ->
       hasLength (unitVector (Z2float a) (Z2float b)) 1 0x1p-52 = true.
Proof.
  intros now dt room rnd e. cbv zeta.
  assert (Unit : forall a b,
            -100 <= a <= 100 -> -100 <= b <= 100 -> (a, b) <> (0, 0) ->
            hasLength (unitVector (Z2float a) (Z2float b)) 1 0x1p-52 = true).
  { intros a b Ha Hb N. exact (proj1 (unitVector_unit a b Ha Hb N)). }
  refine ((fun H => conj (proj1 H) (conj (proj1 (proj2 H))
                      (conj (proj1 (proj2 (proj2 H))) (conj (proj2 (proj2 (proj2 H))) Unit)))) _).
  split.
  - exists (pickNearestPlayer room (Enemy.x e) (Enemy.z e)). split.
    { unfold pickNearestPlayer.
      exact (pickNearestLoop_nearest _ _ _ [] None infinity (Forall_nil _) eq_refl). }
    unfold stepEnemy.
    destruct (pickNearestPlayer room (Enemy.x e) (Enemy.z e)) as [target|].
    + unfold CONFIG.enemyChaseRange.
      destruct (PrimFloat.ltb _ 12) eqn:L.
      * cbn [fst snd Enemy.rotY Enemy.vx Enemy.vz Enemy.state].
        split; [reflexivity|]. split; [reflexivity|].
        assert (Ev : norm2 (Player.x target - Enemy.x e) (Player.z target - Enemy.z e)
                     = unitVector (Player.x target - Enemy.x e) (Player.z target - Enemy.z e))
          by reflexivity.
        split; [rewrite <- Ev; now destruct (norm2 _ _)|].
        split; [|reflexivity]. intros Fx Fz. rewrite Ev. now apply unitVector_alongside.
      * destruct (_ || _); cbn; split; reflexivity.
    + cbn. repeat split; reflexivity.
  - unfold stepEnemy.
    cbn [Enemy.set_hp Enemy.x Enemy.z Enemy.enemyId Enemy.rotY Enemy.nextWanderAt Enemy.hp
         Enemy.maxHp Enemy.vx Enemy.vz Enemy.state].
    destruct (pickNearestPlayer room (Enemy.x e) (Enemy.z e)) as [target|].
    + destruct (PrimFloat.ltb _ CONFIG.enemyChaseRange).
      * cbn. repeat split; reflexivity.
      * destruct (_ || _); cbn; repeat split; reflexivity.
    + cbn. repeat split; reflexivity.
Qed.

(** ** Runs and what they send *)

Lemma run_app a : forall w rnd b,
  run w rnd (a ++ b)
  = (fst (fst (run (fst (fst (run w rnd a))) (snd (fst (run w rnd a))) b)),
     snd (fst (run (fst (fst (run w rnd a))) (snd (fst (run w rnd a))) b)),
     snd (run w rnd a) ++ snd (run (fst (fst (run w rnd a))) (snd (fst (run w rnd a))) b)).
Proof.
  induction a as [|i r IH]; intros w rnd b; cbn [app run].
  - cbn [fst snd]. now destruct (run w rnd b) as [[w2 rnd2] out2].
  - destruct (step w rnd i) as [[w1 rnd1] out1]. rewrite IH.
    destruct (run w1 rnd1 r) as [[w2 rnd2] out2]. cbn [fst snd].
    now rewrite app_assoc.
Qed.

Lemma run_one w rnd i : run w rnd [i] = (fst (fst (step w rnd i)), snd (fst (step w rnd i)),
                                         snd (step w rnd i)).
Proof.
  cbn [run]. destruct (step w rnd i) as [[w1 rnd1] out1]. cbn [fst snd].
  now rewrite app_nil_r.
Qed.

(** What every step from a reachable state sends, every run sends. *)
Lemma run_outputs (Q : Output -> Prop) :
  (forall startRead rnd0 ins0 i,
     Forall Q (snd (step (fst (fst (run (initial startRead) rnd0 ins0)))
                         (snd (fst (run (initial startRead) rnd0 ins0))) i))) ->
  forall startRead rnd ins, Forall Q (snd (run (initial startRead) rnd ins)).
Proof.
  intros HQ startRead rnd ins. induction ins as [|i r IH] using rev_ind; [constructor|].
  rewrite run_app. cbn [snd]. apply Forall_app. split; [exact IH|].
  rewrite run_one. cbn [snd]. apply HQ.
Qed.

Lemma action_events socket msg t0 t1 w :
  Forall (fun o => exists roomId, eventOf roomId o) (snd (action socket msg t0 t1 w)).
Proof.
  unfold action, eventOf.
  destruct (lookupRoom _ _) as [[rid room]|]; [|constructor].
  destruct (resolveActor _ _ _) as [[key actor]|]; [|constructor].
  destruct (String.eqb _ "cast").
  - cbn [snd actionCast]. repeat constructor. eexists; eexists; reflexivity.
  - destruct (String.eqb _ "attack"); [|constructor]. unfold actionAttack.
    destruct (attackTarget _ _) as [[id e]|]; [|constructor]. cbn [snd].
    constructor; [eexists; eexists; reflexivity|].
    destruct (_ <=? 0); repeat constructor. eexists; eexists; reflexivity.
Qed.

Lemma handlers_send_no_snapshot w rnd i :
  (forall now, i <> InTick now) -> filter isSnapshot (snd (step w rnd i)) = [].
Proof.
  intros N. destruct i as [socket msg|socket msg|socket msg t0 t1|socket|now]; cbn [step].
  - unfold joinRoom. destruct (JoinRoomMsg.roomId msg) as [rid|]; [|reflexivity].
    destruct (truthyS rid); [|reflexivity].
    destruct (getRoom _ _ _) as [[rooms1 room] rnd1]. reflexivity.
  - reflexivity.
  - pose proof (action_events socket msg t0 t1 w) as H.
    destruct (action socket msg t0 t1 w) as [w1 out]. cbn [snd] in *.
    induction H as [|o r [rid [body ->]] _ IH]; [reflexivity|exact IH].
  - unfold disconnect. destruct (find _ _) as [[rid room]|]; [|reflexivity].
    destruct (JsMap.get socket _); reflexivity.
  - now elim (N now).
Qed.

(** ** What snapshots show *)

Lemma envDefault_reachable startRead rnd ins :
  allRooms envDefault (rooms (fst (fst (run (initial startRead) rnd ins)))).
Proof.
  apply reachable_allRooms; unfold envDefault.
  - reflexivity.
  - intros room socket playerId name H. exact H.
  - intros room socket p msg H _. exact H.
  - intros roomId room key actor payload t0 t1 H _. exact H.
  - intros roomId room actor payload H. unfold actionAttack.
    destruct (attackTarget room payload) as [[id e]|]; exact H.
  - intros room socket H. exact H.
  - intros roomId now dt room rnd0 H.
    destruct (tickRoom_stages roomId now dt room rnd0) as (es2 & rnd2 & ps3 & room3 & rnd3 & out3
                                                           & E2 & E3 & F3 & E).
    cbv zeta in E. rewrite E. cbn [fst snd Room.env].
    pose proof (stepCasts_frame roomId now
                  (Room.players (Room.set_players room (movePlayers dt (Room.players room))))
                  (Room.set_enemies (Room.set_players room (movePlayers dt (Room.players room))) es2)
                  rnd2) as F.
    rewrite E3 in F. cbn [fst snd] in F. destruct F as (_ & _ & Fv). now rewrite Fv.
Qed.

Lemma snapshot_sound now room :
  occupied room -> playersVital room -> playersSane room -> enemiesSound room ->
  projectilesBounded room -> projectilesSane room -> envDefault room ->
  snapshotSound (snapshot now room).
Proof.
  intros Ho Hv Hs (_ & He & _) [Hb _] [[Ke Hk] Hp] Henv. unfold snapshotSound, snapshot.
  cbn [SnapshotMsg.players SnapshotMsg.enemies SnapshotMsg.projectiles SnapshotMsg.env].
  unfold JsMap.values. split; [|split; [|split; [|split; [|split; [|split]]]]].
  - unfold occupied in Ho. destruct (Room.players room); [contradiction|discriminate].
  - rewrite !Forall_map. unfold playersVital in Hv. unfold playersSane in Hs.
    apply Forall_forall. intros kp Hin. rewrite Forall_forall in Hv, Hs.
    destruct (Hv _ Hin) as (H1 & H2 & H3 & H4). destruct (Hs _ Hin) as (_ & H5 & _).
    cbn [PlayerView.hp PlayerView.maxHp PlayerView.mana PlayerView.maxMana PlayerView.name].
    auto.
  - rewrite !map_map. cbn [EnemyView.enemyId]. rewrite <- Ke. unfold JsMap.keys.
    apply map_ext_Forall. exact Hk.
  - rewrite !Forall_map. eapply Forall_impl; [|exact He].
    intros [k e] H. exact H.
  - rewrite !length_map. exact Hb.
  - rewrite !Forall_map. eapply Forall_impl; [|exact Hp]. intros [k pr] (_ & H & _). exact H.
  - exact Henv.
Qed.

Lemma tick_snapshot_rooms now w rnd roomId s :
  In (Snapshot roomId s) (snd (tick now w rnd)) ->
  exists room1, In (roomId, room1) (rooms (fst (fst (tick now w rnd)))) /\ s = snapshot now room1.
Proof.
  intros Hin. unfold tick in *.
  pose proof (tickRooms_snapshots now (tickDelta now (lastTick w)) (rooms w) rnd) as H1.
  destruct (tickRooms now (tickDelta now (lastTick w)) (rooms w) rnd) as [[rs1 rnd1] out].
  cbn [fst snd rooms] in *.
  assert (Hf : In (Snapshot roomId s) (filter isSnapshot out)) by (apply filter_In; auto).
  rewrite H1 in Hf. apply in_map_iff in Hf. destruct Hf as ([rid room1] & E & Hr).
  cbn [fst snd] in E. injection E as -> <-. now exists room1.
Qed.

(** X18. Whatever the clients send, every snapshot the server ever emits
    shows a room that has at least one player; every player in it has the
    vitals 100/100 and 50/50 and a name; its enemies are the six seeded
    ones, in order, each with [0 <= hp <= maxHp = 50]; it lists at most
    [maxProjectilesPerRoom + 1] projectiles, all fireballs; and its
    environment is the one every room is created with. *)
Theorem snapshots_show_sound_rooms : forall startRead rnd ins roomId s,
  In (Snapshot roomId s) (snd (run (initial startRead) rnd ins)) ->
  SnapshotMsg.players s <> []
  /\ Forall (fun v => PlayerView.hp v = 100 /\ PlayerView.maxHp v = 100
                      /\ PlayerView.mana v = 50 /\ PlayerView.maxMana v = 50
                      /\ PlayerView.name v <> "")
            (SnapshotMsg.players s)
  /\ map EnemyView.enemyId (SnapshotMsg.enemies s) = enemyIds
  /\ Forall (fun v => 0 <= EnemyView.hp v <= EnemyView.maxHp v /\ EnemyView.maxHp v = 50)
            (SnapshotMsg.enemies s)
  /\ (List.length (SnapshotMsg.projectiles s) <= S CONFIG.maxProjectilesPerRoom)%nat
  /\ Forall (fun v => ProjectileView.type v = "fireball") (SnapshotMsg.projectiles s)
  /\ SnapshotMsg.env s = Env.mk 12.0%float "clear".
Proof.
  intros startRead rnd ins roomId s Hin.
  pose proof (run_outputs (fun o => match o with
                                    | Snapshot _ s0 => snapshotSound s0
                                    | _ => True
                                    end)) as H.
  assert (HQ : forall startRead rnd0 ins0 i,
     Forall (fun o => match o with
                      | Snapshot _ s0 => snapshotSound s0
                      | _ => True
                      end)
            (snd (step (fst (fst (run (initial startRead) rnd0 ins0)))
                       (snd (fst (run (initial startRead) rnd0 ins0))) i))).
  { clear. intros startRead rnd0 ins0 i. apply Forall_forall. intros [s0 r0|r0 b|r0 s0] Ho; try exact I.
    destruct i as [socket msg|socket msg|socket msg t0 t1|socket|now].
    1-4: (match goal with |- _ => 
           assert (Hf : In (Snapshot r0 s0) (filter isSnapshot
                     (snd (step (fst (fst (run (initial startRead) rnd0 ins0)))
                                (snd (fst (run (initial startRead) rnd0 ins0))) _))))
             by (apply filter_In; split; [exact Ho|reflexivity]) end;
          rewrite handlers_send_no_snapshot in Hf by discriminate; contradiction).
    cbn [step] in Ho. apply tick_snapshot_rooms in Ho. destruct Ho as (room1 & Hr & ->).
    assert (Ew : fst (fst (tick now (fst (fst (run (initial startRead) rnd0 ins0)))
                                (snd (fst (run (initial startRead) rnd0 ins0)))))
                 = fst (fst (run (initial startRead) rnd0 (ins0 ++ [InTick now])))).
    { rewrite run_app, run_one. reflexivity. }
    rewrite Ew in Hr.
    pose proof (occupied_reachable startRead rnd0 (ins0 ++ [InTick now])) as R1.
    pose proof (playersVital_reachable startRead rnd0 (ins0 ++ [InTick now])) as R2.
    pose proof (playersSane_reachable startRead rnd0 (ins0 ++ [InTick now])) as R3.
    pose proof (enemiesSound_reachable startRead rnd0 (ins0 ++ [InTick now])) as R4.
    pose proof (projectilesBounded_reachable startRead rnd0 (ins0 ++ [InTick now])) as R5.
    pose proof (projectilesSane_reachable startRead rnd0 (ins0 ++ [InTick now])) as R6.
    pose proof (envDefault_reachable startRead rnd0 (ins0 ++ [InTick now])) as R7.
    unfold allRooms in *. rewrite Forall_forall in R1, R2, R3, R4, R5, R6, R7.
    apply snapshot_sound.
    - exact (R1 _ Hr). - exact (R2 _ Hr). - exact (R3 _ Hr). - exact (R4 _ Hr).
    - exact (R5 _ Hr). - exact (R6 _ Hr). - exact (R7 _ Hr). }
  specialize (H HQ startRead rnd ins). rewrite Forall_forall in H.
  exact (H _ Hin).
Qed.

(** ** Combat events *)

Lemma stepProjectile_combat roomId now dt es k proj :
  enemiesKeyed es -> Forall (fun ke => enemyVitals (snd ke)) es -> fireballSane (k, proj) ->
  Forall combatSound (snd (stepProjectile roomId now dt es k proj)).
Proof.
  intros K Hv (_ & _ & Hd & _ & Ht). cbn [fst snd] in *.
  unfold stepProjectile, emitEvent.
  destruct (_ <=? now); [cbn [snd]; repeat constructor|].
  destruct (truthyS _); [|constructor].
  change (Projectile.targetEnemyId (moveProjectile dt proj)) with (Projectile.targetEnemyId proj).
  change (Projectile.damage (moveProjectile dt proj)) with (Projectile.damage proj).
  destruct (JsMap.get _ es) as [e|] eqn:G; [|constructor].
  destruct (withinHitRadius e _); [|constructor].
  destruct (enemiesKeyed_get _ _ _ K G) as [Hin Hid].
  rewrite Forall_forall in Hv. pose proof (Hv _ (JsMap_get_In _ _ _ G)) as [Hhp Hmax].
  cbn [fst snd] in Hhp, Hmax. unfold CONFIG.defaultFireball.damage in Hd.
  cbn [snd Enemy.set_hp Enemy.enemyId Enemy.hp Enemy.maxHp]. rewrite Hid, Hd.
  apply Forall_app. split.
  - constructor; [exact (conj eq_refl Hin)|]. constructor; [|constructor; [exact I|constructor]].
    unfold combatSound. split; [reflexivity|]. split; [exact Hin|].
    split; [now right|]. lia.
  - destruct (_ <=? 0); [constructor; [exact Hin|constructor]|constructor].
Qed.

Lemma stepProjectiles_combat roomId now dt ps : forall es,
  enemiesKeyed es -> Forall (fun ke => enemyVitals (snd ke)) es -> Forall fireballSane ps ->
  Forall combatSound (snd (stepProjectiles roomId now dt es ps)).
Proof.
  induction ps as [|[k proj] r IH]; intros es K Hv Hp; cbn [stepProjectiles]; [constructor|].
  inversion Hp as [|? ? Hp1 Hp2]; subst.
  pose proof (stepProjectile_combat roomId now dt es k proj K Hv Hp1) as H1.
  pose proof (stepProjectile_enemies roomId now dt es k proj) as S1.
  assert (Hd : 0 <= Projectile.damage proj).
  { destruct Hp1 as (_ & _ & Hd & _). cbn [snd] in Hd. rewrite Hd.
    unfold CONFIG.defaultFireball.damage. lia. }
  pose proof (stepProjectile_vitals roomId now dt es k proj Hd Hv) as V1.
  destruct (stepProjectile roomId now dt es k proj) as [[es1 kept] out1].
  cbn [fst snd] in *.
  specialize (IH es1 (sameEnemies_keyed _ _ K S1) V1 Hp2).
  destruct (stepProjectiles roomId now dt es1 r) as [[es2 r1] out2].
  cbn [snd] in *. apply Forall_app. auto.
Qed.

Lemma eventOf_casts_combat roomId now ps room rnd :
  Forall combatSound (snd (stepCasts roomId now ps room rnd)).
Proof.
  revert room rnd. induction ps as [|[k p] r IH]; intros room rnd; cbn [stepCasts];
    [constructor|].
  assert (Hf : forall c room0 rnd0,
            Forall combatSound (snd (finishCast roomId now p c room0 rnd0))).
  { intros c room0 rnd0. unfold finishCast, emitEvent. destruct (String.eqb _ _).
    - destruct (castTarget room0 c); cbn [snd]; repeat constructor.
    - cbn [snd]. repeat constructor. }
  assert (Hr : forall cs room0 rnd0,
            Forall combatSound (snd (resolveCasts roomId now p cs room0 rnd0))).
  { induction cs as [|c cs IHc]; intros room0 rnd0; cbn [resolveCasts]; [constructor|].
    destruct (now <? Cast.finishAt c).
    - specialize (IHc room0 rnd0).
      destruct (resolveCasts roomId now p cs room0 rnd0) as [[[rem room1] rnd1] out]. exact IHc.
    - pose proof (Hf c room0 rnd0) as H1.
      destruct (finishCast roomId now p c room0 rnd0) as [[room1 rnd1] out1].
      specialize (IHc room1 rnd1).
      destruct (resolveCasts roomId now p cs room1 rnd1) as [[[rem room2] rnd2] out2].
      cbn [snd] in *. apply Forall_app. auto. }
  destruct (Player.casts p) as [|c cs] eqn:Ec.
  - specialize (IH room rnd).
    destruct (stepCasts roomId now r room rnd) as [[[r1 room1] rnd1] out]. exact IH.
  - pose proof (Hr (c :: cs) room rnd) as H1.
    destruct (resolveCasts roomId now p (c :: cs) room rnd) as [[[rem room1] rnd1] out1].
    specialize (IH room1 rnd1).
    destruct (stepCasts roomId now r room1 rnd1) as [[[r1 room2] rnd2] out2].
    cbn [snd] in *. apply Forall_app. auto.
Qed.

Lemma tickRoom_combat roomId now dt room rnd :
  enemiesSound room -> projectilesSane room ->
  Forall combatSound (snd (tickRoom roomId now dt room rnd)).
Proof.
  intros (Ke & Hv & _) S.
  destruct (tickRoom_stages roomId now dt room rnd) as (es2 & rnd2 & ps3 & room3 & rnd3 & out3
                                                        & E2 & E3 & F3 & E).
  cbv zeta in E. rewrite E. cbn [fst snd]. clear E.
  destruct (stages_sane roomId now dt room rnd _ _ _ _ _ _ S E2 E3) as [K2 H3].
  apply Forall_app. split; [|apply Forall_app; split].
  - pose proof (eventOf_casts_combat roomId now
                  (Room.players (Room.set_players room (movePlayers dt (Room.players room))))
                  (Room.set_enemies (Room.set_players room (movePlayers dt (Room.players room))) es2)
                  rnd2) as Hc.
    now rewrite E3 in Hc.
  - apply stepProjectiles_combat; [exact K2| |exact H3].
    pose proof (stepEnemies_Forall enemyVitals now dt
                  (Room.set_players room (movePlayers dt (Room.players room)))
                  (Room.enemies room)
                  (fun e e1 (Sv : sameVitals e e1) (H : enemyVitals e) =>
                     ltac:(unfold sameVitals, enemyVitals in *; intuition congruence)) rnd) as V2.
    rewrite E2 in V2. cbn [fst] in V2. unfold JsMap.values in V2.
    rewrite !Forall_map in V2. apply V2. exact Hv.
  - repeat constructor.
Qed.

Lemma tickRooms_combat now dt rs : forall rnd,
  allRooms enemiesSound rs -> allRooms projectilesSane rs ->
  Forall combatSound (snd (tickRooms now dt rs rnd)).
Proof.
  induction rs as [|[rid room] r IH]; intros rnd H1 H2; cbn [tickRooms]; [constructor|].
  inversion H1; inversion H2; subst.
  pose proof (tickRoom_combat rid now dt room rnd) as Hc.
  destruct (tickRoom rid now dt room rnd) as [[room1 rnd1] out1].
  specialize (IH rnd1). destruct (tickRooms now dt r rnd1) as [[r1 rnd2] out2].
  cbn [fst snd] in *. apply Forall_app. auto.
Qed.

Lemma action_combat socket msg t0 t1 w :
  allRooms enemiesSound (rooms w) -> allRooms projectilesSane (rooms w) ->
  Forall combatSound (snd (action socket msg t0 t1 w)).
Proof.
  intros H1 H2. unfold action.
  destruct (lookupRoom _ _) as [[rid room]|] eqn:L; [|constructor].
  apply lookupRoom_get in L. destruct L as [_ G].
  destruct (resolveActor _ _ _) as [[key actor]|]; [|constructor].
  destruct (String.eqb _ "cast"); [cbn [snd actionCast]; repeat constructor|].
  destruct (String.eqb _ "attack"); [|constructor]. unfold actionAttack.
  destruct (attackTarget _ _) as [[id e]|] eqn:A; [|constructor].
  apply attackTarget_get in A. destruct A as [_ Ge].
  pose proof (allRooms_get _ _ _ _ H1 G) as (_ & Hv & _).
  pose proof (allRooms_get _ _ _ _ H2 G) as [K _].
  destruct (enemiesKeyed_get _ _ _ K Ge) as [Hin Hid].
  rewrite Forall_forall in Hv. pose proof (Hv _ (JsMap_get_In _ _ _ Ge)) as [Hhp Hmax].
  cbn [fst snd] in Hhp, Hmax.
  cbn [snd emitEvent Enemy.set_hp Enemy.enemyId Enemy.hp Enemy.maxHp]. rewrite Hid.
  constructor.
  - unfold combatSound. split; [reflexivity|]. split; [exact Hin|].
    split; [now left|]. lia.
  - destruct (_ <=? 0); [constructor; [exact Hin|constructor]|constructor].
Qed.

(** X19. Whatever the clients send, every [hit], [damage] and [enemy_death]
    event the server ever emits names one of the six seeded enemies; a
    [damage] event carries the amount 6 of an attack or the amount 12 of a
    fireball, and reports hit points with [0 <= hp <= maxHp = 50]. *)
Theorem combat_events_are_sound : forall startRead rnd ins,
  Forall (fun o =>
            match o with
            | Event _ (hit _ _ targetType targetId) =>
                targetType = "enemy" /\ In targetId enemyIds
            | Event _ (damage _ targetType targetId amount hp maxHp) =>
                targetType = "enemy" /\ In targetId enemyIds /\ (amount = 6 \/ amount = 12)
                /\ 0 <= hp <= maxHp /\ maxHp = 50
            | Event _ (enemy_death enemyId) => In enemyId enemyIds
            | _ => True
            end)
         (snd (run (initial startRead) rnd ins)).
Proof.
  intros startRead rnd ins. apply (run_outputs combatSound). clear.
  intros startRead rnd0 ins0 i.
  pose proof (enemiesSound_reachable startRead rnd0 ins0) as H1.
  pose proof (projectilesSane_reachable startRead rnd0 ins0) as H2.
  destruct i as [socket msg|socket msg|socket msg t0 t1|socket|now]; cbn [step].
  - unfold joinRoom. destruct (JoinRoomMsg.roomId msg) as [rid|]; [|constructor].
    destruct (truthyS rid); [|constructor].
    destruct (getRoom _ _ _) as [[rooms1 room] rnd1]. cbn [snd]. repeat constructor.
  - constructor.
  - pose proof (action_combat socket msg t0 t1 _ H1 H2) as Ha.
    destruct (action socket msg t0 t1 _) as [w1 out]. exact Ha.
  - unfold disconnect. destruct (find _ _) as [[rid room]|]; [|constructor].
    destruct (JsMap.get socket _); cbn [snd]; repeat constructor.
  - unfold tick.
    pose proof (tickRooms_combat now (tickDelta now (lastTick (fst (fst (run (initial startRead) rnd0 ins0)))))
                  _ (snd (fst (run (initial startRead) rnd0 ins0))) H1 H2) as Ht.
    destruct (tickRooms _ _ _ _) as [[rs1 rnd1] out]. exact Ht.
Qed.

(** ** No healing *)

Lemma notHealed_refl es : notHealed es es.
Proof. intros id e G. exists e. split; [exact G|]. split; [lia|]. split; [auto|reflexivity]. Qed.

Lemma notHealed_trans es es1 es2 : notHealed es es1 -> notHealed es1 es2 -> notHealed es es2.
Proof.
  intros H1 H2 id e G. destruct (H1 _ _ G) as (e1 & G1 & L1 & P1 & M1).
  destruct (H2 _ _ G1) as (e2 & G2 & L2 & P2 & M2).
  exists e2. split; [exact G2|]. split; [lia|]. split; [auto|congruence].
Qed.

Lemma notHealed_set_hp id e h es :
  JsMap.get id es = Some e -> h <= Enemy.hp e -> 0 <= h ->
  notHealed es (JsMap.set id (Enemy.set_hp e h) es).
Proof.
  intros G Hh H0 id' e' G'. destruct (string_dec id' id) as [->|N].
  - rewrite JsMap_get_set_same. rewrite G in G'. injection G' as <-.
    eexists. split; [reflexivity|]. cbn [Enemy.set_hp Enemy.hp Enemy.maxHp]. auto.
  - rewrite JsMap_get_set_other by assumption. exists e'.
    split; [exact G'|]. split; [lia|]. auto.
Qed.

Lemma stepEnemies_notHealed now dt room es : forall rnd,
  notHealed es (fst (stepEnemies now dt room rnd es)).
Proof.
  induction es as [|[k e] r IH]; intros rnd; cbn [stepEnemies]; [apply notHealed_refl|].
  pose proof (stepEnemy_vitals now dt room rnd e) as (_ & Hhp & Hmax).
  destruct (stepEnemy now dt room rnd e) as [e1 rnd1].
  specialize (IH rnd1). destruct (stepEnemies now dt room rnd1 r) as [r1 rnd2].
  cbn [fst] in *. intros id e0. cbn [JsMap.get]. destruct (String.eqb k id).
  - intros [= <-]. exists e1. split; [reflexivity|]. split; [lia|]. split; [lia|exact Hmax].
  - apply IH.
Qed.

Lemma stepProjectile_notHealed roomId now dt es k proj :
  0 <= Projectile.damage proj -> Forall (fun ke => enemyVitals (snd ke)) es ->
  notHealed es (fst (fst (stepProjectile roomId now dt es k proj))).
Proof.
  intros Hd Hv. unfold stepProjectile. destruct (_ <=? now); [apply notHealed_refl|].
  destruct (truthyS _); [|apply notHealed_refl].
  destruct (JsMap.get _ es) as [e|] eqn:G; [|apply notHealed_refl].
  destruct (withinHitRadius e _); [|apply notHealed_refl].
  cbn [fst]. rewrite Forall_forall in Hv.
  pose proof (Hv _ (JsMap_get_In _ _ _ G)) as [Hhp _]. cbn [snd] in Hhp.
  change (Projectile.damage (moveProjectile dt proj)) with (Projectile.damage proj).
  apply notHealed_set_hp; [exact G|lia|lia].
Qed.

Lemma stepProjectiles_notHealed roomId now dt ps : forall es,
  Forall (fun kp => 0 <= Projectile.damage (snd kp)) ps ->
  Forall (fun ke => enemyVitals (snd ke)) es ->
  notHealed es (fst (fst (stepProjectiles roomId now dt es ps))).
Proof.
  induction ps as [|[k proj] r IH]; intros es Hd Hv; cbn [stepProjectiles];
    [apply notHealed_refl|].
  inversion Hd as [|? ? Hd1 Hd2]; subst. cbn [snd] in Hd1.
  pose proof (stepProjectile_notHealed roomId now dt es k proj Hd1 Hv) as H1.
  pose proof (stepProjectile_vitals roomId now dt es k proj Hd1 Hv) as V1.
  destruct (stepProjectile roomId now dt es k proj) as [[es1 kept] out1].
  cbn [fst] in *. specialize (IH es1 Hd2 V1).
  destruct (stepProjectiles roomId now dt es1 r) as [[es2 r1] out2].
  cbn [fst] in *. eapply notHealed_trans; eassumption.
Qed.

Lemma tickRoom_notHealed roomId now dt room rnd :
  enemiesSound room ->
  notHealed (Room.enemies room) (Room.enemies (fst (fst (tickRoom roomId now dt room rnd)))).
Proof.
  intros (Ke & Hv & Hd).
  destruct (tickRoom_stages roomId now dt room rnd) as (es2 & rnd2 & ps3 & room3 & rnd3 & out3
                                                        & E2 & E3 & F3 & E).
  cbv zeta in E. rewrite E. cbn [fst snd Room.enemies]. clear E.
  set (room1 := Room.set_players room (movePlayers dt (Room.players room))) in *.
  pose proof (stepEnemies_notHealed now dt room1 (Room.enemies room) rnd) as N2.
  pose proof (stepEnemies_Forall enemyVitals now dt room1 (Room.enemies room)
                (fun e e1 (Sv : sameVitals e e1) (H : enemyVitals e) =>
                   ltac:(unfold sameVitals, enemyVitals in *; intuition congruence)) rnd) as V2.
  rewrite E2 in N2, V2. cbn [fst] in N2, V2. unfold JsMap.values in V2.
  rewrite !Forall_map in V2. specialize (V2 Hv).
  pose proof (stepCasts_inv
                (fun r => Forall (fun kp => 0 <= Projectile.damage (snd kp)) (Room.projectiles r))
                roomId now (Room.players room1) (Room.set_enemies room1 es2) rnd2) as D3.
  rewrite E3 in D3. cbn [fst snd] in D3.
  assert (Hd3 : Forall (fun kp => 0 <= Projectile.damage (snd kp)) (Room.projectiles room3)).
  { apply D3; [|exact Hd]. intros room0 p target rnd0 _ H0.
    apply spawnProjectile_Forall; [exact H0|]. cbn [snd fireball Projectile.damage].
    unfold CONFIG.defaultFireball.damage. lia. }
  eapply notHealed_trans; [exact N2|].
  now apply stepProjectiles_notHealed.
Qed.

(** X20. No step ever raises an enemy's hit points or changes its [maxHp]:
    from any state the server can reach, after any one message or tick,
    every enemy of a room that is still in the registry is still there
    with [hp] at most what it was and not below 0 - there is no healing and
    no respawn, and an enemy at [hp = 0] stays at 0 for as long as its
    room lives. *)
Theorem enemy_hp_never_rises :
  forall startRead rnd0 ins rnd i roomId room room1 id e,
  let w := fst (fst (run (initial startRead) rnd0 ins)) in
  JsMap.get roomId (rooms w) = Some room ->
  JsMap.get roomId (rooms (fst (fst (step w rnd i)))) = Some room1 ->
  JsMap.get id (Room.enemies room) = Some e ->
  exists e1,
    JsMap.get id (Room.enemies room1) = Some e1
    /\ 0 <= Enemy.hp e1 <= Enemy.hp e
    /\ Enemy.maxHp e1 = Enemy.maxHp e
    /\ (Enemy.hp e = 0 -> Enemy.hp e1 = 0).
Proof.
  intros startRead rnd0 ins rnd i roomId room room1 id e w G G1 Ge.
  pose proof (enemiesSound_reachable startRead rnd0 ins) as S. fold w in S.
  pose proof (reachable_wellFormed startRead rnd0 ins) as WF. fold w in WF.
  pose proof (allRooms_get _ _ _ _ S G) as Sr.
  assert (H0 : 0 <= Enemy.hp e).
  { destruct Sr as (_ & Hv & _). rewrite Forall_forall in Hv.
    pose proof (Hv _ (JsMap_get_In _ _ _ Ge)) as [Hhp _]. cbn [snd] in Hhp. lia. }
  assert (N : notHealed (Room.enemies room) (Room.enemies room1)).
  { clearbody w. clear S startRead rnd0 ins.
    destruct i as [socket msg|socket msg|socket msg t0 t1|socket|now]; cbn [step] in G1.
    - unfold joinRoom in G1. destruct (JoinRoomMsg.roomId msg) as [rid|];
        [|cbn [fst] in G1; rewrite G in G1; injection G1 as <-; apply notHealed_refl].
      destruct (truthyS rid);
        [|cbn [fst] in G1; rewrite G in G1; injection G1 as <-; apply notHealed_refl].
      pose proof (getRoom_get (rooms w) rid rnd) as [Gg Go].
      unfold getRoom in *. destruct (JsMap.get rid (rooms w)) as [room0|] eqn:Gr.
      + cbn [fst snd rooms] in *. destruct (string_dec roomId rid) as [->|Nr].
        * rewrite JsMap_get_set_same in G1. injection G1 as <-.
          rewrite G in Gr. injection Gr as <-. apply notHealed_refl.
        * rewrite JsMap_get_set_other in G1 by assumption.
          rewrite G in G1. injection G1 as <-. apply notHealed_refl.
      + destruct (seedEnemies _ _ _ _) as [es rnd1]. cbn [fst snd rooms] in *.
        destruct (string_dec roomId rid) as [->|Nr]; [congruence|].
        rewrite JsMap_get_set_other in G1 by assumption.
        rewrite Go in G1 by assumption.
        rewrite G in G1. injection G1 as <-. apply notHealed_refl.
    - cbn [fst] in G1. unfold input in G1.
      destruct (lookupRoom _ _) as [[rid room0]|] eqn:L;
        [|rewrite G in G1; injection G1 as <-; apply notHealed_refl].
      apply lookupRoom_get in L. destruct L as [_ Gr].
      destruct (JsMap.get socket _) as [p|];
        [|rewrite G in G1; injection G1 as <-; apply notHealed_refl].
      cbn [rooms] in G1. destruct (string_dec roomId rid) as [->|Nr].
      + rewrite JsMap_get_set_same in G1. injection G1 as <-.
        rewrite G in Gr. injection Gr as <-. apply notHealed_refl.
      + rewrite JsMap_get_set_other in G1 by assumption.
        rewrite G in G1. injection G1 as <-. apply notHealed_refl.
    - unfold action in G1.
      destruct (lookupRoom _ _) as [[rid room0]|] eqn:L;
        [|cbn [fst] in G1; rewrite G in G1; injection G1 as <-; apply notHealed_refl].
      apply lookupRoom_get in L. destruct L as [_ Gr].
      destruct (resolveActor _ _ _) as [[key actor]|];
        [|cbn [fst] in G1; rewrite G in G1; injection G1 as <-; apply notHealed_refl].
      destruct (String.eqb _ "cast").
      + cbn [fst actionCast rooms] in G1. destruct (string_dec roomId rid) as [->|Nr].
        * rewrite JsMap_get_set_same in G1. injection G1 as <-.
          rewrite G in Gr. injection Gr as <-. apply notHealed_refl.
        * rewrite JsMap_get_set_other in G1 by assumption.
          rewrite G in G1. injection G1 as <-. apply notHealed_refl.
      + destruct (String.eqb _ "attack");
          [|cbn [fst] in G1; rewrite G in G1; injection G1 as <-; apply notHealed_refl].
        unfold actionAttack in G1.
        destruct (attackTarget room0 _) as [[id0 e0]|] eqn:A; cbn [fst rooms] in G1.
        * apply attackTarget_get in A. destruct A as [_ Ge0].
          destruct (string_dec roomId rid) as [->|Nr].
          -- rewrite JsMap_get_set_same in G1. injection G1 as <-.
             rewrite G in Gr. injection Gr as <-. cbn [Room.enemies Room.set_enemies].
             destruct Sr as (_ & Hv & _). rewrite Forall_forall in Hv.
             pose proof (Hv _ (JsMap_get_In _ _ _ Ge0)) as [Hhp _]. cbn [snd] in Hhp.
             apply notHealed_set_hp; [exact Ge0|lia|lia].
          -- rewrite JsMap_get_set_other in G1 by assumption.
             rewrite G in G1. injection G1 as <-. apply notHealed_refl.
        * destruct (string_dec roomId rid) as [->|Nr].
          -- rewrite JsMap_get_set_same in G1. injection G1 as <-.
             rewrite G in Gr. injection Gr as <-. apply notHealed_refl.
          -- rewrite JsMap_get_set_other in G1 by assumption.
             rewrite G in G1. injection G1 as <-. apply notHealed_refl.
    - unfold disconnect in G1.
      destruct (find _ (rooms w)) as [[rid room0]|] eqn:F;
        [|cbn [fst] in G1; rewrite G in G1; injection G1 as <-; apply notHealed_refl].
      pose proof (find_some _ _ F) as [Hin _].
      destruct WF as [ND _]. pose proof (JsMap_In_get _ _ _ ND Hin) as Gr.
      destruct (JsMap.get socket _) as [p|];
        [|cbn [fst] in G1; rewrite G in G1; injection G1 as <-; apply notHealed_refl].
      cbn [fst rooms] in G1. destruct (string_dec roomId rid) as [->|Nr].
      + destruct (Nat.eqb _ 0).
        * rewrite JsMap_get_delete_same in G1 by (now apply JsMap_NoDup_set). discriminate.
        * rewrite JsMap_get_set_same in G1. injection G1 as <-.
          rewrite G in Gr. injection Gr as <-. apply notHealed_refl.
      + destruct (Nat.eqb _ 0).
        * rewrite JsMap_get_delete_other, JsMap_get_set_other in G1 by assumption.
          rewrite G in G1. injection G1 as <-. apply notHealed_refl.
        * rewrite JsMap_get_set_other in G1 by assumption.
          rewrite G in G1. injection G1 as <-. apply notHealed_refl.
    - unfold tick in G1.
      destruct (tickRooms_get now (tickDelta now (lastTick w)) roomId room (rooms w) rnd G)
        as (rnd1 & _ & _ & Ht & _).
      destruct (tickRooms _ _ _ _) as [[rs1 rnd2] out]. cbn [fst rooms] in *.
      rewrite Ht in G1. injection G1 as <-. now apply tickRoom_notHealed. }
  destruct (N _ _ Ge) as (e1 & Ge1 & L1 & P1 & M1).
  exists e1. split; [exact Ge1|]. split; [split; [auto|exact L1]|]. split; [exact M1|].
  intros Ez. specialize (P1 H0). lia.
Qed.

(** ** Deaths *)

Lemma deathsAnnounced_app out1 out2 :
  deathsAnnounced out1 -> deathsAnnounced out2 -> deathsAnnounced (out1 ++ out2).
Proof.
  intros H1 H2 before rid id after E. apply app_eq_app in E.
  destruct E as (l & [[E1 E2]|[E1 E2]]).
  - destruct l as [|d l].
    + rewrite app_nil_r in E1. cbn [app] in E2. subst.
      destruct (H2 [] rid id after eq_refl) as (pre & mid & s & a & m & E & _).
      now destruct pre.
    + cbn [app] in E2. injection E2 as <- ->. subst out1.
      exact (H1 _ _ _ _ eq_refl).
  - subst. destruct (H2 _ _ _ _ eq_refl) as (pre & mid & s & a & m & -> & Hm).
    exists (out1 ++ pre), mid, s, a, m. split; [now rewrite <- app_assoc|exact Hm].
Qed.

Lemma deathsAnnounced_quiet out :
  Forall (fun o => isDeath o = false) out -> deathsAnnounced out.
Proof.
  intros H before rid id after E. subst out. apply Forall_app in H. destruct H as [_ H].
  inversion H as [|? ? Hd _]. discriminate Hd.
Qed.

Lemma stepCasts_no_death roomId now ps room rnd :
  Forall (fun o => isDeath o = false) (snd (stepCasts roomId now ps room rnd)).
Proof.
  revert room rnd. induction ps as [|[k p] r IH]; intros room rnd; cbn [stepCasts];
    [constructor|].
  assert (Hf : forall c room0 rnd0,
            Forall (fun o => isDeath o = false) (snd (finishCast roomId now p c room0 rnd0))).
  { intros c room0 rnd0. unfold finishCast, emitEvent. destruct (String.eqb _ _).
    - destruct (castTarget room0 c); cbn [snd]; repeat constructor.
    - cbn [snd]. repeat constructor. }
  assert (Hr : forall cs room0 rnd0,
            Forall (fun o => isDeath o = false) (snd (resolveCasts roomId now p cs room0 rnd0))).
  { induction cs as [|c cs IHc]; intros room0 rnd0; cbn [resolveCasts]; [constructor|].
    destruct (now <? Cast.finishAt c).
    - specialize (IHc room0 rnd0).
      destruct (resolveCasts roomId now p cs room0 rnd0) as [[[rem room1] rnd1] out]. exact IHc.
    - pose proof (Hf c room0 rnd0) as H1.
      destruct (finishCast roomId now p c room0 rnd0) as [[room1 rnd1] out1].
      specialize (IHc room1 rnd1).
      destruct (resolveCasts roomId now p cs room1 rnd1) as [[[rem room2] rnd2] out2].
      cbn [snd] in *. apply Forall_app. auto. }
  destruct (Player.casts p) as [|c cs] eqn:Ec.
  - specialize (IH room rnd).
    destruct (stepCasts roomId now r room rnd) as [[[r1 room1] rnd1] out]. exact IH.
  - pose proof (Hr (c :: cs) room rnd) as H1.
    destruct (resolveCasts roomId now p (c :: cs) room rnd) as [[[rem room1] rnd1] out1].
    specialize (IH room1 rnd1).
    destruct (stepCasts roomId now r room1 rnd1) as [[[r1 room2] rnd2] out2].
    cbn [snd] in *. apply Forall_app. auto.
Qed.

Lemma stepProjectile_deaths roomId now dt es k proj :
  deathsAnnounced (snd (stepProjectile roomId now dt es k proj)).
Proof.
  unfold stepProjectile, emitEvent.
  destruct (_ <=? now); [apply deathsAnnounced_quiet; repeat constructor|].
  destruct (truthyS _); [|apply deathsAnnounced_quiet; constructor].
  destruct (JsMap.get _ es) as [e|]; [|apply deathsAnnounced_quiet; constructor].
  destruct (withinHitRadius e _); [|apply deathsAnnounced_quiet; constructor].
  cbn [snd Enemy.set_hp Enemy.hp Enemy.enemyId Enemy.maxHp].
  destruct (_ <=? 0) eqn:L; [|apply deathsAnnounced_quiet; repeat constructor].
  apply Z.leb_le in L.
  replace (Z.max 0 (Enemy.hp e - Projectile.damage (moveProjectile dt proj))) with 0 by lia.
  intros before rid id after E. cbn [app] in E.
  destruct before as [|b0 [|b1 [|b2 [|b3 before]]]]; cbn [app] in E; try discriminate E.
  - injection E as <- <- <- <- <- <-. eexists [_], [_]. do 3 eexists.
    split; [reflexivity|]. right. eexists. reflexivity.
  - exfalso. injection E as _ _ _ _ E. destruct before; discriminate E.
Qed.

Lemma stepProjectiles_deaths roomId now dt ps : forall es,
  deathsAnnounced (snd (stepProjectiles roomId now dt es ps)).
Proof.
  induction ps as [|[k proj] r IH]; intros es; cbn [stepProjectiles];
    [apply deathsAnnounced_quiet; constructor|].
  pose proof (stepProjectile_deaths roomId now dt es k proj) as H1.
  destruct (stepProjectile roomId now dt es k proj) as [[es1 kept] out1].
  specialize (IH es1).
  destruct (stepProjectiles roomId now dt es1 r) as [[es2 r1] out2].
  cbn [snd] in *. now apply deathsAnnounced_app.
Qed.

Lemma tickRooms_deaths now dt rs : forall rnd,
  deathsAnnounced (snd (tickRooms now dt rs rnd)).
Proof.
  induction rs as [|[rid room] r IH]; intros rnd; cbn [tickRooms];
    [apply deathsAnnounced_quiet; constructor|].
  assert (H1 : deathsAnnounced (snd (tickRoom rid now dt room rnd))).
  { destruct (tickRoom_stages rid now dt room rnd) as (es2 & rnd2 & ps3 & room3 & rnd3 & out3
                                                       & E2 & E3 & F3 & E).
    cbv zeta in E. rewrite E. cbn [snd]. apply deathsAnnounced_app; [|apply deathsAnnounced_app].
    - apply deathsAnnounced_quiet.
      pose proof (stepCasts_no_death rid now
                    (Room.players (Room.set_players room (movePlayers dt (Room.players room))))
                    (Room.set_enemies (Room.set_players room (movePlayers dt (Room.players room)))
                                      es2) rnd2) as Hc.
      now rewrite E3 in Hc.
    - apply stepProjectiles_deaths.
    - apply deathsAnnounced_quiet. repeat constructor. }
  destruct (tickRoom rid now dt room rnd) as [[room1 rnd1] out1].
  specialize (IH rnd1). destruct (tickRooms now dt r rnd1) as [[r1 rnd2] out2].
  cbn [snd] in *. now apply deathsAnnounced_app.
Qed.

Lemma step_deaths w rnd i : deathsAnnounced (snd (step w rnd i)).
Proof.
  destruct i as [socket msg|socket msg|socket msg t0 t1|socket|now]; cbn [step].
  - apply deathsAnnounced_quiet. unfold joinRoom.
    destruct (JoinRoomMsg.roomId msg) as [rid|]; [|constructor].
    destruct (truthyS rid); [|constructor].
    destruct (getRoom _ _ _) as [[rooms1 room] rnd1]. cbn [snd]. repeat constructor.
  - apply deathsAnnounced_quiet. constructor.
  - unfold action.
    destruct (lookupRoom _ _) as [[rid room]|]; [|apply deathsAnnounced_quiet; constructor].
    destruct (resolveActor _ _ _) as [[key actor]|];
      [|apply deathsAnnounced_quiet; constructor].
    destruct (String.eqb _ "cast");
      [cbn [snd actionCast]; apply deathsAnnounced_quiet; repeat constructor|].
    destruct (String.eqb _ "attack"); [|apply deathsAnnounced_quiet; constructor].
    unfold actionAttack, emitEvent.
    destruct (attackTarget _ _) as [[id e]|]; [|apply deathsAnnounced_quiet; constructor].
    cbn [snd Enemy.set_hp Enemy.hp Enemy.enemyId Enemy.maxHp].
    destruct (_ <=? 0) eqn:L; [|apply deathsAnnounced_quiet; repeat constructor].
    apply Z.leb_le in L. replace (Z.max 0 (Enemy.hp e - 6)) with 0 by lia.
    intros before rid0 id0 after E.
    destruct before as [|b0 [|b1 before]]; cbn [app] in E; try discriminate E.
    + injection E as <- <- <- <-. eexists [], []. do 3 eexists. split; [reflexivity|now left].
    + exfalso. injection E as _ _ E. destruct before; discriminate E.
  - apply deathsAnnounced_quiet. unfold disconnect.
    destruct (find _ _) as [[rid room]|]; [|constructor].
    destruct (JsMap.get socket _); cbn [snd]; repeat constructor.
  - unfold tick. pose proof (tickRooms_deaths now (tickDelta now (lastTick w)) (rooms w) rnd) as H.
    destruct (tickRooms _ _ _ _) as [[rs1 rnd1] out]. exact H.
Qed.

(** X21. An [enemy_death] event never comes alone: in everything the server
    emits, from any state, each one follows the [damage] event that
    reported [hp = 0] for the same enemy to the same room - directly after
    an attack, and with only the [projectile_despawn] of the fireball
    between the two after a hit. *)
Theorem death_follows_fatal_damage : forall ins w rnd before roomId enemyId after,
  snd (run w rnd ins) = before ++ Event roomId (enemy_death enemyId) :: after ->
  exists pre mid sourceId amount maxHp,
    before = pre ++ Event roomId (damage sourceId "enemy" enemyId amount 0 maxHp) :: mid
    /\ (mid = [] \/ exists projId, mid = [Event roomId (projectile_despawn projId)]).
Proof.
  assert (H : forall ins w rnd, deathsAnnounced (snd (run w rnd ins))).
  { induction ins as [|i r IH]; intros w rnd; cbn [run];
      [apply deathsAnnounced_quiet; constructor|].
    pose proof (step_deaths w rnd i) as Hs.
    destruct (step w rnd i) as [[w1 rnd1] out1]. specialize (IH w1 rnd1).
    destruct (run w1 rnd1 r) as [[w2 rnd2] out2]. cbn [snd] in *.
    now apply deathsAnnounced_app. }
  intros ins w rnd. exact (H ins w rnd).
Qed.

(** ** One room at a time *)

(** X22. A message is handled in one room: [joinRoom], [input] and [action]
    can only change the room their message names, a disconnect only the
    first room that holds the connection; every other room of the registry
    is left exactly as it was, and [lastTick] too. [w] is any state whose
    registry has distinct room ids, as every reachable state has. *)
Theorem handlers_touch_one_room : forall w rnd i roomId,
  wellFormed w ->
  (forall now, i <> InTick now) ->
  roomTouched w i <> Some roomId ->
  JsMap.get roomId (rooms (fst (fst (step w rnd i)))) = JsMap.get roomId (rooms w).
Proof.
  intros w rnd i roomId [ND _] Ni N.
  destruct i as [socket msg|socket msg|socket msg t0 t1|socket|now]; cbn [step roomTouched] in *.
  - unfold joinRoom. destruct (JoinRoomMsg.roomId msg) as [rid|]; [|reflexivity].
    destruct (truthyS rid); [|reflexivity].
    pose proof (getRoom_get (rooms w) rid rnd) as [_ Go].
    destruct (getRoom _ _ _) as [[rooms1 room] rnd1]. cbn [fst snd rooms] in *.
    assert (Nr : roomId <> rid) by congruence.
    rewrite JsMap_get_set_other by assumption. now apply Go.
  - cbn [fst]. unfold input. destruct (lookupRoom _ _) as [[rid room]|] eqn:L; [|reflexivity].
    apply lookupRoom_get in L. destruct L as [L _].
    destruct (JsMap.get socket _); [|reflexivity]. cbn [rooms].
    apply JsMap_get_set_other. congruence.
  - unfold action. destruct (lookupRoom _ _) as [[rid room]|] eqn:L; [|reflexivity].
    apply lookupRoom_get in L. destruct L as [L _].
    assert (Nr : roomId <> rid) by congruence.
    destruct (resolveActor _ _ _) as [[key actor]|]; [|reflexivity].
    destruct (String.eqb _ "cast"); [cbn [fst rooms actionCast]; now apply JsMap_get_set_other|].
    destruct (String.eqb _ "attack"); [|reflexivity].
    destruct (actionAttack _ _ _ _) as [room1 out]. cbn [fst rooms].
    now apply JsMap_get_set_other.
  - unfold disconnect. destruct (find _ (rooms w)) as [[rid room]|]; [|reflexivity].
    cbn [option_map fst] in N. assert (Nr : roomId <> rid) by congruence.
    destruct (JsMap.get socket _); [|reflexivity]. cbn [fst rooms].
    destruct (Nat.eqb _ 0).
    + now rewrite JsMap_get_delete_other, JsMap_get_set_other.
    + now apply JsMap_get_set_other.
  - now elim (Ni now).
Qed.

(** ** Casts start before they finish *)

Lemma JsMap_In_set {V : Type} k (v : V) m k' v' :
  In (k', v') (JsMap.set k v m) -> (k' = k /\ v' = v) \/ In (k', v') m.
Proof.
  induction m as [|[k1 v1] r IH]; cbn [JsMap.set].
  - intros [[= <- <-]|[]]. now left.
  - destruct (String.eqb k1 k).
    + intros [[= <- <-]|H]; [now left|right; now right].
    + intros [H|H]; [right; now left|]. destruct (IH H) as [H1|H1]; [now left|right; now right].
Qed.

Lemma JsMap_In_delete {V : Type} k (m : JsMap.t V) kv : In kv (JsMap.delete k m) -> In kv m.
Proof.
  induction m as [|[k1 v1] r IH]; cbn [JsMap.delete]; [auto|].
  destruct (String.eqb k1 k); [now right|]. intros [H|H]; [now left|right; auto].
Qed.

Lemma castsStarted_more hist out rs : castsStarted hist rs -> castsStarted (hist ++ out) rs.
Proof. intros H rid room key p c H1 H2 H3. apply in_or_app. left. eauto. Qed.

Lemma tickRooms_In now dt rs : forall rnd rid room1,
  In (rid, room1) (fst (fst (tickRooms now dt rs rnd))) ->
  exists room rnd0, In (rid, room) rs /\ room1 = fst (fst (tickRoom rid now dt room rnd0)).
Proof.
  induction rs as [|[k room0] r IH]; intros rnd rid room1; cbn [tickRooms]; [contradiction|].
  destruct (tickRoom k now dt room0 rnd) as [[room2 rnd1] out1] eqn:E.
  specialize (IH rnd1 rid room1). destruct (tickRooms now dt r rnd1) as [[r1 rnd2] out2].
  cbn [fst]. intros [[= <- <-]|H].
  - exists room0, rnd. split; [now left|]. now rewrite E.
  - destruct (IH H) as (room & rnd0 & Hin & ->). exists room, rnd0. split; [now right|reflexivity].
Qed.

Lemma step_castsStarted hist w rnd i :
  castsStarted hist (rooms w) ->
  castsStarted (hist ++ snd (step w rnd i)) (rooms (fst (fst (step w rnd i)))).
Proof.
  intros H. destruct i as [socket msg|socket msg|socket msg t0 t1|socket|now]; cbn [step].
  - unfold joinRoom. destruct (JoinRoomMsg.roomId msg) as [rid|];
      [|cbn [fst snd]; now rewrite app_nil_r].
    destruct (truthyS rid); [|cbn [fst snd]; now rewrite app_nil_r].
    apply castsStarted_more. unfold getRoom.
    destruct (JsMap.get rid (rooms w)) as [room0|] eqn:G; cbn [fst snd rooms].
    + intros rid1 room1 key p c H1 H2 H3. apply JsMap_In_set in H1.
      destruct H1 as [[-> ->]|H1]; [|eauto].
      cbn [Room.players Room.set_players] in H2. apply JsMap_In_set in H2.
      destruct H2 as [[-> ->]|H2]; [contradiction H3|].
      exact (H _ _ _ _ _ (JsMap_get_In _ _ _ G) H2 H3).
    + destruct (seedEnemies _ _ _ _) as [es rnd1]. cbn [fst snd rooms].
      rewrite JsMap_set_set.
      intros rid1 room1 key p c H1 H2 H3. apply JsMap_In_set in H1.
      destruct H1 as [[-> ->]|H1]; [|eauto].
      cbn [Room.players Room.set_players JsMap.set] in H2.
      destruct H2 as [[= <- <-]|[]]. contradiction H3.
  - cbn [fst snd]. rewrite app_nil_r. unfold input.
    destruct (lookupRoom _ _) as [[rid room0]|] eqn:L; [|exact H].
    apply lookupRoom_get in L. destruct L as [_ G].
    destruct (JsMap.get socket _) as [p0|] eqn:Gp; [|exact H]. cbn [rooms].
    intros rid1 room1 key p c H1 H2 H3. apply JsMap_In_set in H1.
    destruct H1 as [[-> ->]|H1]; [|eauto].
    cbn [Room.players Room.set_players] in H2. apply JsMap_In_set in H2.
    destruct H2 as [[-> ->]|H2]; [|exact (H _ _ _ _ _ (JsMap_get_In _ _ _ G) H2 H3)].
    pose proof (H _ _ _ p0 c (JsMap_get_In _ _ _ G) (JsMap_get_In _ _ _ Gp)) as H0.
    assert (E : forall q, startedEvent rid (assignIfNumber (InputMsg.rotY msg)
                  (assignIfNumber (InputMsg.vz msg)
                     (assignIfNumber (InputMsg.vx msg) p0 Player.set_vx) Player.set_vz)
                  Player.set_rotY) q = startedEvent rid p0 q).
    { intros q. destruct (InputMsg.vx msg), (InputMsg.vz msg), (InputMsg.rotY msg); reflexivity. }
    rewrite E. apply H0.
    destruct (InputMsg.vx msg), (InputMsg.vz msg), (InputMsg.rotY msg); exact H3.
  - unfold action.
    destruct (lookupRoom _ _) as [[rid room0]|] eqn:L;
      [|cbn [fst snd]; now rewrite app_nil_r].
    apply lookupRoom_get in L. destruct L as [_ G].
    destruct (resolveActor _ _ _) as [[key0 actor]|] eqn:A;
      [|cbn [fst snd]; now rewrite app_nil_r].
    apply resolveActor_In in A.
    destruct (String.eqb _ "cast").
    + cbn [fst snd actionCast rooms].
      intros rid1 room1 key p c H1 H2 H3. apply JsMap_In_set in H1.
      destruct H1 as [[-> ->]|H1]; [|apply in_or_app; left; eauto].
      cbn [Room.players Room.set_players] in H2. apply JsMap_In_set in H2.
      destruct H2 as [[-> ->]|H2];
        [|apply in_or_app; left; exact (H _ _ _ _ _ (JsMap_get_In _ _ _ G) H2 H3)].
      cbn [Player.casts Player.set_casts] in H3. apply in_app_or in H3.
      destruct H3 as [H3|[<-|[]]].
      * apply in_or_app. left. exact (H _ _ _ _ _ (JsMap_get_In _ _ _ G) A H3).
      * apply in_or_app. right. now left.
    + destruct (String.eqb _ "attack"); [|cbn [fst snd]; now rewrite app_nil_r].
      pose proof (actionAttack_players rid room0 actor (ActionMsg.payload msg)) as Ep.
      destruct (actionAttack _ _ _ _) as [room1 out]. cbn [fst snd rooms] in *.
      apply castsStarted_more.
      intros rid1 room2 key p c H1 H2 H3. apply JsMap_In_set in H1.
      destruct H1 as [[-> ->]|H1]; [|eauto].
      rewrite Ep in H2. exact (H _ _ _ _ _ (JsMap_get_In _ _ _ G) H2 H3).
  - unfold disconnect. destruct (find _ (rooms w)) as [[rid room0]|] eqn:F;
      [|cbn [fst snd]; now rewrite app_nil_r].
    pose proof (find_some _ _ F) as [Hin _].
    destruct (JsMap.get socket _) as [p0|]; [|cbn [fst snd]; now rewrite app_nil_r].
    cbn [fst snd rooms]. apply castsStarted_more.
    assert (Hs : castsStarted hist
              (JsMap.set rid (Room.set_players room0 (JsMap.delete socket (Room.players room0)))
                         (rooms w))).
    { intros rid1 room1 key p c H1 H2 H3. apply JsMap_In_set in H1.
      destruct H1 as [[-> ->]|H1]; [|eauto].
      cbn [Room.players Room.set_players] in H2. apply JsMap_In_delete in H2.
      exact (H _ _ _ _ _ Hin H2 H3). }
    destruct (Nat.eqb _ 0); [|exact Hs].
    intros rid1 room1 key p c H1. apply JsMap_In_delete in H1. now apply Hs.
  - unfold tick. apply castsStarted_more.
    pose proof (tickRooms_In now (tickDelta now (lastTick w)) (rooms w) rnd) as Ht.
    destruct (tickRooms _ _ _ _) as [[rs1 rnd1] out]. cbn [fst snd rooms] in *.
    intros rid1 room1 key p c H1 H2 H3.
    destruct (Ht _ _ H1) as (room0 & rnd0 & Hin & ->).
    rewrite tickRoom_players in H2. apply in_map_iff in H2.
    destruct H2 as ([k0 p0] & E & H2). cbn [fst snd] in E. injection E as <- <-.
    unfold dropDue in H3. cbn [Player.casts Player.set_casts] in H3.
    apply filter_In in H3. destruct H3 as [H3 _].
    assert (E : startedEvent rid1 (dropDue now (movePlayer (tickDelta now (lastTick w)) p0)) c
                = startedEvent rid1 p0 c).
    { unfold startedEvent, dropDue, movePlayer. destruct (PrimFloat.ltb _ _); reflexivity. }
    rewrite E. apply (H _ _ _ _ _ Hin H2).
    unfold movePlayer in H3. destruct (PrimFloat.ltb _ _); exact H3.
Qed.

Lemma tickRooms_finishes now dt rs : forall rnd rid a s t,
  In (Event rid (cast_finish a s t)) (snd (tickRooms now dt rs rnd)) ->
  exists room key p c,
    In (rid, room) rs /\ In (key, p) (Room.players room) /\ In c (Player.casts p)
    /\ a = Player.playerId p /\ s = Cast.spellId c /\ t = Cast.targetEnemyId c.
Proof.
  induction rs as [|[k room0] r IH]; intros rnd rid a s t; cbn [tickRooms]; [contradiction|].
  pose proof (tickRoom_finished k now dt room0 rnd) as Hf.
  pose proof (tickRoom_sends k now dt room0 rnd) as (events & Ev & Hev).
  destruct (tickRoom k now dt room0 rnd) as [[room2 rnd1] out1].
  specialize (IH rnd1 rid a s t). destruct (tickRooms now dt r rnd1) as [[r1 rnd2] out2].
  cbn [fst snd] in *. intros Hin. apply in_app_or in Hin. destruct Hin as [Hin|Hin].
  - assert (Hk : rid = k).
    { rewrite Ev in Hin. apply in_app_or in Hin. destruct Hin as [Hin|[Hin|[]]]; [|discriminate].
      rewrite Forall_forall in Hev. destruct (Hev _ Hin) as [body E]. congruence. }
    subst k.
    assert (Hin' : In (Event rid (cast_finish a s t)) (filter isCastFinish out1))
      by (apply filter_In; auto).
    rewrite Hf in Hin'. apply in_flat_map in Hin'. destruct Hin' as ([key p] & Hp & Hc).
    cbn [snd] in Hc. apply in_map_iff in Hc. destruct Hc as (c & E & Hc).
    apply filter_In in Hc. destruct Hc as [Hc _].
    unfold finishedEvent in E. injection E as <- <- <-.
    exists room0, key, p, c. repeat split; auto. now left.
  - destruct (IH Hin) as (room & key & p & c & H1 & H2). exists room, key, p, c.
    split; [now right|exact H2].
Qed.

Lemma step_finishes w rnd i rid a s t :
  In (Event rid (cast_finish a s t)) (snd (step w rnd i)) ->
  exists room key p c,
    In (rid, room) (rooms w) /\ In (key, p) (Room.players room) /\ In c (Player.casts p)
    /\ a = Player.playerId p /\ s = Cast.spellId c /\ t = Cast.targetEnemyId c.
Proof.
  destruct i as [socket msg|socket msg|socket msg t0 t1|socket|now]; cbn [step].
  - unfold joinRoom. destruct (JoinRoomMsg.roomId msg) as [r|]; [|contradiction].
    destruct (truthyS r); [|contradiction].
    destruct (getRoom _ _ _) as [[rooms1 room] rnd1]. cbn [snd].
    intros [H|[H|[]]]; discriminate H.
  - contradiction.
  - unfold action.
    destruct (lookupRoom _ _) as [[r room]|]; [|contradiction].
    destruct (resolveActor _ _ _) as [[key actor]|]; [|contradiction].
    destruct (String.eqb _ "cast"); [cbn [snd actionCast]; intros [H|[]]; discriminate H|].
    destruct (String.eqb _ "attack"); [|contradiction]. unfold actionAttack.
    destruct (attackTarget _ _) as [[id e]|]; [|contradiction]. cbn [snd].
    intros [H|H]; [discriminate H|]. destruct (_ <=? 0); [|contradiction].
    destruct H as [H|[]]. discriminate H.
  - unfold disconnect. destruct (find _ _) as [[r room]|]; [|contradiction].
    destruct (JsMap.get socket _); [|contradiction]. cbn [snd].
    intros [H|[]]. discriminate H.
  - unfold tick. pose proof (tickRooms_finishes now (tickDelta now (lastTick w)) (rooms w) rnd
                               rid a s t) as H.
    destruct (tickRooms _ _ _ _) as [[rs1 rnd1] out]. exact H.
Qed.

Lemma run_castsStarted startRead rnd ins :
  castsStarted (snd (run (initial startRead) rnd ins))
               (rooms (fst (fst (run (initial startRead) rnd ins)))).
Proof.
  induction ins as [|i r IH] using rev_ind.
  - intros rid room key p c [].
  - rewrite run_app, run_one. cbn [fst snd]. now apply step_castsStarted.
Qed.

(** X23. A cast never finishes unannounced: every [cast_finish] event the
    server emits was preceded, in the same room, by the [cast_start] event
    of the same actor, spell and target (with the cast time of 650 ms). *)
Theorem cast_finish_answers_cast_start :
  forall startRead rnd ins before roomId actorId spellId targetEnemyId after,
  snd (run (initial startRead) rnd ins)
  = before ++ Event roomId (cast_finish actorId spellId targetEnemyId) :: after ->
  In (Event roomId (cast_start actorId spellId targetEnemyId 650)) before.
Proof.
  intros startRead rnd ins. induction ins as [|i r IH] using rev_ind;
    intros before rid a s t after E.
  - destruct before; discriminate E.
  - rewrite run_app, run_one in E. cbn [fst snd] in E.
    apply app_eq_app in E. destruct E as (l & [[E1 E2]|[E1 E2]]).
    + destruct l as [|d l].
      * rewrite app_nil_r in E1. cbn [app] in E2. subst before.
        assert (Hin : In (Event rid (cast_finish a s t))
                         (snd (step (fst (fst (run (initial startRead) rnd r)))
                                    (snd (fst (run (initial startRead) rnd r))) i)))
          by (rewrite <- E2; now left).
        apply step_finishes in Hin.
        destruct Hin as (room & key & p & c & H1 & H2 & H3 & -> & -> & ->).
        exact (run_castsStarted startRead rnd r _ _ _ _ _ H1 H2 H3).
      * cbn [app] in E2. injection E2 as <- E2. exact (IH _ _ _ _ _ _ E1).
    + subst before. apply in_or_app.
      assert (Hin : In (Event rid (cast_finish a s t))
                       (snd (step (fst (fst (run (initial startRead) rnd r)))
                                  (snd (fst (run (initial startRead) rnd r))) i)))
        by (rewrite E2; apply in_or_app; right; now left).
      apply step_finishes in Hin.
      destruct Hin as (room & key & p & c & H1 & H2 & H3 & -> & -> & ->).
      left. exact (run_castsStarted startRead rnd r _ _ _ _ _ H1 H2 H3).
Qed.

(** ** Projectiles are announced *)

Lemma spawnedIn_more hist out rid k : spawnedIn hist rid k -> spawnedIn (hist ++ out) rid k.
Proof. intros (o & t & H). exists o, t. apply in_or_app. now left. Qed.

Lemma spawnedIn_later hist out rid k : spawnedIn out rid k -> spawnedIn (hist ++ out) rid k.
Proof. intros (o & t & H). exists o, t. apply in_or_app. now right. Qed.

Lemma spawnedBefore_app hist out1 out2 :
  spawnedBefore hist out1 -> spawnedBefore (hist ++ out1) out2 ->
  spawnedBefore hist (out1 ++ out2).
Proof.
  intros H1 H2 pre o post rid k E P. apply app_eq_app in E.
  destruct E as (l & [[E1 E2]|[E1 E2]]).
  - destruct l as [|d l].
    + rewrite app_nil_r in E1. cbn [app] in E2. subst pre.
      pose proof (H2 [] o post rid k (eq_sym E2) P) as H. now rewrite app_nil_r in H.
    + cbn [app] in E2. injection E2 as <- ->. exact (H1 _ _ _ _ _ E1 P).
  - subst pre. rewrite app_assoc. exact (H2 _ _ _ _ _ E2 P).
Qed.

Lemma spawnedBefore_known hist out :
  Forall (fun o => forall rid k, projectileOf o = Some (rid, k) -> spawnedIn hist rid k) out ->
  spawnedBefore hist out.
Proof.
  intros H pre o post rid k E P. subst out. apply Forall_app in H. destruct H as [_ H].
  inversion H as [|? ? Ho _]. apply spawnedIn_more. now apply Ho.
Qed.

Lemma spawnedBefore_quiet hist out :
  Forall (fun o => projectileOf o = None) out -> spawnedBefore hist out.
Proof.
  intros H. apply spawnedBefore_known. eapply Forall_impl; [|exact H].
  intros o Ho rid k E. congruence.
Qed.

Lemma stepProjectiles_known hist roomId now dt ps : forall es,
  (forall k proj, In (k, proj) ps -> spawnedIn hist roomId k) ->
  Forall (fun o => forall rid k, projectileOf o = Some (rid, k) -> spawnedIn hist rid k)
         (snd (stepProjectiles roomId now dt es ps)).
Proof.
  induction ps as [|[k proj] r IH]; intros es H; cbn [stepProjectiles]; [constructor|].
  assert (H1 : Forall (fun o => forall rid k0, projectileOf o = Some (rid, k0) ->
                                 spawnedIn hist rid k0)
                      (snd (stepProjectile roomId now dt es k proj))).
  { pose proof (H k proj (or_introl eq_refl)) as Hk.
    unfold stepProjectile, emitEvent.
    destruct (_ <=? now).
    { cbn [snd]. constructor; [|constructor]. intros rid k0 [= <- <-]. exact Hk. }
    destruct (truthyS _); [|constructor].
    destruct (JsMap.get _ es) as [e|]; [|constructor].
    destruct (withinHitRadius e _); [|constructor].
    cbn [snd]. apply Forall_app. split.
    - constructor; [intros rid k0 [= <- <-]; exact Hk|].
      constructor; [intros rid k0; discriminate|].
      constructor; [intros rid k0 [= <- <-]; exact Hk|constructor].
    - destruct (_ <=? 0); constructor; [intros rid k0; discriminate|constructor]. }
  destruct (stepProjectile roomId now dt es k proj) as [[es1 kept] out1].
  specialize (IH es1 (fun k0 p0 Hin => H k0 p0 (or_intror Hin))).
  destruct (stepProjectiles roomId now dt es1 r) as [[es2 r1] out2].
  cbn [snd] in *. apply Forall_app. auto.
Qed.

(** What step 3 leaves in the projectile map was there before or is
    announced by step 3. *)
Lemma finishCast_spawned roomId now p c room rnd k proj :
  In (k, proj) (Room.projectiles (fst (fst (finishCast roomId now p c room rnd)))) ->
  (exists proj0, In (k, proj0) (Room.projectiles room))
  \/ spawnedIn (snd (finishCast roomId now p c room rnd)) roomId k.
Proof.
  unfold finishCast, emitEvent. destruct (String.eqb _ _); [|cbn [fst]; eauto].
  destruct (castTarget room c) as [target|]; cbn [fst snd]; [|eauto].
  unfold spawnProjectile. cbn [Room.projectiles Room.set_projectiles]. intros Hin.
  apply JsMap_In_set in Hin. destruct Hin as [[-> ->]|Hin].
  - right. do 2 eexists. right. left. reflexivity.
  - left. exists proj. destruct (Nat.ltb _ _); [|exact Hin].
    destruct (JsMap.keys (Room.projectiles room)) as [|k0 ks]; [exact Hin|].
    destruct (truthyS k0); [|exact Hin]. now apply JsMap_In_delete in Hin.
Qed.

Lemma resolveCasts_spawned roomId now p cs : forall room rnd k proj,
  In (k, proj) (Room.projectiles (snd (fst (fst (resolveCasts roomId now p cs room rnd))))) ->
  (exists proj0, In (k, proj0) (Room.projectiles room))
  \/ spawnedIn (snd (resolveCasts roomId now p cs room rnd)) roomId k.
Proof.
  induction cs as [|c r IH]; intros room rnd k proj; cbn [resolveCasts]; [cbn [fst snd]; eauto|].
  destruct (now <? Cast.finishAt c).
  - specialize (IH room rnd k proj).
    destruct (resolveCasts roomId now p r room rnd) as [[[rem room1] rnd1] out]. exact IH.
  - pose proof (finishCast_spawned roomId now p c room rnd k) as Hf.
    destruct (finishCast roomId now p c room rnd) as [[room1 rnd1] out1].
    specialize (IH room1 rnd1 k proj).
    destruct (resolveCasts roomId now p r room1 rnd1) as [[[rem room2] rnd2] out2].
    cbn [fst snd] in *. intros Hin. destruct (IH Hin) as [[proj0 H0]|H0].
    + destruct (Hf _ H0) as [H1|H1]; [now left|right; now apply spawnedIn_more].
    + right. now apply spawnedIn_later.
Qed.

Lemma stepCasts_spawned roomId now ps : forall room rnd k proj,
  In (k, proj) (Room.projectiles (snd (fst (fst (stepCasts roomId now ps room rnd))))) ->
  (exists proj0, In (k, proj0) (Room.projectiles room))
  \/ spawnedIn (snd (stepCasts roomId now ps room rnd)) roomId k.
Proof.
  induction ps as [|[k0 p] r IH]; intros room rnd k proj; cbn [stepCasts]; [cbn [fst snd]; eauto|].
  destruct (Player.casts p) as [|c cs] eqn:Ec.
  - specialize (IH room rnd k proj).
    destruct (stepCasts roomId now r room rnd) as [[[r1 room1] rnd1] out]. exact IH.
  - pose proof (resolveCasts_spawned roomId now p (c :: cs) room rnd k) as Hf.
    destruct (resolveCasts roomId now p (c :: cs) room rnd) as [[[rem room1] rnd1] out1].
    specialize (IH room1 rnd1 k proj).
    destruct (stepCasts roomId now r room1 rnd1) as [[[r1 room2] rnd2] out2].
    cbn [fst snd] in *. intros Hin. destruct (IH Hin) as [[proj0 H0]|H0].
    + destruct (Hf _ H0) as [H1|H1]; [now left|right; now apply spawnedIn_more].
    + right. now apply spawnedIn_later.
Qed.

Lemma stepCasts_quiet roomId now ps room rnd :
  Forall (fun o => projectileOf o = None) (snd (stepCasts roomId now ps room rnd)).
Proof.
  revert room rnd. induction ps as [|[k p] r IH]; intros room rnd; cbn [stepCasts];
    [constructor|].
  assert (Hf : forall c room0 rnd0,
            Forall (fun o => projectileOf o = None) (snd (finishCast roomId now p c room0 rnd0))).
  { intros c room0 rnd0. unfold finishCast, emitEvent. destruct (String.eqb _ _).
    - destruct (castTarget room0 c); cbn [snd]; repeat constructor.
    - cbn [snd]. repeat constructor. }
  assert (Hr : forall cs room0 rnd0,
            Forall (fun o => projectileOf o = None)
                   (snd (resolveCasts roomId now p cs room0 rnd0))).
  { induction cs as [|c cs IHc]; intros room0 rnd0; cbn [resolveCasts]; [constructor|].
    destruct (now <? Cast.finishAt c).
    - specialize (IHc room0 rnd0).
      destruct (resolveCasts roomId now p cs room0 rnd0) as [[[rem room1] rnd1] out]. exact IHc.
    - pose proof (Hf c room0 rnd0) as H1.
      destruct (finishCast roomId now p c room0 rnd0) as [[room1 rnd1] out1].
      specialize (IHc room1 rnd1).
      destruct (resolveCasts roomId now p cs room1 rnd1) as [[[rem room2] rnd2] out2].
      cbn [snd] in *. apply Forall_app. auto. }
  destruct (Player.casts p) as [|c cs] eqn:Ec.
  - specialize (IH room rnd).
    destruct (stepCasts roomId now r room rnd) as [[[r1 room1] rnd1] out]. exact IH.
  - pose proof (Hr (c :: cs) room rnd) as H1.
    destruct (resolveCasts roomId now p (c :: cs) room rnd) as [[[rem room1] rnd1] out1].
    specialize (IH room1 rnd1).
    destruct (stepCasts roomId now r room1 rnd1) as [[[r1 room2] rnd2] out2].
    cbn [snd] in *. apply Forall_app. auto.
Qed.

Lemma tickRoom_spawned hist roomId now dt room rnd :
  (forall k proj, In (k, proj) (Room.projectiles room) -> spawnedIn hist roomId k) ->
  spawnedBefore hist (snd (tickRoom roomId now dt room rnd))
  /\ forall k proj,
       In (k, proj) (Room.projectiles (fst (fst (tickRoom roomId now dt room rnd)))) ->
       spawnedIn (hist ++ snd (tickRoom roomId now dt room rnd)) roomId k.
Proof.
  intros H.
  destruct (tickRoom_stages roomId now dt room rnd) as (es2 & rnd2 & ps3 & room3 & rnd3 & out3
                                                        & E2 & E3 & F3 & E).
  cbv zeta in E. rewrite E. cbn [fst snd Room.projectiles]. clear E.
  set (room1 := Room.set_players room (movePlayers dt (Room.players room))) in *.
  pose proof (stepCasts_spawned roomId now (Room.players room1) (Room.set_enemies room1 es2) rnd2)
    as S3.
  pose proof (stepCasts_quiet roomId now (Room.players room1) (Room.set_enemies room1 es2) rnd2)
    as Q3.
  rewrite E3 in S3, Q3. cbn [fst snd Room.projectiles Room.set_enemies Room.set_players room1] in S3, Q3.
  assert (K3 : forall k proj, In (k, proj) (Room.projectiles room3) ->
                 spawnedIn (hist ++ out3) roomId k).
  { intros k proj Hin. destruct (S3 _ _ Hin) as [[proj0 H0]|H0].
    - apply spawnedIn_more. exact (H _ _ H0).
    - now apply spawnedIn_later. }
  split.
  - apply spawnedBefore_app; [now apply spawnedBefore_quiet|].
    apply spawnedBefore_app.
    + apply spawnedBefore_known. now apply stepProjectiles_known.
    + apply spawnedBefore_quiet. repeat constructor.
  - intros k proj1 Hin.
    destruct (stepProjectiles_kept roomId now dt _ _ k proj1 Hin) as (proj & Hp & _).
    rewrite app_assoc. apply spawnedIn_more. exact (K3 _ _ Hp).
Qed.

Lemma tickRooms_spawned now dt rs : forall hist rnd,
  projectilesSpawned hist rs ->
  spawnedBefore hist (snd (tickRooms now dt rs rnd))
  /\ projectilesSpawned (hist ++ snd (tickRooms now dt rs rnd))
                        (fst (fst (tickRooms now dt rs rnd))).
Proof.
  induction rs as [|[rid room] r IH]; intros hist rnd H; cbn [tickRooms].
  - split; [apply spawnedBefore_quiet; constructor|]. intros ? ? ? ? [].
  - pose proof (tickRoom_spawned hist rid now dt room rnd
                  (fun k proj Hin => H rid room k proj (or_introl eq_refl) Hin)) as [P1 K1].
    destruct (tickRoom rid now dt room rnd) as [[room1 rnd1] out1]. cbn [fst snd] in *.
    assert (H' : projectilesSpawned (hist ++ out1) r).
    { intros rid0 room0 k proj Hr Hp. apply spawnedIn_more.
      exact (H rid0 room0 k proj (or_intror Hr) Hp). }
    destruct (IH (hist ++ out1) rnd1 H') as [P2 K2].
    destruct (tickRooms now dt r rnd1) as [[r1 rnd2] out2]. cbn [fst snd] in *.
    split; [now apply spawnedBefore_app|].
    intros rid0 room0 k proj [[= <- <-]|Hr] Hp.
    + rewrite app_assoc. apply spawnedIn_more. exact (K1 _ _ Hp).
    + rewrite app_assoc. exact (K2 _ _ _ _ Hr Hp).
Qed.

Lemma step_spawned hist w rnd i :
  projectilesSpawned hist (rooms w) ->
  spawnedBefore hist (snd (step w rnd i))
  /\ projectilesSpawned (hist ++ snd (step w rnd i)) (rooms (fst (fst (step w rnd i)))).
Proof.
  intros H.
  assert (Hm : forall out, projectilesSpawned (hist ++ out) (rooms w)).
  { intros out rid room k proj Hr Hp. apply spawnedIn_more. eauto. }
  assert (Hset : forall out rid room0 room1,
            JsMap.get rid (rooms w) = Some room0 ->
            Room.projectiles room1 = Room.projectiles room0 ->
            projectilesSpawned (hist ++ out) (JsMap.set rid room1 (rooms w))).
  { intros out rid room0 room1 G Ep rid1 room2 k proj Hr Hp. apply JsMap_In_set in Hr.
    destruct Hr as [[-> ->]|Hr]; [|exact (Hm out _ _ _ _ Hr Hp)].
    rewrite Ep in Hp. exact (Hm out _ _ _ _ (JsMap_get_In _ _ _ G) Hp). }
  destruct i as [socket msg|socket msg|socket msg t0 t1|socket|now]; cbn [step].
  - unfold joinRoom. destruct (JoinRoomMsg.roomId msg) as [rid|];
      [|cbn [fst snd]; split; [apply spawnedBefore_quiet; constructor|apply Hm]].
    destruct (truthyS rid);
      [|cbn [fst snd]; split; [apply spawnedBefore_quiet; constructor|apply Hm]].
    unfold getRoom. destruct (JsMap.get rid (rooms w)) as [room0|] eqn:G; cbn [fst snd rooms].
    + split; [apply spawnedBefore_quiet; repeat constructor|].
      now apply (Hset _ rid room0).
    + destruct (seedEnemies _ _ _ _) as [es rnd1]. cbn [fst snd rooms].
      split; [apply spawnedBefore_quiet; repeat constructor|].
      rewrite JsMap_set_set. intros rid1 room2 k proj Hr Hp. apply JsMap_In_set in Hr.
      destruct Hr as [[-> ->]|Hr]; [destruct Hp|exact (Hm _ _ _ _ _ Hr Hp)].
  - cbn [fst snd]. split; [apply spawnedBefore_quiet; constructor|]. unfold input.
    destruct (lookupRoom _ _) as [[rid room0]|] eqn:L; [|apply Hm].
    apply lookupRoom_get in L. destruct L as [_ G].
    destruct (JsMap.get socket _) as [p0|]; [|apply Hm]. cbn [rooms].
    now apply (Hset _ rid room0).
  - unfold action.
    destruct (lookupRoom _ _) as [[rid room0]|] eqn:L;
      [|cbn [fst snd]; split; [apply spawnedBefore_quiet; constructor|apply Hm]].
    apply lookupRoom_get in L. destruct L as [_ G].
    destruct (resolveActor _ _ _) as [[key0 actor]|];
      [|cbn [fst snd]; split; [apply spawnedBefore_quiet; constructor|apply Hm]].
    destruct (String.eqb _ "cast").
    + cbn [fst snd actionCast rooms].
      split; [apply spawnedBefore_quiet; repeat constructor|]. now apply (Hset _ rid room0).
    + destruct (String.eqb _ "attack");
        [|cbn [fst snd]; split; [apply spawnedBefore_quiet; constructor|apply Hm]].
      unfold actionAttack, emitEvent.
      destruct (attackTarget _ _) as [[id e]|]; cbn [fst snd rooms].
      * split; [apply spawnedBefore_quiet; destruct (_ <=? 0); repeat constructor|].
        now apply (Hset _ rid room0).
      * split; [apply spawnedBefore_quiet; constructor|]. now apply (Hset _ rid room0).
  - unfold disconnect. destruct (find _ (rooms w)) as [[rid room0]|] eqn:F;
      [|cbn [fst snd]; split; [apply spawnedBefore_quiet; constructor|apply Hm]].
    pose proof (find_some _ _ F) as [Hin _].
    destruct (JsMap.get socket _) as [p0|];
      [|cbn [fst snd]; split; [apply spawnedBefore_quiet; constructor|apply Hm]].
    cbn [fst snd rooms]. split; [apply spawnedBefore_quiet; repeat constructor|].
    match goal with |- projectilesSpawned ?h _ => set (hist1 := h) end.
    assert (Hs : projectilesSpawned hist1
              (JsMap.set rid (Room.set_players room0 (JsMap.delete socket (Room.players room0)))
                         (rooms w))).
    { intros rid1 room1 k proj Hr Hp. apply JsMap_In_set in Hr.
      destruct Hr as [[-> ->]|Hr]; [|exact (Hm _ _ _ _ _ Hr Hp)].
      exact (Hm _ _ _ _ _ Hin Hp). }
    destruct (Nat.eqb _ 0); [|exact Hs].
    intros rid1 room1 k proj Hr. apply JsMap_In_delete in Hr. now apply Hs.
  - unfold tick.
    pose proof (tickRooms_spawned now (tickDelta now (lastTick w)) (rooms w) hist rnd H) as Ht.
    destruct (tickRooms _ _ _ _) as [[rs1 rnd1] out]. exact Ht.
Qed.

Lemma run_spawned startRead rnd ins :
  spawnedBefore [] (snd (run (initial startRead) rnd ins))
  /\ projectilesSpawned (snd (run (initial startRead) rnd ins))
                        (rooms (fst (fst (run (initial startRead) rnd ins)))).
Proof.
  induction ins as [|i r IH] using rev_ind.
  - split; [apply spawnedBefore_quiet; constructor|]. intros ? ? ? ? [].
  - destruct IH as [P K]. rewrite run_app, run_one. cbn [fst snd].
    destruct (step_spawned _ (fst (fst (run (initial startRead) rnd r)))
                (snd (fst (run (initial startRead) rnd r))) i K) as [P1 K1].
    split; [now apply spawnedBefore_app|exact K1].
Qed.

(** X24. A projectile is announced before anything happens to it: every
    [hit] and every [projectile_despawn] event the server emits names a
    projectile for which the same room was sent a [projectile_spawn] event
    before. *)
Theorem projectile_events_follow_spawn :
  forall startRead rnd ins before o after roomId projId,
  snd (run (initial startRead) rnd ins) = before ++ o :: after ->
  (o = Event roomId (projectile_despawn projId)
   \/ exists ownerId targetType targetId,
        o = Event roomId (hit projId ownerId targetType targetId)) ->
  exists ownerId targetEnemyId,
    In (Event roomId (projectile_spawn projId "fireball" ownerId targetEnemyId)) before.
Proof.
  intros startRead rnd ins before o after rid k E Ho.
  destruct (run_spawned startRead rnd ins) as [P _].
  apply (P before o after rid k E).
  destruct Ho as [->|(ow & tt & ti & ->)]; reflexivity.
Qed.

(** ** Inputs compose *)

Lemma assignIfNumber_numberOf v p set :
  assignIfNumber v p set = match numberOf v with Some f => set p f | None => p end.
Proof. destruct v; reflexivity. Qed.

Lemma numberOf_pick a b :
  numberOf (if typeof_number b then b else a)
  = match numberOf b with Some f => Some f | None => numberOf a end.
Proof. destruct b; reflexivity. Qed.

(** X25. Inputs overwrite: two [input] messages of a connection for the
    same room have the effect of the single message that carries, field by
    field, the later number (or the earlier one where the later message
    has none). In particular a repeated input changes nothing more, and an
    input with three numbers makes every earlier input irrelevant. *)
Theorem inputs_compose : forall socket m1 m2 w,
  InputMsg.roomId m1 = InputMsg.roomId m2 ->
  input socket m2 (input socket m1 w) = input socket (laterInput m1 m2) w.
Proof.
  intros socket m1 m2 w Er. unfold input at 2 3. cbn [InputMsg.roomId laterInput].
  rewrite <- Er.
  destruct (lookupRoom (rooms w) (InputMsg.roomId m1)) as [[rid room]|] eqn:L.
  - pose proof (lookupRoom_get _ _ _ _ L) as [Eo G].
    destruct (JsMap.get socket (Room.players room)) as [p|] eqn:Gp.
    + assert (Ep : assignIfNumber (InputMsg.rotY m2)
                     (assignIfNumber (InputMsg.vz m2)
                        (assignIfNumber (InputMsg.vx m2)
                           (assignIfNumber (InputMsg.rotY m1)
                              (assignIfNumber (InputMsg.vz m1)
                                 (assignIfNumber (InputMsg.vx m1) p Player.set_vx)
                                 Player.set_vz)
                              Player.set_rotY)
                           Player.set_vx)
                        Player.set_vz)
                     Player.set_rotY
                   = assignIfNumber (InputMsg.rotY (laterInput m1 m2))
                       (assignIfNumber (InputMsg.vz (laterInput m1 m2))
                          (assignIfNumber (InputMsg.vx (laterInput m1 m2)) p Player.set_vx)
                          Player.set_vz)
                       Player.set_rotY).
      { unfold laterInput. cbn [InputMsg.vx InputMsg.vz InputMsg.rotY].
        rewrite !assignIfNumber_numberOf, !numberOf_pick.
        destruct (numberOf (InputMsg.vx m1)), (numberOf (InputMsg.vz m1)),
          (numberOf (InputMsg.rotY m1)), (numberOf (InputMsg.vx m2)),
          (numberOf (InputMsg.vz m2)), (numberOf (InputMsg.rotY m2)); destruct p; reflexivity. }
      unfold input. cbn [rooms lastTick]. rewrite <- Er, Eo. cbn [lookupRoom].
      rewrite JsMap_get_set_same. cbn [Room.players Room.set_players].
      rewrite JsMap_get_set_same, !JsMap_set_set, Ep.
      cbn [Room.enemies Room.projectiles Room.env]. reflexivity.
    + unfold input. rewrite <- Er, L, Gp. reflexivity.
  - unfold input. rewrite <- Er, L. reflexivity.
Qed.

(** ** Joining and leaving *)

Lemma JsMap_delete_set_absent {V : Type} k (v : V) m :
  JsMap.get k m = None -> JsMap.delete k (JsMap.set k v m) = m.
Proof.
  induction m as [|[k1 v1] r IH]; cbn [JsMap.get JsMap.set JsMap.delete].
  - intros _. now rewrite String.eqb_refl.
  - destruct (String.eqb k1 k) eqn:E; [discriminate|]. intros G.
    cbn [JsMap.delete]. now rewrite E, IH.
Qed.

Lemma find_set_first (socket rid : string) room1 rs :
  Forall (fun kr => JsMap.has socket (Room.players (snd kr)) = false) rs ->
  JsMap.has socket (Room.players room1) = true ->
  find (fun kr => JsMap.has socket (Room.players (snd kr))) (JsMap.set rid room1 rs)
  = Some (rid, room1).
Proof.
  intros H H1. induction H as [|[k r0] r Hk _ IH]; cbn [JsMap.set find snd].
  - now rewrite H1.
  - destruct (String.eqb k rid); cbn [find snd].
    + now rewrite H1.
    + cbn [snd] in Hk. now rewrite Hk.
Qed.

(** X26. Joining a room and disconnecting is a round trip on the registry.
    For a connection that is a player of no room, in a state in which no
    room is empty (as in every reachable state): after [joinRoom] and then
    the disconnect, rooms and [lastTick] are what they were before - the
    player is gone again, and a room the join created is deleted again. Of
    the join there remain the events sent and, when a room was created, the
    random numbers drawn for its enemies. *)
Theorem join_then_disconnect_restores : forall socket msg w rnd,
  absent socket w ->
  allRooms occupied (rooms w) ->
  fst (disconnect socket (fst (fst (joinRoom socket msg w rnd)))) = w.
Proof.
  intros socket msg w rnd Ha Ho.
  assert (Hn : disconnect socket w = (w, [])).
  { unfold disconnect. apply find_none_Forall in Ha. now rewrite Ha. }
  unfold joinRoom. destruct (JoinRoomMsg.roomId msg) as [rid|]; [|cbn [fst]; now rewrite Hn].
  destruct (truthyS rid); [|cbn [fst]; now rewrite Hn].
  set (p := Player.mk socket _ _ _ _ _ _ _ _ _ _ _ _).
  unfold getRoom. destruct (JsMap.get rid (rooms w)) as [room|] eqn:G.
  - cbn [fst rooms lastTick].
    assert (Gs : JsMap.get socket (Room.players room) = None).
    { unfold absent in Ha. rewrite Forall_forall in Ha.
      specialize (Ha _ (JsMap_get_In _ _ _ G)). cbn [snd] in Ha. unfold JsMap.has in Ha.
      now destruct (JsMap.get socket (Room.players room)). }
    unfold disconnect. cbn [rooms lastTick].
    rewrite (find_set_first socket rid _ (rooms w) Ha)
      by (unfold JsMap.has; cbn [Room.players Room.set_players];
          now rewrite JsMap_get_set_same).
    cbn [Room.players Room.set_players]. rewrite JsMap_get_set_same. cbn [fst].
    rewrite (JsMap_delete_set_absent _ _ _ Gs), JsMap_set_set.
    pose proof (allRooms_get _ _ _ _ Ho G) as Hr. unfold occupied in Hr.
    destruct (Room.players room) as [|kp ps] eqn:Ep; [contradiction|].
    cbn [JsMap.size List.length Nat.eqb].
    replace (Room.set_players (Room.set_players room (JsMap.set socket p (kp :: ps))) (kp :: ps))
      with room by (destruct room; cbn in *; now subst).
    rewrite (JsMap_set_get_id _ _ _ G). now destruct w.
  - destruct (seedEnemies _ _ _ _) as [es rnd1]. cbn [fst rooms lastTick].
    rewrite JsMap_set_set. unfold disconnect. cbn [rooms lastTick].
    rewrite (find_set_first socket rid _ (rooms w) Ha)
      by (unfold JsMap.has; cbn [Room.players Room.set_players JsMap.set JsMap.get];
          now rewrite String.eqb_refl).
    cbn [Room.players Room.set_players JsMap.set JsMap.get]. rewrite String.eqb_refl.
    cbn [fst JsMap.delete]. rewrite String.eqb_refl. cbn [JsMap.size List.length Nat.eqb].
    rewrite JsMap_set_set, (JsMap_delete_set_absent _ _ _ G). now destruct w.
Qed.

(** ** A quiet tick *)

Lemma resolveCasts_none_due roomId now p cs room rnd :
  Forall (fun c => now < Cast.finishAt c) cs ->
  resolveCasts roomId now p cs room rnd = (cs, room, rnd, []).
Proof.
  induction 1 as [|c r Hc _ IH]; cbn [resolveCasts]; [reflexivity|].
  apply Z.ltb_lt in Hc. now rewrite Hc, IH.
Qed.

Lemma stepCasts_none_due roomId now ps : forall room rnd,
  Forall (fun kp => Forall (fun c => now < Cast.finishAt c) (Player.casts (snd kp))) ps ->
  stepCasts roomId now ps room rnd = (ps, room, rnd, []).
Proof.
  induction ps as [|[k p] r IH]; intros room rnd H; cbn [stepCasts]; [reflexivity|].
  inversion H as [|? ? Hp Hr]; subst. cbn [snd] in Hp.
  destruct (Player.casts p) as [|c cs] eqn:Ec.
  - now rewrite IH.
  - rewrite resolveCasts_none_due by assumption. rewrite IH by assumption.
    cbn [app]. do 3 f_equal. rewrite <- Ec. now destruct p.
Qed.

(** X27. No event without a cause: the tick of a room in which no cast is
    due and no projectile flies sends that room its snapshot and nothing
    else, raises no random number for casts, and leaves cast lists, hit
    points and the (empty) projectile map as they were - only the players
    and the enemies move. *)
Theorem quiet_room_sends_only_snapshot : forall roomId now dt room rnd,
  noCastDue now room ->
  Room.projectiles room = [] ->
  let room1 := fst (fst (tickRoom roomId now dt room rnd)) in
  snd (tickRoom roomId now dt room rnd) = [Snapshot roomId (snapshot now room1)]
  /\ Room.players room1 = movePlayers dt (Room.players room)
  /\ Room.projectiles room1 = []
  /\ map (fun ke => (fst ke, Enemy.hp (snd ke))) (Room.enemies room1)
     = map (fun ke => (fst ke, Enemy.hp (snd ke))) (Room.enemies room).
Proof.
  intros roomId now dt room rnd Hc Hp room1. subst room1.
  destruct (tickRoom_stages roomId now dt room rnd) as (es2 & rnd2 & ps3 & room3 & rnd3 & out3
                                                        & E2 & E3 & F3 & E).
  cbv zeta in E.
  assert (Hm : Forall (fun kp => Forall (fun c => now < Cast.finishAt c) (Player.casts (snd kp)))
                      (movePlayers dt (Room.players room))).
  { unfold movePlayers. rewrite Forall_map. eapply Forall_impl; [|exact Hc].
    intros [k p] H. cbn [snd] in *. unfold movePlayer. now destruct (PrimFloat.ltb _ _). }
  cbn [Room.players Room.set_players] in E3.
  rewrite (stepCasts_none_due roomId now _ _ rnd2 Hm) in E3.
  injection E3 as <- <- <- <-.
  cbn [Room.projectiles Room.set_enemies Room.set_players Room.env] in E.
  rewrite Hp in E. cbn [stepProjectiles fst snd app] in E. rewrite E. cbn [fst snd].
  split; [reflexivity|]. split; [reflexivity|]. split; [reflexivity|].
  cbn [Room.enemies]. apply (f_equal fst) in E2. cbn [fst] in E2. subst es2.
  clear. generalize (Room.set_players room (movePlayers dt (Room.players room))).
  intros room1. revert rnd. induction (Room.enemies room) as [|[k e] r IH]; intros rnd;
    cbn [stepEnemies]; [reflexivity|].
  pose proof (stepEnemy_vitals now dt room1 rnd e) as (_ & Hhp & _).
  destruct (stepEnemy now dt room1 rnd e) as [e1 rnd1].
  specialize (IH rnd1). destruct (stepEnemies now dt room1 rnd1 r) as [r1 rnd2].
  cbn [fst snd map] in *. now rewrite IH, Hhp.
Qed.

(** * The lifecycle of a projectile

    The claim on projectiles is about runs of the server; its proof rests
    on the invariants of the reachable states established above. *)

Lemma count_app f out1 out2 : count f (out1 ++ out2) = (count f out1 + count f out2)%nat.
Proof. unfold count. now rewrite filter_app, length_app. Qed.

Lemma count_none f out : Forall (fun o => f o = false) out -> count f out = 0%nat.
Proof.
  unfold count. induction 1 as [|o r Ho _ IH]; [reflexivity|]. cbn [filter]. now rewrite Ho.
Qed.

Lemma flown_moveProjectile dt proj : moveProjectile dt proj = flown dt proj.
Proof. reflexivity. Qed.

Lemma inRange_sameEnemies es es1 proj1 :
  sameEnemies es es1 -> inRange es1 proj1 = inRange es proj1.
Proof.
  intros [_ H]. unfold inRange. specialize (H (Projectile.targetEnemyId proj1)).
  destruct (JsMap.get _ es) as [e|], (JsMap.get _ es1) as [e1|]; try tauto.
  destruct H as (_ & Hx & Hz & _). now rewrite Hx, Hz.
Qed.

(** One projectile at one tick, case by case. *)
Lemma stepProjectile_fate roomId now dt es k proj :
  match fateAt now dt es proj with
  | Expired =>
      stepProjectile roomId now dt es k proj
      = (es, None, [Event roomId (projectile_despawn k)])
  | HitTarget =>
      exists e,
        JsMap.get (Projectile.targetEnemyId proj) es = Some e
        /\ let hp1 := Z.max 0 (Enemy.hp e - Projectile.damage proj) in
           stepProjectile roomId now dt es k proj
           = (JsMap.set (Projectile.targetEnemyId proj) (Enemy.set_hp e hp1) es, None,
              [Event roomId (hit k (Projectile.ownerId proj) "enemy" (Enemy.enemyId e));
               Event roomId (damage (Projectile.ownerId proj) "enemy" (Enemy.enemyId e)
                                    (Projectile.damage proj) hp1 (Enemy.maxHp e));
               Event roomId (projectile_despawn k)]
              ++ (if hp1 <=? 0 then [Event roomId (enemy_death (Enemy.enemyId e))] else []))
  | Flying =>
      stepProjectile roomId now dt es k proj = (es, Some (flown dt proj), [])
  end.
Proof.
  unfold fateAt, stepProjectile, inRange, withinHitRadius, truthyS.
  change (Projectile.expiresAt (moveProjectile dt proj)) with (Projectile.expiresAt proj).
  change (Projectile.targetEnemyId (moveProjectile dt proj))
    with (Projectile.targetEnemyId proj).
  change (Projectile.targetEnemyId (flown dt proj)) with (Projectile.targetEnemyId proj).
  change (moveProjectile dt proj) with (flown dt proj).
  destruct (_ <=? now); [reflexivity|].
  destruct (negb _); cbn [andb]; [|reflexivity].
  destruct (JsMap.get _ es) as [e|]; [|reflexivity].
  destruct (PrimFloat.ltb _ _) eqn:W; [|reflexivity].
  exists e. split; [reflexivity|]. reflexivity.
Qed.

Lemma isDespawnOf_event roomId k rid body :
  isDespawnOf roomId k (Event rid body) = true ->
  rid = roomId /\ body = projectile_despawn k.
Proof.
  destruct body; cbn; try discriminate. intros H. apply andb_prop in H.
  destruct H as [H1 H2]. apply String.eqb_eq in H1, H2. now subst.
Qed.

(** The events of a projectile under another key name neither a despawn
    nor a hit of [k]. *)
Lemma stepProjectile_other roomId rid now dt es k k0 proj :
  k0 <> k ->
  count (isDespawnOf rid k) (snd (stepProjectile roomId now dt es k0 proj)) = 0%nat
  /\ count (isHitOf rid k) (snd (stepProjectile roomId now dt es k0 proj)) = 0%nat.
Proof.
  intros N. apply String.eqb_neq in N.
  pose proof (stepProjectile_fate roomId now dt es k0 proj) as H.
  destruct (fateAt now dt es proj).
  - rewrite H. split; reflexivity.
  - rewrite H. unfold count. cbn [snd filter isDespawnOf isHitOf]. rewrite N, andb_false_r.
    split; reflexivity.
  - destruct H as (e & _ & H). cbv zeta in H. rewrite H. unfold count.
    cbn [snd app filter isDespawnOf isHitOf]. rewrite N, !andb_false_r.
    destruct (_ <=? 0); cbn [app filter isDespawnOf isHitOf]; split; reflexivity.
Qed.

Lemma stepProjectiles_absent roomId rid now dt k ps : forall es,
  ~ In k (JsMap.keys ps) ->
  JsMap.get k (snd (fst (stepProjectiles roomId now dt es ps))) = None
  /\ count (isDespawnOf rid k) (snd (stepProjectiles roomId now dt es ps)) = 0%nat
  /\ count (isHitOf rid k) (snd (stepProjectiles roomId now dt es ps)) = 0%nat.
Proof.
  induction ps as [|[k0 proj0] r IH]; intros es Hn; cbn [stepProjectiles].
  - repeat split.
  - cbn [JsMap.keys map fst] in Hn.
    assert (N : k0 <> k) by (intros ->; apply Hn; now left).
    destruct (stepProjectile_other roomId rid now dt es k k0 proj0 N) as [D1 H1].
    destruct (stepProjectile roomId now dt es k0 proj0) as [[es1 kept] out1].
    destruct (IH es1 (fun H => Hn (or_intror H))) as (G2 & D2 & H2).
    destruct (stepProjectiles roomId now dt es1 r) as [[es2 r1] out2].
    cbn [fst snd] in *. rewrite !count_app, D1, D2, H1, H2. repeat split.
    destruct kept as [p1|]; [|exact G2]. cbn [JsMap.get].
    apply String.eqb_neq in N. rewrite N. exact G2.
Qed.

(** A projectile aimed at another enemy leaves enemy [id] as it is. *)
Lemma stepProjectile_untargeted roomId now dt es k0 proj0 id :
  Projectile.targetEnemyId proj0 <> id ->
  JsMap.get id (fst (fst (stepProjectile roomId now dt es k0 proj0))) = JsMap.get id es.
Proof.
  intros N. pose proof (stepProjectile_fate roomId now dt es k0 proj0) as H.
  destruct (fateAt now dt es proj0).
  - now rewrite H.
  - now rewrite H.
  - destruct H as (e & _ & H). cbv zeta in H. rewrite H. cbn [fst].
    apply JsMap_get_set_other. congruence.
Qed.

Lemma stepProjectiles_untargeted roomId now dt id ps : forall es,
  Forall (fun kp => Projectile.targetEnemyId (snd kp) <> id) ps ->
  JsMap.get id (fst (fst (stepProjectiles roomId now dt es ps))) = JsMap.get id es.
Proof.
  induction ps as [|[k0 proj0] r IH]; intros es F; [reflexivity|].
  inversion F as [|? ? F0 Fr]; subst. cbn [snd] in F0. cbn [stepProjectiles].
  pose proof (stepProjectile_untargeted roomId now dt es k0 proj0 id F0) as U.
  destruct (stepProjectile roomId now dt es k0 proj0) as [[es1 kept] out1].
  specialize (IH es1 Fr).
  destruct (stepProjectiles roomId now dt es1 r) as [[es2 r1] out2].
  cbn [fst snd] in *. now rewrite IH.
Qed.

(** One tick of the loop of step 4, followed for the projectile under key
    [k]; [es0] are the enemies the loop started from. *)
Lemma stepProjectiles_track roomId now dt k proj es0 ps : forall es,
  sameEnemies es0 es -> notHealed es0 es ->
  Forall (fun kp => 0 <= Projectile.damage (snd kp)) ps ->
  Forall (fun ke => enemyVitals (snd ke)) es ->
  NoDup (JsMap.keys ps) ->
  JsMap.get k ps = Some proj ->
  let es1 := fst (fst (stepProjectiles roomId now dt es ps)) in
  let ps1 := snd (fst (stepProjectiles roomId now dt es ps)) in
  let out := snd (stepProjectiles roomId now dt es ps) in
  match fateAt now dt es0 proj with
  | Flying =>
      JsMap.get k ps1 = Some (flown dt proj)
      /\ count (isDespawnOf roomId k) out = 0%nat /\ count (isHitOf roomId k) out = 0%nat
  | Expired =>
      JsMap.get k ps1 = None
      /\ count (isDespawnOf roomId k) out = 1%nat /\ count (isHitOf roomId k) out = 0%nat
  | HitTarget =>
      JsMap.get k ps1 = None
      /\ count (isDespawnOf roomId k) out = 1%nat /\ count (isHitOf roomId k) out = 1%nat
      /\ exists e hp0 pre post e1,
           JsMap.get (Projectile.targetEnemyId proj) es0 = Some e
           /\ hp0 <= Enemy.hp e
           /\ out
              = pre
                ++ [Event roomId (hit k (Projectile.ownerId proj) "enemy" (Enemy.enemyId e));
                    Event roomId (damage (Projectile.ownerId proj) "enemy" (Enemy.enemyId e)
                                         (Projectile.damage proj)
                                         (Z.max 0 (hp0 - Projectile.damage proj))
                                         (Enemy.maxHp e));
                    Event roomId (projectile_despawn k)]
                ++ post
           /\ JsMap.get (Projectile.targetEnemyId proj) es1 = Some e1
           /\ Enemy.hp e1 <= Z.max 0 (hp0 - Projectile.damage proj)
           /\ (JsMap.get (Projectile.targetEnemyId proj) es
               = JsMap.get (Projectile.targetEnemyId proj) es0 ->
               aimedApart k proj ps ->
               hp0 = Enemy.hp e
               /\ e1 = Enemy.set_hp e (Z.max 0 (Enemy.hp e - Projectile.damage proj)))
  end.
Proof.
  induction ps as [|[k0 proj0] r IH]; intros es S NH Hd Hv ND G; [discriminate|].
  cbn [stepProjectiles]. cbn [JsMap.get] in G. cbn [JsMap.keys map fst] in ND.
  inversion ND as [|? ? Hn ND']; subst. inversion Hd as [|? ? Hd0 Hdr]; subst.
  cbn [snd] in Hd0.
  destruct (String.eqb k0 k) eqn:E.
  - apply String.eqb_eq in E. subst k0. injection G as ->.
    pose proof (stepProjectile_fate roomId now dt es k proj) as H.
    assert (Ef : fateAt now dt es proj = fateAt now dt es0 proj).
    { unfold fateAt. now rewrite (inRange_sameEnemies es0 es). }
    rewrite Ef in H.
    destruct (fateAt now dt es0 proj).
    + rewrite H. destruct (stepProjectiles_absent roomId roomId now dt k r es Hn) as (G2 & D2 & H2).
      destruct (stepProjectiles roomId now dt es r) as [[es2 r1] out2].
      cbn [fst snd app JsMap.get] in *. rewrite String.eqb_refl. auto.
    + rewrite H. destruct (stepProjectiles_absent roomId roomId now dt k r es Hn) as (G2 & D2 & H2).
      destruct (stepProjectiles roomId now dt es r) as [[es2 r1] out2].
      cbn [fst snd] in *. rewrite !count_app, D2, H2. unfold count.
      cbn [filter isDespawnOf isHitOf List.length]. rewrite !String.eqb_refl. auto.
    + destruct H as (e' & Ge' & H). cbv zeta in H. rewrite H.
      destruct S as [Sk Sg]. pose proof (Sg (Projectile.targetEnemyId proj)) as Sp.
      rewrite Ge' in Sp.
      destruct (JsMap.get (Projectile.targetEnemyId proj) es0) as [e|] eqn:Ge; [|contradiction].
      destruct (NH _ _ Ge) as (e'' & Ge'' & Hhp & _ & Hmax).
      rewrite Ge' in Ge''. injection Ge'' as <-.
      destruct Sp as (Hid & _ & _ & _).
      set (es' := JsMap.set (Projectile.targetEnemyId proj)
                            (Enemy.set_hp e' (Z.max 0 (Enemy.hp e' - Projectile.damage proj))) es).
      assert (Hv' : Forall (fun ke => enemyVitals (snd ke)) es').
      { pose proof (stepProjectile_vitals roomId now dt es k proj Hd0 Hv) as V.
        rewrite H in V. exact V. }
      pose proof (stepProjectiles_notHealed roomId now dt r es' Hdr Hv') as NH'.
      destruct (stepProjectiles_absent roomId roomId now dt k r es' Hn) as (G2 & D2 & H2).
      destruct (stepProjectiles roomId now dt es' r) as [[es2 r1] out2] eqn:E2.
      cbn [fst snd] in *.
      destruct (NH' (Projectile.targetEnemyId proj) _ (JsMap_get_set_same _ _ _))
        as (e1 & Ge1 & Hhp1 & _).
      split; [exact G2|]. rewrite !count_app, D2, H2. unfold count.
      split; [|split].
      * cbn [app filter isDespawnOf isHitOf List.length]. rewrite !String.eqb_refl.
        destruct (_ <=? 0); cbn [app filter isDespawnOf isHitOf List.length]; reflexivity.
      * cbn [app filter isDespawnOf isHitOf List.length]. rewrite !String.eqb_refl.
        destruct (_ <=? 0); cbn [app filter isDespawnOf isHitOf List.length]; reflexivity.
      * exists e, (Enemy.hp e'), [].
        exists ((if Z.max 0 (Enemy.hp e' - Projectile.damage proj) <=? 0
                 then [Event roomId (enemy_death (Enemy.enemyId e'))] else []) ++ out2), e1.
        split; [reflexivity|]. split; [exact Hhp|]. split.
        { cbn [Enemy.set_hp Enemy.enemyId Enemy.maxHp Enemy.hp]. rewrite Hid, Hmax.
          cbn [app]. reflexivity. }
        split; [exact Ge1|]. split; [exact Hhp1|].
        intros Es A. rewrite Ge' in Es. injection Es as ->. split; [reflexivity|].
        inversion A as [|? ? _ Ar]; subst.
        assert (U : Forall (fun kp => Projectile.targetEnemyId (snd kp)
                                      <> Projectile.targetEnemyId proj) r).
        { rewrite Forall_forall in Ar |- *. intros [k1 proj1] I.
          destruct (Ar _ I) as [Ek|Nt]; [|exact Nt]. cbn [fst] in Ek. subst k1.
          elim Hn. unfold JsMap.keys. apply in_map_iff. now exists (k, proj1). }
        pose proof (stepProjectiles_untargeted roomId now dt (Projectile.targetEnemyId proj)
                      r es' U) as Eg.
        rewrite E2 in Eg. cbn [fst] in Eg. rewrite Ge1 in Eg. unfold es' in Eg.
        rewrite JsMap_get_set_same in Eg. now injection Eg.
  - assert (N : k0 <> k) by (now apply String.eqb_neq).
    destruct (stepProjectile_other roomId roomId now dt es k k0 proj0 N) as [D1 H1].
    pose proof (stepProjectile_enemies roomId now dt es k0 proj0) as S1.
    pose proof (stepProjectile_notHealed roomId now dt es k0 proj0 Hd0 Hv) as NH1.
    pose proof (stepProjectile_vitals roomId now dt es k0 proj0 Hd0 Hv) as V1.
    pose proof (stepProjectile_untargeted roomId now dt es k0 proj0
                  (Projectile.targetEnemyId proj)) as U1.
    destruct (stepProjectile roomId now dt es k0 proj0) as [[es1 kept] out1].
    cbn [fst snd] in *.
    specialize (IH es1 (sameEnemies_trans _ _ _ S S1) (notHealed_trans _ _ _ NH NH1) Hdr V1
                   ND' G). cbv zeta in IH.
    destruct (stepProjectiles roomId now dt es1 r) as [[es2 r1] out2].
    cbn [fst snd] in *. rewrite !count_app, D1, H1. cbn [Nat.add].
    destruct (fateAt now dt es0 proj).
    + destruct kept as [p1|]; [|exact IH]. cbn [JsMap.get]. rewrite E. exact IH.
    + destruct kept as [p1|]; [|exact IH]. cbn [JsMap.get]. rewrite E. exact IH.
    + destruct IH as (G2 & D2 & H2 & e & hp0 & pre & post & e1 & Ge & Hhp & Eo & Ge1 & Hhp1
                      & Hex).
      split; [|split; [exact D2|split; [exact H2|]]].
      { destruct kept as [p1|]; [|exact G2]. cbn [JsMap.get]. rewrite E. exact G2. }
      exists e, hp0, (out1 ++ pre), post, e1. rewrite Eo, <- app_assoc.
      do 5 (split; [auto|]). intros Es A. inversion A as [|? ? A0 Ar]; subst.
      cbn [fst snd] in A0. destruct A0 as [Ek|Nt]; [now elim N|].
      apply Hex; [|exact Ar]. rewrite (U1 Nt). exact Es.
Qed.

(** The loop body is steps 1 to 3, then step 4 on what they leave, then the
    snapshot. *)
Lemma tickRoom_step4 roomId now dt room rnd :
  tickRoom roomId now dt room rnd
  = let '(players3, room3, rnd3, out3) := stepsBefore4 roomId now dt room rnd in
    let '(enemies4, projectiles4, out4) :=
      stepProjectiles roomId now dt (Room.enemies room3) (Room.projectiles room3) in
    let room4 := Room.mk players3 enemies4 projectiles4 (Room.env room3) in
    (room4, rnd3, out3 ++ out4 ++ [Snapshot roomId (snapshot now room4)]).
Proof.
  unfold tickRoom, stepsBefore4.
  destruct (stepEnemies now dt _ rnd _) as [es2 rnd2].
  destruct (stepCasts roomId now _ _ rnd2) as [[[ps3 room3] rnd3] out3]. reflexivity.
Qed.

Lemma spawnProjectile_NoDup room proj :
  projectilesDistinct room -> projectilesDistinct (spawnProjectile room proj).
Proof.
  unfold projectilesDistinct, spawnProjectile. cbn [Room.projectiles Room.set_projectiles].
  intros H. apply JsMap_NoDup_set. destruct (Nat.ltb _ _); [|exact H].
  case_eq (JsMap.keys (Room.projectiles room)); [intros _; exact H|]. intros k0 ks _.
  destruct (truthyS k0); [|exact H]. now apply JsMap_NoDup_delete.
Qed.

(** What steps 1 to 3 hand to step 4 in a room of a reachable state. *)
Lemma stepsBefore4_sound roomId now dt room rnd :
  enemiesSound room -> projectilesDistinct room -> projectilesSane room ->
  let room3 := snd (fst (fst (stepsBefore4 roomId now dt room rnd))) in
  Forall (fun ke => enemyVitals (snd ke)) (Room.enemies room3)
  /\ Forall (fun kp => 0 <= Projectile.damage (snd kp)) (Room.projectiles room3)
  /\ NoDup (JsMap.keys (Room.projectiles room3))
  /\ Forall fireballSane (Room.projectiles room3)
  /\ Forall (fun o => projectileOf o = None) (snd (stepsBefore4 roomId now dt room rnd)).
Proof.
  intros (K & Hv & Hd) ND SN. unfold stepsBefore4.
  set (room1 := Room.set_players room _).
  pose proof (stepEnemies_Forall enemyVitals now dt room1 (Room.enemies room1)) as V2.
  destruct (stepEnemies now dt room1 rnd (Room.enemies room1)) as [es2 rnd2] eqn:E2.
  set (room2 := Room.set_enemies room1 es2).
  pose proof (stepCasts_frame roomId now (Room.players room2) room2 rnd2) as F3.
  pose proof (stepCasts_inv
                (fun r => Forall (fun kp => 0 <= Projectile.damage (snd kp)) (Room.projectiles r))
                roomId now (Room.players room2) room2 rnd2) as D3.
  pose proof (stepCasts_inv projectilesDistinct roomId now (Room.players room2) room2 rnd2)
    as N3.
  pose proof (stepCasts_quiet roomId now (Room.players room2) room2 rnd2) as Q3.
  pose proof (stages_sane roomId now dt room rnd es2 rnd2) as S3.
  destruct (stepCasts roomId now (Room.players room2) room2 rnd2)
    as [[[ps3 room3] rnd3] out3] eqn:E3.
  cbn [fst snd] in *. destruct F3 as (_ & F3 & _).
  change (Room.enemies room2) with es2 in *.
  change (Room.enemies room1) with (Room.enemies room) in *.
  rewrite F3.
  split; [|split; [|split; [|split]]].
  - specialize (V2 (fun e e1 (S : sameVitals e e1) (H : enemyVitals e) =>
                      ltac:(unfold sameVitals, enemyVitals in *; intuition congruence)) rnd).
    rewrite E2 in V2. cbn [fst] in V2. unfold JsMap.values in V2.
    rewrite !Forall_map in V2. apply V2. exact Hv.
  - apply D3; [|exact Hd]. intros room0 p target rnd0 _ H0.
    apply spawnProjectile_Forall; [exact H0|]. simpl. unfold CONFIG.defaultFireball.damage. lia.
  - apply N3; [|exact ND]. intros room0 p target rnd0 _ H0. now apply spawnProjectile_NoDup.
  - apply (S3 ps3 room3 rnd3 out3 SN E2). exact E3.
  - exact Q3.
Qed.

Lemma tickRoom_projectilesDistinct roomId now dt room rnd :
  projectilesDistinct room ->
  projectilesDistinct (fst (fst (tickRoom roomId now dt room rnd))).
Proof.
  intros ND. rewrite tickRoom_step4. unfold stepsBefore4.
  set (room1 := Room.set_players room _).
  destruct (stepEnemies now dt room1 rnd (Room.enemies room1)) as [es2 rnd2].
  set (room2 := Room.set_enemies room1 es2).
  pose proof (stepCasts_inv projectilesDistinct roomId now (Room.players room2) room2 rnd2)
    as N3.
  destruct (stepCasts roomId now (Room.players room2) room2 rnd2)
    as [[[ps3 room3] rnd3] out3].
  pose proof (stepProjectiles_NoDup roomId now dt (Room.projectiles room3) (Room.enemies room3))
    as N4.
  destruct (stepProjectiles roomId now dt (Room.enemies room3) (Room.projectiles room3))
    as [[es4 ps4] out4].
  cbn [fst snd] in *. unfold projectilesDistinct. cbn [Room.projectiles]. apply N4.
  apply N3; [|exact ND]. intros room0 p target rnd0 _ H0. now apply spawnProjectile_NoDup.
Qed.

Lemma projectilesDistinct_reachable startRead rnd ins :
  allRooms projectilesDistinct (rooms (fst (fst (run (initial startRead) rnd ins)))).
Proof.
  apply reachable_allRooms.
  - intros rnd0. constructor.
  - intros room socket playerId name H. exact H.
  - intros room socket p msg H _. exact H.
  - intros roomId room key actor payload t0 t1 H _. exact H.
  - intros roomId room actor payload H. unfold actionAttack.
    destruct (attackTarget room payload) as [[id e]|]; exact H.
  - intros room socket H. exact H.
  - intros roomId now dt room rnd0 H. now apply tickRoom_projectilesDistinct.
Qed.

(** The tick of room [roomId] within the loop over the registry: it runs
    on the random stream the rooms before it have left, and the rest of the
    tick's output belongs to other rooms. *)
Lemma tickRooms_at now dt rid room rs : forall rnd,
  NoDup (JsMap.keys rs) -> JsMap.get rid rs = Some room ->
  JsMap.get rid (fst (fst (tickRooms now dt rs rnd)))
  = Some (fst (fst (tickRoom rid now dt room (streamFor now dt rs rnd rid))))
  /\ exists before after,
       snd (tickRooms now dt rs rnd)
       = before ++ snd (tickRoom rid now dt room (streamFor now dt rs rnd rid)) ++ after
       /\ Forall (fun o => forall body, o <> Event rid body) before
       /\ Forall (fun o => forall body, o <> Event rid body) after.
Proof.
  induction rs as [|[k1 room1] r IH]; intros rnd ND G; [discriminate|].
  cbn [JsMap.get] in G. cbn [JsMap.keys map fst] in ND. inversion ND as [|? ? Hn ND']; subst.
  cbn [tickRooms streamFor]. destruct (String.eqb k1 rid) eqn:E.
  - apply String.eqb_eq in E. subst k1. injection G as ->.
    destruct (tickRoom rid now dt room rnd) as [[room2 rnd1] out1].
    pose proof (tickRooms_addressed now dt r rnd1) as A.
    destruct (tickRooms now dt r rnd1) as [[r1 rnd2] out2]. cbn [fst snd JsMap.get] in *.
    rewrite String.eqb_refl. split; [reflexivity|].
    exists [], out2. split; [reflexivity|]. split; [constructor|].
    eapply Forall_impl; [|exact A]. intros [s rid0|rid0 b|rid0 sn] Ho body Eo;
      try discriminate. injection Eo as -> _. exact (Hn Ho).
  - assert (N : k1 <> rid) by (now apply String.eqb_neq).
    destruct (tickRoom_sends k1 now dt room1 rnd) as (events & Ee & Hev).
    destruct (tickRoom k1 now dt room1 rnd) as [[room2 rnd1] out1].
    destruct (IH rnd1 ND' G) as (H1 & before & after & H2 & Hb & Ha).
    destruct (tickRooms now dt r rnd1) as [[r1 rnd2] out2]. cbn [fst snd JsMap.get] in *.
    rewrite E. split; [exact H1|].
    exists (out1 ++ before), after. rewrite H2, <- app_assoc. split; [reflexivity|].
    split; [|exact Ha]. apply Forall_app. split; [|exact Hb].
    rewrite Ee. apply Forall_app. split.
    + eapply Forall_impl; [|exact Hev]. intros o [b ->] body [= -> _]. now elim N.
    + constructor; [|constructor]. intros body. discriminate.
Qed.

Lemma count_elsewhere rid f out :
  (forall o, f o = true -> exists body, o = Event rid body) ->
  Forall (fun o => forall body, o <> Event rid body) out -> count f out = 0%nat.
Proof.
  intros Hf H. apply count_none. eapply Forall_impl; [|exact H].
  intros o Ho. destruct (f o) eqn:E; [|reflexivity].
  destruct (Hf o E) as [body ->]. now elim (Ho body).
Qed.

Lemma isDespawnOf_here rid k o :
  isDespawnOf rid k o = true -> exists body, o = Event rid body.
Proof.
  destruct o as [s r|r b|r sn]; try discriminate. destruct b; try discriminate.
  cbn. intros H. apply andb_prop in H. destruct H as [H _]. apply String.eqb_eq in H.
  subst. eexists. reflexivity.
Qed.

Lemma isHitOf_here rid k o :
  isHitOf rid k o = true -> exists body, o = Event rid body.
Proof.
  destruct o as [s r|r b|r sn]; try discriminate. destruct b; try discriminate.
  cbn. intros H. apply andb_prop in H. destruct H as [H _]. apply String.eqb_eq in H.
  subst. eexists. reflexivity.
Qed.

Lemma isSpawnOf_here rid k o :
  isSpawnOf rid k o = true -> exists body, o = Event rid body.
Proof.
  destruct o as [s r|r b|r sn]; try discriminate. destruct b; try discriminate.
  cbn. intros H. apply andb_prop in H. destruct H as [H _]. apply String.eqb_eq in H.
  subst. eexists. reflexivity.
Qed.

(** Events that are neither a hit nor a despawn count for nothing. *)
Lemma count_quiet rid k out :
  Forall (fun o => projectileOf o = None) out ->
  count (isDespawnOf rid k) out = 0%nat /\ count (isHitOf rid k) out = 0%nat.
Proof.
  intros H. split; apply count_none; (eapply Forall_impl; [|exact H]);
    intros [s r|r b|r sn] Ho; try reflexivity; destruct b; try reflexivity; discriminate Ho.
Qed.

Lemma reached_step w rnd i :
  reached w rnd -> reached (fst (fst (step w rnd i))) (snd (fst (step w rnd i))).
Proof.
  intros (startRead & rnd0 & ins0 & -> & ->). exists startRead, rnd0, (ins0 ++ [i]).
  rewrite run_app, run_one. split; reflexivity.
Qed.

Lemma reached_sound w rnd :
  reached w rnd ->
  wellFormed w /\ allRooms enemiesSound (rooms w) /\ allRooms projectilesDistinct (rooms w)
  /\ allRooms projectilesSane (rooms w).
Proof.
  intros (startRead & rnd0 & ins0 & -> & _).
  split; [apply reachable_wellFormed|]. split; [apply enemiesSound_reachable|].
  split; [apply projectilesDistinct_reachable|apply projectilesSane_reachable].
Qed.

(** One tick of the server, followed for the projectile that step 4 finds
    under key [k] in room [roomId]. *)
Lemma tick_track roomId k now w rnd enemies ps proj :
  reached w rnd ->
  step4View roomId now w rnd = Some (enemies, ps) ->
  JsMap.get k ps = Some proj ->
  let dt := tickDelta now (lastTick w) in
  let out := snd (tick now w rnd) in
  exists room1,
    JsMap.get roomId (rooms (fst (fst (tick now w rnd)))) = Some room1
    /\ Projectile.expiresAt proj = Projectile.createdAt proj + 2500
    /\ match fateAt now dt enemies proj with
       | Flying =>
           JsMap.get k (Room.projectiles room1) = Some (flown dt proj)
           /\ count (isDespawnOf roomId k) out = 0%nat
           /\ count (isHitOf roomId k) out = 0%nat
       | Expired =>
           JsMap.get k (Room.projectiles room1) = None
           /\ count (isDespawnOf roomId k) out = 1%nat
           /\ count (isHitOf roomId k) out = 0%nat
       | HitTarget =>
           JsMap.get k (Room.projectiles room1) = None
           /\ count (isDespawnOf roomId k) out = 1%nat
           /\ count (isHitOf roomId k) out = 1%nat
           /\ exists e hp0 pre post e1,
                JsMap.get (Projectile.targetEnemyId proj) enemies = Some e
                /\ hp0 <= Enemy.hp e
                /\ out
                   = pre
                     ++ [Event roomId (hit k (Projectile.ownerId proj) "enemy"
                                           (Enemy.enemyId e));
                         Event roomId (damage (Projectile.ownerId proj) "enemy"
                                              (Enemy.enemyId e) (Projectile.damage proj)
                                              (Z.max 0 (hp0 - Projectile.damage proj))
                                              (Enemy.maxHp e));
                         Event roomId (projectile_despawn k)]
                     ++ post
                /\ JsMap.get (Projectile.targetEnemyId proj) (Room.enemies room1) = Some e1
                /\ Enemy.hp e1 <= Z.max 0 (hp0 - Projectile.damage proj)
                /\ (aimedApart k proj ps ->
                    hp0 = Enemy.hp e
                    /\ e1 = Enemy.set_hp e (Z.max 0 (Enemy.hp e - Projectile.damage proj)))
       end.
Proof.
  intros R V G dt out. destruct (reached_sound w rnd R) as ((NDr & _) & ES & PD & PS).
  unfold step4View in V. destruct (JsMap.get roomId (rooms w)) as [room|] eqn:Gr; [|discriminate].
  fold dt in V. set (rnd0 := streamFor now dt (rooms w) rnd roomId) in V.
  pose proof (stepsBefore4_sound roomId now dt room rnd0
                (allRooms_get _ _ _ _ ES Gr) (allRooms_get _ _ _ _ PD Gr)
                (allRooms_get _ _ _ _ PS Gr)) as Hs.
  pose proof (tickRoom_step4 roomId now dt room rnd0) as T.
  destruct (stepsBefore4 roomId now dt room rnd0) as [[[ps3 room3] rnd3] out3].
  injection V as <- <-. cbn [fst snd] in Hs. destruct Hs as (Hv & Hd & ND & SN & Q3).
  pose proof (stepProjectiles_track roomId now dt k proj (Room.enemies room3)
                (Room.projectiles room3) (Room.enemies room3)
                (sameEnemies_refl _) (notHealed_refl _) Hd Hv ND G) as Tr.
  cbv zeta in Tr.
  destruct (stepProjectiles roomId now dt (Room.enemies room3) (Room.projectiles room3))
    as [[es4 ps4] out4]. cbn [fst snd] in Tr.
  destruct (tickRooms_at now dt roomId room (rooms w) rnd NDr Gr)
    as (G1 & before & after & Eo & Hb & Ha).
  fold rnd0 in G1, Eo. rewrite T in G1, Eo. cbn [fst snd] in G1, Eo.
  assert (Eout : out = before ++ (out3 ++ out4 ++ [Snapshot roomId
                    (snapshot now (Room.mk ps3 es4 ps4 (Room.env room3)))]) ++ after).
  { subst out. unfold tick. fold dt.
    destruct (tickRooms now dt (rooms w) rnd) as [[rs1 rnd1] o]. exact Eo. }
  assert (Cd : count (isDespawnOf roomId k) out = count (isDespawnOf roomId k) out4).
  { rewrite Eout, !count_app.
    rewrite (count_elsewhere roomId _ before (isDespawnOf_here roomId k) Hb).
    rewrite (count_elsewhere roomId _ after (isDespawnOf_here roomId k) Ha).
    rewrite (proj1 (count_quiet roomId k out3 Q3)). unfold count at 2. cbn. lia. }
  assert (Ch : count (isHitOf roomId k) out = count (isHitOf roomId k) out4).
  { rewrite Eout, !count_app.
    rewrite (count_elsewhere roomId _ before (isHitOf_here roomId k) Hb).
    rewrite (count_elsewhere roomId _ after (isHitOf_here roomId k) Ha).
    rewrite (proj2 (count_quiet roomId k out3 Q3)). unfold count at 2. cbn. lia. }
  exists (Room.mk ps3 es4 ps4 (Room.env room3)). split.
  { unfold tick. fold dt. destruct (tickRooms now dt (rooms w) rnd) as [[rs1 rnd1] o].
    exact G1. }
  split.
  { rewrite Forall_forall in SN. apply JsMap_get_In in G.
    destruct (SN _ G) as (_ & _ & _ & He & _). exact He. }
  cbn [Room.projectiles Room.enemies]. rewrite Cd, Ch.
  destruct (fateAt now dt (Room.enemies room3) proj); try exact Tr.
  destruct Tr as (T1 & T2 & T3 & e & hp0 & pre & post & e1 & Ge & Hhp & E4 & Ge1 & Hhp1 & Hex).
  split; [exact T1|]. split; [exact T2|]. split; [exact T3|].
  exists e, hp0, (before ++ out3 ++ pre).
  exists (post ++ [Snapshot roomId (snapshot now (Room.mk ps3 es4 ps4 (Room.env room3)))]
               ++ after), e1.
  split; [exact Ge|]. split; [exact Hhp|].
  split; [|split; [exact Ge1|split; [exact Hhp1|exact (Hex eq_refl)]]].
  rewrite Eout, E4. rewrite <- !app_assoc. reflexivity.
Qed.

(** ** A projectile that has left the map *)

(** A history that announces exactly the projectiles of a registry. *)
Lemma announced_history (rs : JsMap.t Room.t) :
  exists hist,
    projectilesSpawned hist rs
    /\ forall rid k, spawnedIn hist rid k ->
         exists room proj, In (rid, room) rs /\ In (k, proj) (Room.projectiles room).
Proof.
  exists (flat_map (fun kr => map (fun kp => Event (fst kr)
                                           (projectile_spawn (fst kp) "fireball" "" ""))
                                (Room.projectiles (snd kr))) rs).
  split.
  - intros rid room k proj Hr Hp. exists "", "". apply in_flat_map.
    exists (rid, room). split; [exact Hr|]. cbn [fst snd]. apply in_map_iff.
    exists (k, proj). split; [reflexivity|exact Hp].
  - intros rid k (o & t & H). apply in_flat_map in H. destruct H as ([rid0 room] & Hr & H).
    apply in_map_iff in H. destruct H as ([k0 proj] & E & Hp). cbn [fst snd] in *.
    injection E as -> ->. now exists room, proj.
Qed.

Lemma run_spawned_from ins : forall hist w rnd,
  projectilesSpawned hist (rooms w) -> spawnedBefore hist (snd (run w rnd ins)).
Proof.
  induction ins as [|i r IH]; intros hist w rnd H; cbn [run].
  - apply spawnedBefore_quiet. constructor.
  - destruct (step_spawned hist w rnd i H) as [P1 K1].
    destruct (step w rnd i) as [[w1 rnd1] out1]. cbn [fst snd] in *.
    specialize (IH (hist ++ out1) w1 rnd1 K1).
    destruct (run w1 rnd1 r) as [[w2 rnd2] out2]. cbn [snd] in *.
    now apply spawnedBefore_app.
Qed.

(** Once the map of room [roomId] holds nothing under [k], nothing happens
    to a projectile [k] of that room unless one is spawned under [k]. *)
Lemma gone_stays_quiet roomId k w rnd ins :
  wellFormed w ->
  (forall room, JsMap.get roomId (rooms w) = Some room ->
                JsMap.get k (Room.projectiles room) = None) ->
  count (isSpawnOf roomId k) (snd (run w rnd ins)) = 0%nat ->
  count (isDespawnOf roomId k) (snd (run w rnd ins)) = 0%nat
  /\ count (isHitOf roomId k) (snd (run w rnd ins)) = 0%nat.
Proof.
  intros [NDr _] Habs Hsp.
  destruct (announced_history (rooms w)) as (hist & Hh & Hback).
  pose proof (run_spawned_from ins hist w rnd Hh) as SB.
  assert (Hno : forall pre, (exists post o, snd (run w rnd ins) = pre ++ o :: post) ->
                            ~ spawnedIn (hist ++ pre) roomId k).
  { intros pre (post & o & E) (ow & tg & Hin). apply in_app_or in Hin.
    destruct Hin as [Hin|Hin].
    - destruct (Hback roomId k (ex_intro _ ow (ex_intro _ tg Hin))) as (room & proj & Hr & Hp).
      apply (JsMap_In_get _ _ _ NDr) in Hr. specialize (Habs room Hr).
      assert (Hk : JsMap.has k (Room.projectiles room) = true).
      { apply JsMap_has_In_keys. unfold JsMap.keys. change k with (fst (k, proj)).
        now apply in_map. }
      unfold JsMap.has in Hk. now rewrite Habs in Hk.
    - assert (C : (0 < count (isSpawnOf roomId k) (snd (run w rnd ins)))%nat); [|lia].
      rewrite E, count_app. apply in_split in Hin. destruct Hin as (l1 & l2 & ->).
      rewrite count_app. unfold count at 2. cbn [filter isSpawnOf].
      rewrite !String.eqb_refl. cbn. lia. }
  assert (Hq : Forall (fun o => projectileOf o = Some (roomId, k) -> False)
                      (snd (run w rnd ins))).
  { apply Forall_forall. intros o Hin P. apply in_split in Hin.
    destruct Hin as (pre & post & E).
    apply (Hno pre (ex_intro _ post (ex_intro _ o E))). exact (SB pre o post roomId k E P). }
  split; apply count_none; (eapply Forall_impl; [|exact Hq]);
    intros [s r|r b|r sn] Ho; try reflexivity; destruct b; try reflexivity; cbn in *.
  - destruct (String.eqb r roomId) eqn:E1; [|reflexivity].
    destruct (String.eqb projId k) eqn:E2; [|reflexivity].
    apply String.eqb_eq in E1, E2. subst. now elim Ho.
  - destruct (String.eqb r roomId) eqn:E1; [|reflexivity].
    destruct (String.eqb projId k) eqn:E2; [|reflexivity].
    apply String.eqb_eq in E1, E2. subst. now elim Ho.
Qed.

(** The handlers raise no projectile event. *)
Lemma handlers_quiet w rnd i :
  (forall now, i <> InTick now) ->
  Forall (fun o => projectileOf o = None) (snd (step w rnd i)).
Proof.
  intros N. destruct i as [socket msg|socket msg|socket msg t0 t1|socket|now]; cbn [step].
  - unfold joinRoom. destruct (JoinRoomMsg.roomId msg) as [rid|]; [|constructor].
    destruct (truthyS rid); [|constructor].
    destruct (getRoom _ _ _) as [[rooms1 room] rnd1]. repeat constructor.
  - constructor.
  - unfold action. destruct (lookupRoom _ _) as [[rid room]|]; [|constructor].
    destruct (resolveActor _ _ _) as [[key actor]|]; [|constructor].
    destruct (String.eqb _ "cast"); [repeat constructor|].
    destruct (String.eqb _ "attack"); [|constructor].
    unfold actionAttack, emitEvent. destruct (attackTarget _ _) as [[id e]|]; [|constructor].
    cbn [snd]. destruct (_ <=? 0); repeat constructor.
  - unfold disconnect. destruct (find _ _) as [[rid room]|]; [|constructor].
    destruct (JsMap.get socket _); repeat constructor.
  - now elim (N now).
Qed.

Lemma fateAt_flying now dt es proj :
  fateAt now dt es proj = Flying -> now < Projectile.expiresAt proj.
Proof.
  unfold fateAt. destruct (Projectile.expiresAt proj <=? now) eqn:E; [discriminate|].
  intros _. now apply Z.leb_gt.
Qed.

(** A followed projectile over a run: its events and its fate. *)
Lemma run_track roomId k ins : forall proj w rnd,
  reached w rnd ->
  followed roomId k proj w rnd ins ->
  count (isDespawnOf roomId k) (snd (run w rnd ins))
  = despawnsOf (outcome roomId k proj w rnd ins)
  /\ count (isHitOf roomId k) (snd (run w rnd ins)) = hitsOf (outcome roomId k proj w rnd ins)
  /\ (Exists (fun i => exists now, i = InTick now /\ Projectile.expiresAt proj <= now) ins ->
      outcome roomId k proj w rnd ins <> Flying).
Proof.
  induction ins as [|i r IH]; intros proj w rnd R F.
  - cbn. split; [reflexivity|]. split; [reflexivity|]. intros H. inversion H.
  - assert (Hstep : run w rnd (i :: r)
                    = (fst (fst (run (fst (fst (step w rnd i))) (snd (fst (step w rnd i))) r)),
                       snd (fst (run (fst (fst (step w rnd i))) (snd (fst (step w rnd i))) r)),
                       snd (step w rnd i)
                       ++ snd (run (fst (fst (step w rnd i))) (snd (fst (step w rnd i))) r))).
    { cbn [run]. destruct (step w rnd i) as [[w1 rnd1] out1]. cbn [fst snd].
      now destruct (run w1 rnd1 r) as [[w2 rnd2] out2]. }
    rewrite Hstep. cbn [snd]. rewrite !count_app.
    pose proof (reached_step w rnd i R) as R1.
    assert (Handler : (forall now, i <> InTick now) ->
              followed roomId k proj (fst (fst (step w rnd i))) (snd (fst (step w rnd i))) r ->
              outcome roomId k proj w rnd (i :: r)
              = outcome roomId k proj (fst (fst (step w rnd i))) (snd (fst (step w rnd i))) r ->
              (count (isDespawnOf roomId k) (snd (step w rnd i))
               + count (isDespawnOf roomId k)
                   (snd (run (fst (fst (step w rnd i))) (snd (fst (step w rnd i))) r)))%nat
              = despawnsOf (outcome roomId k proj w rnd (i :: r))
              /\ (count (isHitOf roomId k) (snd (step w rnd i))
                  + count (isHitOf roomId k)
                      (snd (run (fst (fst (step w rnd i))) (snd (fst (step w rnd i))) r)))%nat
                 = hitsOf (outcome roomId k proj w rnd (i :: r))
              /\ (Exists (fun i => exists now, i = InTick now /\ Projectile.expiresAt proj <= now)
                         (i :: r) ->
                  outcome roomId k proj w rnd (i :: r) <> Flying)).
    { intros N F1 Eo. destruct (count_quiet roomId k _ (handlers_quiet w rnd i N)) as [Q1 Q2].
      rewrite Q1, Q2, Eo. destruct (IH proj _ _ R1 F1) as (I1 & I2 & I3).
      split; [exact I1|]. split; [exact I2|]. intros Hex. apply I3.
      inversion Hex as [? ? (now & E & _)|? ? H]; subst; [now elim (N now)|exact H]. }
    destruct i as [socket msg|socket msg|socket msg t0 t1|socket|now];
      try (apply Handler; [intros now; discriminate|exact F|reflexivity]).
    clear Handler. cbn [followed outcome] in *. cbn [step] in *.
    destruct (step4View roomId now w rnd) as [[enemies ps]|] eqn:V; [|contradiction].
    destruct F as [G F].
    destruct (tick_track roomId k now w rnd enemies ps proj R V G) as (room1 & G1 & _ & T).
    cbv zeta in T.
    destruct (fateAt now (tickDelta now (lastTick w)) enemies proj) eqn:Ef.
    + destruct T as (_ & T2 & T3). rewrite T2, T3.
      destruct (IH _ _ _ R1 F) as (I1 & I2 & I3).
      split; [exact I1|]. split; [exact I2|]. intros Hex. apply I3.
      inversion Hex as [? ? (now0 & E & Hle)|? ? H]; subst; [|exact H].
      injection E as <-. apply fateAt_flying in Ef. lia.
    + destruct T as (T1 & T2 & T3). rewrite T2, T3.
      destruct (gone_stays_quiet roomId k (fst (fst (tick now w rnd)))
                  (snd (fst (tick now w rnd))) r) as [Q1 Q2].
      * destruct R1 as (s0 & r0 & i0 & -> & _). apply reachable_wellFormed.
      * intros room Gr. rewrite G1 in Gr. injection Gr as <-. exact T1.
      * exact F.
      * rewrite Q1, Q2. split; [reflexivity|]. split; [reflexivity|]. discriminate.
    + destruct T as (T1 & T2 & T3 & _). rewrite T2, T3.
      destruct (gone_stays_quiet roomId k (fst (fst (tick now w rnd)))
                  (snd (fst (tick now w rnd))) r) as [Q1 Q2].
      * destruct R1 as (s0 & r0 & i0 & -> & _). apply reachable_wellFormed.
      * intros room Gr. rewrite G1 in Gr. injection Gr as <-. exact T1.
      * exact F.
      * rewrite Q1, Q2. split; [reflexivity|]. split; [reflexivity|]. discriminate.
Qed.

(** C1, as amended. A projectile [proj] that step 4 finds under key [k] in
    the map of room [roomId], in a state the server has reached.

    One tick. Step 4 starts from the enemies and the projectile map that
    steps 1 to 3 of the tick leave, so a projectile spawned by step 3 is
    met by step 4 of the same tick. [expiresAt] is [createdAt + 2500].
    After moving the projectile by [dt], step 4 decides, in this order:
    (a) if [now >= expiresAt] it expires: it leaves the map and the tick
        emits one [projectile_despawn] and no [hit] for it, whether or not
        it is within the hit radius;
    (b) otherwise, if its target is among the enemies and the squared
        distance is below [0.6 * 0.6], it hits: it leaves the map, the tick
        emits [hit], [damage] and [projectile_despawn] in a row, once, the
        [damage] reports hit points [max 0 (hp0 - damage)] where [hp0] is
        what the enemy had left when the projectile reached it, and the
        tick leaves the enemy with no more than that; when no other
        entry of the map is aimed at the same enemy, [hp0] is the hit
        points step 4 started from, and the tick leaves the enemy as it
        was but for [hp = max 0 (hp - damage)];
    (c) otherwise it stays in the map, moved, and the tick emits neither
        event for it.

    A run. Let the entry be followed through the inputs: at every tick up
    to the one of kind (a) or (b) the room is in the registry and step 4
    finds the projectile under [k] as the tick before left it (it was
    neither evicted nor replaced by a spawn under the same id, and its room
    was not deleted), and afterwards the room spawns nothing under [k].
    Then the run emits for it as many [projectile_despawn] and [hit] events
    as the first tick of kind (a) or (b) decides: one despawn and no hit on
    expiry, one despawn and one hit on a hit, none of either while every
    tick is of kind (c) - never both outcomes. And never neither: once the
    run holds a tick with [now >= expiresAt], the projectile has met one of
    the two. *)
Theorem projectile_lifecycle : forall roomId k proj w rnd,
  reached w rnd ->
  (forall now enemies ps,
     step4View roomId now w rnd = Some (enemies, ps) ->
     JsMap.get k ps = Some proj ->
     let dt := tickDelta now (lastTick w) in
     let out := snd (tick now w rnd) in
     exists room1,
       JsMap.get roomId (rooms (fst (fst (tick now w rnd)))) = Some room1
       /\ Projectile.expiresAt proj = Projectile.createdAt proj + 2500
       /\ match fateAt now dt enemies proj with
          | Expired =>
              Projectile.expiresAt proj <= now
              /\ JsMap.get k (Room.projectiles room1) = None
              /\ count (isDespawnOf roomId k) out = 1%nat
              /\ count (isHitOf roomId k) out = 0%nat
          | HitTarget =>
              now < Projectile.expiresAt proj
              /\ inRange enemies (flown dt proj) = true
              /\ JsMap.get k (Room.projectiles room1) = None
              /\ count (isDespawnOf roomId k) out = 1%nat
              /\ count (isHitOf roomId k) out = 1%nat
              /\ exists e hp0 pre post e1,
                   JsMap.get (Projectile.targetEnemyId proj) enemies = Some e
                   /\ hp0 <= Enemy.hp e
                   /\ out
                      = pre
                        ++ [Event roomId (hit k (Projectile.ownerId proj) "enemy"
                                              (Enemy.enemyId e));
                            Event roomId (damage (Projectile.ownerId proj) "enemy"
                                                 (Enemy.enemyId e) (Projectile.damage proj)
                                                 (Z.max 0 (hp0 - Projectile.damage proj))
                                                 (Enemy.maxHp e));
                            Event roomId (projectile_despawn k)]
                        ++ post
                   /\ JsMap.get (Projectile.targetEnemyId proj) (Room.enemies room1) = Some e1
                   /\ Enemy.hp e1 <= Z.max 0 (hp0 - Projectile.damage proj)
                   /\ (aimedApart k proj ps ->
                       hp0 = Enemy.hp e
                       /\ e1 = Enemy.set_hp e
                                 (Z.max 0 (Enemy.hp e - Projectile.damage proj)))
          | Flying =>
              now < Projectile.expiresAt proj
              /\ inRange enemies (flown dt proj) = false
              /\ JsMap.get k (Room.projectiles room1) = Some (flown dt proj)
              /\ count (isDespawnOf roomId k) out = 0%nat
              /\ count (isHitOf roomId k) out = 0%nat
          end)
  /\ (forall ins,
        followed roomId k proj w rnd ins ->
        let out := snd (run w rnd ins) in
        count (isDespawnOf roomId k) out
        = match outcome roomId k proj w rnd ins with
          | Flying => 0%nat
          | Expired | HitTarget => 1%nat
          end
        /\ count (isHitOf roomId k) out
           = match outcome roomId k proj w rnd ins with
             | HitTarget => 1%nat
             | Flying | Expired => 0%nat
             end
        /\ (Exists (fun i => exists now, i = InTick now /\ Projectile.expiresAt proj <= now) ins ->
            outcome roomId k proj w rnd ins <> Flying)).
Proof.
  intros roomId k proj w rnd R. split.
  - intros now enemies ps V G dt out.
    destruct (tick_track roomId k now w rnd enemies ps proj R V G) as (room1 & G1 & He & T).
    exists room1. split; [exact G1|]. split; [exact He|]. cbv zeta in T. fold dt out in T.
    unfold fateAt in *.
    destruct (Projectile.expiresAt proj <=? now) eqn:E.
    + apply Z.leb_le in E. split; [exact E|exact T].
    + apply Z.leb_gt in E. destruct (inRange enemies (flown dt proj));
        (split; [exact E|]); (split; [reflexivity|exact T]).
  - intros ins F out. subst out.
    destruct (run_track roomId k ins proj w rnd R F) as (H1 & H2 & H3).
    rewrite H1, H2. split; [|split; [|exact H3]];
      now destruct (outcome roomId k proj w rnd ins).
Qed.

End Properties.

(** * The properties on concrete runs *)

(** *** The embedding on small inputs *)

Example JsMap_set_keeps_place :
  JsMap.set "a" 3 [("a", 1); ("b", 2)] = [("a", 3); ("b", 2)]
  /\ JsMap.set "c" 3 [("a", 1); ("b", 2)] = [("a", 1); ("b", 2); ("c", 3)]
  /\ JsMap.delete "a" [("a", 1); ("b", 2)] = [("b", 2)].
Proof. repeat split. Qed.

Example tickDelta_examples :
  tickDelta 1067 1000 = 0.067%float
  /\ tickDelta 3150 650 = 0.25%float
  /\ tickDelta 1000 1067 = 0%float.
Proof. repeat split; vm_compute; reflexivity. Qed.

Example norm2_examples :
  norm2 3 4 = (0.6, 0.8)%float /\ norm2 0 0 = (0, 0)%float.
Proof. split; vm_compute; reflexivity. Qed.

Example projId_suffix_example :
  Math_floor (0.5 * 9999)%float = 4999 /\ showZ 1650 = "1650".
Proof. split; vm_compute; reflexivity. Qed.

(** *** Player movement *)

(** The player of [s1] after an input [vx = 1] and a tick of 67 ms. *)
Lemma player_movement_witness :
  exists room1 p1,
    JsMap.get "r1" (rooms (fst (fst (tick (host := hostMath) 67 wMoving hostRandom))))
      = Some room1
    /\ JsMap.get "s1" (Room.players room1) = Some p1
    /\ Player.x p1 = 0.268%float.
Proof.
  destruct (proj1 (player_movement (host := hostMath)) 67 wMoving hostRandom
              "r1" roomMoving "s1" playerMoving)
    as (_ & room1 & p1 & G1 & G2 & Hx & _).
  - vm_compute. reflexivity.
  - vm_compute. reflexivity.
  - exists room1, p1. split; [exact G1|]. split; [exact G2|].
    rewrite Hx. vm_compute. reflexivity.
Defined.

(** An intent the client may send, [vx = 1e200]: its length exceeds 1, its
    square overflows, and the tick leaves the player at the origin instead
    of moving it by a unit vector times [4.0 * dt]. *)
Lemma overflowing_intent_stops_player :
  let ins := [InJoinRoom "c1" (JoinRoomMsg.mk (Some "r1") (Some "p1") None);
              InInput "c1" (InputMsg.mk (Some "r1") (JNumber 1e200%float) (JNumber 0%float)
                                        JUndefined);
              InTick 67] in
  exists room1 p1,
    JsMap.get "r1" (rooms (fst (fst (runHost (initial 0) hostRandom ins)))) = Some room1
    /\ JsMap.get "c1" (Room.players room1) = Some p1
    /\ Player.vx p1 = 1e200%float
    /\ (1 <? Player.vx p1)%float = true
    /\ clampedDelta 67 0 = 0.067%float
    /\ Player.x p1 = 0%float /\ Player.z p1 = 0%float.
Proof.
  do 2 eexists. split; [vm_compute; reflexivity|].
  split; [vm_compute; reflexivity|]. repeat split; vm_compute; reflexivity.
Qed.

(** *** Projectile capacity *)

(** The volley of 202 fireballs: the tick at 650 spawns them all, the map
    ends with 201 entries, one above the bound, and the fireball spawned
    first - the oldest entry when the 202nd is spawned into a map of 201 -
    is the one that is gone. Any further spawn removes the first entry and
    leaves 201 again. *)
Lemma projectile_capacity_witness :
  JsMap.get "r1" (rooms (fst (fst (runHost (initial 0) rndSpread volley)))) = Some roomVolley
  /\ hd_error (filter (fun o => match o with
                                | Event _ (projectile_spawn _ _ _ _) => true
                                | _ => false
                                end)
                      (snd (runHost (initial 0) rndSpread volley)))
     = Some (Event "r1" (projectile_spawn "p_p1_650_234" "fireball" "p1" "e1"))
  /\ JsMap.has "p_p1_650_234" (Room.projectiles roomVolley) = false
  /\ JsMap.size (Room.projectiles roomVolley) = 201%nat
  /\ (JsMap.size (Room.projectiles roomVolley) <= CONFIG.maxProjectilesPerRoom + 1)%nat
  /\ forall proj,
       (JsMap.size (Room.projectiles (spawnProjectile roomVolley proj))
        <= CONFIG.maxProjectilesPerRoom + 1)%nat
       /\ Room.projectiles (spawnProjectile roomVolley proj)
          = JsMap.set (Projectile.projId proj) proj (tl (Room.projectiles roomVolley)).
Proof.
  split; [vm_compute; reflexivity|].
  split; [vm_compute; reflexivity|].
  split; [vm_compute; reflexivity|].
  split; [vm_compute; reflexivity|].
  destruct (projectile_capacity (host := hostMath) 0 rndSpread volley "r1" roomVolley)
    as [H1 H2]; [vm_compute; reflexivity|].
  split; [exact H1|]. intros proj. destruct (H2 proj) as [Ha Hb]. split; [exact Ha|].
  replace (CONFIG.maxProjectilesPerRoom <? JsMap.size (Room.projectiles roomVolley))%nat
    with true in Hb by (vm_compute; reflexivity).
  exact Hb.
Defined.

Lemma wJoined_wellFormed : wellFormed wJoined.
Proof. apply reachable_wellFormed. Qed.

Lemma wJoined_room : lookupRoom (rooms wJoined) (Some "r1") = Some ("r1", roomJoined).
Proof. vm_compute. reflexivity. Qed.

(** *** The input handler *)

(** An [input] event that a client emits with no payload, or with [null]:
    the handler raises a [TypeError] while it destructures its argument. *)
Lemma input_without_payload_throws :
  onInput "s1" ArgUndefined wJoined = ThrewTypeError
  /\ onInput "s1" ArgNull wJoined = ThrewTypeError.
Proof. split; reflexivity. Qed.

(** *** Attack *)

Lemma attack_applies_fixed_damage_witness :
  snd (action "s1" attackE1 0 0 wJoined) = [Event "r1" (damage "p1" "enemy" "e1" 6 44 50)].
Proof.
  pose proof (attack_applies_fixed_damage "s1" attackE1 0 0 wJoined "r1" roomJoined "s1"
                playerAnn eq_refl wJoined_room ltac:(vm_compute; reflexivity)) as H.
  assert (A : attackTarget roomJoined (ActionMsg.payload attackE1) = Some ("e1", enemyE1))
    by (vm_compute; reflexivity).
  rewrite A in H. cbv zeta in H. destruct H as [H _]. rewrite H. vm_compute. reflexivity.
Defined.

(** The target [e1] resolves to an enemy of the room (hp 50), and yet the
    attack changes nothing and emits nothing: the handler returns at its
    actor guard. *)
Lemma attack_without_actor_is_ignored :
  attackTarget roomJoined (ActionMsg.payload attackE1Stranger) = Some ("e1", enemyE1)
  /\ Enemy.hp enemyE1 = 50
  /\ resolveActor roomJoined (ActionMsg.actorId attackE1Stranger) "s2" = None
  /\ action "s2" attackE1Stranger 0 0 wJoined = (wJoined, []).
Proof. repeat split; vm_compute; reflexivity. Qed.

(** *** Cast timing *)

(** Cast at 1000, a tick at 1067 and an input in between, then the tick at
    1650 = 1000 + 650: it emits the [cast_finish]. *)
Lemma cast_resolves_at_deadline_witness :
  let w1 := fst (action "s1" castE1 1000 1000 wJoined) in
  let ins := [InTick 1067;
              InInput "s1" (InputMsg.mk (Some "r1") (JNumber 1%float) JUndefined JUndefined)] in
  In (Event "r1" (cast_finish "p1" "fireball" (Some "e1")))
     (snd (tick (host := hostMath) 1650
             (fst (fst (runHost w1 hostRandom ins))) (snd (fst (runHost w1 hostRandom ins))))).
Proof.
  intros w1 ins.
  destruct (cast_resolves_at_deadline (host := hostMath) "s1" castE1 1000 1000 wJoined
              "r1" roomJoined "s1" playerAnn wJoined_wellFormed eq_refl wJoined_room
              ltac:(vm_compute; reflexivity))
    as (_ & _ & _ & H & _).
  destruct (H hostRandom ins) as [_ H2].
  - repeat constructor; cbn [quiet]; lia.
  - destruct (H2 1650 ltac:(lia)) as [H3 _]. exact H3.
Defined.

(** Three cast actions received at 1000 that never resolve, although a tick
    runs at 1650 = 1000 + 650:
    - the cast of a connection whose acting player does not resolve is not
      queued at all;
    - a queued cast ([cast_start] is emitted) is discarded with its player
      when the caster disconnects;
    - a queued cast is discarded when the caster's connection joins the
      room again, which replaces the player and its cast list.
    In the same run without the disconnect or the second join, the tick at
    1650 emits the [cast_finish]. *)
Lemma cast_never_resolves :
  (action "s2" castE1Stranger 1000 1000 wJoined = (wJoined, [])
   /\ filter isEvent
        (snd (runHost wJoined hostRandom [InAction "s2" castE1Stranger 1000 1000; InTick 1650]))
      = [])
  /\ filter isEvent
       (snd (runHost (initial 0) hostRandom
               [joinR1; joinR1Bob; InAction "s1" castE1 1000 1000; InDisconnect "s1";
                InTick 1650]))
     = [Event "r1" (player_joined "p1" "Ann"); Event "r1" (player_joined "p2" "Bob");
        Event "r1" (cast_start "p1" "fireball" (Some "e1") 650);
        Event "r1" (player_left "p1" "Ann")]
  /\ filter isEvent
       (snd (runHost (initial 0) hostRandom
               [joinR1; InAction "s1" castE1 1000 1000; joinR1; InTick 1650]))
     = [Event "r1" (player_joined "p1" "Ann");
        Event "r1" (cast_start "p1" "fireball" (Some "e1") 650);
        Event "r1" (player_joined "p1" "Ann")]
  /\ filter isEvent
       (snd (runHost (initial 0) hostRandom
               [joinR1; InAction "s1" castE1 1000 1000; InTick 1650]))
     = [Event "r1" (player_joined "p1" "Ann");
        Event "r1" (cast_start "p1" "fireball" (Some "e1") 650);
        Event "r1" (cast_finish "p1" "fireball" (Some "e1"));
        Event "r1" (projectile_spawn "p_p1_1650_5999" "fireball" "p1" "e1")].
Proof.
  split; [split; vm_compute; reflexivity|].
  split; [vm_compute; reflexivity|].
  split; vm_compute; reflexivity.
Qed.

(** *** Cast resolution *)


(** The scenario of the specification on a run: the player moves, casts a
    fireball at [e1] at time 0, and the tick at 650 finishes the cast. The
    fireball starts where the player stands at that tick, (1, 0), not at the
    origin where the cast began, and it is in the room's map after the
    tick. *)
Example fireball_fired_from_where_the_player_stands :
  let ins := [joinR1;
              InInput "s1" (InputMsg.mk (Some "r1") (JNumber 1%float) JUndefined JUndefined);
              InAction "s1" castE1 0 0; InTick 650] in
  exists room p e proj,
    JsMap.get "r1" (rooms (fst (fst (runHost (initial 0) hostRandom ins)))) = Some room
    /\ JsMap.get "s1" (Room.players room) = Some p
    /\ (Player.x p, Player.z p) = (1%float, 0%float)
    /\ JsMap.get "e1" (Room.enemies room) = Some e
    /\ Room.projectiles room = [("p_p1_650_5999", proj)]
    /\ Projectile.targetEnemyId proj = "e1"
    /\ (Projectile.vx proj, Projectile.vz proj) = aimedAt 1 0 (Enemy.x e) (Enemy.z e)
    /\ filter isEvent (snd (runHost (initial 0) hostRandom ins))
       = [Event "r1" (player_joined "p1" "Ann");
          Event "r1" (cast_start "p1" "fireball" (Some "e1") 650);
          Event "r1" (cast_finish "p1" "fireball" (Some "e1"));
          Event "r1" (projectile_spawn "p_p1_650_5999" "fireball" "p1" "e1")].
Proof.
  do 4 eexists. split; [vm_compute; reflexivity|].
  split; [vm_compute; reflexivity|]. split; [vm_compute; reflexivity|].
  split; [vm_compute; reflexivity|]. split; [vm_compute; reflexivity|].
  split; [vm_compute; reflexivity|]. split; vm_compute; reflexivity.
Qed.

(** *** Disconnect *)

Lemma disconnect_stops_at_first_room_witness :
  exists room3,
    JsMap.get "r2"
      (rooms (fst (fst (runHost (fst (disconnect "s1" wTwoRooms)) hostRandom
                          [InTick 67; InDisconnect "s9"]))))
    = Some room3
    /\ JsMap.has "s1" (Room.players room3) = true.
Proof.
  destruct (disconnect_stops_at_first_room (host := hostMath) "s1" wTwoRooms
              "r1" roomTwoFirst "r2" roomTwoSecond)
    as (p & _ & _ & _ & _ & _ & H).
  - apply reachable_wellFormed.
  - vm_compute. reflexivity.
  - vm_compute. reflexivity.
  - discriminate.
  - vm_compute. reflexivity.
  - apply H. repeat constructor; discriminate.
Defined.

(** *** Projectile lifecycle *)

(** The fireball is spawned at the tick at 650, flies at [e1], which comes
    to meet it, through three ticks, and hits at the tick at 851: one
    despawn, one hit, and [e1] is left with 38 of its 50 hit points. *)
Lemma projectile_lifecycle_witness :
  outcome (host := hostMath) "r1" "p_p1_650_4999" fireballSpawned wCast rndCast flight
  = HitTarget
  /\ count (isDespawnOf "r1" "p_p1_650_4999") (snd (runHost wCast rndCast flight)) = 1%nat
  /\ count (isHitOf "r1" "p_p1_650_4999") (snd (runHost wCast rndCast flight)) = 1%nat
  /\ filter isEvent (snd (runHost wCast rndCast flight))
     = [Event "r1" (cast_finish "p1" "fireball" (Some "e1"));
        Event "r1" (projectile_spawn "p_p1_650_4999" "fireball" "p1" "e1");
        Event "r1" (hit "p_p1_650_4999" "p1" "enemy" "e1");
        Event "r1" (damage "p1" "enemy" "e1" 12 38 50);
        Event "r1" (projectile_despawn "p_p1_650_4999")].
Proof.
  assert (O : outcome (host := hostMath) "r1" "p_p1_650_4999" fireballSpawned wCast rndCast
                      flight = HitTarget) by (vm_compute; reflexivity).
  split; [exact O|].
  destruct (projectile_lifecycle (host := hostMath) "r1" "p_p1_650_4999" fireballSpawned
              wCast rndCast) as [_ H].
  - exists 0, rndStall, [joinR1; InAction "s1" castE1 0 0]. split; reflexivity.
  - destruct (H flight) as (H1 & H2 & _).
    + vm_compute. repeat split.
    + rewrite O in H1, H2. split; [exact H1|]. split; [exact H2|]. vm_compute. reflexivity.
Defined.

(** Three runs in which a spawned fireball does not meet the outcome the
    claim gives it.
    - Expiry before the hit test. At the tick at 650 the fireball is
      spawned and flies, outside the hit radius of [e1]. At the tick at
      3150 it is within the hit radius for the first time (it would stand
      on [e1]), [e1] exists, and [now >= expiresAt]: the run emits its
      [projectile_despawn] and neither [hit] nor [damage], and [e1] keeps
      its 50 hit points.
    - Neither outcome. The caster, the only player, disconnects after the
      spawn: the room is deleted with the fireball in flight, and no later
      tick emits a despawn or a hit for it.
    - Two spawns, one despawn. Two casts of one player resolve at the same
      tick and draw the same random suffix: the second fireball takes the
      id, and the map entry, of the first, and the only outcome either of
      them meets is the one despawn at 3150. *)
Lemma fireball_misses_claimed_outcome :
  (exists room1 proj e1 room2 e2,
     JsMap.get "r1" (rooms (fst (fst (runHost (initial 0) rndStall stallSpawn)))) = Some room1
     /\ Room.projectiles room1 = [("p_p1_650_4999", proj)]
     /\ Projectile.targetEnemyId proj = "e1"
     /\ Projectile.expiresAt proj = 3150
     /\ JsMap.get "e1" (Room.enemies room1) = Some e1
     /\ withinHitRadius e1 proj = false
     /\ JsMap.get "r1" (rooms (fst (fst (runHost (initial 0) rndStall stallRun)))) = Some room2
     /\ JsMap.get "e1" (Room.enemies room2) = Some e2
     /\ withinHitRadius e2 (moveProjectile (tickDelta 3150 650) proj) = true
     /\ Room.projectiles room2 = []
     /\ Enemy.hp e2 = 50
     /\ filter isEvent (snd (runHost (initial 0) rndStall stallRun))
        = [Event "r1" (player_joined "p1" "Ann");
           Event "r1" (cast_start "p1" "fireball" (Some "e1") 650);
           Event "r1" (cast_finish "p1" "fireball" (Some "e1"));
           Event "r1" (projectile_spawn "p_p1_650_4999" "fireball" "p1" "e1");
           Event "r1" (projectile_despawn "p_p1_650_4999")])
  /\ (rooms (fst (fst (runHost (initial 0) rndStall
                         (stallSpawn ++ [InDisconnect "s1"; InTick 3150]))))
      = []
      /\ filter isEvent (snd (runHost (initial 0) rndStall
                                 (stallSpawn ++ [InDisconnect "s1"; InTick 3150])))
         = [Event "r1" (player_joined "p1" "Ann");
            Event "r1" (cast_start "p1" "fireball" (Some "e1") 650);
            Event "r1" (cast_finish "p1" "fireball" (Some "e1"));
            Event "r1" (projectile_spawn "p_p1_650_4999" "fireball" "p1" "e1");
            Event "r1" (player_left "p1" "Ann")])
  /\ filter isEvent
       (snd (runHost (initial 0) rndStall
               [joinR1; InAction "s1" castE1 0 0; InAction "s1" castE1 0 0;
                InTick 650; InTick 3150]))
     = [Event "r1" (player_joined "p1" "Ann");
        Event "r1" (cast_start "p1" "fireball" (Some "e1") 650);
        Event "r1" (cast_start "p1" "fireball" (Some "e1") 650);
        Event "r1" (cast_finish "p1" "fireball" (Some "e1"));
        Event "r1" (projectile_spawn "p_p1_650_4999" "fireball" "p1" "e1");
        Event "r1" (cast_finish "p1" "fireball" (Some "e1"));
        Event "r1" (projectile_spawn "p_p1_650_4999" "fireball" "p1" "e1");
        Event "r1" (projectile_despawn "p_p1_650_4999")].
Proof.
  split.
  { do 5 eexists.
    split; [vm_compute; reflexivity|].
    split; [vm_compute; reflexivity|].
    split; [vm_compute; reflexivity|].
    split; [vm_compute; reflexivity|].
    split; [vm_compute; reflexivity|].
    split; [vm_compute; reflexivity|].
    split; [vm_compute; reflexivity|].
    split; [vm_compute; reflexivity|].
    split; [vm_compute; reflexivity|].
    split; [vm_compute; reflexivity|].
    split; vm_compute; reflexivity. }
  split; [split; vm_compute; reflexivity|].
  vm_compute. reflexivity.
Qed.

(** * The further properties on concrete runs *)

Lemma clamp_within_bounds_witness :
  clamp 2.5%float 0%float 0.25%float = 0.25%float
  /\ clamp (-1)%float 0%float 0.25%float = 0%float.
Proof.
  split.
  - apply (proj1 (proj2 (proj2 (clamp_within_bounds 2.5%float 0%float 0.25%float eq_refl)))).
    reflexivity.
  - apply (proj1 (proj2 (clamp_within_bounds (-1)%float 0%float 0.25%float eq_refl))).
    reflexivity.
Defined.

Lemma tick_delta_bounded_witness :
  tickDelta 1067 1000 = (Z2float 67 / 1000)%float /\ tickDelta 1000 1067 = 0%float.
Proof.
  split.
  - apply (proj2 (proj2 (tick_delta_bounded 1067 1000))). lia.
  - apply (proj1 (proj2 (tick_delta_bounded 1000 1067))). lia.
Defined.

Lemma cast_is_queued_unchecked_witness :
  snd (action "s1" castE1 0 0 wJoined)
  = [Event "r1" (cast_start "p1" "fireball" (Some "e1") 650)].
Proof.
  destruct (cast_is_queued_unchecked "s1" castE1 0 0 wJoined "r1" roomJoined "s1" playerAnn)
    as [H _].
  - reflexivity.
  - vm_compute. reflexivity.
  - vm_compute. reflexivity.
  - exact H.
Defined.

Lemma other_spells_only_finish_witness :
  resolveCasts (host := hostMath) "r1" 650 playerAnn [castHeal] roomJoined hostRandom
  = ([], roomJoined, hostRandom, [Event "r1" (cast_finish "p1" "heal" None)]).
Proof.
  apply (other_spells_only_finish (host := hostMath)).
  constructor; [|constructor]. intros _. discriminate.
Defined.

Lemma snapshots_show_sound_rooms_witness :
  SnapshotMsg.players snapshotJoinTick <> []
  /\ map EnemyView.enemyId (SnapshotMsg.enemies snapshotJoinTick) = enemyIds.
Proof.
  destruct (snapshots_show_sound_rooms (host := hostMath) 0 hostRandom [joinR1; InTick 67]
              "r1" snapshotJoinTick) as (H1 & _ & H3 & _).
  - vm_compute. right. right. left. reflexivity.
  - split; assumption.
Defined.

Lemma enemy_hp_never_rises_witness :
  exists e1, JsMap.get "e1" (Room.enemies roomAttacked) = Some e1 /\ 0 <= Enemy.hp e1 <= 50.
Proof.
  destruct (enemy_hp_never_rises (host := hostMath) 0 hostRandom [joinR1] hostRandom
              (InAction "s1" attackE1 0 0) "r1" roomJoined roomAttacked "e1" enemyE1)
    as (e1 & G & H & _).
  - vm_compute. reflexivity.
  - vm_compute. reflexivity.
  - vm_compute. reflexivity.
  - exists e1. split; [exact G|exact H].
Defined.

Lemma death_follows_fatal_damage_witness :
  exists pre mid sourceId amount maxHp,
    removelast outKillE1
    = pre ++ Event "r1" (damage sourceId "enemy" "e1" amount 0 maxHp) :: mid
    /\ (mid = [] \/ exists projId, mid = [Event "r1" (projectile_despawn projId)]).
Proof.
  apply (death_follows_fatal_damage (host := hostMath) killE1 (initial 0) hostRandom
           (removelast outKillE1) "r1" "e1" []).
  vm_compute. reflexivity.
Defined.

Lemma handlers_touch_one_room_witness :
  JsMap.get "r2" (rooms (fst (fst (step (host := hostMath) wTwoRooms hostRandom
                                        (InDisconnect "s1")))))
  = JsMap.get "r2" (rooms wTwoRooms).
Proof.
  apply (handlers_touch_one_room (host := hostMath)).
  - exact (reachable_wellFormed (host := hostMath) 0 hostRandom
             [joinR1; InJoinRoom "s1" (JoinRoomMsg.mk (Some "r2") (Some "p1") (Some "Ann"))]).
  - intros now. discriminate.
  - vm_compute. discriminate.
Defined.

Lemma cast_finish_answers_cast_start_witness :
  In (Event "r1" (cast_start "p1" "fireball" (Some "e1") 650))
     (firstn 3 (snd (runHost (initial 0) hostRandom stallSpawn))).
Proof.
  apply (cast_finish_answers_cast_start (host := hostMath) 0 hostRandom stallSpawn
           (firstn 3 (snd (runHost (initial 0) hostRandom stallSpawn)))
           "r1" "p1" "fireball" (Some "e1")
           (skipn 4 (snd (runHost (initial 0) hostRandom stallSpawn)))).
  vm_compute. reflexivity.
Defined.

Lemma projectile_events_follow_spawn_witness :
  exists ownerId targetEnemyId,
    In (Event "r1" (projectile_spawn "p_p1_650_4999" "fireball" ownerId targetEnemyId))
       (firstn 6 outStall).
Proof.
  apply (projectile_events_follow_spawn (host := hostMath) 0 rndStall stallRun
           (firstn 6 outStall) (Event "r1" (projectile_despawn "p_p1_650_4999"))
           (skipn 7 outStall) "r1" "p_p1_650_4999").
  - vm_compute. reflexivity.
  - left. reflexivity.
Defined.

Lemma inputs_compose_witness :
  input "s1" inputVz (input "s1" inputVx wJoined)
  = input "s1" (InputMsg.mk (Some "r1") (JNumber 1%float) (JNumber 1%float) JUndefined) wJoined.
Proof. apply (inputs_compose "s1" inputVx inputVz wJoined). reflexivity. Defined.

Lemma join_then_disconnect_restores_witness :
  fst (disconnect "s2"
         (fst (fst (joinRoom "s2" (JoinRoomMsg.mk (Some "r1") (Some "p2") (Some "Bob"))
                             wJoined hostRandom))))
  = wJoined.
Proof.
  apply join_then_disconnect_restores.
  - repeat constructor.
  - constructor; [discriminate|constructor].
Defined.

Lemma quiet_room_sends_only_snapshot_witness :
  snd (tickRoom (host := hostMath) "r1" 67 0.067%float roomJoined hostRandom)
  = [Snapshot "r1"
       (snapshot 67 (fst (fst (tickRoom (host := hostMath) "r1" 67 0.067%float roomJoined
                                        hostRandom))))].
Proof.
  apply (quiet_room_sends_only_snapshot (host := hostMath)).
  - repeat constructor.
  - reflexivity.
Defined.
